(** * Smart-Ptrs: a shallow embedding of the reference-counted handles

    The repository implements [SharedPtr], [WeakPtr] and
    [EnableSharedFromThis] three times, once per directory:

    - [shared/shared.h]                      -> module [Plain]
    - [weak/weak.h]                          -> module [Wk]
    - [shared-from-this/shared.h], [weak.h]  -> module [Sft]

    Control blocks and managed objects live in an explicit memory; every
    member function is a state-passing function over that memory.  Reading
    through a null or dangling pointer and deleting twice are undefined
    behaviour in C++ and yield the outcome [Undefined] here. *)

From stdpp Require Import base option gmap fin_maps list.
From Stdlib Require Import ZArith Lia.

Local Open Scope Z_scope.

(** ** Machine integers *)

(** [size_t] is a 64-bit unsigned integer; [++] and [--] wrap around. *)
Definition size_t_modulus : Z := 2 ^ 64.
Definition wrap (z : Z) : Z := z mod size_t_modulus.

(** ** Addresses *)

(** Control blocks and managed objects are allocated from two separate
    arenas; an address is never handed out twice.  A pointer is an
    [option]: [None] is [nullptr]. *)
Abbreviation block_id := positive.
Abbreviation addr := positive.
Abbreviation handle_id := positive.

(** * The shared-from-this variant *)

Module Sft.

(** ** Data *)

Module SharedPtr.
Record t := mk {
  control_block_ : option block_id;
  ptr_ : option addr
}.
End SharedPtr.

Module WeakPtr.
Record t := mk {
  control_block_ : option block_id;
  ptr_ : option addr;
  is_esft_ptr_ : bool
}.
End WeakPtr.

(** [DefaultBlock<T>] keeps a pointer to a separately allocated object,
    [InlineBlock<T>] keeps the object in its own [storage]. *)
Inductive BlockKind :=
  | DefaultBlock (deletem_ptr : option addr)
  | InlineBlock (storage : addr).

Record ControlBlockBase := mkBlock {
  strong_ref_cnt : Z;
  weak_ref_cnt : Z;
  is_destroyed : bool;
  kind : BlockKind
}.

(** A managed object.  [weak_this_] is [Some] exactly when the object's
    class derives from [EnableSharedFromThis]. *)
Record Object := mkObject {
  weak_this_ : option WeakPtr.t
}.

(** [dtor_log] records every run of a managed object's destructor, most
    recent first. *)
Record Memory := mkMemory {
  heap : gmap block_id ControlBlockBase;
  objects : gmap addr Object;
  dtor_log : list addr;
  next_block : block_id;
  next_addr : addr
}.

Definition empty_memory : Memory :=
  mkMemory ∅ ∅ [] 1%positive 1%positive.

(** ** Outcomes *)

(** A call returns, throws [BadWeakPtr] (the only exception type of the
    library), or has undefined behaviour. *)
Inductive result (A : Type) :=
  | Ret (a : A) (m : Memory)
  | Throw (m : Memory)
  | Undefined.
Arguments Ret {A} a m.
Arguments Throw {A} m.
Arguments Undefined {A}.

Definition M (A : Type) : Type := Memory → result A.

Definition ret {A} (a : A) : M A := λ m, Ret a m.
Definition bind {A B} (c : M A) (k : A → M B) : M B :=
  λ m, match c m with
       | Ret a m' => k a m'
       | Throw m' => Throw m'
       | Undefined => Undefined
       end.
Definition throw_BadWeakPtr {A} : M A := λ m, Throw m.
Definition undefined {A} : M A := λ _, Undefined.

Notation "'do' x <- c ; k" := (bind c (λ x, k))
  (at level 10, x name, c at level 100, k at level 200).
Notation "'do' ' p <- c ; k" := (bind c (λ x, match x with p => k end))
  (at level 10, p pattern, c at level 100, k at level 200).
Notation "c ;;; k" := (bind c (λ _, k))
  (at level 100, k at level 200, right associativity).

(** ** Memory primitives *)

(** [*b]: read through a control-block pointer. *)
Definition load (b : block_id) : M ControlBlockBase :=
  λ m, match heap m !! b with
       | Some blk => Ret blk m
       | None => Undefined
       end.

(** Write the fields of an allocated control block back. *)
Definition store (b : block_id) (blk : ControlBlockBase) : M unit :=
  λ m, match heap m !! b with
       | Some _ =>
           Ret tt (mkMemory (<[b := blk]> (heap m)) (objects m) (dtor_log m)
                            (next_block m) (next_addr m))
       | None => Undefined
       end.

(** [new DefaultBlock<Y>(ptr)] and [new InlineBlock<T>(...)]: both counters
    start at zero, [is_destroyed] at [false]. *)
Definition new_block (k : BlockKind) : M block_id :=
  λ m, let b := next_block m in
       Ret b (mkMemory (<[b := mkBlock 0 0 false k]> (heap m)) (objects m)
                       (dtor_log m) (Pos.succ b) (next_addr m)).

(** [delete control_block_]: neither block destructor touches the managed
    object ([DefaultBlock] has no destructor body, [InlineBlock] holds raw
    bytes), so the block just goes away. *)
Definition delete_block (b : block_id) : M unit :=
  λ m, match heap m !! b with
       | Some _ =>
           Ret tt (mkMemory (delete b (heap m)) (objects m) (dtor_log m)
                            (next_block m) (next_addr m))
       | None => Undefined
       end.

Definition load_object (a : addr) : M Object :=
  λ m, match objects m !! a with
       | Some o => Ret o m
       | None => Undefined
       end.

Definition store_object (a : addr) (o : Object) : M unit :=
  λ m, match objects m !! a with
       | Some _ =>
           Ret tt (mkMemory (heap m) (<[a := o]> (objects m)) (dtor_log m)
                            (next_block m) (next_addr m))
       | None => Undefined
       end.

(** Construction of an object of class [T] at a fresh address; [esft] tells
    whether [T] derives from [EnableSharedFromThis], in which case the
    member [weak_this_] is default-constructed. *)
Definition new_object (esft : bool) : M addr :=
  λ m, let a := next_addr m in
       let o := mkObject (if esft then Some (WeakPtr.mk None None false) else None) in
       Ret a (mkMemory (heap m) (<[a := o]> (objects m)) (dtor_log m)
                       (next_block m) (Pos.succ a)).

Definition log_destructor (a : addr) : M unit :=
  λ m, Ret tt (mkMemory (heap m) (objects m) (a :: dtor_log m)
                        (next_block m) (next_addr m)).

Definition remove_object (a : addr) : M unit :=
  λ m, match objects m !! a with
       | Some _ =>
           Ret tt (mkMemory (heap m) (delete a (objects m)) (dtor_log m)
                            (next_block m) (next_addr m))
       | None => Undefined
       end.

(** ** [ControlBlockBase] *)

Definition IncStrongRef (blk : ControlBlockBase) : Z * ControlBlockBase :=
  let c := wrap (strong_ref_cnt blk + 1) in
  (c, mkBlock c (weak_ref_cnt blk) (is_destroyed blk) (kind blk)).

Definition DecStrongRef (blk : ControlBlockBase) : Z * ControlBlockBase :=
  let c := wrap (strong_ref_cnt blk - 1) in
  (c, mkBlock c (weak_ref_cnt blk) (is_destroyed blk) (kind blk)).

Definition GetStrongCounter (blk : ControlBlockBase) : Z := strong_ref_cnt blk.

Definition IncWeakRef (blk : ControlBlockBase) : Z * ControlBlockBase :=
  let c := wrap (weak_ref_cnt blk + 1) in
  (c, mkBlock (strong_ref_cnt blk) c (is_destroyed blk) (kind blk)).

Definition DecWeakRef (blk : ControlBlockBase) : Z * ControlBlockBase :=
  let c := wrap (weak_ref_cnt blk - 1) in
  (c, mkBlock (strong_ref_cnt blk) c (is_destroyed blk) (kind blk)).

Definition GetWeakCounter (blk : ControlBlockBase) : Z := weak_ref_cnt blk.

Definition GetAllCounter (blk : ControlBlockBase) : Z :=
  wrap (strong_ref_cnt blk + weak_ref_cnt blk).

Definition IsDestroyed (blk : ControlBlockBase) : bool := is_destroyed blk.

Definition CanDeleteControlBlock (blk : ControlBlockBase) : bool :=
  GetAllCounter blk =? 0.

Definition GetRawPtr (blk : ControlBlockBase) : option addr :=
  match kind blk with
  | DefaultBlock p => p
  | InlineBlock a => Some a
  end.

(** ** [WeakPtr], first half *)

Definition WeakPtr_default : WeakPtr.t := WeakPtr.mk None None false.

Definition WeakPtr_IncreaseWeakCounter (this : WeakPtr.t) : M unit :=
  match WeakPtr.control_block_ this with
  | Some b => do blk <- load b; store b (IncWeakRef blk).2
  | None => ret tt
  end.

Definition WeakPtr_DecreaseWeakCounter (this : WeakPtr.t) : M unit :=
  match WeakPtr.control_block_ this with
  | Some b =>
      do blk <- load b;
      store b (DecWeakRef blk).2 ;;;
      do blk' <- load b;
      if negb (WeakPtr.is_esft_ptr_ this) && CanDeleteControlBlock blk'
      then delete_block b
      else ret tt
  | None => ret tt
  end.

(** [Reset] returns the new value of [*this]; the flag is not a pointer and
    is left as it was. *)
Definition WeakPtr_Reset (this : WeakPtr.t) : M WeakPtr.t :=
  WeakPtr_DecreaseWeakCounter this ;;;
  ret (WeakPtr.mk None None (WeakPtr.is_esft_ptr_ this)).

(** [Swap] exchanges the two pointers and leaves each flag in place. *)
Definition WeakPtr_Swap (this other : WeakPtr.t) : WeakPtr.t * WeakPtr.t :=
  (WeakPtr.mk (WeakPtr.control_block_ other) (WeakPtr.ptr_ other)
              (WeakPtr.is_esft_ptr_ this),
   WeakPtr.mk (WeakPtr.control_block_ this) (WeakPtr.ptr_ this)
              (WeakPtr.is_esft_ptr_ other)).

(** Copy constructor (also the converting one). *)
Definition WeakPtr_copy (other : WeakPtr.t) : M WeakPtr.t :=
  let this := WeakPtr.mk (WeakPtr.control_block_ other) (WeakPtr.ptr_ other) false in
  WeakPtr_IncreaseWeakCounter this ;;; ret this.

(** Move constructor: returns the new handle and what is left of [other]. *)
Definition WeakPtr_move (other : WeakPtr.t) : M (WeakPtr.t * WeakPtr.t) :=
  let this := WeakPtr.mk (WeakPtr.control_block_ other) (WeakPtr.ptr_ other) false in
  WeakPtr_IncreaseWeakCounter this ;;;
  do other' <- WeakPtr_Reset other;
  ret (this, other').

(** [WeakPtr(const SharedPtr<T>&)]. *)
Definition WeakPtr_from_shared (other : SharedPtr.t) : M WeakPtr.t :=
  let this := WeakPtr.mk (SharedPtr.control_block_ other) (SharedPtr.ptr_ other) false in
  WeakPtr_IncreaseWeakCounter this ;;; ret this.

(** Body of the copy assignment, run when [this != &other]. *)
Definition WeakPtr_assign (this other : WeakPtr.t) : M WeakPtr.t :=
  do this1 <- WeakPtr_Reset this;
  let this2 := WeakPtr.mk (WeakPtr.control_block_ other) (WeakPtr.ptr_ other)
                          (WeakPtr.is_esft_ptr_ this1) in
  WeakPtr_IncreaseWeakCounter this2 ;;; ret this2.

(** Body of the move assignment, run when [this != &other]. *)
Definition WeakPtr_move_assign (this other : WeakPtr.t) : M (WeakPtr.t * WeakPtr.t) :=
  do this1 <- WeakPtr_Reset this;
  ret (WeakPtr_Swap this1 other).

Definition WeakPtr_UseCount (this : WeakPtr.t) : M Z :=
  match WeakPtr.control_block_ this with
  | Some b => do blk <- load b; ret (GetStrongCounter blk)
  | None => ret 0
  end.

Definition WeakPtr_Expired (this : WeakPtr.t) : M bool :=
  match WeakPtr.control_block_ this with
  | None => ret true
  | Some b => do blk <- load b; ret (IsDestroyed blk)
  end.

Definition WeakPtr_MakeEsftPtr (this : WeakPtr.t) : WeakPtr.t :=
  WeakPtr.mk (WeakPtr.control_block_ this) (WeakPtr.ptr_ this) true.

(** ** Destruction of the managed object *)

(** [~T()]: the destructor body is logged, then the base-class member
    [weak_this_] (if the class has one) is destroyed, which is
    [WeakPtr::Reset]; afterwards the object is gone. *)
Definition destroy_object (a : addr) : M unit :=
  do o <- load_object a;
  log_destructor a ;;;
  match weak_this_ o with
  | Some w => do w' <- WeakPtr_Reset w; store_object a (mkObject (Some w'))
  | None => ret tt
  end ;;;
  remove_object a.

(** [DefaultBlock<T>::Destroy] and [InlineBlock<T>::Destroy]. *)
Definition Destroy (b : block_id) : M unit :=
  do blk <- load b;
  if negb (is_destroyed blk) then
    store b (mkBlock 0 (weak_ref_cnt blk) true (kind blk)) ;;;
    match kind blk with
    | DefaultBlock (Some p) => destroy_object p
    | DefaultBlock None => ret tt
    | InlineBlock a => destroy_object a
    end
  else ret tt.

(** ** [SharedPtr] *)

Definition SharedPtr_default : SharedPtr.t := SharedPtr.mk None None.

(** [SharedPtr(std::nullptr_t)]. *)
Definition SharedPtr_nullptr : SharedPtr.t := SharedPtr.mk None None.

Definition SharedPtr_IncreaseStrongCounter (this : SharedPtr.t) : M unit :=
  match SharedPtr.control_block_ this with
  | Some b => do blk <- load b; store b (IncStrongRef blk).2
  | None => ret tt
  end.

Definition SharedPtr_DecreaseStrongCounter (this : SharedPtr.t) : M unit :=
  match SharedPtr.control_block_ this with
  | Some b =>
      do blk <- load b;
      store b (DecStrongRef blk).2 ;;;
      do blk1 <- load b;
      if GetStrongCounter blk1 =? 0 then
        Destroy b ;;;
        do blk2 <- load b;
        if CanDeleteControlBlock blk2 then delete_block b else ret tt
      else ret tt
  | None => ret tt
  end.

Definition SharedPtr_GetStrongCounter (this : SharedPtr.t) : M Z :=
  match SharedPtr.control_block_ this with
  | Some b => do blk <- load b; ret (GetStrongCounter blk)
  | None => ret 0
  end.

(** [InitWeakThis(esft_block)]: [esft_block->weak_this_ = WeakPtr<Y>( *this)]
    builds a temporary, move-assigns it into the member and destroys the
    temporary; then [MakeEsftPtr] flags the member.  The pointer is
    dereferenced, so it has to point to a live object that has the member. *)
Definition SharedPtr_InitWeakThis (this : SharedPtr.t) (esft_block : option addr) : M unit :=
  match esft_block with
  | None => undefined
  | Some a =>
      do o <- load_object a;
      match weak_this_ o with
      | None => undefined
      | Some wt =>
          do tmp <- WeakPtr_from_shared this;
          do ' (wt1, tmp1) <- WeakPtr_move_assign wt tmp;
          store_object a (mkObject (Some wt1)) ;;;
          do _ <- WeakPtr_Reset tmp1;
          store_object a (mkObject (Some (WeakPtr_MakeEsftPtr wt1)))
      end
  end.

(** [explicit SharedPtr(Y* ptr)]; [esft] is the value of
    [std::is_convertible_v<Y*, ESFTBase*>]. *)
Definition SharedPtr_from_raw (esft : bool) (ptr : option addr) : M SharedPtr.t :=
  do b <- new_block (DefaultBlock ptr);
  let this := SharedPtr.mk (Some b) ptr in
  SharedPtr_IncreaseStrongCounter this ;;;
  (if esft then SharedPtr_InitWeakThis this ptr else ret tt) ;;;
  ret this.

(** [SharedPtr(ControlBlockBase* block, T* ptr)]. *)
Definition SharedPtr_from_block (esft : bool) (block : option block_id)
    (ptr : option addr) : M SharedPtr.t :=
  let this := SharedPtr.mk block ptr in
  SharedPtr_IncreaseStrongCounter this ;;;
  (if esft then SharedPtr_InitWeakThis this ptr else ret tt) ;;;
  ret this.

(** Copy constructor (also the converting one). *)
Definition SharedPtr_copy (other : SharedPtr.t) : M SharedPtr.t :=
  let this := SharedPtr.mk (SharedPtr.control_block_ other) (SharedPtr.ptr_ other) in
  SharedPtr_IncreaseStrongCounter this ;;; ret this.

(** Move constructor: the new handle and what is left of [other]. *)
Definition SharedPtr_move (other : SharedPtr.t) : SharedPtr.t * SharedPtr.t :=
  (SharedPtr.mk (SharedPtr.control_block_ other) (SharedPtr.ptr_ other),
   SharedPtr.mk None None).

(** Aliasing constructor. *)
Definition SharedPtr_alias (other : SharedPtr.t) (ptr : option addr) : M SharedPtr.t :=
  let this := SharedPtr.mk (SharedPtr.control_block_ other) None in
  SharedPtr_IncreaseStrongCounter this ;;;
  ret (SharedPtr.mk (SharedPtr.control_block_ other) ptr).

(** [explicit SharedPtr(const WeakPtr<T>& other)]: [control_block_] is
    dereferenced without a null test. *)
Definition SharedPtr_from_weak (other : WeakPtr.t) : M SharedPtr.t :=
  let this := SharedPtr.mk (WeakPtr.control_block_ other) (WeakPtr.ptr_ other) in
  match SharedPtr.control_block_ this with
  | None => undefined
  | Some b =>
      do blk <- load b;
      if IsDestroyed blk then throw_BadWeakPtr
      else SharedPtr_IncreaseStrongCounter this ;;; ret this
  end.

(** Body of the copy assignment, run when [this != &other]. *)
Definition SharedPtr_assign (this other : SharedPtr.t) : M SharedPtr.t :=
  SharedPtr_DecreaseStrongCounter this ;;;
  let this' := SharedPtr.mk (SharedPtr.control_block_ other) (SharedPtr.ptr_ other) in
  SharedPtr_IncreaseStrongCounter this' ;;; ret this'.

Definition SharedPtr_Reset (this : SharedPtr.t) : M SharedPtr.t :=
  SharedPtr_DecreaseStrongCounter this ;;; ret (SharedPtr.mk None None).

Definition SharedPtr_Swap (this other : SharedPtr.t) : SharedPtr.t * SharedPtr.t :=
  (other, this).

(** Body of the move assignment, run when [this != &other]. *)
Definition SharedPtr_move_assign (this other : SharedPtr.t)
    : M (SharedPtr.t * SharedPtr.t) :=
  do this1 <- SharedPtr_Reset this;
  ret (SharedPtr_Swap this1 other).

(** [Reset(Y* ptr)] is [*this = SharedPtr(ptr)]: a temporary is built,
    move-assigned and destroyed. *)
Definition SharedPtr_Reset_raw (esft : bool) (this : SharedPtr.t)
    (ptr : option addr) : M SharedPtr.t :=
  do tmp <- SharedPtr_from_raw esft ptr;
  do ' (this1, tmp1) <- SharedPtr_move_assign this tmp;
  do _ <- SharedPtr_Reset tmp1;
  ret this1.

Definition SharedPtr_Get (this : SharedPtr.t) : option addr := SharedPtr.ptr_ this.

Definition SharedPtr_UseCount (this : SharedPtr.t) : M Z :=
  SharedPtr_GetStrongCounter this.

(** [explicit operator bool]. *)
Definition SharedPtr_bool (this : SharedPtr.t) : bool :=
  match SharedPtr.ptr_ this with Some _ => true | None => false end.

(** [MakeShared<T>(args...)]: the object is constructed inside the new
    [InlineBlock]. *)
Definition MakeShared (esft : bool) : M SharedPtr.t :=
  do a <- new_object esft;
  do block <- new_block (InlineBlock a);
  do blk <- load block;
  SharedPtr_from_block esft (Some block) (GetRawPtr blk).

(** ** [WeakPtr], second half *)

(** [esft] is [std::is_convertible_v<T*, ESFTBase*>] for the handle's [T],
    which the constructor called here tests. *)
Definition WeakPtr_Lock (esft : bool) (this : WeakPtr.t) : M SharedPtr.t :=
  do e <- WeakPtr_Expired this;
  if negb e
  then SharedPtr_from_block esft (WeakPtr.control_block_ this) (WeakPtr.ptr_ this)
  else ret SharedPtr_default.

(** ** [EnableSharedFromThis] *)

(** The member functions are called on the object at [self]. *)
Definition SharedFromThis (self : addr) : M SharedPtr.t :=
  do o <- load_object self;
  match weak_this_ o with
  | Some wt => SharedPtr_from_weak wt
  | None => undefined
  end.

Definition WeakFromThis (self : addr) : M WeakPtr.t :=
  do o <- load_object self;
  match weak_this_ o with
  | Some wt => WeakPtr_copy wt
  | None => undefined
  end.

(** ** Client programs *)

(** A client program is a sequence of statements over named handle
    variables.  [strongs] and [weaks] hold the live [SharedPtr] and
    [WeakPtr] variables. *)
Record World := mkWorld {
  mem : Memory;
  strongs : gmap handle_id SharedPtr.t;
  weaks : gmap handle_id WeakPtr.t
}.

Definition init : World := mkWorld empty_memory ∅ ∅.

Inductive Op :=
  | SDefault (h : handle_id)                      (* SharedPtr<T> h;                *)
  | SAdopt (h : handle_id) (esft : bool)          (* SharedPtr<T> h(new T);         *)
  | SAdoptNull (h : handle_id) (esft : bool)      (* SharedPtr<T> h((T* )nullptr);  *)
  | SMake (h : handle_id) (esft : bool)           (* auto h = MakeShared<T>();      *)
  | SCopy (h src : handle_id)                     (* SharedPtr<T> h(src);           *)
  | SMove (h src : handle_id)                     (* SharedPtr<T> h(std::move(src)) *)
  | SAlias (h src : handle_id) (p : option addr)  (* SharedPtr<T> h(src, p);        *)
  | SPromote (h w : handle_id)                    (* SharedPtr<T> h(w);             *)
  | SAssign (h src : handle_id)                   (* h = src;                       *)
  | SMoveAssign (h src : handle_id)               (* h = std::move(src);            *)
  | SReset (h : handle_id)                        (* h.Reset();                     *)
  | SResetNew (h : handle_id) (esft : bool)       (* h.Reset(new T);                *)
  | SSwap (h other : handle_id)                   (* h.Swap(other);                 *)
  | SDestruct (h : handle_id)                     (* h goes out of scope            *)
  | WDefault (w : handle_id)                      (* WeakPtr<T> w;                  *)
  | WCopy (w src : handle_id)                     (* WeakPtr<T> w(src);             *)
  | WMove (w src : handle_id)                     (* WeakPtr<T> w(std::move(src));  *)
  | WFromShared (w h : handle_id)                 (* WeakPtr<T> w(h);               *)
  | WAssign (w src : handle_id)                   (* w = src;                       *)
  | WMoveAssign (w src : handle_id)               (* w = std::move(src);            *)
  | WReset (w : handle_id)                        (* w.Reset();                     *)
  | WSwap (w other : handle_id)                   (* w.Swap(other);                 *)
  | WDestruct (w : handle_id)                     (* w goes out of scope            *)
  | WLock (h w : handle_id) (esft : bool)         (* auto h = w.Lock();             *)
  | ESharedFromThis (h : handle_id) (self : addr) (* auto h = self->SharedFromThis() *)
  | EWeakFromThis (w : handle_id) (self : addr).  (* auto w = self->WeakFromThis()  *)

(** Declare the new strong variable [h] with the value a constructor call
    produced.  A thrown [BadWeakPtr] is caught by the client: no variable
    is declared.  [None] stands for undefined behaviour. *)
Definition declare_strong (h : handle_id) (c : M SharedPtr.t) (w : World) : option World :=
  match strongs w !! h with
  | Some _ => None
  | None =>
      match c (mem w) with
      | Ret sp m => Some (mkWorld m (<[h := sp]> (strongs w)) (weaks w))
      | Throw m => Some (mkWorld m (strongs w) (weaks w))
      | Undefined => None
      end
  end.

Definition declare_weak (x : handle_id) (c : M WeakPtr.t) (w : World) : option World :=
  match weaks w !! x with
  | Some _ => None
  | None =>
      match c (mem w) with
      | Ret wp m => Some (mkWorld m (strongs w) (<[x := wp]> (weaks w)))
      | Throw m => Some (mkWorld m (strongs w) (weaks w))
      | Undefined => None
      end
  end.

(** Run a member function on the strong variable [h] and put the new value
    of [*this] back. *)
Definition update_strong (h : handle_id) (c : SharedPtr.t → M SharedPtr.t)
    (w : World) : option World :=
  match strongs w !! h with
  | None => None
  | Some sp =>
      match c sp (mem w) with
      | Ret sp' m => Some (mkWorld m (<[h := sp']> (strongs w)) (weaks w))
      | Throw m => Some (mkWorld m (strongs w) (weaks w))
      | Undefined => None
      end
  end.

Definition update_weak (x : handle_id) (c : WeakPtr.t → M WeakPtr.t)
    (w : World) : option World :=
  match weaks w !! x with
  | None => None
  | Some wp =>
      match c wp (mem w) with
      | Ret wp' m => Some (mkWorld m (strongs w) (<[x := wp']> (weaks w)))
      | Throw m => Some (mkWorld m (strongs w) (weaks w))
      | Undefined => None
      end
  end.

Definition step (op : Op) (w : World) : option World :=
  match op with
  | SDefault h => declare_strong h (ret SharedPtr_default) w
  | SAdopt h esft =>
      declare_strong h (do a <- new_object esft; SharedPtr_from_raw esft (Some a)) w
  | SAdoptNull h esft => declare_strong h (SharedPtr_from_raw esft None) w
  | SMake h esft => declare_strong h (MakeShared esft) w
  | SCopy h src =>
      other ← strongs w !! src;
      declare_strong h (SharedPtr_copy other) w
  | SMove h src =>
      other ← strongs w !! src;
      match strongs w !! h with
      | Some _ => None
      | None =>
          let '(this, other') := SharedPtr_move other in
          Some (mkWorld (mem w) (<[h := this]> (<[src := other']> (strongs w))) (weaks w))
      end
  | SAlias h src p =>
      other ← strongs w !! src;
      declare_strong h (SharedPtr_alias other p) w
  | SPromote h x =>
      other ← weaks w !! x;
      declare_strong h (SharedPtr_from_weak other) w
  | SAssign h src =>
      if decide (h = src) then (_ ← strongs w !! h; Some w)
      else other ← strongs w !! src;
           update_strong h (λ this, SharedPtr_assign this other) w
  | SMoveAssign h src =>
      if decide (h = src) then (_ ← strongs w !! h; Some w)
      else
        this ← strongs w !! h;
        other ← strongs w !! src;
        match SharedPtr_move_assign this other (mem w) with
        | Ret (this', other') m =>
            Some (mkWorld m (<[h := this']> (<[src := other']> (strongs w))) (weaks w))
        | _ => None
        end
  | SReset h => update_strong h SharedPtr_Reset w
  | SResetNew h esft =>
      update_strong h
        (λ this, do a <- new_object esft; SharedPtr_Reset_raw esft this (Some a)) w
  | SSwap h other =>
      this ← strongs w !! h;
      that ← strongs w !! other;
      let '(this', that') := SharedPtr_Swap this that in
      Some (mkWorld (mem w) (<[h := this']> (<[other := that']> (strongs w))) (weaks w))
  | SDestruct h =>
      this ← strongs w !! h;
      match SharedPtr_Reset this (mem w) with
      | Ret _ m => Some (mkWorld m (delete h (strongs w)) (weaks w))
      | _ => None
      end
  | WDefault x => declare_weak x (ret WeakPtr_default) w
  | WCopy x src =>
      other ← weaks w !! src;
      declare_weak x (WeakPtr_copy other) w
  | WMove x src =>
      other ← weaks w !! src;
      match weaks w !! x with
      | Some _ => None
      | None =>
          match WeakPtr_move other (mem w) with
          | Ret (this, other') m =>
              Some (mkWorld m (strongs w) (<[x := this]> (<[src := other']> (weaks w))))
          | _ => None
          end
      end
  | WFromShared x h =>
      other ← strongs w !! h;
      declare_weak x (WeakPtr_from_shared other) w
  | WAssign x src =>
      if decide (x = src) then (_ ← weaks w !! x; Some w)
      else other ← weaks w !! src;
           update_weak x (λ this, WeakPtr_assign this other) w
  | WMoveAssign x src =>
      if decide (x = src) then (_ ← weaks w !! x; Some w)
      else
        this ← weaks w !! x;
        other ← weaks w !! src;
        match WeakPtr_move_assign this other (mem w) with
        | Ret (this', other') m =>
            Some (mkWorld m (strongs w) (<[x := this']> (<[src := other']> (weaks w))))
        | _ => None
        end
  | WReset x => update_weak x WeakPtr_Reset w
  | WSwap x other =>
      this ← weaks w !! x;
      that ← weaks w !! other;
      let '(this', that') := WeakPtr_Swap this that in
      Some (mkWorld (mem w) (strongs w) (<[x := this']> (<[other := that']> (weaks w))))
  | WDestruct x =>
      this ← weaks w !! x;
      match WeakPtr_Reset this (mem w) with
      | Ret _ m => Some (mkWorld m (strongs w) (delete x (weaks w)))
      | _ => None
      end
  | WLock h x esft =>
      this ← weaks w !! x;
      declare_strong h (WeakPtr_Lock esft this) w
  | ESharedFromThis h self => declare_strong h (SharedFromThis self) w
  | EWeakFromThis x self => declare_weak x (WeakFromThis self) w
  end.

Fixpoint run (ops : list Op) (w : World) : option World :=
  match ops with
  | [] => Some w
  | op :: rest =>
      match step op w with
      | Some w' => run rest w'
      | None => None
      end
  end.

(** ** Well-formed worlds *)

(** Number of entries of a store whose control-block pointer is [b]. *)
Definition refs {A} (f : A → option block_id) (b : block_id)
    (m : gmap positive A) : nat :=
  size (filter (λ kv, f kv.2 = Some b) m).

(** The contribution of one entry to [refs]. *)
Definition at_block {A} (f : A → option block_id) (b : block_id)
    (ov : option A) : nat :=
  match ov with
  | Some v => if decide (f v = Some b) then 1%nat else 0%nat
  | None => 0%nat
  end.

(** The control block the embedded [weak_this_] of an object refers to. *)
Definition Object_block (o : Object) : option block_id :=
  match weak_this_ o with
  | Some wt => WeakPtr.control_block_ wt
  | None => None
  end.

(** What a control block (or its absence) has to say given the number of
    strong variables, weak variables and embedded weak members that point
    to it. *)
Definition block_ok (ob : option ControlBlockBase) (s x o : nat) : Prop :=
  match ob with
  | None => s = 0%nat ∧ x = 0%nat ∧ o = 0%nat
  | Some blk =>
      weak_ref_cnt blk = Z.of_nat (x + o) ∧
      if is_destroyed blk
      then strong_ref_cnt blk = 0 ∧ s = 0%nat
      else strong_ref_cnt blk = Z.of_nat s ∧ (1 ≤ s)%nat
  end.

(** The part of well-formedness that concerns memory alone: addresses are
    fresh, a destructor ran at most once per object, an embedded
    [weak_this_] that refers to a block is flagged, and every block whose
    object was not destroyed manages a live object of its own. *)
Record InvMem (m : Memory) : Prop := mkInvMem {
  inv_heap_fresh : ∀ b, is_Some (heap m !! b) → (b < next_block m)%positive;
  inv_objects_fresh : ∀ a, is_Some (objects m !! a) → (a < next_addr m)%positive;
  inv_log_fresh : ∀ a, a ∈ dtor_log m →
      (a < next_addr m)%positive ∧ objects m !! a = None;
  inv_log_nodup : NoDup (dtor_log m);
  inv_member_flags : ∀ a o wt, objects m !! a = Some o →
      weak_this_ o = Some wt → is_Some (WeakPtr.control_block_ wt) →
      WeakPtr.is_esft_ptr_ wt = true;
  inv_managed : ∀ b blk p, heap m !! b = Some blk → is_destroyed blk = false →
      GetRawPtr blk = Some p → is_Some (objects m !! p);
  inv_managed_inj : ∀ b1 b2 blk1 blk2 p,
      heap m !! b1 = Some blk1 → heap m !! b2 = Some blk2 →
      is_destroyed blk1 = false → is_destroyed blk2 = false →
      GetRawPtr blk1 = Some p → GetRawPtr blk2 = Some p → b1 = b2
}.

(** [n] bounds the number of live variables and objects; it keeps the
    counters away from the wrap-around. *)
Record Inv (n : nat) (w : World) : Prop := mkInv {
  inv_mem : InvMem (mem w);
  inv_counts : ∀ b,
      block_ok (heap (mem w) !! b)
               (refs SharedPtr.control_block_ b (strongs w))
               (refs WeakPtr.control_block_ b (weaks w))
               (refs Object_block b (objects (mem w)));
  inv_weak_flags : ∀ x wp, weaks w !! x = Some wp → WeakPtr.is_esft_ptr_ wp = false;
  inv_size : (size (strongs w) + size (weaks w) + size (objects (mem w)) ≤ n)%nat
}.

(** Memory with another heap. *)
Definition set_heap (h : gmap block_id ControlBlockBase) (m : Memory) : Memory :=
  mkMemory h (objects m) (dtor_log m) (next_block m) (next_addr m).

(** Largest number of variables and objects the counters can count. *)
Definition capacity : nat := Z.to_nat (2 ^ 62).

(** A client program of at most [2^61] statements: each statement adds at
    most two variables or objects, so no counter can wrap around. *)
Definition feasible (ops : list Op) : Prop :=
  (2 * length ops ≤ capacity)%nat.

(** Number of live strong variables that refer to block [b]. *)
Definition live_strong_handles (b : block_id) (w : World) : nat :=
  refs SharedPtr.control_block_ b (strongs w).

(** Number of live weak variables that refer to block [b]. *)
Definition live_weak_handles (b : block_id) (w : World) : nat :=
  refs WeakPtr.control_block_ b (weaks w).

Definition vacant_strong (o : option SharedPtr.t) : Prop :=
  ∀ v, o = Some v → SharedPtr.control_block_ v = None.
Definition vacant_weak (o : option WeakPtr.t) : Prop :=
  ∀ v, o = Some v → WeakPtr.control_block_ v = None.

(** No block whose object is alive manages the object at [p]. *)
Definition unmanaged (p : addr) (m : Memory) : Prop :=
  ∀ b blk, heap m !! b = Some blk → is_destroyed blk = false →
           GetRawPtr blk ≠ Some p.

Definition set_mem (m : Memory) (w : World) : World :=
  mkWorld m (strongs w) (weaks w).

(** Memory after the destructor of the object at [a] ran. *)
Definition after_destructor (a : addr) (h : gmap block_id ControlBlockBase)
    (m : Memory) : Memory :=
  mkMemory h (delete a (objects m)) (a :: dtor_log m) (next_block m) (next_addr m).

(** The object whose destructor runs when the strong handle [sp] lets go of
    its block: the managed object, if [sp] holds the last unit of the
    strong count. *)
Definition released_object (m : Memory) (sp : SharedPtr.t) : option addr :=
  match SharedPtr.control_block_ sp with
  | Some b =>
      match heap m !! b with
      | Some blk => if strong_ref_cnt blk =? 1 then GetRawPtr blk else None
      | None => None
      end
  | None => None
  end.

(** The two pointers of a handle agree: the value pointer is null
    exactly when the control-block pointer is. *)
Definition balanced (cb : option block_id) (p : option addr) : Prop :=
  p = None ↔ cb = None.

(** Every block allocated in [m'] was allocated in [m] with the same strong
    count, destroyed flag and kind. *)
Definition strong_frame (m m' : Memory) : Prop :=
  ∀ b blk', heap m' !! b = Some blk' →
    ∃ blk, heap m !! b = Some blk ∧ strong_ref_cnt blk' = strong_ref_cnt blk ∧
           is_destroyed blk' = is_destroyed blk ∧ kind blk' = kind blk.

(** What one statement of the client preserves. *)
Definition good (n : nat) (w w' : World) : Prop :=
  Inv (n + 2) w' ∧ dtor_log (mem w) `suffix_of` dtor_log (mem w').

(** ** Further members of [SharedPtr] *)

(** [operator*]: [*ptr_], a read through the stored pointer. *)
Definition SharedPtr_deref (this : SharedPtr.t) : M Object :=
  match SharedPtr.ptr_ this with
  | Some a => load_object a
  | None => undefined
  end.

(** [operator==] compares the stored pointers and nothing else. *)
Definition SharedPtr_eq (left right : SharedPtr.t) : bool :=
  bool_decide (SharedPtr_Get left = SharedPtr_Get right).

(** ** Further members of [WeakPtr] *)

Definition WeakPtr_GetWeakCounter (this : WeakPtr.t) : M Z :=
  match WeakPtr.control_block_ this with
  | Some b => do blk <- load b; ret (GetWeakCounter blk)
  | None => ret 0
  end.

(** Number of live objects whose embedded [weak_this_] refers to block
    [b]. *)
Definition embedded_handles (b : block_id) (w : World) : nat :=
  refs Object_block b (objects (mem w)).

(** ** Statements that are defined *)

Definition declared {A} (h : handle_id) (s : gmap handle_id A) : bool :=
  bool_decide (is_Some (s !! h)).

(** [p] points to a live object whose class derives from
    [EnableSharedFromThis]. *)
Definition self_aware_at (p : option addr) (m : Memory) : bool :=
  match p with
  | Some a =>
      match objects m !! a with
      | Some o => bool_decide (is_Some (weak_this_ o))
      | None => false
      end
  | None => false
  end.

(** The control block of the handle is null or marked destroyed. *)
Definition expired_in (this : WeakPtr.t) (m : Memory) : bool :=
  match WeakPtr.control_block_ this with
  | Some b =>
      match heap m !! b with
      | Some blk => is_destroyed blk
      | None => false
      end
  | None => true
  end.

(** The statements a client may run in [w]: a declaration names a new
    variable, every other statement names declared ones; a promotion needs
    a control block to read; a self-aware type is not adopted from a null
    pointer and is locked only through a pointer to a live self-aware
    object; the members of [EnableSharedFromThis] are called on a live
    object, and [SharedFromThis] on one that a handle has wrapped. *)
Definition enabled (op : Op) (w : World) : bool :=
  match op with
  | SDefault h | SAdopt h _ | SMake h _ => negb (declared h (strongs w))
  | SAdoptNull h esft => negb (declared h (strongs w)) && negb esft
  | SCopy h src | SMove h src | SAlias h src _ =>
      negb (declared h (strongs w)) && declared src (strongs w)
  | SPromote h x =>
      negb (declared h (strongs w)) &&
      match weaks w !! x with
      | Some other => bool_decide (is_Some (WeakPtr.control_block_ other))
      | None => false
      end
  | SAssign h src | SMoveAssign h src | SSwap h src =>
      declared h (strongs w) && declared src (strongs w)
  | SReset h | SResetNew h _ | SDestruct h => declared h (strongs w)
  | WDefault x => negb (declared x (weaks w))
  | WCopy x src | WMove x src => negb (declared x (weaks w)) && declared src (weaks w)
  | WFromShared x h => negb (declared x (weaks w)) && declared h (strongs w)
  | WAssign x src | WMoveAssign x src | WSwap x src =>
      declared x (weaks w) && declared src (weaks w)
  | WReset x | WDestruct x => declared x (weaks w)
  | WLock h x esft =>
      negb (declared h (strongs w)) &&
      match weaks w !! x with
      | Some this =>
          negb esft || expired_in this (mem w) || self_aware_at (WeakPtr.ptr_ this) (mem w)
      | None => false
      end
  | ESharedFromThis h self =>
      negb (declared h (strongs w)) &&
      match objects (mem w) !! self with
      | Some o =>
          match weak_this_ o with
          | Some wt => bool_decide (is_Some (WeakPtr.control_block_ wt))
          | None => false
          end
      | None => false
      end
  | EWeakFromThis x self =>
      negb (declared x (weaks w)) && self_aware_at (Some self) (mem w)
  end.

(** ** Clients without aliasing *)

(** A client that never calls the aliasing constructor. *)
Definition alias_free (ops : list Op) : bool :=
  forallb (λ op, match op with SAlias _ _ _ => false | _ => true end) ops.

(** The pointer [p] stored beside the block pointer [cb] is the pointer
    the block manages. *)
Definition ptr_ok (h : gmap block_id ControlBlockBase) (cb : option block_id)
    (p : option addr) : Prop :=
  ∀ b blk, cb = Some b → h !! b = Some blk → p = GetRawPtr blk.

(** Memory in which nothing is left behind: an allocated block has a
    counter that is not zero; the embedded handle of a live self-aware
    object is wired to the block that manages the object; the object of a
    destroyed block is gone; every live object is managed by a block whose
    object is not destroyed; every object constructed so far is alive or
    its destructor ran. *)
Record CohMem (m : Memory) : Prop := mkCohMem {
  cm_zero : ∀ b blk, heap m !! b = Some blk →
      strong_ref_cnt blk + weak_ref_cnt blk ≠ 0;
  cm_member : ∀ a o wt, objects m !! a = Some o → weak_this_ o = Some wt →
      ∃ b blk, WeakPtr.control_block_ wt = Some b ∧ WeakPtr.ptr_ wt = Some a ∧
               heap m !! b = Some blk ∧ GetRawPtr blk = Some a;
  cm_dead : ∀ b blk p, heap m !! b = Some blk → is_destroyed blk = true →
      GetRawPtr blk = Some p → objects m !! p = None;
  cm_owned : ∀ a, is_Some (objects m !! a) →
      ∃ b blk, heap m !! b = Some blk ∧ is_destroyed blk = false ∧ GetRawPtr blk = Some a;
  cm_all : ∀ a, (a < next_addr m)%positive → is_Some (objects m !! a) ∨ a ∈ dtor_log m;
  cm_raw : ∀ b blk p, heap m !! b = Some blk → GetRawPtr blk = Some p →
      (p < next_addr m)%positive
}.

(** Worlds of clients without aliasing: memory as above, and every handle
    stores the pointer its block manages. *)
Record Coherent (w : World) : Prop := mkCoherent {
  coh_mem : CohMem (mem w);
  coh_strong : ∀ h sp, strongs w !! h = Some sp →
      ptr_ok (heap (mem w)) (SharedPtr.control_block_ sp) (SharedPtr.ptr_ sp);
  coh_weak : ∀ x wp, weaks w !! x = Some wp →
      ptr_ok (heap (mem w)) (WeakPtr.control_block_ wp) (WeakPtr.ptr_ wp)
}.

End Sft.

(** * The weak variant *)

(** [weak/weak.h] includes a [shared.h] of its own that is not part of the
    sources at hand.  The member functions that are present are embedded
    over the memory of [Sft]. *)
Module Wk.
Import Sft.

(** Modelled from the spec: [ControlBlockBase] of [weak/shared.h] is
    missing; [weak.h] calls [IncStrongRef], [IncWeakRef], [DecWeakRef],
    [GetStrongCounter], [GetWeakCounter], [GetAllCounter] and [IsDestroyed]
    on it, and section 3 of the spec gives a block a strong count, a weak
    count and a destroyed flag.  The block of [Sft] has exactly these. *)
Definition ControlBlockBase : Type := Sft.ControlBlockBase.

Module WeakPtr.
Record t := mk {
  control_block_ : option block_id;
  ptr_ : option addr
}.
End WeakPtr.

Definition WeakPtr_IncreaseWeakCounter (this : WeakPtr.t) : M unit :=
  match WeakPtr.control_block_ this with
  | Some b => do blk <- load b; store b (IncWeakRef blk).2
  | None => ret tt
  end.

Definition WeakPtr_DecreaseWeakCounter (this : WeakPtr.t) : M unit :=
  match WeakPtr.control_block_ this with
  | Some b =>
      do blk <- load b;
      store b (DecWeakRef blk).2 ;;;
      do blk' <- load b;
      if GetAllCounter blk' =? 0 then delete_block b else ret tt
  | None => ret tt
  end.

Definition WeakPtr_Reset (this : WeakPtr.t) : M WeakPtr.t :=
  WeakPtr_DecreaseWeakCounter this ;;; ret (WeakPtr.mk None None).

Definition WeakPtr_Expired (this : WeakPtr.t) : M bool :=
  match WeakPtr.control_block_ this with
  | None => ret true
  | Some b => do blk <- load b; ret (IsDestroyed blk)
  end.

Section Lock.
(** The constructor [SharedPtr(ControlBlockBase*, T* )] that [Lock] calls
    lives in the missing [weak/shared.h]; [Lock] is embedded over it. *)
Variable SharedPtr_from_block : option block_id → option addr → M SharedPtr.t.

Definition WeakPtr_Lock (this : WeakPtr.t) : M SharedPtr.t :=
  do e <- WeakPtr_Expired this;
  if negb e then
    match WeakPtr.control_block_ this with
    | Some b => do blk <- load b; store b (IncStrongRef blk).2
    | None => undefined
    end ;;;
    SharedPtr_from_block (WeakPtr.control_block_ this) (WeakPtr.ptr_ this)
  else ret SharedPtr_default.
End Lock.

(** Copy constructor (also the converting one). *)
Definition WeakPtr_copy (other : WeakPtr.t) : M WeakPtr.t :=
  let this := WeakPtr.mk (WeakPtr.control_block_ other) (WeakPtr.ptr_ other) in
  WeakPtr_IncreaseWeakCounter this ;;; ret this.

(** Move constructor: the pointers change hands and no counter is touched.
    It returns the new handle and what is left of [other]. *)
Definition WeakPtr_move (other : WeakPtr.t) : WeakPtr.t * WeakPtr.t :=
  (WeakPtr.mk (WeakPtr.control_block_ other) (WeakPtr.ptr_ other), WeakPtr.mk None None).

(** [WeakPtr(const SharedPtr<T>&)]. *)
Definition WeakPtr_from_shared (other : SharedPtr.t) : M WeakPtr.t :=
  let this := WeakPtr.mk (SharedPtr.control_block_ other) (SharedPtr.ptr_ other) in
  WeakPtr_IncreaseWeakCounter this ;;; ret this.

Definition WeakPtr_Swap (this other : WeakPtr.t) : WeakPtr.t * WeakPtr.t :=
  (other, this).

(** Body of the copy assignment, run when [this != &other]. *)
Definition WeakPtr_assign (this other : WeakPtr.t) : M WeakPtr.t :=
  do _ <- WeakPtr_Reset this;
  let this2 := WeakPtr.mk (WeakPtr.control_block_ other) (WeakPtr.ptr_ other) in
  WeakPtr_IncreaseWeakCounter this2 ;;; ret this2.

(** Body of the move assignment, run when [this != &other]. *)
Definition WeakPtr_move_assign (this other : WeakPtr.t) : M (WeakPtr.t * WeakPtr.t) :=
  do this1 <- WeakPtr_Reset this;
  ret (WeakPtr_Swap this1 other).

Definition WeakPtr_UseCount (this : WeakPtr.t) : M Z :=
  match WeakPtr.control_block_ this with
  | Some b => do blk <- load b; ret (GetStrongCounter blk)
  | None => ret 0
  end.

(** A handle of [shared-from-this/weak.h] read as one of [weak/weak.h]:
    the two pointers without the flag. *)
Definition unflagged (wp : Sft.WeakPtr.t) : WeakPtr.t :=
  WeakPtr.mk (Sft.WeakPtr.control_block_ wp) (Sft.WeakPtr.ptr_ wp).

(** An outcome of [shared-from-this/weak.h] read through a reading of its
    value. *)
Definition read_result {A B} (f : A → B) (r : result A) : result B :=
  match r with
  | Ret a m => Ret (f a) m
  | Throw m => Throw m
  | Undefined => Undefined
  end.

End Wk.

(** * The plain variant *)

(** [shared/shared.h]: one counter per block, no weak handles, no
    destroyed flag. *)
Module Plain.

Inductive BlockKind :=
  | DefaultBlock (deletem_ptr : option addr)
  | InlineBlock (object : addr).

Record ControlBlockBase := mkBlock {
  counter : Z;
  kind : BlockKind
}.

(** [objects] is the set of live managed objects, [dtor_log] the
    destructor runs, most recent first. *)
Record Memory := mkMemory {
  heap : gmap block_id ControlBlockBase;
  objects : gset addr;
  dtor_log : list addr
}.

Definition IncRef (blk : ControlBlockBase) : Z * ControlBlockBase :=
  let c := wrap (counter blk + 1) in (c, mkBlock c (kind blk)).

Definition DecRef (blk : ControlBlockBase) : Z * ControlBlockBase :=
  let c := wrap (counter blk - 1) in (c, mkBlock c (kind blk)).

Definition GetCounter (blk : ControlBlockBase) : Z := counter blk.

(** [delete p] and the destructor of an [InlineBlock]'s member: the
    destructor runs on a live object; a second run is undefined. *)
Definition destroy_object (a : addr) (m : Memory) : option Memory :=
  if decide (a ∈ objects m)
  then Some (mkMemory (heap m) (objects m ∖ {[a]}) (a :: dtor_log m))
  else None.

(** [DefaultBlock<T>::Destroy] deletes and then zeroes the counter;
    [InlineBlock<T>::Destroy] only zeroes the counter. *)
Definition Destroy (b : block_id) (m : Memory) : option Memory :=
  blk ← heap m !! b;
  m1 ← match kind blk with
       | DefaultBlock (Some p) => destroy_object p m
       | DefaultBlock None => Some m
       | InlineBlock _ => Some m
       end;
  Some (mkMemory (<[b := mkBlock 0 (kind blk)]> (heap m1)) (objects m1) (dtor_log m1)).

(** [delete control_block_]: the destructor of [InlineBlock] destroys its
    member [object]. *)
Definition delete_block (b : block_id) (m : Memory) : option Memory :=
  blk ← heap m !! b;
  m1 ← match kind blk with
       | DefaultBlock _ => Some m
       | InlineBlock a => destroy_object a m
       end;
  Some (mkMemory (delete b (heap m1)) (objects m1) (dtor_log m1)).

(** [SharedPtr::DecreaseCounter] for a handle whose block is [cb]. *)
Definition SharedPtr_DecreaseCounter (cb : option block_id) (m : Memory) : option Memory :=
  match cb with
  | Some b =>
      blk ← heap m !! b;
      let m1 := mkMemory (<[b := (DecRef blk).2]> (heap m)) (objects m) (dtor_log m) in
      if GetCounter (DecRef blk).2 =? 0
      then m2 ← Destroy b m1; delete_block b m2
      else Some m1
  | None => Some m
  end.

(** ** Handles of the plain variant *)

Module SharedPtr.
Record t := mk {
  control_block_ : option block_id;
  ptr_ : option addr
}.
End SharedPtr.

Definition GetRawPtr (blk : ControlBlockBase) : option addr :=
  match kind blk with
  | DefaultBlock p => p
  | InlineBlock a => Some a
  end.

(** A block constructed at the address [b] that [new] returned; [counter]
    starts at one. *)
Definition new_block (b : block_id) (k : BlockKind) (m : Memory) : Memory :=
  mkMemory (<[b := mkBlock 1 k]> (heap m)) (objects m) (dtor_log m).

(** An object constructed at the address [a]. *)
Definition new_object (a : addr) (m : Memory) : Memory :=
  mkMemory (heap m) ({[a]} ∪ objects m) (dtor_log m).

Definition SharedPtr_default : SharedPtr.t := SharedPtr.mk None None.

(** [SharedPtr(std::nullptr_t)]. *)
Definition SharedPtr_nullptr : SharedPtr.t := SharedPtr.mk None None.

Definition SharedPtr_IncreaseCounter (this : SharedPtr.t) (m : Memory) : option Memory :=
  match SharedPtr.control_block_ this with
  | Some b =>
      blk ← heap m !! b;
      Some (mkMemory (<[b := (IncRef blk).2]> (heap m)) (objects m) (dtor_log m))
  | None => Some m
  end.

Definition SharedPtr_GetCounter (this : SharedPtr.t) (m : Memory) : option Z :=
  match SharedPtr.control_block_ this with
  | Some b => blk ← heap m !! b; Some (GetCounter blk)
  | None => Some 0
  end.

(** [explicit SharedPtr(Y* ptr)]: the block is new and no counter moves. *)
Definition SharedPtr_from_raw (b : block_id) (ptr : option addr) (m : Memory)
    : SharedPtr.t * Memory :=
  (SharedPtr.mk (Some b) ptr, new_block b (DefaultBlock ptr) m).

(** [SharedPtr(ControlBlockBase* block, T* ptr)]. *)
Definition SharedPtr_from_block (block : option block_id) (ptr : option addr) : SharedPtr.t :=
  SharedPtr.mk block ptr.

(** Copy constructor (also the converting one). *)
Definition SharedPtr_copy (other : SharedPtr.t) (m : Memory) : option (SharedPtr.t * Memory) :=
  let this := SharedPtr.mk (SharedPtr.control_block_ other) (SharedPtr.ptr_ other) in
  m' ← SharedPtr_IncreaseCounter this m; Some (this, m').

(** Move constructor: the new handle and what is left of [other]. *)
Definition SharedPtr_move (other : SharedPtr.t) : SharedPtr.t * SharedPtr.t :=
  (SharedPtr.mk (SharedPtr.control_block_ other) (SharedPtr.ptr_ other),
   SharedPtr.mk None None).

(** Aliasing constructor. *)
Definition SharedPtr_alias (other : SharedPtr.t) (ptr : option addr) (m : Memory)
    : option (SharedPtr.t * Memory) :=
  let this := SharedPtr.mk (SharedPtr.control_block_ other) None in
  m' ← SharedPtr_IncreaseCounter this m;
  Some (SharedPtr.mk (SharedPtr.control_block_ other) ptr, m').

(** Body of the copy assignment, run when [this != &other]. *)
Definition SharedPtr_assign (this other : SharedPtr.t) (m : Memory)
    : option (SharedPtr.t * Memory) :=
  m1 ← SharedPtr_DecreaseCounter (SharedPtr.control_block_ this) m;
  let this' := SharedPtr.mk (SharedPtr.control_block_ other) (SharedPtr.ptr_ other) in
  m2 ← SharedPtr_IncreaseCounter this' m1; Some (this', m2).

Definition SharedPtr_Reset (this : SharedPtr.t) (m : Memory) : option (SharedPtr.t * Memory) :=
  m' ← SharedPtr_DecreaseCounter (SharedPtr.control_block_ this) m;
  Some (SharedPtr.mk None None, m').

(** [Reset(Y* ptr)]: the old block is let go, then a block is allocated,
    at [b]. *)
Definition SharedPtr_Reset_raw (b : block_id) (this : SharedPtr.t) (ptr : option addr)
    (m : Memory) : option (SharedPtr.t * Memory) :=
  m' ← SharedPtr_DecreaseCounter (SharedPtr.control_block_ this) m;
  Some (SharedPtr.mk (Some b) ptr, new_block b (DefaultBlock ptr) m').

Definition SharedPtr_Swap (this other : SharedPtr.t) : SharedPtr.t * SharedPtr.t :=
  (other, this).

(** Body of the move assignment, run when [this != &other]. *)
Definition SharedPtr_move_assign (this other : SharedPtr.t) (m : Memory)
    : option (SharedPtr.t * SharedPtr.t * Memory) :=
  r ← SharedPtr_Reset this m;
  Some (SharedPtr_Swap r.1 other, r.2).

Definition SharedPtr_Get (this : SharedPtr.t) : option addr := SharedPtr.ptr_ this.

Definition SharedPtr_UseCount (this : SharedPtr.t) (m : Memory) : option Z :=
  SharedPtr_GetCounter this m.

(** [explicit operator bool]. *)
Definition SharedPtr_bool (this : SharedPtr.t) : bool :=
  match SharedPtr.ptr_ this with Some _ => true | None => false end.

(** [MakeShared<T>(args...)]: the block at [b] is constructed with its
    member [object], at [a]; the handle takes the block as it is. *)
Definition MakeShared (b : block_id) (a : addr) (m : Memory) : SharedPtr.t * Memory :=
  let block := mkBlock 1 (InlineBlock a) in
  (SharedPtr_from_block (Some b) (GetRawPtr block),
   new_block b (InlineBlock a) (new_object a m)).

(** ** Client programs of the plain variant *)

(** [next_block] and [next_addr] are the addresses the next [new] returns;
    an address is not handed out twice. *)
Record World := mkWorld {
  mem : Memory;
  handles : gmap handle_id SharedPtr.t;
  next_block : block_id;
  next_addr : addr
}.

Definition init : World := mkWorld (mkMemory ∅ ∅ []) ∅ 1%positive 1%positive.

Inductive Op :=
  | PDefault (h : handle_id)                      (* SharedPtr<T> h;                *)
  | PAdopt (h : handle_id)                        (* SharedPtr<T> h(new T);         *)
  | PAdoptNull (h : handle_id)                    (* SharedPtr<T> h((T* )nullptr);  *)
  | PMake (h : handle_id)                         (* auto h = MakeShared<T>();      *)
  | PCopy (h src : handle_id)                     (* SharedPtr<T> h(src);           *)
  | PMove (h src : handle_id)                     (* SharedPtr<T> h(std::move(src)) *)
  | PAlias (h src : handle_id) (p : option addr)  (* SharedPtr<T> h(src, p);        *)
  | PAssign (h src : handle_id)                   (* h = src;                       *)
  | PMoveAssign (h src : handle_id)               (* h = std::move(src);            *)
  | PReset (h : handle_id)                        (* h.Reset();                     *)
  | PResetNew (h : handle_id)                     (* h.Reset(new T);                *)
  | PSwap (h other : handle_id)                   (* h.Swap(other);                 *)
  | PDestruct (h : handle_id).                    (* h goes out of scope            *)

(** Declare the new variable [h]. *)
Definition declare (h : handle_id) (sp : SharedPtr.t) (m : Memory)
    (nb : block_id) (na : addr) (w : World) : option World :=
  match handles w !! h with
  | Some _ => None
  | None => Some (mkWorld m (<[h := sp]> (handles w)) nb na)
  end.

(** Give the declared variable [h] a new value. *)
Definition update (h : handle_id) (sp : SharedPtr.t) (m : Memory)
    (nb : block_id) (na : addr) (w : World) : World :=
  mkWorld m (<[h := sp]> (handles w)) nb na.

Definition step (op : Op) (w : World) : option World :=
  let b := next_block w in
  let a := next_addr w in
  match op with
  | PDefault h => declare h SharedPtr_default (mem w) b a w
  | PAdopt h =>
      let r := SharedPtr_from_raw b (Some a) (new_object a (mem w)) in
      declare h r.1 r.2 (Pos.succ b) (Pos.succ a) w
  | PAdoptNull h =>
      let r := SharedPtr_from_raw b None (mem w) in
      declare h r.1 r.2 (Pos.succ b) a w
  | PMake h =>
      let r := MakeShared b a (mem w) in
      declare h r.1 r.2 (Pos.succ b) (Pos.succ a) w
  | PCopy h src =>
      other ← handles w !! src;
      r ← SharedPtr_copy other (mem w);
      declare h r.1 r.2 b a w
  | PMove h src =>
      other ← handles w !! src;
      match handles w !! h with
      | Some _ => None
      | None =>
          let r := SharedPtr_move other in
          Some (mkWorld (mem w) (<[h := r.1]> (<[src := r.2]> (handles w))) b a)
      end
  | PAlias h src p =>
      other ← handles w !! src;
      r ← SharedPtr_alias other p (mem w);
      declare h r.1 r.2 b a w
  | PAssign h src =>
      this ← handles w !! h;
      if decide (h = src) then Some w
      else
        other ← handles w !! src;
        r ← SharedPtr_assign this other (mem w);
        Some (update h r.1 r.2 b a w)
  | PMoveAssign h src =>
      this ← handles w !! h;
      if decide (h = src) then Some w
      else
        other ← handles w !! src;
        r ← SharedPtr_move_assign this other (mem w);
        Some (mkWorld r.2 (<[h := r.1.1]> (<[src := r.1.2]> (handles w))) b a)
  | PReset h =>
      this ← handles w !! h;
      r ← SharedPtr_Reset this (mem w);
      Some (update h r.1 r.2 b a w)
  | PResetNew h =>
      this ← handles w !! h;
      r ← SharedPtr_Reset_raw b this (Some a) (new_object a (mem w));
      Some (update h r.1 r.2 (Pos.succ b) (Pos.succ a) w)
  | PSwap h other =>
      this ← handles w !! h;
      that ← handles w !! other;
      let r := SharedPtr_Swap this that in
      Some (mkWorld (mem w) (<[h := r.1]> (<[other := r.2]> (handles w))) b a)
  | PDestruct h =>
      this ← handles w !! h;
      r ← SharedPtr_Reset this (mem w);
      Some (mkWorld r.2 (delete h (handles w)) b a)
  end.

Fixpoint run (ops : list Op) (w : World) : option World :=
  match ops with
  | [] => Some w
  | op :: rest =>
      match step op w with
      | Some w' => run rest w'
      | None => None
      end
  end.

(** A client program short enough that the counter cannot wrap around:
    each statement adds at most one handle. *)
Definition feasible (ops : list Op) : Prop :=
  (length ops ≤ Sft.capacity)%nat.

(** Number of live variables that refer to block [b]. *)
Definition live_handles (b : block_id) (w : World) : nat :=
  Sft.refs SharedPtr.control_block_ b (handles w).

(** The names of a statement are in order: a declaration names a new
    variable, every other statement names declared ones. *)
Definition enabled (op : Op) (w : World) : bool :=
  match op with
  | PDefault h | PAdopt h | PAdoptNull h | PMake h => negb (Sft.declared h (handles w))
  | PCopy h src | PMove h src | PAlias h src _ =>
      negb (Sft.declared h (handles w)) && Sft.declared src (handles w)
  | PAssign h src | PMoveAssign h src | PSwap h src =>
      Sft.declared h (handles w) && Sft.declared src (handles w)
  | PReset h | PResetNew h | PDestruct h => Sft.declared h (handles w)
  end.

(** Well-formed worlds: the counter of a block is the number of variables
    on it and is not zero; a block manages a live object of its own; every
    live object is managed; a destructor ran at most once per object; every
    object ever constructed is alive or was destroyed. *)
Record Inv (n : nat) (w : World) : Prop := mkInv {
  inv_counts : ∀ b,
      match heap (mem w) !! b with
      | Some blk => counter blk = Z.of_nat (live_handles b w) ∧ (1 ≤ live_handles b w)%nat
      | None => live_handles b w = 0%nat
      end;
  inv_managed : ∀ b blk p, heap (mem w) !! b = Some blk → GetRawPtr blk = Some p →
      p ∈ objects (mem w);
  inv_managed_inj : ∀ b1 b2 blk1 blk2 p,
      heap (mem w) !! b1 = Some blk1 → heap (mem w) !! b2 = Some blk2 →
      GetRawPtr blk1 = Some p → GetRawPtr blk2 = Some p → b1 = b2;
  inv_owned : ∀ p, p ∈ objects (mem w) →
      ∃ b blk, heap (mem w) !! b = Some blk ∧ GetRawPtr blk = Some p;
  inv_heap_fresh : ∀ b, is_Some (heap (mem w) !! b) → (b < next_block w)%positive;
  inv_log : ∀ a, a ∈ dtor_log (mem w) → a ∉ objects (mem w);
  inv_log_nodup : NoDup (dtor_log (mem w));
  inv_all : ∀ a, (a < next_addr w)%positive ↔ a ∈ objects (mem w) ∨ a ∈ dtor_log (mem w);
  inv_size : (size (handles w) ≤ n)%nat
}.

End Plain.

(** * Proofs *)

Import Sft.
Local Open Scope Z_scope.
#[local] Set Warnings "-clear-no-such-hyp".

(** * Counting references *)

Section refs.
Context {A : Type} (f : A → option block_id).

Lemma refs_empty b : refs f b ∅ = 0%nat.
Proof. unfold refs. by rewrite map_filter_empty, map_size_empty. Qed.

Lemma refs_insert b (m : gmap positive A) k v :
    (refs f b (<[k := v]> m) + at_block f b (m !! k)
     = refs f b m + at_block f b (Some v))%nat.
Proof.
    unfold refs, at_block. rewrite map_filter_insert. simpl.
    destruct (decide (f v = Some b)) as [Hv|Hv].
    - rewrite map_size_insert.
      destruct (m !! k) as [v0|] eqn:Hk.
      + destruct (decide (f v0 = Some b)) as [Hv0|Hv0].
        * erewrite map_lookup_filter_Some_2; [simpl; unfold id; lia | done | done].
        * rewrite map_lookup_filter_None_2; [lia|].
          right. intros x Hx. simplify_eq. done.
      + rewrite map_lookup_filter_None_2; [lia|]. by left.
    - rewrite map_filter_delete, map_size_delete.
      destruct (m !! k) as [v0|] eqn:Hk.
      + destruct (decide (f v0 = Some b)) as [Hv0|Hv0].
        * erewrite map_lookup_filter_Some_2; [|done|done]. simpl.
          assert (size (filter (λ kv : positive * A, f kv.2 = Some b) m) ≠ 0%nat).
          { eapply map_size_ne_0_lookup_2. eexists.
            apply map_lookup_filter_Some_2; done. }
          lia.
        * rewrite map_lookup_filter_None_2; [simpl; unfold id; lia|].
          right. intros x Hx. simplify_eq. done.
      + rewrite map_lookup_filter_None_2; [simpl; unfold id; lia|]. by left.
Qed.

Lemma refs_delete b (m : gmap positive A) k :
    (refs f b (delete k m) + at_block f b (m !! k) = refs f b m)%nat.
Proof.
    destruct (m !! k) as [v0|] eqn:Hk.
    - pose proof (refs_insert b (delete k m) k v0) as H.
      rewrite insert_delete_eq, insert_id, lookup_delete_eq in H by done.
      simpl in *. lia.
    - rewrite delete_id by done. simpl. lia.
Qed.

Lemma refs_le_size b (m : gmap positive A) : (refs f b m ≤ size m)%nat.
Proof. unfold refs. apply map_subseteq_size, map_filter_subseteq. Qed.

Lemma refs_pos_lookup b (m : gmap positive A) k v :
    m !! k = Some v → f v = Some b → (1 ≤ refs f b m)%nat.
Proof.
    intros Hk Hv. pose proof (refs_delete b m k) as H.
    rewrite Hk in H. simpl in H. rewrite decide_True in H by done. lia.
Qed.
End refs.

Lemma wrap_small z : 0 ≤ z < size_t_modulus → wrap z = z.
Proof. intros. unfold wrap. by apply Z.mod_small. Qed.

Lemma capacity_small (n : nat) : (n ≤ capacity)%nat → Z.of_nat n + 2 < size_t_modulus.
Proof. unfold capacity, size_t_modulus. lia. Qed.

(** Simplify monadic code once the lookups it performs are known. *)
Ltac msimpl :=
  repeat (simpl;
    unfold bind, ret, load, store, delete_block, load_object, store_object,
      remove_object, log_destructor, throw_BadWeakPtr, undefined, set_heap in *;
    simpl;
    repeat match goal with
    | H : ?m !! ?k = _ |- context [?m !! ?k] => rewrite H
    | |- context [<[?k := _]> _ !! ?k] => rewrite lookup_insert_eq
    | H : ?k ≠ ?j |- context [<[?k := _]> _ !! ?j] => rewrite (lookup_insert_ne _ k j) by exact H
    | H : ?j ≠ ?k |- context [<[?k := _]> _ !! ?j] => rewrite (lookup_insert_ne _ k j) by (symmetry; exact H)
    end).

Lemma IncreaseStrongCounter_Some m b p blk :
  heap m !! b = Some blk →
  SharedPtr_IncreaseStrongCounter (SharedPtr.mk (Some b) p) m
  = Ret tt (set_heap (<[b := (IncStrongRef blk).2]> (heap m)) m).
Proof. intros H. unfold SharedPtr_IncreaseStrongCounter. by msimpl. Qed.

Lemma IncreaseWeakCounter_Some m b p fl blk :
  heap m !! b = Some blk →
  WeakPtr_IncreaseWeakCounter (WeakPtr.mk (Some b) p fl) m
  = Ret tt (set_heap (<[b := (IncWeakRef blk).2]> (heap m)) m).
Proof. intros H. unfold WeakPtr_IncreaseWeakCounter. by msimpl. Qed.

(** Facts the invariant gives about a variable in the store. *)
Lemma Inv_strong_block n w h sp b :
  Inv n w → strongs w !! h = Some sp → SharedPtr.control_block_ sp = Some b →
  ∃ blk, heap (mem w) !! b = Some blk ∧ is_destroyed blk = false ∧
         strong_ref_cnt blk = Z.of_nat (refs SharedPtr.control_block_ b (strongs w)) ∧
         (1 ≤ refs SharedPtr.control_block_ b (strongs w))%nat ∧
         weak_ref_cnt blk = Z.of_nat (refs WeakPtr.control_block_ b (weaks w)
                                      + refs Object_block b (objects (mem w))).
Proof.
  intros HI Hh Hb. pose proof (inv_counts _ _ HI b) as Hc.
  pose proof (refs_pos_lookup _ b _ _ _ Hh Hb) as Hpos.
  unfold block_ok in Hc. destruct (heap (mem w) !! b) as [blk|]; [|lia].
  exists blk. destruct Hc as [Hw Hs]. destruct (is_destroyed blk); [lia|].
  naive_solver.
Qed.

Lemma Inv_weak_block n w x wp b :
  Inv n w → weaks w !! x = Some wp → WeakPtr.control_block_ wp = Some b →
  ∃ blk, heap (mem w) !! b = Some blk ∧
         (1 ≤ refs WeakPtr.control_block_ b (weaks w))%nat ∧
         weak_ref_cnt blk = Z.of_nat (refs WeakPtr.control_block_ b (weaks w)
                                      + refs Object_block b (objects (mem w))).
Proof.
  intros HI Hh Hb. pose proof (inv_counts _ _ HI b) as Hc.
  pose proof (refs_pos_lookup _ b _ _ _ Hh Hb) as Hpos.
  unfold block_ok in Hc. destruct (heap (mem w) !! b) as [blk|]; [|lia].
  exists blk. naive_solver.
Qed.

Lemma Inv_bounds n w b :
  Inv n w → (n ≤ capacity)%nat →
  Z.of_nat (refs SharedPtr.control_block_ b (strongs w)
            + refs WeakPtr.control_block_ b (weaks w)
            + refs Object_block b (objects (mem w))) + 2 < size_t_modulus.
Proof.
  intros HI Hn. pose proof (inv_size _ _ HI).
  pose proof (refs_le_size SharedPtr.control_block_ b (strongs w)).
  pose proof (refs_le_size WeakPtr.control_block_ b (weaks w)).
  pose proof (refs_le_size Object_block b (objects (mem w))).
  pose proof (capacity_small n Hn). lia.
Qed.

Lemma Inv_mono n n' w : Inv n w → (n ≤ n')%nat → Inv n' w.
Proof. intros [] ?. constructor; auto. lia. Qed.

Lemma bind_Ret {A B} (c : M A) (k : A → M B) m a m' :
  c m = Ret a m' → bind c k m = k a m'.
Proof. intros H. unfold bind. by rewrite H. Qed.

Lemma bind_Throw {A B} (c : M A) (k : A → M B) m m' :
  c m = Throw m' → bind c k m = Throw m'.
Proof. intros H. unfold bind. by rewrite H. Qed.

Lemma bind_Undefined {A B} (c : M A) (k : A → M B) m :
  c m = Undefined → bind c k m = Undefined.
Proof. intros H. unfold bind. by rewrite H. Qed.

(** Counter updates, deletions and the destroyed mark keep the memory part
    of the invariant. *)
Lemma InvMem_set_heap m h' :
  InvMem m →
  (∀ b blk', h' !! b = Some blk' →
     ∃ blk, heap m !! b = Some blk ∧ kind blk' = kind blk ∧
            (is_destroyed blk' = false → is_destroyed blk = false)) →
  InvMem (set_heap h' m).
Proof.
  intros [] Hh. constructor; simpl; auto.
  - intros b [blk' Hb]. destruct (Hh _ _ Hb) as (blk & ? & _). eauto.
  - intros b blk' p Hb Hd Hp. destruct (Hh _ _ Hb) as (blk & ? & Hk & ?).
    eapply inv_managed0; eauto. unfold GetRawPtr in *. by rewrite <- Hk.
  - intros b1 b2 blk1 blk2 p H1 H2 Hd1 Hd2 Hp1 Hp2.
    destruct (Hh _ _ H1) as (blk1' & ? & Hk1 & ?).
    destruct (Hh _ _ H2) as (blk2' & ? & Hk2 & ?).
    eapply (inv_managed_inj0 b1 b2 blk1' blk2' p); eauto;
      unfold GetRawPtr in *; by rewrite <- ?Hk1, <- ?Hk2.
Qed.

Lemma heap_shape_insert (h : gmap positive ControlBlockBase) b blk blk' :
  h !! b = Some blk → kind blk' = kind blk →
  (is_destroyed blk' = false → is_destroyed blk = false) →
  ∀ b0 blk0, <[b := blk']> h !! b0 = Some blk0 →
    ∃ blk1, h !! b0 = Some blk1 ∧ kind blk0 = kind blk1 ∧
            (is_destroyed blk0 = false → is_destroyed blk1 = false).
Proof.
  intros Hb Hk Hd b0 blk0. rewrite lookup_insert. case_decide; intros ?; simplify_eq; eauto.
Qed.

Lemma at_block_vacant_strong b o :
  vacant_strong o → at_block SharedPtr.control_block_ b o = 0%nat.
Proof.
  intros H. destruct o as [v|]; simpl; [|done].
  rewrite (H v eq_refl). by rewrite decide_False.
Qed.

Lemma at_block_vacant_weak b o :
  vacant_weak o → at_block WeakPtr.control_block_ b o = 0%nat.
Proof.
  intros H. destruct o as [v|]; simpl; [|done].
  rewrite (H v eq_refl). by rewrite decide_False.
Qed.

Lemma size_insert_le {A} (m : gmap positive A) k v : (size (<[k := v]> m) ≤ S (size m))%nat.
Proof. rewrite map_size_insert. destruct (m !! k); simpl; unfold id; lia. Qed.

Lemma size_delete_le {A} (m : gmap positive A) k : (size (delete k m) ≤ size m)%nat.
Proof. rewrite map_size_delete. destruct (m !! k); simpl; unfold id; lia. Qed.

(** A new strong variable (or an empty one that is overwritten) takes one
    unit of the strong count of a live block. *)
Lemma Inv_acquire_strong n w h b p blk :
  Inv n w → (n ≤ capacity)%nat →
  heap (mem w) !! b = Some blk → is_destroyed blk = false →
  vacant_strong (strongs w !! h) →
  Inv (S n) (mkWorld (set_heap (<[b := (IncStrongRef blk).2]> (heap (mem w))) (mem w))
                     (<[h := SharedPtr.mk (Some b) p]> (strongs w)) (weaks w)).
Proof.
  intros HI Hn Hb Hd Hv. constructor; simpl.
  - apply InvMem_set_heap; [apply HI|]. eapply heap_shape_insert; [exact Hb|done|done].
  - intros b0. pose proof (inv_counts _ _ HI b0) as Hc.
    pose proof (refs_insert SharedPtr.control_block_ b0 (strongs w) h (SharedPtr.mk (Some b) p)) as Hr.
    rewrite (at_block_vacant_strong b0 _ Hv) in Hr. simpl in Hr.
    pose proof (Inv_bounds _ _ b0 HI Hn) as Hbd.
    rewrite lookup_insert. destruct (decide (b = b0)) as [->|Hne].
    + rewrite decide_True in Hr by done. rewrite Hb in Hc. simpl in *.
      rewrite Hd in *. destruct Hc as (Hw & Hs & Hpos). split; [done|].
      rewrite wrap_small by lia. lia.
    + rewrite decide_False in Hr by congruence.
      replace (refs SharedPtr.control_block_ b0 (<[h:=SharedPtr.mk (Some b) p]> (strongs w)))
        with (refs SharedPtr.control_block_ b0 (strongs w)) by lia. done.
  - apply HI.
  - pose proof (inv_size _ _ HI). pose proof (size_insert_le (strongs w) h (SharedPtr.mk (Some b) p)). lia.
Qed.

(** Rearranging the strong variables without changing how many of them
    point to each block. *)
Lemma Inv_strongs_same_refs n n' w s' :
  Inv n w →
  (∀ b, refs SharedPtr.control_block_ b s' = refs SharedPtr.control_block_ b (strongs w)) →
  (size s' + size (weaks w) + size (objects (mem w)) ≤ n')%nat →
  Inv n' (mkWorld (mem w) s' (weaks w)).
Proof.
  intros HI Hr Hs. constructor; simpl; [apply HI| |apply HI|done].
  intros b. rewrite Hr. apply HI.
Qed.

Lemma Inv_weaks_same_refs n n' w s' :
  Inv n w →
  (∀ b, refs WeakPtr.control_block_ b s' = refs WeakPtr.control_block_ b (weaks w)) →
  (∀ x wp, s' !! x = Some wp → WeakPtr.is_esft_ptr_ wp = false) →
  (size (strongs w) + size s' + size (objects (mem w)) ≤ n')%nat →
  Inv n' (mkWorld (mem w) (strongs w) s').
Proof.
  intros HI Hr Hf Hs. constructor; simpl; [apply HI| |done|done].
  intros b. rewrite Hr. apply HI.
Qed.

Lemma at_block_None {A} (f : A → option positive) b v :
  f v = None → at_block f b (Some v) = 0%nat.
Proof. intros H. simpl. rewrite H. by rewrite decide_False. Qed.

Lemma Inv_set_vacant_strong n w h sp :
  Inv n w → vacant_strong (strongs w !! h) → SharedPtr.control_block_ sp = None →
  Inv (S n) (mkWorld (mem w) (<[h := sp]> (strongs w)) (weaks w)).
Proof.
  intros HI Hv Hsp. eapply Inv_strongs_same_refs; [done| |].
  - intros b. pose proof (refs_insert SharedPtr.control_block_ b (strongs w) h sp) as Hr.
    rewrite (at_block_vacant_strong _ _ Hv), (at_block_None _ _ _ Hsp) in Hr. lia.
  - pose proof (inv_size _ _ HI). pose proof (size_insert_le (strongs w) h sp). lia.
Qed.

Lemma Inv_delete_vacant_strong n w h :
  Inv n w → vacant_strong (strongs w !! h) →
  Inv n (mkWorld (mem w) (delete h (strongs w)) (weaks w)).
Proof.
  intros HI Hv. eapply Inv_strongs_same_refs; [done| |].
  - intros b. pose proof (refs_delete SharedPtr.control_block_ b (strongs w) h) as Hr.
    rewrite (at_block_vacant_strong _ _ Hv) in Hr. lia.
  - pose proof (inv_size _ _ HI). pose proof (size_delete_le (strongs w) h). lia.
Qed.

Lemma Inv_set_vacant_weak n w x wp :
  Inv n w → vacant_weak (weaks w !! x) → WeakPtr.control_block_ wp = None →
  WeakPtr.is_esft_ptr_ wp = false →
  Inv (S n) (mkWorld (mem w) (strongs w) (<[x := wp]> (weaks w))).
Proof.
  intros HI Hv Hwp Hfl. eapply Inv_weaks_same_refs; [done| | |].
  - intros b. pose proof (refs_insert WeakPtr.control_block_ b (weaks w) x wp) as Hr.
    rewrite (at_block_vacant_weak _ _ Hv), (at_block_None _ _ _ Hwp) in Hr. lia.
  - intros y wp'. rewrite lookup_insert. case_decide; intros ?; simplify_eq; [done|].
    by eapply inv_weak_flags.
  - pose proof (inv_size _ _ HI). pose proof (size_insert_le (weaks w) x wp). lia.
Qed.

Lemma Inv_delete_vacant_weak n w x :
  Inv n w → vacant_weak (weaks w !! x) →
  Inv n (mkWorld (mem w) (strongs w) (delete x (weaks w))).
Proof.
  intros HI Hv. eapply Inv_weaks_same_refs; [done| | |].
  - intros b. pose proof (refs_delete WeakPtr.control_block_ b (weaks w) x) as Hr.
    rewrite (at_block_vacant_weak _ _ Hv) in Hr. lia.
  - intros y wp'. rewrite lookup_delete. case_decide; intros ?; simplify_eq.
    by eapply inv_weak_flags.
  - pose proof (inv_size _ _ HI). pose proof (size_delete_le (weaks w) x). lia.
Qed.

(** A new weak variable (or an empty one that is overwritten) takes one
    unit of the weak count. *)
Lemma Inv_acquire_weak n w x b p blk :
  Inv n w → (n ≤ capacity)%nat →
  heap (mem w) !! b = Some blk →
  vacant_weak (weaks w !! x) →
  Inv (S n) (mkWorld (set_heap (<[b := (IncWeakRef blk).2]> (heap (mem w))) (mem w))
                     (strongs w) (<[x := WeakPtr.mk (Some b) p false]> (weaks w))).
Proof.
  intros HI Hn Hb Hv. constructor; simpl.
  - apply InvMem_set_heap; [apply HI|]. eapply heap_shape_insert; [exact Hb|done|done].
  - intros b0. pose proof (inv_counts _ _ HI b0) as Hc.
    pose proof (refs_insert WeakPtr.control_block_ b0 (weaks w) x (WeakPtr.mk (Some b) p false)) as Hr.
    rewrite (at_block_vacant_weak b0 _ Hv) in Hr. simpl in Hr.
    pose proof (Inv_bounds _ _ b0 HI Hn) as Hbd.
    rewrite lookup_insert. destruct (decide (b = b0)) as [->|Hne].
    + rewrite decide_True in Hr by done. rewrite Hb in Hc. simpl in *.
      destruct Hc as (Hw & Hs). split; [|done].
      rewrite wrap_small by lia. lia.
    + rewrite decide_False in Hr by congruence.
      replace (refs WeakPtr.control_block_ b0 (<[x:=WeakPtr.mk (Some b) p false]> (weaks w)))
        with (refs WeakPtr.control_block_ b0 (weaks w)) by lia. done.
  - intros y wp'. rewrite lookup_insert. case_decide; intros ?; simplify_eq; [done|].
    by eapply inv_weak_flags.
  - pose proof (inv_size _ _ HI).
    pose proof (size_insert_le (weaks w) x (WeakPtr.mk (Some b) p false)). lia.
Qed.

(** A strong variable lets go of its block while other strong variables
    remain. *)
Lemma Inv_drop_strong n w h sp sp' b blk :
  Inv n w → (n ≤ capacity)%nat →
  strongs w !! h = Some sp → SharedPtr.control_block_ sp = Some b →
  heap (mem w) !! b = Some blk →
  SharedPtr.control_block_ sp' = None →
  strong_ref_cnt blk ≠ 1 →
  Inv n (mkWorld (set_heap (<[b := (DecStrongRef blk).2]> (heap (mem w))) (mem w))
                 (<[h := sp']> (strongs w)) (weaks w)).
Proof.
  intros HI Hn Hh Hsp Hb Hsp' Hne. constructor; simpl.
  - apply InvMem_set_heap; [apply HI|]. eapply heap_shape_insert; [exact Hb|done|done].
  - intros b0. pose proof (inv_counts _ _ HI b0) as Hc.
    pose proof (refs_insert SharedPtr.control_block_ b0 (strongs w) h sp') as Hr.
    rewrite Hh, (at_block_None _ _ _ Hsp') in Hr. simpl in Hr. rewrite Hsp in Hr.
    pose proof (Inv_bounds _ _ b0 HI Hn) as Hbd.
    pose proof (refs_pos_lookup _ b _ _ _ Hh Hsp) as Hpos.
    rewrite lookup_insert. destruct (decide (b = b0)) as [->|Hne'].
    + rewrite decide_True in Hr by done. rewrite Hb in Hc. simpl in *.
      destruct Hc as (Hw & Hs). split; [done|].
      destruct (is_destroyed blk); [lia|]. rewrite wrap_small by lia. lia.
    + rewrite decide_False in Hr by congruence.
      replace (refs SharedPtr.control_block_ b0 (<[h:=sp']> (strongs w)))
        with (refs SharedPtr.control_block_ b0 (strongs w)) by lia. done.
  - apply HI.
  - pose proof (inv_size _ _ HI). rewrite map_size_insert_Some by eauto. lia.
Qed.

(** The last strong variable lets go: the block is marked destroyed. *)
Lemma Inv_mark_destroyed n w h sp sp' b blk :
  Inv n w →
  strongs w !! h = Some sp → SharedPtr.control_block_ sp = Some b →
  heap (mem w) !! b = Some blk →
  SharedPtr.control_block_ sp' = None →
  strong_ref_cnt blk = 1 →
  Inv n (mkWorld (set_heap (<[b := mkBlock 0 (weak_ref_cnt blk) true (kind blk)]>
                              (heap (mem w))) (mem w))
                 (<[h := sp']> (strongs w)) (weaks w)).
Proof.
  intros HI Hh Hsp Hb Hsp' Hone. constructor; simpl.
  - apply InvMem_set_heap; [apply HI|]. eapply heap_shape_insert; [exact Hb|done|done].
  - intros b0. pose proof (inv_counts _ _ HI b0) as Hc.
    pose proof (refs_insert SharedPtr.control_block_ b0 (strongs w) h sp') as Hr.
    rewrite Hh, (at_block_None _ _ _ Hsp') in Hr. simpl in Hr. rewrite Hsp in Hr.
    rewrite lookup_insert. destruct (decide (b = b0)) as [->|Hne'].
    + rewrite decide_True in Hr by done. rewrite Hb in Hc. simpl in *.
      destruct Hc as (Hw & Hs). split; [done|].
      destruct (is_destroyed blk); lia.
    + rewrite decide_False in Hr by congruence.
      replace (refs SharedPtr.control_block_ b0 (<[h:=sp']> (strongs w)))
        with (refs SharedPtr.control_block_ b0 (strongs w)) by lia. done.
  - apply HI.
  - pose proof (inv_size _ _ HI). rewrite map_size_insert_Some by eauto. lia.
Qed.

(** A block nothing refers to is freed. *)
Lemma Inv_delete_block n w b blk :
  Inv n w → heap (mem w) !! b = Some blk →
  strong_ref_cnt blk = 0 → weak_ref_cnt blk = 0 →
  Inv n (set_mem (set_heap (delete b (heap (mem w))) (mem w)) w).
Proof.
  intros HI Hb Hs Hw. constructor; simpl; [| |apply HI|apply HI].
  - apply InvMem_set_heap; [apply HI|].
    intros b0 blk0. rewrite lookup_delete. case_decide; intros ?; simplify_eq. eauto.
  - intros b0. pose proof (inv_counts _ _ HI b0) as Hc.
    rewrite lookup_delete. destruct (decide (b = b0)) as [->|Hne']; [|done].
    rewrite Hb in Hc. simpl in *. destruct (is_destroyed blk); lia.
Qed.

(** The weak count of the block a live embedded handle refers to. *)
Lemma Inv_member_block n w a o b :
  Inv n w → objects (mem w) !! a = Some o → Object_block o = Some b →
  ∃ blk, heap (mem w) !! b = Some blk ∧
         (1 ≤ refs Object_block b (objects (mem w)))%nat ∧
         weak_ref_cnt blk = Z.of_nat (refs WeakPtr.control_block_ b (weaks w)
                                      + refs Object_block b (objects (mem w))).
Proof.
  intros HI Hh Hb. pose proof (inv_counts _ _ HI b) as Hc.
  pose proof (refs_pos_lookup _ b _ _ _ Hh Hb) as Hpos.
  unfold block_ok in Hc. destruct (heap (mem w) !! b) as [blk|]; [|lia].
  exists blk. naive_solver.
Qed.

Lemma InvMem_after_destructor m a o h' :
  InvMem m → objects m !! a = Some o → unmanaged a m →
  (∀ b blk', h' !! b = Some blk' →
     ∃ blk, heap m !! b = Some blk ∧ kind blk' = kind blk ∧
            (is_destroyed blk' = false → is_destroyed blk = false)) →
  InvMem (after_destructor a h' m).
Proof.
  intros [] Ha Hun Hh. constructor; simpl.
  - intros b [blk' Hb]. destruct (Hh _ _ Hb) as (blk & ? & _). eauto.
  - intros a0. rewrite lookup_delete. case_decide; [by intros []|]. auto.
  - intros a0. rewrite elem_of_cons, lookup_delete. case_decide; simplify_eq.
    + intros _. split; [eauto|done].
    + intros [?|Hin]; [done|]. by apply inv_log_fresh0.
  - constructor; [|done]. intros Hin. apply inv_log_fresh0 in Hin. naive_solver.
  - intros a0 o0 wt. rewrite lookup_delete. case_decide; [done|]. eauto.
  - intros b blk' p Hb Hd Hp. destruct (Hh _ _ Hb) as (blk & Hblk & Hk & Hd').
    assert (GetRawPtr blk = Some p) as Hp' by (unfold GetRawPtr in *; by rewrite <- Hk).
    rewrite lookup_delete. case_decide; simplify_eq.
    + exfalso. eapply Hun; eauto.
    + eauto.
  - intros b1 b2 blk1 blk2 p H1 H2 Hd1 Hd2 Hp1 Hp2.
    destruct (Hh _ _ H1) as (blk1' & ? & Hk1 & ?).
    destruct (Hh _ _ H2) as (blk2' & ? & Hk2 & ?).
    eapply (inv_managed_inj0 b1 b2 blk1' blk2' p); eauto;
      unfold GetRawPtr in *; by rewrite <- ?Hk1, <- ?Hk2.
Qed.

(** The destructor of an object that no live block manages: it is logged
    once, the embedded handle gives its unit of the weak count back, no
    block is freed. *)
Lemma Inv_destroy_object n w a o :
  Inv n w → (n ≤ capacity)%nat →
  objects (mem w) !! a = Some o → unmanaged a (mem w) →
  ∃ h', destroy_object a (mem w) = Ret tt (after_destructor a h' (mem w)) ∧
        Inv n (set_mem (after_destructor a h' (mem w)) w) ∧
        (∀ b blk, heap (mem w) !! b = Some blk →
           ∃ blk', h' !! b = Some blk' ∧ strong_ref_cnt blk' = strong_ref_cnt blk ∧
                   is_destroyed blk' = is_destroyed blk).
Proof.
  intros HI Hn Ha Hun. unfold destroy_object.
  destruct (weak_this_ o) as [wt|] eqn:Hwt.
  2:{ exists (heap (mem w)). msimpl. rewrite Hwt. msimpl. split_and!.
      - done.
      - constructor; simpl; [| |apply HI|].
        + eapply (InvMem_after_destructor _ _ o); [apply HI|done|done|eauto].
        + intros b. pose proof (inv_counts _ _ HI b) as Hc.
          pose proof (refs_delete Object_block b (objects (mem w)) a) as Hr.
          rewrite Ha in Hr. rewrite at_block_None in Hr by (unfold Object_block; by rewrite Hwt).
          replace (refs Object_block b (delete a (objects (mem w))))
            with (refs Object_block b (objects (mem w))) by lia. done.
        + pose proof (inv_size _ _ HI). pose proof (size_delete_le (objects (mem w)) a). lia.
      - eauto. }
  destruct (WeakPtr.control_block_ wt) as [b|] eqn:Hwb.
  2:{ exists (heap (mem w)). msimpl. rewrite Hwt. unfold WeakPtr_Reset, WeakPtr_DecreaseWeakCounter.
      rewrite Hwb. msimpl. rewrite ?insert_insert_eq, ?delete_insert_eq. split_and!.
      - done.
      - constructor; simpl; [| |apply HI|].
        + eapply (InvMem_after_destructor _ _ o); [apply HI|done|done|eauto].
        + intros b. pose proof (inv_counts _ _ HI b) as Hc.
          pose proof (refs_delete Object_block b (objects (mem w)) a) as Hr.
          rewrite Ha in Hr. rewrite at_block_None in Hr by (unfold Object_block; by rewrite Hwt).
          replace (refs Object_block b (delete a (objects (mem w))))
            with (refs Object_block b (objects (mem w))) by lia. done.
        + pose proof (inv_size _ _ HI). pose proof (size_delete_le (objects (mem w)) a). lia.
      - eauto. }
  assert (Object_block o = Some b) as Hob by (unfold Object_block; by rewrite Hwt).
  destruct (Inv_member_block _ _ _ _ _ HI Ha Hob) as (blk & Hb & Hpos & Hw).
  assert (WeakPtr.is_esft_ptr_ wt = true) as Hfl.
  { eapply (inv_member_flags _ (inv_mem _ _ HI)); eauto. }
  exists (<[b := (DecWeakRef blk).2]> (heap (mem w))).
  msimpl. rewrite Hwt. unfold WeakPtr_Reset, WeakPtr_DecreaseWeakCounter.
  rewrite Hwb, Hfl. msimpl. rewrite ?insert_insert_eq, ?delete_insert_eq. split_and!.
  - done.
  - constructor; simpl; [| |apply HI|].
    + eapply (InvMem_after_destructor _ _ o); [apply HI|done|done|].
      eapply heap_shape_insert; [exact Hb|done|done].
    + intros b0. pose proof (inv_counts _ _ HI b0) as Hc.
      pose proof (refs_delete Object_block b0 (objects (mem w)) a) as Hr.
      rewrite Ha in Hr. simpl in Hr. rewrite Hob in Hr.
      pose proof (Inv_bounds _ _ b0 HI Hn) as Hbd.
      rewrite lookup_insert. destruct (decide (b = b0)) as [->|Hne'].
      * rewrite decide_True in Hr by done. rewrite Hb in Hc. simpl in *.
        destruct Hc as (Hw' & Hs). split; [|done].
        rewrite wrap_small by lia. lia.
      * rewrite decide_False in Hr by congruence.
        replace (refs Object_block b0 (delete a (objects (mem w))))
          with (refs Object_block b0 (objects (mem w))) by lia. done.
    + pose proof (inv_size _ _ HI). pose proof (size_delete_le (objects (mem w)) a). lia.
  - intros b0 blk0 Hb0. rewrite lookup_insert. case_decide; simplify_eq; eauto.
Qed.

Lemma Inv_weak_bound n w b blk :
  Inv n w → (n ≤ capacity)%nat → heap (mem w) !! b = Some blk →
  0 ≤ weak_ref_cnt blk ∧ 0 ≤ strong_ref_cnt blk ∧
  strong_ref_cnt blk + weak_ref_cnt blk + 2 < size_t_modulus.
Proof.
  intros HI Hn Hb. pose proof (inv_counts _ _ HI b) as Hc.
  pose proof (Inv_bounds _ _ b HI Hn). rewrite Hb in Hc. simpl in Hc.
  destruct (is_destroyed blk); lia.
Qed.

(** After the destructor ran, [DecreaseStrongCounter] frees the block when
    its combined count is zero. *)
Lemma Inv_maybe_delete n w b blk :
  Inv n w → (n ≤ capacity)%nat → heap (mem w) !! b = Some blk →
  ∃ m', (if CanDeleteControlBlock blk then delete_block b else ret tt) (mem w) = Ret tt m' ∧
        Inv n (set_mem m' w) ∧ dtor_log m' = dtor_log (mem w).
Proof.
  intros HI Hn Hb. destruct (Inv_weak_bound _ _ _ _ HI Hn Hb) as (? & ? & ?).
  unfold CanDeleteControlBlock, GetAllCounter. rewrite wrap_small by lia.
  destruct (Z.eqb_spec (strong_ref_cnt blk + weak_ref_cnt blk) 0).
  - msimpl. eexists. split_and!; [done| |done].
    eapply Inv_delete_block; eauto; lia.
  - msimpl. eexists. split_and!; [done| |done]. by destruct w.
Qed.

Lemma Inv_release_strong n w h sp sp' :
  Inv n w → (n ≤ capacity)%nat →
  strongs w !! h = Some sp → SharedPtr.control_block_ sp' = None →
  ∃ m', SharedPtr_DecreaseStrongCounter sp (mem w) = Ret tt m' ∧
        Inv n (mkWorld m' (<[h := sp']> (strongs w)) (weaks w)) ∧
        dtor_log m' = option_list (released_object (mem w) sp) ++ dtor_log (mem w).
Proof.
  intros HI Hn Hh Hsp'. unfold SharedPtr_DecreaseStrongCounter, released_object.
  destruct (SharedPtr.control_block_ sp) as [b|] eqn:Hsp.
  2:{ exists (mem w). split_and!; [done| |done].
      eapply Inv_mono; [eapply Inv_strongs_same_refs; [exact HI| |reflexivity]|]; simpl.
      - intros b. pose proof (refs_insert SharedPtr.control_block_ b (strongs w) h sp') as Hr.
        rewrite Hh, !at_block_None in Hr by done. lia.
      - pose proof (inv_size _ _ HI). rewrite map_size_insert_Some by eauto. lia. }
  destruct (Inv_strong_block _ _ _ _ _ HI Hh Hsp) as (blk & Hb & Hd & Hs & Hpos & Hw).
  pose proof (Inv_bounds _ _ b HI Hn) as Hbd.
  rewrite Hb.
  destruct (Z.eqb_spec (strong_ref_cnt blk) 1) as [Hone|Hne].
  2:{ msimpl. unfold GetStrongCounter. simpl.
      destruct (Z.eqb_spec (wrap (strong_ref_cnt blk - 1)) 0) as [E0|E0];
        [rewrite wrap_small in E0 by lia; lia|]. msimpl.
      eexists. split_and!; [done| |done].
      exact (Inv_drop_strong n w h sp sp' b blk HI Hn Hh Hsp Hb Hsp' Hne). }
  pose proof (Inv_mark_destroyed _ _ _ _ _ _ _ HI Hh Hsp Hb Hsp' Hone) as HI1.
  msimpl. unfold GetStrongCounter. simpl. rewrite Hone. simpl.
  unfold Destroy. msimpl. rewrite Hd. simpl. msimpl. rewrite insert_insert_eq.
  set (heap1 := <[b := mkBlock 0 (weak_ref_cnt blk) true (kind blk)]> (heap (mem w))) in *.
  set (w1 := mkWorld (mkMemory heap1 (objects (mem w)) (dtor_log (mem w))
                       (next_block (mem w)) (next_addr (mem w)))
                     (<[h:=sp']> (strongs w)) (weaks w)) in *.
  assert (heap (mem w1) !! b = Some (mkBlock 0 (weak_ref_cnt blk) true (kind blk))) as Hb1.
  { simpl. unfold heap1. by rewrite lookup_insert_eq. }
  assert (∀ p, GetRawPtr blk = Some p →
    ∃ m', bind (destroy_object p) (λ _, bind (load b) (λ blk2,
            if CanDeleteControlBlock blk2 then delete_block b else ret tt)) (mem w1)
          = Ret tt m' ∧ Inv n (set_mem m' w1) ∧
          dtor_log m' = p :: dtor_log (mem w)) as Hobj.
  { intros p Hp.
    destruct (inv_managed _ (inv_mem _ _ HI) _ _ _ Hb Hd Hp) as [o Ho].
    assert (unmanaged p (mem w1)) as Hun.
    { intros b0 blk0 Hb0 Hd0 Hp0. simpl in Hb0. unfold heap1 in Hb0.
      rewrite lookup_insert in Hb0. case_decide; simplify_eq.
      assert (b0 = b); [|done].
      eapply (inv_managed_inj _ (inv_mem _ _ HI)); eauto. }
    destruct (Inv_destroy_object _ w1 p o HI1 Hn Ho Hun) as (h' & Heq & HI2 & Hsame).
    destruct (Hsame _ _ Hb1) as (blk' & Hb' & Hs' & Hd').
    unfold bind at 1. rewrite Heq.
    unfold bind at 1. unfold load at 1. simpl. rewrite Hb'.
    destruct (Inv_maybe_delete _ _ b blk' HI2 Hn) as (m' & Hm' & HI3 & Hlog); [done|].
    simpl in Hm'. exists m'. split_and!; [done|done|]. by rewrite Hlog. }
  destruct (kind blk) as [[p|]|p] eqn:Hk.
  - destruct (Hobj p) as (m' & Hm' & HI3 & Hlog). { unfold GetRawPtr. by rewrite Hk. }
    exists m'. split_and!; [exact Hm'|exact HI3|].
    rewrite Hlog. unfold GetRawPtr. by rewrite Hk.
  - destruct (Inv_maybe_delete _ _ b _ HI1 Hn Hb1) as (m' & Hm' & HI3 & Hlog).
    exists m'. split_and!; [|exact HI3|].
    + simpl. unfold heap1 at 1. rewrite lookup_insert_eq.
      unfold delete_block, ret in Hm'. exact Hm'.
    + rewrite Hlog. unfold GetRawPtr. by rewrite Hk.
  - destruct (Hobj p) as (m' & Hm' & HI3 & Hlog). { unfold GetRawPtr. by rewrite Hk. }
    exists m'. split_and!; [exact Hm'|exact HI3|].
    rewrite Hlog. unfold GetRawPtr. by rewrite Hk.
Qed.

(** A weak variable lets go of its block. *)
Lemma Inv_drop_weak n w x wp wp' b blk :
  Inv n w → (n ≤ capacity)%nat →
  weaks w !! x = Some wp → WeakPtr.control_block_ wp = Some b →
  heap (mem w) !! b = Some blk →
  WeakPtr.control_block_ wp' = None → WeakPtr.is_esft_ptr_ wp' = false →
  Inv n (mkWorld (set_heap (<[b := (DecWeakRef blk).2]> (heap (mem w))) (mem w))
                 (strongs w) (<[x := wp']> (weaks w))).
Proof.
  intros HI Hn Hh Hwp Hb Hwp' Hfl. constructor; simpl.
  - apply InvMem_set_heap; [apply HI|]. eapply heap_shape_insert; [exact Hb|done|done].
  - intros b0. pose proof (inv_counts _ _ HI b0) as Hc.
    pose proof (refs_insert WeakPtr.control_block_ b0 (weaks w) x wp') as Hr.
    rewrite Hh, (at_block_None _ _ _ Hwp') in Hr. simpl in Hr. rewrite Hwp in Hr.
    pose proof (Inv_bounds _ _ b0 HI Hn) as Hbd.
    pose proof (refs_pos_lookup _ b _ _ _ Hh Hwp) as Hpos.
    rewrite lookup_insert. destruct (decide (b = b0)) as [->|Hne'].
    + rewrite decide_True in Hr by done. rewrite Hb in Hc. simpl in *.
      destruct Hc as (Hw & Hs). split; [|done].
      rewrite wrap_small by lia. lia.
    + rewrite decide_False in Hr by congruence.
      replace (refs WeakPtr.control_block_ b0 (<[x:=wp']> (weaks w)))
        with (refs WeakPtr.control_block_ b0 (weaks w)) by lia. done.
  - intros y wp0. rewrite lookup_insert. case_decide; intros ?; simplify_eq; [done|].
    by eapply inv_weak_flags.
  - pose proof (inv_size _ _ HI). rewrite map_size_insert_Some by eauto. lia.
Qed.

Lemma Inv_release_weak n w x wp wp' :
  Inv n w → (n ≤ capacity)%nat →
  weaks w !! x = Some wp →
  WeakPtr.control_block_ wp' = None → WeakPtr.is_esft_ptr_ wp' = false →
  ∃ m', WeakPtr_DecreaseWeakCounter wp (mem w) = Ret tt m' ∧
        Inv n (mkWorld m' (strongs w) (<[x := wp']> (weaks w))) ∧
        dtor_log m' = dtor_log (mem w).
Proof.
  intros HI Hn Hh Hwp' Hfl'. unfold WeakPtr_DecreaseWeakCounter.
  destruct (WeakPtr.control_block_ wp) as [b|] eqn:Hwp.
  2:{ exists (mem w). split_and!; [done| |done].
      eapply Inv_weaks_same_refs; [exact HI| | |]; simpl.
      - intros b. pose proof (refs_insert WeakPtr.control_block_ b (weaks w) x wp') as Hr.
        rewrite Hh, !at_block_None in Hr by done. lia.
      - intros y wp0. rewrite lookup_insert. case_decide; intros ?; simplify_eq; [done|].
        by eapply inv_weak_flags.
      - pose proof (inv_size _ _ HI). rewrite map_size_insert_Some by eauto. lia. }
  destruct (Inv_weak_block _ _ _ _ _ HI Hh Hwp) as (blk & Hb & Hpos & Hw).
  pose proof (Inv_drop_weak _ _ _ _ _ _ _ HI Hn Hh Hwp Hb Hwp' Hfl') as HI1.
  rewrite (inv_weak_flags _ _ HI _ _ Hh).
  destruct (Inv_maybe_delete _ _ b (DecWeakRef blk).2 HI1 Hn) as (m' & Hm' & HI2 & Hlog).
  { simpl. by rewrite lookup_insert_eq. }
  exists m'. split_and!; [|exact HI2|exact Hlog].
  msimpl. exact Hm'.
Qed.

Lemma InvMem_heap_next m : InvMem m → heap m !! next_block m = None.
Proof.
  intros HI. destruct (heap m !! next_block m) eqn:E; [|done].
  pose proof (inv_heap_fresh _ HI (next_block m) (mk_is_Some _ _ E)). lia.
Qed.

Lemma InvMem_objects_next m : InvMem m → objects m !! next_addr m = None.
Proof.
  intros HI. destruct (objects m !! next_addr m) eqn:E; [|done].
  pose proof (inv_objects_fresh _ HI (next_addr m) (mk_is_Some _ _ E)). lia.
Qed.

(** [new T]: a fresh object, managed by nobody yet. *)
Lemma Inv_new_object n w o :
  Inv n w → Object_block o = None →
  let m' := mkMemory (heap (mem w)) (<[next_addr (mem w) := o]> (objects (mem w)))
                     (dtor_log (mem w)) (next_block (mem w))
                     (Pos.succ (next_addr (mem w))) in
  Inv (S n) (set_mem m' w) ∧ unmanaged (next_addr (mem w)) m'.
Proof.
  intros HI Ho m'. pose proof (inv_mem _ _ HI) as HM.
  pose proof (InvMem_objects_next _ HM) as Hfresh.
  assert (unmanaged (next_addr (mem w)) m') as Hun.
  { intros b blk Hb Hd Hp. simpl in Hb.
    destruct (inv_managed _ HM _ _ _ Hb Hd Hp) as [? ?]. congruence. }
  split; [|done]. constructor; simpl.
  - destruct HM. constructor; simpl; auto.
    + intros a. rewrite lookup_insert. case_decide; simplify_eq; [lia|].
      intros Ha. apply inv_objects_fresh0 in Ha. lia.
    + intros a Ha. destruct (inv_log_fresh0 a Ha) as [Hlt Hn].
      split; [lia|]. rewrite lookup_insert_ne; [done|]. lia.
    + intros a o0 wt. rewrite lookup_insert. case_decide; simplify_eq; [|eauto].
      intros ? Hwt [b Hb]. simplify_eq. unfold Object_block in Ho.
      rewrite Hwt in Ho. congruence.
    + intros b blk p Hb Hd Hp. rewrite lookup_insert. case_decide; [eauto|]. eauto.
  - intros b. pose proof (inv_counts _ _ HI b) as Hc.
    pose proof (refs_insert Object_block b (objects (mem w)) (next_addr (mem w)) o) as Hr.
    rewrite Hfresh, at_block_None in Hr by done. simpl in Hr.
    replace (refs Object_block b (<[next_addr (mem w):=o]> (objects (mem w))))
      with (refs Object_block b (objects (mem w))) by lia. done.
  - apply HI.
  - pose proof (inv_size _ _ HI).
    pose proof (size_insert_le (objects (mem w)) (next_addr (mem w)) o). lia.
Qed.

(** A fresh control block with its first strong variable. *)
Lemma Inv_new_block n w h k p :
  Inv n w → vacant_strong (strongs w !! h) →
  (∀ q, GetRawPtr (mkBlock 1 0 false k) = Some q →
        is_Some (objects (mem w) !! q) ∧ unmanaged q (mem w)) →
  Inv (S n) (mkWorld (mkMemory (<[next_block (mem w) := mkBlock 1 0 false k]> (heap (mem w)))
                               (objects (mem w)) (dtor_log (mem w))
                               (Pos.succ (next_block (mem w))) (next_addr (mem w)))
                     (<[h := SharedPtr.mk (Some (next_block (mem w))) p]> (strongs w))
                     (weaks w)).
Proof.
  intros HI Hv Hk. pose proof (inv_mem _ _ HI) as HM.
  pose proof (InvMem_heap_next _ HM) as Hfresh.
  constructor; simpl.
  - destruct HM. constructor; simpl; auto.
    + intros b. rewrite lookup_insert. case_decide; simplify_eq; [lia|].
      intros Hb. apply inv_heap_fresh0 in Hb. lia.
    + intros b blk q. rewrite lookup_insert. case_decide; simplify_eq; [|eauto].
      intros ? _ Hq. simplify_eq. by apply Hk.
    + intros b1 b2 blk1 blk2 q. rewrite !lookup_insert.
      repeat case_decide; simplify_eq; try done.
      * intros ? H2 _ Hd2 Hq Hq2. simplify_eq. destruct (Hk q Hq) as [_ Hun].
        exfalso. eapply Hun; eauto.
      * intros H1 ? Hd1 _ Hq1 Hq. simplify_eq. destruct (Hk q Hq) as [_ Hun].
        exfalso. eapply Hun; eauto.
      * eauto.
  - intros b0. pose proof (inv_counts _ _ HI b0) as Hc.
    pose proof (refs_insert SharedPtr.control_block_ b0 (strongs w) h
                  (SharedPtr.mk (Some (next_block (mem w))) p)) as Hr.
    rewrite (at_block_vacant_strong b0 _ Hv) in Hr. simpl in Hr.
    rewrite lookup_insert. destruct (decide (next_block (mem w) = b0)) as [<-|Hne].
    + rewrite decide_True in Hr by done. rewrite Hfresh in Hc. simpl in *. lia.
    + rewrite decide_False in Hr by congruence.
      replace (refs SharedPtr.control_block_ b0
                 (<[h:=SharedPtr.mk (Some (next_block (mem w))) p]> (strongs w)))
        with (refs SharedPtr.control_block_ b0 (strongs w)) by lia. done.
  - apply HI.
  - pose proof (inv_size _ _ HI).
    pose proof (size_insert_le (strongs w) h (SharedPtr.mk (Some (next_block (mem w))) p)). lia.
Qed.

(** Replacing the embedded handle of a live object. *)
Lemma InvMem_set_object m a o o' h' :
  InvMem m → objects m !! a = Some o →
  (∀ wt, weak_this_ o' = Some wt → is_Some (WeakPtr.control_block_ wt) →
         WeakPtr.is_esft_ptr_ wt = true) →
  (∀ b blk', h' !! b = Some blk' →
     ∃ blk, heap m !! b = Some blk ∧ kind blk' = kind blk ∧
            (is_destroyed blk' = false → is_destroyed blk = false)) →
  InvMem (mkMemory h' (<[a := o']> (objects m)) (dtor_log m) (next_block m) (next_addr m)).
Proof.
  intros [] Ha Hfl Hh. constructor; simpl; auto.
  - intros b [blk' Hb]. destruct (Hh _ _ Hb) as (blk & ? & _). eauto.
  - intros a0. rewrite lookup_insert. case_decide; simplify_eq; eauto.
  - intros a0 Hin. destruct (inv_log_fresh0 a0 Hin) as [? Hn]. split; [done|].
    rewrite lookup_insert_ne; [done|]. congruence.
  - intros a0 o0 wt. rewrite lookup_insert. case_decide; simplify_eq; [|eauto].
    intros ?; simplify_eq. eauto.
  - intros b blk' p Hb Hd Hp. destruct (Hh _ _ Hb) as (blk & Hblk & Hk & Hd').
    assert (GetRawPtr blk = Some p) as Hp' by (unfold GetRawPtr in *; by rewrite <- Hk).
    rewrite lookup_insert. case_decide; simplify_eq; eauto.
  - intros b1 b2 blk1 blk2 p H1 H2 Hd1 Hd2 Hp1 Hp2.
    destruct (Hh _ _ H1) as (blk1' & ? & Hk1 & ?).
    destruct (Hh _ _ H2) as (blk2' & ? & Hk2 & ?).
    eapply (inv_managed_inj0 b1 b2 blk1' blk2' p); eauto;
      unfold GetRawPtr in *; by rewrite <- ?Hk1, <- ?Hk2.
Qed.

Lemma Inv_InitWeakThis n w b p a o wt blk :
  Inv n w → (n ≤ capacity)%nat →
  heap (mem w) !! b = Some blk →
  objects (mem w) !! a = Some o → weak_this_ o = Some wt →
  ∃ m', SharedPtr_InitWeakThis (SharedPtr.mk (Some b) p) (Some a) (mem w) = Ret tt m' ∧
        Inv n (set_mem m' w) ∧ dtor_log m' = dtor_log (mem w).
Proof.
  intros HI Hn Hb Ha Hwt. pose proof (inv_mem _ _ HI) as HM.
  unfold SharedPtr_InitWeakThis. msimpl. rewrite Hwt.
  unfold WeakPtr_from_shared, WeakPtr_IncreaseWeakCounter. msimpl.
  unfold WeakPtr_move_assign, WeakPtr_Reset, WeakPtr_DecreaseWeakCounter. simpl.
  destruct (WeakPtr.control_block_ wt) as [b0|] eqn:Hwb.
  2:{ msimpl. rewrite ?insert_insert_eq.
      eexists. split_and!; [done| |done].
      constructor; simpl; [| |apply HI|].
      - eapply (InvMem_set_object _ _ o); [done|done| |].
        + intros wt' Hx _. simpl in Hx. injection Hx as <-. reflexivity.
        + eapply heap_shape_insert; [exact Hb|done|done].
      - intros b1. pose proof (inv_counts _ _ HI b1) as Hc.
        pose proof (refs_insert Object_block b1 (objects (mem w)) a 
          (mkObject (Some (WeakPtr_MakeEsftPtr (WeakPtr.mk (Some b) p (WeakPtr.is_esft_ptr_ wt)))))) as Hr.
        rewrite Ha in Hr. rewrite (at_block_None _ _ o) in Hr by (unfold Object_block; by rewrite Hwt).
        unfold at_block in Hr.
        change (Object_block _) with (Some b) in Hr.
        pose proof (Inv_bounds _ _ b1 HI Hn) as Hbd.
        unfold WeakPtr_MakeEsftPtr in *. simpl in *.
        rewrite lookup_insert. destruct (decide (b = b1)) as [->|Hne'].
        + rewrite decide_True in Hr by done. rewrite Hb in Hc. simpl in *.
          destruct Hc as (Hw' & Hs). split; [|done].
          rewrite wrap_small by lia. lia.
        + rewrite decide_False in Hr by congruence.
          match goal with |- block_ok _ _ _ ?x => 
            replace x with (refs Object_block b1 (objects (mem w))) by lia end. done.
      - pose proof (inv_size _ _ HI). rewrite map_size_insert_Some by eauto. lia. }
  assert (Object_block o = Some b0) as Hob by (unfold Object_block; by rewrite Hwt).
  destruct (Inv_member_block _ _ _ _ _ HI Ha Hob) as (blk0 & Hb0 & Hpos & Hw).
  assert (WeakPtr.is_esft_ptr_ wt = true) as Hfl.
  { eapply (inv_member_flags _ HM); eauto. }
  rewrite Hfl.
  assert (∃ blk1, <[b:=(IncWeakRef blk).2]> (heap (mem w)) !! b0 = Some blk1 ∧
            kind blk1 = kind blk0 ∧ is_destroyed blk1 = is_destroyed blk0 ∧
            strong_ref_cnt blk1 = strong_ref_cnt blk0 ∧
            weak_ref_cnt blk1 = if decide (b = b0) then wrap (weak_ref_cnt blk0 + 1)
                                else weak_ref_cnt blk0) as (blk1 & Hb1 & Hk1 & Hd1 & Hs1 & Hw1).
  { rewrite lookup_insert. case_decide; simplify_eq; eexists; split_and!; try done. }
  msimpl. simpl in Hb1. rewrite Hb1. msimpl. rewrite ?insert_insert_eq.
  eexists. split_and!; [done| |done].
  constructor; simpl; [| |apply HI|].
  - eapply (InvMem_set_object _ _ o); [done|done| |].
    + intros wt' Hx _. simpl in Hx. injection Hx as <-. reflexivity.
    + intros b2 blk2. rewrite !lookup_insert. repeat case_decide; intros ?; simplify_eq; simpl; eauto.
  - intros b1'. pose proof (inv_counts _ _ HI b1') as Hc.
    pose proof (refs_insert Object_block b1' (objects (mem w)) a 
          (mkObject (Some (WeakPtr_MakeEsftPtr (WeakPtr.mk (Some b) p true))))) as Hr.
    rewrite Ha in Hr. unfold at_block in Hr. rewrite Hob in Hr.
    change (Object_block _) with (Some b) in Hr.
    pose proof (Inv_bounds _ _ b1' HI Hn) as Hbd.
    unfold WeakPtr_MakeEsftPtr in *. simpl in *.
    rewrite !lookup_insert.
    destruct (decide (b0 = b1')) as [->|Hne0]; destruct (decide (b = b1')) as [->|Hne];
      simpl in *;
      repeat (first [rewrite decide_True in Hr by congruence
                    |rewrite decide_False in Hr by congruence]).
    + rewrite ?decide_True in Hw1 by done. rewrite Hw1.
      rewrite Hb0 in Hc. simpl in Hc. rewrite Hd1, Hs1.
      destruct Hc as (Hw' & Hs). split; [|done].
      rewrite (wrap_small (weak_ref_cnt blk0 + 1)) by lia. rewrite wrap_small by lia. lia.
    + rewrite ?decide_False in Hw1 by done. rewrite Hw1.
      rewrite Hb0 in Hc. simpl in Hc. rewrite Hd1, Hs1.
      destruct Hc as (Hw' & Hs). split; [|done].
      rewrite wrap_small by lia. lia.
    + rewrite Hb in Hc. simpl in Hc.
      destruct Hc as (Hw' & Hs). split; [|done].
      rewrite wrap_small by lia. lia.
    + match goal with |- block_ok _ _ _ ?x => 
            replace x with (refs Object_block b1' (objects (mem w))) by lia end. done.
  - pose proof (inv_size _ _ HI). rewrite map_size_insert_Some by eauto. lia.
Qed.

Lemma refs_exchange {A} (f : A → option positive) b (m : gmap positive A) h s a c a' c' :
  m !! h = Some a → m !! s = Some c →
  f a' = f c → f c' = f a →
  refs f b (<[h := a']> (<[s := c']> m)) = refs f b m.
Proof.
  intros Hh Hs Ha' Hc'.
  pose proof (refs_insert f b m s c') as H1.
  pose proof (refs_insert f b (<[s := c']> m) h a') as H2.
  rewrite Hs in H1. rewrite lookup_insert in H2.
  unfold at_block in *. rewrite Ha', Hc' in *.
  case_decide; simplify_eq.
  - rewrite Hc' in *. lia.
  - rewrite Hh in H2. lia.
Qed.

Lemma size_exchange {A} (m : gmap positive A) h s a c a' c' :
  m !! h = Some a → m !! s = Some c →
  size (<[h := a']> (<[s := c']> m)) = size m.
Proof.
  intros Hh Hs. rewrite map_size_insert_Some.
  - rewrite map_size_insert_Some; eauto.
  - rewrite lookup_insert. case_decide; eauto.
Qed.

(** Handing a block from one strong variable to another. *)
Lemma refs_transfer {A} (f : A → option positive) b (m : gmap positive A) h s c a' c' :
  m !! h = None → m !! s = Some c →
  f a' = f c → f c' = None →
  refs f b (<[h := a']> (<[s := c']> m)) = refs f b m.
Proof.
  intros Hh Hs Ha' Hc'.
  assert (s ≠ h) by congruence.
  pose proof (refs_insert f b m s c') as H1.
  pose proof (refs_insert f b (<[s := c']> m) h a') as H2.
  rewrite Hs in H1. rewrite lookup_insert_ne, Hh in H2 by done.
  rewrite (at_block_None f b c') in H1 by done.
  unfold at_block in *. rewrite Ha' in *. lia.
Qed.

Lemma size_transfer {A} (m : gmap positive A) h s c a' c' :
  m !! s = Some c →
  (size (<[h := a']> (<[s := c']> m)) ≤ S (size m))%nat.
Proof.
  intros Hs. pose proof (size_insert_le (<[s := c']> m) h a') as H.
  rewrite (map_size_insert_Some s c' m) in H by eauto. done.
Qed.

Lemma declare_strong_Some h c w w' :
  declare_strong h c w = Some w' →
  strongs w !! h = None ∧
  ((∃ sp m, c (mem w) = Ret sp m ∧ w' = mkWorld m (<[h := sp]> (strongs w)) (weaks w)) ∨
   (∃ m, c (mem w) = Throw m ∧ w' = mkWorld m (strongs w) (weaks w))).
Proof.
  unfold declare_strong. destruct (strongs w !! h); [done|].
  destruct (c (mem w)) as [sp m|m|]; intros ?; simplify_eq;
    (split; [done|]); [left|right]; eauto.
Qed.

Lemma declare_weak_Some x c w w' :
  declare_weak x c w = Some w' →
  weaks w !! x = None ∧
  ((∃ wp m, c (mem w) = Ret wp m ∧ w' = mkWorld m (strongs w) (<[x := wp]> (weaks w))) ∨
   (∃ m, c (mem w) = Throw m ∧ w' = mkWorld m (strongs w) (weaks w))).
Proof.
  unfold declare_weak. destruct (weaks w !! x); [done|].
  destruct (c (mem w)) as [wp m|m|]; intros ?; simplify_eq;
    (split; [done|]); [left|right]; eauto.
Qed.

Lemma good_same_log n w w' :
  Inv (n + 2) w' → dtor_log (mem w') = dtor_log (mem w) → good n w w'.
Proof. intros ? Hl. split; [done|]. by rewrite Hl. Qed.

Lemma vacant_strong_None : vacant_strong None.
Proof. by intros ?. Qed.
Lemma vacant_weak_None : vacant_weak None.
Proof. by intros ?. Qed.
Lemma vacant_strong_Some sp : SharedPtr.control_block_ sp = None → vacant_strong (Some sp).
Proof. intros ? ? ?. by simplify_eq. Qed.
Lemma vacant_weak_Some wp : WeakPtr.control_block_ wp = None → vacant_weak (Some wp).
Proof. intros ? ? ?. by simplify_eq. Qed.

Section steps_acquire.
Context (n : nat) (w w' : World).
Context (HI : Inv n w) (Hn : (n + 2 ≤ capacity)%nat).

Lemma step_SDefault h : step (SDefault h) w = Some w' → good n w w'.
Proof using HI Hn.
  simpl. intros (Hh & [(sp & m & Hc & ->)|(m & Hc & ->)])%declare_strong_Some; [|done].
  unfold ret in Hc. simplify_eq. apply good_same_log; [|done].
  eapply Inv_mono; [eapply Inv_set_vacant_strong; eauto|lia].
  rewrite Hh. apply vacant_strong_None.
Qed.

(** Taking a unit of the strong count of a live block for the new
    variable [h]. *)
Lemma acquire_strong_block h b q p blk :
  strongs w !! h = None → heap (mem w) !! b = Some blk → is_destroyed blk = false →
  ∃ m, (SharedPtr_IncreaseStrongCounter (SharedPtr.mk (Some b) q) ;;;
        ret (SharedPtr.mk (Some b) p)) (mem w) = Ret (SharedPtr.mk (Some b) p) m ∧
       Inv (S n) (mkWorld m (<[h := SharedPtr.mk (Some b) p]> (strongs w)) (weaks w)) ∧
       dtor_log m = dtor_log (mem w) ∧ objects m = objects (mem w) ∧
       is_Some (heap m !! b).
Proof using HI Hn.
  intros Hh Hblk Hd. unfold bind. erewrite (IncreaseStrongCounter_Some _ _ _ blk) by done.
  eexists; split_and!; [done| |done|done|].
  - eapply Inv_acquire_strong; eauto; [lia|]. rewrite Hh. apply vacant_strong_None.
  - simpl. rewrite lookup_insert_eq. eauto.
Qed.

Lemma acquire_from_strong h other q p :
  strongs w !! h = None →
  (∃ src, strongs w !! src = Some other) →
  ∃ m, (SharedPtr_IncreaseStrongCounter
          (SharedPtr.mk (SharedPtr.control_block_ other) q) ;;;
        ret (SharedPtr.mk (SharedPtr.control_block_ other) p)) (mem w)
       = Ret (SharedPtr.mk (SharedPtr.control_block_ other) p) m ∧
       good n w (mkWorld m (<[h := SharedPtr.mk (SharedPtr.control_block_ other) p]> (strongs w))
                   (weaks w)).
Proof using HI Hn.
  intros Hh [src Hsrc]. destruct (SharedPtr.control_block_ other) as [b|] eqn:Hb.
  - destruct (Inv_strong_block _ _ _ _ _ HI Hsrc Hb) as (blk & Hblk & Hd & _).
    destruct (acquire_strong_block h b q p blk Hh Hblk Hd) as (m & Hm & HIm & Hl & _).
    exists m. split; [done|]. apply good_same_log; [|done]. eapply Inv_mono; [done|lia].
  - eexists; split; [done|]. apply good_same_log; [|done].
    eapply Inv_mono; [eapply Inv_set_vacant_strong; eauto|lia].
    rewrite Hh. apply vacant_strong_None.
Qed.

Lemma step_SCopy h src : step (SCopy h src) w = Some w' → good n w w'.
Proof using HI Hn.
  simpl. destruct (strongs w !! src) as [other|] eqn:Hsrc; simpl; [|done].
  intros (Hh & Hc)%declare_strong_Some.
  destruct (acquire_from_strong h other (SharedPtr.ptr_ other) (SharedPtr.ptr_ other) Hh)
    as (m & Hm & Hg); [eauto|].
  unfold SharedPtr_copy in Hc. rewrite Hm in Hc.
  destruct Hc as [(sp & m' & ? & ->)|(m' & ? & ->)]; by simplify_eq.
Qed.

Lemma step_SAlias h src p : step (SAlias h src p) w = Some w' → good n w w'.
Proof using HI Hn.
  simpl. destruct (strongs w !! src) as [other|] eqn:Hsrc; simpl; [|done].
  intros (Hh & Hc)%declare_strong_Some.
  destruct (acquire_from_strong h other None p Hh) as (m & Hm & Hg); [eauto|].
  unfold SharedPtr_alias in Hc. rewrite Hm in Hc.
  destruct Hc as [(sp & m' & ? & ->)|(m' & ? & ->)]; by simplify_eq.
Qed.

Lemma step_SMove h src : step (SMove h src) w = Some w' → good n w w'.
Proof using HI Hn.
  simpl. destruct (strongs w !! src) as [other|] eqn:Hsrc; simpl; [|done].
  destruct (strongs w !! h) eqn:Hh; [done|]. intros ?; simplify_eq.
  apply good_same_log; [|done].
  eapply Inv_strongs_same_refs; [exact HI| |]; simpl.
  - intros b. eapply refs_transfer; eauto.
  - pose proof (inv_size _ _ HI).
    match goal with |- context [size (<[?k:=?v]> (<[?k2 := ?v2]> ?m))] =>
      pose proof (size_transfer m k k2 other v v2 Hsrc) end. lia.
Qed.

Lemma step_SSwap h other : step (SSwap h other) w = Some w' → good n w w'.
Proof using HI Hn.
  simpl. destruct (strongs w !! h) as [this|] eqn:Hh; simpl; [|done].
  destruct (strongs w !! other) as [that|] eqn:Ho; simpl; [|done].
  intros ?; simplify_eq. apply good_same_log; [|done].
  eapply Inv_strongs_same_refs; [exact HI| |]; simpl.
  - intros b. eapply refs_exchange; eauto.
  - pose proof (inv_size _ _ HI). erewrite size_exchange by eauto. lia.
Qed.

Lemma step_SPromote h x : step (SPromote h x) w = Some w' → good n w w'.
Proof using HI Hn.
  simpl. destruct (weaks w !! x) as [other|] eqn:Hx; simpl; [|done].
  intros (Hh & Hc)%declare_strong_Some. unfold SharedPtr_from_weak in Hc. simpl in Hc.
  destruct (WeakPtr.control_block_ other) as [b|] eqn:Hb.
  2:{ unfold undefined in Hc. naive_solver. }
  destruct (Inv_weak_block _ _ _ _ _ HI Hx Hb) as (blk & Hblk & _).
  unfold bind at 1 in Hc. unfold bind at 2 in Hc. unfold load in Hc. rewrite Hblk in Hc.
  unfold IsDestroyed in Hc. destruct (is_destroyed blk) eqn:Hd.
  - unfold throw_BadWeakPtr in Hc.
    destruct Hc as [(sp & m' & ? & ->)|(m' & ? & ->)]; simplify_eq.
    apply good_same_log; [|done]. destruct w. eapply Inv_mono; [exact HI|lia].
  - destruct (acquire_strong_block h b (WeakPtr.ptr_ other) (WeakPtr.ptr_ other) blk Hh Hblk Hd)
      as (m & Hm & HIm & Hl & _).
    rewrite Hm in Hc.
    destruct Hc as [(sp & m' & ? & ->)|(m' & ? & ->)]; simplify_eq.
    apply good_same_log; [|done]. eapply Inv_mono; [done|lia].
Qed.

End steps_acquire.

Lemma suffix_option_list {A} (o : option A) (l : list A) : l `suffix_of` option_list o ++ l.
Proof. by apply suffix_app_r. Qed.

Section steps_release.
Context (n : nat) (w w' : World).
Context (HI : Inv n w) (Hn : (n + 2 ≤ capacity)%nat).

Lemma step_SReset h : step (SReset h) w = Some w' → good n w w'.
Proof using HI Hn.
  simpl. unfold update_strong. destruct (strongs w !! h) as [this|] eqn:Hh; [|done].
  destruct (Inv_release_strong n w h this (SharedPtr.mk None None) HI) as (m & Hm & HIm & Hl);
    [lia|done|done|].
  unfold SharedPtr_Reset, bind. rewrite Hm. simpl. intros ?; simplify_eq.
  split; [eapply Inv_mono; [done|lia]|]. simpl. rewrite Hl. apply suffix_option_list.
Qed.

Lemma step_SDestruct h : step (SDestruct h) w = Some w' → good n w w'.
Proof using HI Hn.
  simpl. destruct (strongs w !! h) as [this|] eqn:Hh; simpl; [|done].
  destruct (Inv_release_strong n w h this (SharedPtr.mk None None) HI) as (m & Hm & HIm & Hl);
    [lia|done|done|].
  unfold SharedPtr_Reset, bind. rewrite Hm. simpl. intros ?; simplify_eq.
  split; [|simpl; rewrite Hl; apply suffix_option_list].
  eapply Inv_mono; [|by apply Nat.le_add_r].
  apply (Inv_delete_vacant_strong _ _ h) in HIm; simpl in *.
  - by rewrite delete_insert_eq in HIm.
  - rewrite lookup_insert_eq. by apply vacant_strong_Some.
Qed.

Lemma step_SAssign h src : step (SAssign h src) w = Some w' → good n w w'.
Proof using HI Hn.
  simpl. case_decide.
  { destruct (strongs w !! h); simpl; [|done]. intros ?; simplify_eq.
    apply good_same_log; [|done]. eapply Inv_mono; [done|lia]. }
  destruct (strongs w !! src) as [other|] eqn:Hsrc; simpl; [|done].
  unfold update_strong. destruct (strongs w !! h) as [this|] eqn:Hh; [|done].
  destruct (Inv_release_strong n w h this (SharedPtr.mk None None) HI) as (m & Hm & HIm & Hl);
    [lia|done|done|].
  unfold SharedPtr_assign. unfold bind at 1. rewrite Hm.
  set (w1 := mkWorld m (<[h:=SharedPtr.mk None None]> (strongs w)) (weaks w)) in *.
  assert (strongs w1 !! src = Some other) as Hsrc1.
  { simpl. by rewrite lookup_insert_ne. }
  destruct (SharedPtr.control_block_ other) as [b|] eqn:Hb.
  - destruct (Inv_strong_block _ _ _ _ _ HIm Hsrc1 Hb) as (blk & Hblk & Hd & _).
    unfold bind. erewrite (IncreaseStrongCounter_Some _ _ _ blk) by done.
    intros [= <-]. split; [|simpl; rewrite Hl; apply suffix_option_list].
    eapply (Inv_acquire_strong _ w1 h b (SharedPtr.ptr_ other)) in HIm; eauto; [| lia |].
    + simpl in HIm. rewrite insert_insert_eq in HIm. eapply Inv_mono; [done|lia].
    + simpl. rewrite lookup_insert_eq. by apply vacant_strong_Some.
  - simpl. intros [= <-]. split; [|simpl; rewrite Hl; apply suffix_option_list].
    eapply (Inv_set_vacant_strong _ w1 h (SharedPtr.mk None (SharedPtr.ptr_ other))) in HIm.
    + simpl in HIm. rewrite insert_insert_eq in HIm. eapply Inv_mono; [done|lia].
    + simpl. rewrite lookup_insert_eq. by apply vacant_strong_Some.
    + done.
Qed.

Lemma step_SMoveAssign h src : step (SMoveAssign h src) w = Some w' → good n w w'.
Proof using HI Hn.
  simpl. case_decide.
  { destruct (strongs w !! h); simpl; [|done]. intros ?; simplify_eq.
    apply good_same_log; [|done]. eapply Inv_mono; [done|lia]. }
  destruct (strongs w !! h) as [this|] eqn:Hh; simpl; [|done].
  destruct (strongs w !! src) as [other|] eqn:Hsrc; simpl; [|done].
  destruct (Inv_release_strong n w h this (SharedPtr.mk None None) HI) as (m & Hm & HIm & Hl);
    [lia|done|done|].
  unfold SharedPtr_move_assign, SharedPtr_Reset, bind. rewrite Hm. simpl.
  intros [= <-]. split; [|simpl; rewrite Hl; apply suffix_option_list].
  set (w1 := mkWorld m (<[h:=SharedPtr.mk None None]> (strongs w)) (weaks w)) in *.
  eapply Inv_mono; [|by apply Nat.le_add_r].
  replace (<[h:=other]> (<[src:=SharedPtr.mk None None]> (strongs w)))
    with (<[h:=other]> (<[src:=SharedPtr.mk None None]> (strongs w1))).
  2:{ simpl. rewrite (insert_insert_ne _ src h) by done. by rewrite insert_insert_eq. }
  eapply (Inv_strongs_same_refs _ _ w1); [done| |].
  - intros b.
    eapply (refs_exchange _ b _ h src (SharedPtr.mk None None) other); simpl; [| |done|done].
    + by rewrite lookup_insert_eq.
    + by rewrite lookup_insert_ne.
  - pose proof (inv_size _ _ HIm).
    erewrite (size_exchange _ h src (SharedPtr.mk None None) other); [done| |]; simpl.
    + by rewrite lookup_insert_eq.
    + by rewrite lookup_insert_ne.
Qed.

End steps_release.

(** The constructor body shared by [SharedPtr(Y* )] and [MakeShared]: a new
    block, its first unit of the strong count, and the wiring of
    [weak_this_]. *)
Lemma Inv_construct n w h k p esft :
  Inv n w → (S n ≤ capacity)%nat →
  vacant_strong (strongs w !! h) →
  (∀ q, GetRawPtr (mkBlock 1 0 false k) = Some q →
        is_Some (objects (mem w) !! q) ∧ unmanaged q (mem w)) →
  (esft = true → ∃ a o wt, p = Some a ∧ objects (mem w) !! a = Some o ∧
                           weak_this_ o = Some wt) →
  let this := SharedPtr.mk (Some (next_block (mem w))) p in
  ∃ m, (do b <- new_block k;
        SharedPtr_IncreaseStrongCounter (SharedPtr.mk (Some b) p) ;;;
        (if esft then SharedPtr_InitWeakThis (SharedPtr.mk (Some b) p) p else ret tt) ;;;
        ret (SharedPtr.mk (Some b) p)) (mem w) = Ret this m ∧
       Inv (S n) (mkWorld m (<[h := this]> (strongs w)) (weaks w)) ∧
       dtor_log m = dtor_log (mem w).
Proof.
  intros HI Hn Hv Hk Hesft this.
  pose proof (Inv_new_block n w h k p HI Hv Hk) as HI1.
  unfold bind at 1. unfold new_block at 1.
  unfold bind at 1. unfold SharedPtr_IncreaseStrongCounter at 1. simpl.
  unfold bind at 1. unfold load at 1. simpl. rewrite lookup_insert_eq.
  unfold store at 1. simpl. rewrite lookup_insert_eq, insert_insert_eq.
  change (wrap (0 + 1)) with 1.
  destruct esft.
  - destruct (Hesft eq_refl) as (a & o & wt & -> & Ha & Hwt).
    edestruct (Inv_InitWeakThis (S n) _ (next_block (mem w)) (Some a) a o wt
                 (mkBlock 1 0 false k) HI1 Hn) as (m & Hm & HIm & Hl).
    { simpl. by rewrite lookup_insert_eq. }
    { done. } { done. }
    cbn [mem] in Hm. unfold bind at 1. rewrite Hm. simpl.
    exists m. split_and!; done.
  - simpl. eexists. split_and!; done.
Qed.

Section steps_construct.
Context (n : nat) (w w' : World).
Context (HI : Inv n w) (Hn : (n + 2 ≤ capacity)%nat).

Lemma step_SAdoptNull h esft : step (SAdoptNull h esft) w = Some w' → good n w w'.
Proof using HI Hn.
  simpl. intros (Hh & Hc)%declare_strong_Some.
  destruct esft.
  { unfold SharedPtr_from_raw, SharedPtr_IncreaseStrongCounter, SharedPtr_InitWeakThis,
      bind, new_block, load, store in Hc. simpl in Hc.
    rewrite lookup_insert_eq in Hc. simpl in Hc. rewrite lookup_insert_eq in Hc.
    unfold undefined in Hc. naive_solver. }
  destruct (Inv_construct n w h (DefaultBlock None) None false HI) as (m & Hm & HIm & Hl);
    [lia|rewrite Hh; apply vacant_strong_None|done|done|].
  unfold SharedPtr_from_raw in Hc. rewrite Hm in Hc.
  destruct Hc as [(sp & m' & ? & ->)|(m' & ? & ->)]; simplify_eq.
  apply good_same_log; [|done]. eapply Inv_mono; [done|lia].
Qed.

Lemma construct_fresh_object h esft k :
  strongs w !! h = None →
  GetRawPtr (mkBlock 1 0 false k) = Some (next_addr (mem w)) →
  ∃ m, (do a <- new_object esft;
        do b <- new_block k;
        SharedPtr_IncreaseStrongCounter (SharedPtr.mk (Some b) (Some a)) ;;;
        (if esft then SharedPtr_InitWeakThis (SharedPtr.mk (Some b) (Some a)) (Some a)
         else ret tt) ;;;
        ret (SharedPtr.mk (Some b) (Some a))) (mem w)
       = Ret (SharedPtr.mk (Some (next_block (mem w))) (Some (next_addr (mem w)))) m ∧
       Inv (S (S n)) (mkWorld m
          (<[h := SharedPtr.mk (Some (next_block (mem w))) (Some (next_addr (mem w)))]>
             (strongs w)) (weaks w)) ∧
       dtor_log m = dtor_log (mem w).
Proof using HI Hn.
  intros Hh Hk.
  set (o := mkObject (if esft then Some (WeakPtr.mk None None false) else None)).
  destruct (Inv_new_object n w o HI) as [HI1 Hun]. { by destruct esft. }
  unfold bind at 1. unfold new_object at 1. fold o.
  edestruct (Inv_construct (S n) _ h k (Some (next_addr (mem w))) esft HI1)
    as (m & Hm & HIm & Hl).
  - lia.
  - simpl. rewrite Hh. apply vacant_strong_None.
  - intros q Hq. rewrite Hk in Hq. simplify_eq. split; [|done].
    simpl. rewrite lookup_insert_eq. eauto.
  - intros ->. exists (next_addr (mem w)), o, (WeakPtr.mk None None false).
    simpl. by rewrite lookup_insert_eq.
  - cbn [mem set_mem] in Hm. rewrite Hm. exists m. split_and!; done.
Qed.

Lemma step_SAdopt h esft : step (SAdopt h esft) w = Some w' → good n w w'.
Proof using HI Hn.
  simpl. intros (Hh & Hc)%declare_strong_Some.
  destruct (construct_fresh_object h esft (DefaultBlock (Some (next_addr (mem w)))) Hh)
    as (m & Hm & HIm & Hl); [done|].
  unfold SharedPtr_from_raw in Hc.
  assert (∀ m0, (do a <- new_object esft;
        do b <- new_block (DefaultBlock (Some a));
        SharedPtr_IncreaseStrongCounter (SharedPtr.mk (Some b) (Some a)) ;;;
        (if esft then SharedPtr_InitWeakThis (SharedPtr.mk (Some b) (Some a)) (Some a)
         else ret tt) ;;;
        ret (SharedPtr.mk (Some b) (Some a))) m0
     = (do a <- new_object esft;
        do b <- new_block (DefaultBlock (Some (next_addr m0)));
        SharedPtr_IncreaseStrongCounter (SharedPtr.mk (Some b) (Some a)) ;;;
        (if esft then SharedPtr_InitWeakThis (SharedPtr.mk (Some b) (Some a)) (Some a)
         else ret tt) ;;;
        ret (SharedPtr.mk (Some b) (Some a))) m0) as Heq by done.
  rewrite Heq, Hm in Hc.
  destruct Hc as [(sp & m' & ? & ->)|(m' & ? & ->)]; simplify_eq.
  apply good_same_log; [|done]. eapply Inv_mono; [done|lia].
Qed.

Lemma step_SMake h esft : step (SMake h esft) w = Some w' → good n w w'.
Proof using HI Hn.
  simpl. intros (Hh & Hc)%declare_strong_Some.
  destruct (construct_fresh_object h esft (InlineBlock (next_addr (mem w))) Hh)
    as (m & Hm & HIm & Hl); [done|].
  assert (MakeShared esft (mem w) = (do a <- new_object esft;
        do b <- new_block (InlineBlock (next_addr (mem w)));
        SharedPtr_IncreaseStrongCounter (SharedPtr.mk (Some b) (Some a)) ;;;
        (if esft then SharedPtr_InitWeakThis (SharedPtr.mk (Some b) (Some a)) (Some a)
         else ret tt) ;;;
        ret (SharedPtr.mk (Some b) (Some a))) (mem w)) as Heq.
  { unfold MakeShared, SharedPtr_from_block, bind, new_object, new_block, load. simpl.
    by rewrite lookup_insert_eq. }
  rewrite Heq, Hm in Hc.
  destruct Hc as [(sp & m' & ? & ->)|(m' & ? & ->)]; simplify_eq.
  apply good_same_log; [|done]. eapply Inv_mono; [done|lia].
Qed.

End steps_construct.

Section steps_lock.
Context (n : nat) (w w' : World).
Context (HI : Inv n w) (Hn : (n + 2 ≤ capacity)%nat).

Lemma step_SResetNew h esft : step (SResetNew h esft) w = Some w' → good n w w'.
Proof using HI Hn.
  simpl. unfold update_strong. destruct (strongs w !! h) as [this|] eqn:Hh; [|done].
  (* the temporary lives in a variable of its own, [g] *)
  set (g := fresh (dom (strongs w))).
  assert (strongs w !! g = None) as Hg.
  { apply not_elem_of_dom. apply is_fresh. }
  assert (g ≠ h) as Hgh by congruence.
  destruct (construct_fresh_object n w HI Hn g esft
              (DefaultBlock (Some (next_addr (mem w)))) Hg)
    as (m & Hm & HIm & Hl); [done|].
  set (tmp := SharedPtr.mk (Some (next_block (mem w))) (Some (next_addr (mem w)))) in *.
  set (w1 := mkWorld m (<[g:=tmp]> (strongs w)) (weaks w)) in *.
  destruct (Inv_release_strong _ w1 h this (SharedPtr.mk None None) HIm)
    as (m2 & Hm2 & HIm2 & Hl2); [lia| |done|].
  { simpl. by rewrite lookup_insert_ne. }
  assert ((do a <- new_object esft; SharedPtr_Reset_raw esft this (Some a)) (mem w)
          = Ret tmp m2) as Heq.
  { erewrite bind_Ret by reflexivity. unfold SharedPtr_Reset_raw.
    erewrite bind_Ret by exact Hm.
    assert (SharedPtr_move_assign this tmp m = Ret (tmp, SharedPtr.mk None None) m2) as Hma.
    { unfold SharedPtr_move_assign, SharedPtr_Reset.
      erewrite bind_Ret; [reflexivity|]. erewrite bind_Ret by exact Hm2. reflexivity. }
    erewrite bind_Ret by exact Hma. reflexivity. }
  rewrite Heq. intros [= <-].
  split; [|simpl; rewrite Hl2; unfold w1; simpl; rewrite Hl; apply suffix_option_list].
  cbn [strongs weaks w1] in HIm2.
  eapply Inv_mono; [eapply (Inv_strongs_same_refs _ _ _ (<[h:=tmp]> (strongs w)) HIm2)|];
    simpl.
  - intros b.
    pose proof (refs_insert SharedPtr.control_block_ b (strongs w) g tmp) as H1.
    pose proof (refs_insert SharedPtr.control_block_ b (<[g:=tmp]> (strongs w)) h
                  (SharedPtr.mk None None)) as H2.
    pose proof (refs_insert SharedPtr.control_block_ b (strongs w) h tmp) as H3.
    rewrite Hg in H1. rewrite lookup_insert_ne, Hh in H2 by done. rewrite Hh in H3.
    rewrite (at_block_None _ _ (SharedPtr.mk None None)) in H2 by done.
    simpl in *. lia.
  - reflexivity.
  - pose proof (inv_size _ _ HIm2) as Hs. simpl in Hs.
    rewrite map_size_insert_Some in Hs by (rewrite lookup_insert_ne by done; eauto).
    rewrite map_size_insert_None in Hs by done.
    rewrite map_size_insert_Some by eauto. lia.
Qed.

(** [Lock] on a weak handle that refers to the block [b]. *)
Lemma from_block_spec h b p blk esft :
  strongs w !! h = None → heap (mem w) !! b = Some blk → is_destroyed blk = false →
  match SharedPtr_from_block esft (Some b) p (mem w) with
  | Ret sp m => sp = SharedPtr.mk (Some b) p ∧
                Inv (S n) (mkWorld m (<[h := sp]> (strongs w)) (weaks w)) ∧
                dtor_log m = dtor_log (mem w)
  | Throw _ => False
  | Undefined => True
  end.
Proof using HI Hn.
  intros Hh Hb Hd.
  destruct (acquire_strong_block n w HI Hn h b p p blk Hh Hb Hd)
    as (m & Hm & HIm & Hl & Hobj & [blk1 Hb1]).
  unfold SharedPtr_from_block. unfold bind at 1. unfold bind at 1 in Hm.
  destruct (SharedPtr_IncreaseStrongCounter (SharedPtr.mk (Some b) p) (mem w))
    as [[] m1| |] eqn:E; try done.
  unfold ret in Hm. simplify_eq. destruct esft; [|by simpl].
  unfold bind at 1. unfold SharedPtr_InitWeakThis at 1.
  destruct p as [a|]; [|done].
  unfold bind at 1. unfold load_object at 1.
  destruct (objects m !! a) as [o|] eqn:Ha; [|done].
  destruct (weak_this_ o) as [wt|] eqn:Hwt; [|done].
  edestruct (Inv_InitWeakThis (S n) _ b (Some a) a o wt blk1 HIm)
    as (m2 & Hm2 & HIm2 & Hl2); [lia|done|done|done|].
  unfold SharedPtr_InitWeakThis, bind at 1, load_object at 1 in Hm2.
  cbn [mem] in Hm2. rewrite Ha, Hwt in Hm2. rewrite Hm2. simpl.
  simpl in Hl2. split_and!; [done|done|congruence].
Qed.

Lemma step_WLock h x esft : step (WLock h x esft) w = Some w' → good n w w'.
Proof using HI Hn.
  simpl. destruct (weaks w !! x) as [this|] eqn:Hx; simpl; [|done].
  intros (Hh & Hc)%declare_strong_Some.
  assert (good n w (mkWorld (mem w) (<[h:=SharedPtr_default]> (strongs w)) (weaks w))) as Hnull.
  { apply good_same_log; [|done].
    eapply Inv_mono; [eapply Inv_set_vacant_strong; eauto|lia].
    rewrite Hh. apply vacant_strong_None. }
  destruct (WeakPtr.control_block_ this) as [b|] eqn:Hb.
  2:{ assert (WeakPtr_Lock esft this (mem w) = Ret SharedPtr_default (mem w)) as Heq.
      { unfold WeakPtr_Lock, WeakPtr_Expired. by rewrite Hb. }
      rewrite Heq in Hc.
      destruct Hc as [(sp & m' & ? & ->)|(m' & ? & ->)]; simplify_eq. exact Hnull. }
  destruct (Inv_weak_block _ _ _ _ _ HI Hx Hb) as (blk & Hblk & _).
  assert (WeakPtr_Lock esft this (mem w)
          = if is_destroyed blk then Ret SharedPtr_default (mem w)
            else SharedPtr_from_block esft (Some b) (WeakPtr.ptr_ this) (mem w)) as Heq.
  { unfold WeakPtr_Lock, WeakPtr_Expired. rewrite Hb. unfold bind, load, ret.
    rewrite Hblk. unfold IsDestroyed. by destruct (is_destroyed blk). }
  rewrite Heq in Hc.
  destruct (is_destroyed blk) eqn:Hd.
  { destruct Hc as [(sp & m' & ? & ->)|(m' & ? & ->)]; simplify_eq. exact Hnull. }
  pose proof (from_block_spec h b (WeakPtr.ptr_ this) blk esft Hh Hblk Hd) as Hs.
  destruct Hc as [(sp & m' & Hc & ->)|(m' & Hc & ->)]; rewrite Hc in Hs; [|done].
  destruct Hs as (-> & HIm & Hl). apply good_same_log; [|done].
  eapply Inv_mono; [done|lia].
Qed.

Lemma from_weak_eq other b blk m :
  WeakPtr.control_block_ other = Some b → heap m !! b = Some blk →
  SharedPtr_from_weak other m
  = if is_destroyed blk then Throw m
    else (SharedPtr_IncreaseStrongCounter (SharedPtr.mk (Some b) (WeakPtr.ptr_ other)) ;;;
          ret (SharedPtr.mk (Some b) (WeakPtr.ptr_ other))) m.
Proof.
  intros Hb Hblk. unfold SharedPtr_from_weak. simpl. rewrite Hb.
  unfold bind at 1, load. rewrite Hblk. unfold IsDestroyed.
  by destruct (is_destroyed blk).
Qed.

Lemma step_ESharedFromThis h self : step (ESharedFromThis h self) w = Some w' → good n w w'.
Proof using HI Hn.
  simpl. intros (Hh & Hc)%declare_strong_Some.
  assert (SharedFromThis self (mem w)
          = match objects (mem w) !! self with
            | Some o => match weak_this_ o with
                        | Some wt => SharedPtr_from_weak wt (mem w)
                        | None => Undefined
                        end
            | None => Undefined
            end) as Heq.
  { unfold SharedFromThis, bind, load_object.
    destruct (objects (mem w) !! self) as [o|]; [|done]. by destruct (weak_this_ o). }
  rewrite Heq in Hc. clear Heq.
  destruct (objects (mem w) !! self) as [o|] eqn:Ho; [|naive_solver].
  destruct (weak_this_ o) as [wt|] eqn:Hwt; [|naive_solver].
  destruct (WeakPtr.control_block_ wt) as [b|] eqn:Hb.
  2:{ unfold SharedPtr_from_weak in Hc. simpl in Hc. rewrite Hb in Hc.
      unfold undefined in Hc. naive_solver. }
  assert (Object_block o = Some b) as Hob by (unfold Object_block; by rewrite Hwt).
  destruct (Inv_member_block _ _ _ _ _ HI Ho Hob) as (blk & Hblk & _).
  rewrite (from_weak_eq wt b blk _ Hb Hblk) in Hc.
  destruct (is_destroyed blk) eqn:Hd.
  - destruct Hc as [(sp & m' & ? & ->)|(m' & ? & ->)]; simplify_eq.
    apply good_same_log; [|done]. destruct w. eapply Inv_mono; [exact HI|lia].
  - destruct (acquire_strong_block n w HI Hn h b (WeakPtr.ptr_ wt) (WeakPtr.ptr_ wt) blk
                Hh Hblk Hd) as (m & Hm & HIm & Hl & _).
    rewrite Hm in Hc.
    destruct Hc as [(sp & m' & ? & ->)|(m' & ? & ->)]; simplify_eq.
    apply good_same_log; [|done]. eapply Inv_mono; [done|lia].
Qed.

End steps_lock.

Section steps_weak.
Context (n : nat) (w w' : World).
Context (HI : Inv n w) (Hn : (n + 2 ≤ capacity)%nat).

Lemma step_WDefault x : step (WDefault x) w = Some w' → good n w w'.
Proof using HI Hn.
  simpl. intros (Hh & [(sp & m & Hc & ->)|(m & Hc & ->)])%declare_weak_Some; [|done].
  unfold ret in Hc. simplify_eq. apply good_same_log; [|done].
  eapply Inv_mono; [eapply Inv_set_vacant_weak; eauto|lia].
  rewrite Hh. apply vacant_weak_None.
Qed.

(** Taking a unit of the weak count for the new variable [x]. *)
Lemma acquire_weak_block x ob p :
  weaks w !! x = None →
  (∀ b, ob = Some b → is_Some (heap (mem w) !! b)) →
  ∃ m, WeakPtr_IncreaseWeakCounter (WeakPtr.mk ob p false) (mem w) = Ret tt m ∧
       Inv (S n) (mkWorld m (strongs w) (<[x := WeakPtr.mk ob p false]> (weaks w))) ∧
       dtor_log m = dtor_log (mem w).
Proof using HI Hn.
  intros Hx Hob. destruct ob as [b|].
  - destruct (Hob b eq_refl) as [blk Hblk].
    erewrite (IncreaseWeakCounter_Some _ _ _ _ blk) by done.
    eexists; split_and!; [done| |done].
    eapply Inv_acquire_weak; eauto; [lia|]. rewrite Hx. apply vacant_weak_None.
  - eexists; split_and!; [done| |done].
    eapply Inv_set_vacant_weak; eauto. rewrite Hx. apply vacant_weak_None.
Qed.

Lemma declare_weak_acquire x ob p c :
  (∀ b, ob = Some b → is_Some (heap (mem w) !! b)) →
  c (mem w) = (WeakPtr_IncreaseWeakCounter (WeakPtr.mk ob p false) ;;;
               ret (WeakPtr.mk ob p false)) (mem w) →
  declare_weak x c w = Some w' → good n w w'.
Proof using HI Hn.
  intros Hob Hceq (Hx & Hc)%declare_weak_Some.
  destruct (acquire_weak_block x ob p Hx Hob) as (m & Hm & HIm & Hl).
  rewrite Hceq in Hc. erewrite bind_Ret in Hc by exact Hm. unfold ret in Hc.
  destruct Hc as [(sp & m' & ? & ->)|(m' & ? & ->)]; simplify_eq.
  apply good_same_log; [|done]. eapply Inv_mono; [done|lia].
Qed.

Lemma step_WCopy x src : step (WCopy x src) w = Some w' → good n w w'.
Proof using HI Hn.
  simpl. destruct (weaks w !! src) as [other|] eqn:Hsrc; simpl; [|done].
  apply (declare_weak_acquire x (WeakPtr.control_block_ other) (WeakPtr.ptr_ other));
    [|done].
  intros b Hb. destruct (Inv_weak_block _ _ _ _ _ HI Hsrc Hb) as (blk & Hblk & _). eauto.
Qed.

Lemma step_WFromShared x h : step (WFromShared x h) w = Some w' → good n w w'.
Proof using HI Hn.
  simpl. destruct (strongs w !! h) as [other|] eqn:Hsrc; simpl; [|done].
  apply (declare_weak_acquire x (SharedPtr.control_block_ other) (SharedPtr.ptr_ other));
    [|done].
  intros b Hb. destruct (Inv_strong_block _ _ _ _ _ HI Hsrc Hb) as (blk & Hblk & _). eauto.
Qed.

Lemma step_EWeakFromThis x self : step (EWeakFromThis x self) w = Some w' → good n w w'.
Proof using HI Hn.
  simpl. intros Hstep.
  destruct (objects (mem w) !! self) as [o|] eqn:Ho.
  2:{ apply declare_weak_Some in Hstep as (_ & Hc).
      unfold WeakFromThis, bind, load_object in Hc. rewrite Ho in Hc. naive_solver. }
  destruct (weak_this_ o) as [wt|] eqn:Hwt.
  2:{ apply declare_weak_Some in Hstep as (_ & Hc).
      unfold WeakFromThis, bind, load_object in Hc. rewrite Ho, Hwt in Hc.
      unfold undefined in Hc. naive_solver. }
  revert Hstep.
  apply (declare_weak_acquire x (WeakPtr.control_block_ wt) (WeakPtr.ptr_ wt)).
  - intros b Hb.
    assert (Object_block o = Some b) as Hob by (unfold Object_block; by rewrite Hwt).
    destruct (Inv_member_block _ _ _ _ _ HI Ho Hob) as (blk & Hblk & _). eauto.
  - unfold WeakFromThis. erewrite bind_Ret; [|unfold load_object; by rewrite Ho].
    by rewrite Hwt.
Qed.

Lemma weak_flag x wp : weaks w !! x = Some wp → WeakPtr.is_esft_ptr_ wp = false.
Proof using HI. apply (inv_weak_flags _ _ HI). Qed.

Lemma step_WReset x : step (WReset x) w = Some w' → good n w w'.
Proof using HI Hn.
  simpl. unfold update_weak. destruct (weaks w !! x) as [this|] eqn:Hx; [|done].
  destruct (Inv_release_weak n w x this (WeakPtr.mk None None false) HI) as (m & Hm & HIm & Hl);
    [lia|done|done|done|].
  unfold WeakPtr_Reset. erewrite bind_Ret by exact Hm. rewrite (weak_flag x this Hx).
  intros [= <-]. apply good_same_log; [|done]. eapply Inv_mono; [done|lia].
Qed.

Lemma step_WDestruct x : step (WDestruct x) w = Some w' → good n w w'.
Proof using HI Hn.
  simpl. destruct (weaks w !! x) as [this|] eqn:Hx; simpl; [|done].
  destruct (Inv_release_weak n w x this (WeakPtr.mk None None false) HI) as (m & Hm & HIm & Hl);
    [lia|done|done|done|].
  unfold WeakPtr_Reset. erewrite bind_Ret by exact Hm. unfold ret.
  intros [= <-]. apply good_same_log; [|done].
  eapply Inv_mono; [|by apply Nat.le_add_r].
  apply (Inv_delete_vacant_weak _ _ x) in HIm; simpl in *.
  - by rewrite delete_insert_eq in HIm.
  - rewrite lookup_insert_eq. by apply vacant_weak_Some.
Qed.

Lemma step_WAssign x src : step (WAssign x src) w = Some w' → good n w w'.
Proof using HI Hn.
  simpl. case_decide.
  { destruct (weaks w !! x); simpl; [|done]. intros ?; simplify_eq.
    apply good_same_log; [|done]. eapply Inv_mono; [done|lia]. }
  destruct (weaks w !! src) as [other|] eqn:Hsrc; simpl; [|done].
  unfold update_weak. destruct (weaks w !! x) as [this|] eqn:Hx; [|done].
  destruct (Inv_release_weak n w x this (WeakPtr.mk None None false) HI) as (m & Hm & HIm & Hl);
    [lia|done|done|done|].
  set (w1 := mkWorld m (strongs w) (<[x:=WeakPtr.mk None None false]> (weaks w))) in *.
  assert (weaks w1 !! src = Some other) as Hsrc1.
  { simpl. by rewrite lookup_insert_ne. }
  unfold WeakPtr_assign, WeakPtr_Reset.
  erewrite bind_Ret; [|erewrite bind_Ret by exact Hm; reflexivity].
  rewrite (weak_flag x this Hx). cbn [WeakPtr.is_esft_ptr_].
  destruct (WeakPtr.control_block_ other) as [b|] eqn:Hb.
  - destruct (Inv_weak_block _ _ _ _ _ HIm Hsrc1 Hb) as (blk & Hblk & _).
    unfold bind. erewrite (IncreaseWeakCounter_Some _ _ _ _ blk) by done.
    intros [= <-]. apply good_same_log; [|simpl; congruence].
    eapply (Inv_acquire_weak _ w1 x b (WeakPtr.ptr_ other)) in HIm; eauto; [| lia |].
    + simpl in HIm. rewrite insert_insert_eq in HIm. eapply Inv_mono; [done|lia].
    + simpl. rewrite lookup_insert_eq. by apply vacant_weak_Some.
  - simpl. intros [= <-]. apply good_same_log; [|simpl; congruence].
    eapply (Inv_set_vacant_weak _ w1 x (WeakPtr.mk None (WeakPtr.ptr_ other) false)) in HIm.
    + simpl in HIm. rewrite insert_insert_eq in HIm. eapply Inv_mono; [done|lia].
    + simpl. rewrite lookup_insert_eq. by apply vacant_weak_Some.
    + done.
    + done.
Qed.

Lemma weaks_flags_exchange x y (a c : WeakPtr.t) (ws : gmap positive WeakPtr.t) :
  (∀ z wp, ws !! z = Some wp → WeakPtr.is_esft_ptr_ wp = false) →
  WeakPtr.is_esft_ptr_ a = false → WeakPtr.is_esft_ptr_ c = false →
  ∀ z wp, <[x := a]> (<[y := c]> ws) !! z = Some wp → WeakPtr.is_esft_ptr_ wp = false.
Proof.
  intros Hws Ha Hc z wp. rewrite !lookup_insert.
  repeat case_decide; intros ?; simplify_eq; eauto.
Qed.

Lemma step_WSwap x other : step (WSwap x other) w = Some w' → good n w w'.
Proof using HI Hn.
  simpl. destruct (weaks w !! x) as [this|] eqn:Hx; simpl; [|done].
  destruct (weaks w !! other) as [that|] eqn:Ho; simpl; [|done].
  intros [= <-]. apply good_same_log; [|done].
  eapply Inv_weaks_same_refs; [exact HI| | |]; simpl.
  - intros b. eapply (refs_exchange _ b _ x other this that); eauto.
  - apply weaks_flags_exchange; [apply HI|simpl..]; by eapply weak_flag.
  - pose proof (inv_size _ _ HI). erewrite size_exchange by eauto. lia.
Qed.

Lemma step_WMoveAssign x src : step (WMoveAssign x src) w = Some w' → good n w w'.
Proof using HI Hn.
  simpl. case_decide.
  { destruct (weaks w !! x); simpl; [|done]. intros ?; simplify_eq.
    apply good_same_log; [|done]. eapply Inv_mono; [done|lia]. }
  destruct (weaks w !! x) as [this|] eqn:Hx; simpl; [|done].
  destruct (weaks w !! src) as [other|] eqn:Hsrc; simpl; [|done].
  destruct (Inv_release_weak n w x this (WeakPtr.mk None None false) HI) as (m & Hm & HIm & Hl);
    [lia|done|done|done|].
  unfold WeakPtr_move_assign, WeakPtr_Reset.
  erewrite bind_Ret; [|erewrite bind_Ret by exact Hm; reflexivity].
  rewrite (weak_flag x this Hx). unfold ret, WeakPtr_Swap. cbn [WeakPtr.is_esft_ptr_
    WeakPtr.control_block_ WeakPtr.ptr_].
  intros [= <-]. apply good_same_log; [|done].
  set (w1 := mkWorld m (strongs w) (<[x:=WeakPtr.mk None None false]> (weaks w))) in *.
  eapply Inv_mono; [|by apply Nat.le_add_r].
  match goal with |- Inv _ (mkWorld _ _ (<[x:=?a]> (<[src:=?c]> _))) =>
    replace (<[x:=a]> (<[src:=c]> (weaks w))) with (<[x:=a]> (<[src:=c]> (weaks w1)));
    [eapply (Inv_weaks_same_refs _ _ w1 (<[x:=a]> (<[src:=c]> (weaks w1))) HIm)|] end.
  - intros b.
    eapply (refs_exchange _ b _ x src (WeakPtr.mk None None false) other); simpl; [| |done|done].
    + by rewrite lookup_insert_eq.
    + by rewrite lookup_insert_ne.
  - apply weaks_flags_exchange; [apply HIm|done|simpl; by eapply weak_flag].
  - pose proof (inv_size _ _ HIm).
    erewrite (size_exchange _ x src (WeakPtr.mk None None false) other); [done| |]; simpl.
    + by rewrite lookup_insert_eq.
    + by rewrite lookup_insert_ne.
  - simpl. rewrite (insert_insert_ne _ src x) by done. by rewrite insert_insert_eq.
Qed.

Lemma step_WMove x src : step (WMove x src) w = Some w' → good n w w'.
Proof using HI Hn.
  simpl. destruct (weaks w !! src) as [other|] eqn:Hsrc; simpl; [|done].
  destruct (weaks w !! x) eqn:Hx; [done|].
  assert (x ≠ src) as Hne by congruence.
  destruct (acquire_weak_block x (WeakPtr.control_block_ other) (WeakPtr.ptr_ other) Hx)
    as (m1 & Hm1 & HI1 & Hl1).
  { intros b Hb. destruct (Inv_weak_block _ _ _ _ _ HI Hsrc Hb) as (blk & Hblk & _). eauto. }
  set (this := WeakPtr.mk (WeakPtr.control_block_ other) (WeakPtr.ptr_ other) false) in *.
  set (w1 := mkWorld m1 (strongs w) (<[x:=this]> (weaks w))) in *.
  destruct (Inv_release_weak _ w1 src other (WeakPtr.mk None None false) HI1)
    as (m2 & Hm2 & HI2 & Hl2); [lia| |done|done|].
  { simpl. by rewrite lookup_insert_ne. }
  unfold WeakPtr_move. fold this. erewrite bind_Ret by exact Hm1.
  unfold WeakPtr_Reset.
  erewrite bind_Ret; [|erewrite bind_Ret by exact Hm2; reflexivity].
  rewrite (weak_flag src other Hsrc). unfold ret.
  intros [= <-]. apply good_same_log; [|simpl in *; congruence].
  simpl in HI2. rewrite (insert_insert_ne _ src x) in HI2 by done.
  eapply Inv_mono; [done|lia].
Qed.

End steps_weak.

(** Every statement of a client keeps the world well formed and only adds
    to the destructor log. *)
Lemma step_good n w w' op :
  Inv n w → (n + 2 ≤ capacity)%nat → step op w = Some w' → good n w w'.
Proof.
  intros HI Hn. destruct op.
  - by apply step_SDefault.
  - by apply step_SAdopt.
  - by apply step_SAdoptNull.
  - by apply step_SMake.
  - by apply step_SCopy.
  - by apply step_SMove.
  - by apply step_SAlias.
  - by apply step_SPromote.
  - by apply step_SAssign.
  - by apply step_SMoveAssign.
  - by apply step_SReset.
  - by apply step_SResetNew.
  - by apply step_SSwap.
  - by apply step_SDestruct.
  - by apply step_WDefault.
  - by apply step_WCopy.
  - by apply step_WMove.
  - by apply step_WFromShared.
  - by apply step_WAssign.
  - by apply step_WMoveAssign.
  - by apply step_WReset.
  - by apply step_WSwap.
  - by apply step_WDestruct.
  - by apply step_WLock.
  - by apply step_ESharedFromThis.
  - by apply step_EWeakFromThis.
Qed.

Lemma Inv_init : Inv 0 init.
Proof.
  constructor; simpl.
  - constructor; simpl; try done.
    + intros b [? H]. by rewrite lookup_empty in H.
    + intros a [? H]. by rewrite lookup_empty in H.
    + intros a H. by apply elem_of_nil in H.
    + constructor.
  - intros b. rewrite lookup_empty. simpl. by rewrite !refs_empty.
  - intros x wp H. by rewrite lookup_empty in H.
  - by rewrite !map_size_empty.
Qed.

Lemma run_good ops : ∀ n w w',
  Inv n w → (n + 2 * length ops ≤ capacity)%nat → run ops w = Some w' →
  Inv (n + 2 * length ops) w' ∧ dtor_log (mem w) `suffix_of` dtor_log (mem w').
Proof.
  induction ops as [|op ops IH]; intros n w w' HI Hn Hrun; simpl in *.
  - simplify_eq. split; [|done]. eapply Inv_mono; [done|lia].
  - destruct (step op w) as [w1|] eqn:Hstep; [|done].
    destruct (step_good n w w1 op HI) as [HI1 Hs1]; [lia|done|].
    destruct (IH (n + 2)%nat w1 w' HI1) as [HI2 Hs2]; [lia|done|].
    split; [|by etrans]. eapply Inv_mono; [done|lia].
Qed.

(** Worlds a client can reach from the empty one with fewer than [2^61]
    statements. *)
Lemma reachable_Inv ops w :
  (2 * length ops ≤ capacity)%nat → run ops init = Some w →
  Inv (2 * length ops) w.
Proof.
  intros Hn Hrun. by destruct (run_good ops 0 init w Inv_init Hn Hrun).
Qed.

Lemma feasible_Inv ops w :
  feasible ops → run ops init = Some w → Inv (2 * length ops) w.
Proof. apply reachable_Inv. Qed.

(** C1. After any feasible client program, [UseCount()] on a live strong
    variable returns the number of live strong variables that refer to the
    same control block, and 0 on a variable without a block. *)
Theorem use_count_is_live_handle_count ops w h sp :
  feasible ops → run ops init = Some w →
  strongs w !! h = Some sp →
  SharedPtr_UseCount sp (mem w)
  = Ret (Z.of_nat (match SharedPtr.control_block_ sp with
                   | Some b => live_strong_handles b w
                   | None => 0%nat
                   end)) (mem w).
Proof.
  intros Hf Hrun Hh. pose proof (feasible_Inv _ _ Hf Hrun) as HI.
  unfold SharedPtr_UseCount, SharedPtr_GetStrongCounter, live_strong_handles.
  destruct (SharedPtr.control_block_ sp) as [b|] eqn:Hb; [|done].
  destruct (Inv_strong_block _ _ _ _ _ HI Hh Hb) as (blk & Hblk & _ & Hs & _).
  unfold bind, load, ret, GetStrongCounter. rewrite Hblk. by rewrite Hs.
Qed.

Lemma use_count_is_live_handle_count_witness :
  ∃ w sp, run [SAdopt 1 false; SCopy 2 1; SCopy 3 2; SDestruct 2; SDefault 4]%positive init = Some w ∧
          strongs w !! 3%positive = Some sp ∧
          SharedPtr_UseCount sp (mem w) = Ret 2 (mem w) ∧
          ∀ sp4, strongs w !! 4%positive = Some sp4 →
                 SharedPtr_UseCount sp4 (mem w) = Ret 0 (mem w).
Proof.
  eexists _, _. split; [vm_compute; reflexivity|]. split; [vm_compute; reflexivity|].
  split.
  - etrans; [eapply (use_count_is_live_handle_count
               [SAdopt 1 false; SCopy 2 1; SCopy 3 2; SDestruct 2; SDefault 4]%positive
               _ 3%positive)|].
    + unfold feasible, capacity. simpl length. lia.
    + vm_compute; reflexivity.
    + vm_compute; reflexivity.
    + vm_compute; reflexivity.
  - intros sp4 H4. etrans; [eapply (use_count_is_live_handle_count
               [SAdopt 1 false; SCopy 2 1; SCopy 3 2; SDestruct 2; SDefault 4]%positive
               _ 4%positive)|].
    + unfold feasible, capacity. simpl length. lia.
    + vm_compute; reflexivity.
    + exact H4.
    + vm_compute in H4. injection H4 as <-. vm_compute; reflexivity.
Defined.

(** C3. Promotion of a weak handle whose block is allocated: if the object
    was destroyed, [BadWeakPtr] is thrown and memory is left as it was;
    otherwise the strong count goes up by one and the new handle has the
    weak handle's block and pointer. *)
Theorem promote_from_weak other m b blk :
  WeakPtr.control_block_ other = Some b → heap m !! b = Some blk →
  0 ≤ strong_ref_cnt blk → strong_ref_cnt blk + 1 < size_t_modulus →
  SharedPtr_from_weak other m
  = if is_destroyed blk then Throw m
    else Ret (SharedPtr.mk (Some b) (WeakPtr.ptr_ other))
             (set_heap (<[b := mkBlock (strong_ref_cnt blk + 1) (weak_ref_cnt blk)
                                       false (kind blk)]> (heap m)) m).
Proof.
  intros Hb Hblk H0 Hmax. rewrite (from_weak_eq other b blk m Hb Hblk).
  destruct (is_destroyed blk) eqn:Hd; [done|].
  erewrite bind_Ret by (by apply IncreaseStrongCounter_Some).
  unfold ret. simpl. rewrite wrap_small by lia. by rewrite Hd.
Qed.

Lemma promote_from_weak_witness :
  let alive := mkBlock 2 1 false (DefaultBlock (Some 1%positive)) in
  let dead := mkBlock 0 1 true (DefaultBlock (Some 2%positive)) in
  let m := mkMemory {[1%positive := alive; 2%positive := dead]} ∅ [2%positive]
                    3%positive 3%positive in
  SharedPtr_from_weak (WeakPtr.mk (Some 2%positive) (Some 2%positive) false) m = Throw m ∧
  SharedPtr_from_weak (WeakPtr.mk (Some 1%positive) (Some 1%positive) false) m
  = Ret (SharedPtr.mk (Some 1%positive) (Some 1%positive))
        (set_heap (<[1%positive := mkBlock 3 1 false (DefaultBlock (Some 1%positive))]>
                     (heap m)) m).
Proof.
  intros alive dead m. split.
  - apply (promote_from_weak (WeakPtr.mk (Some 2%positive) (Some 2%positive) false)
             m 2%positive dead); [reflexivity|reflexivity|simpl; lia|].
    unfold size_t_modulus. simpl. lia.
  - apply (promote_from_weak (WeakPtr.mk (Some 1%positive) (Some 1%positive) false)
             m 1%positive alive); [reflexivity|reflexivity|simpl; lia|].
    unfold size_t_modulus. simpl. lia.
Defined.

(** C5. [SharedFromThis] on an object that no strong handle ever wrapped
    reads through the null [control_block_] of [weak_this_]: undefined
    behaviour, no [BadWeakPtr].  After the object was wrapped and destroyed
    the object is gone and the call is undefined as well; [BadWeakPtr] is
    thrown only while the destructor runs, when [weak_this_] still refers
    to the block that is already marked destroyed. *)
Theorem shared_from_this_unwrapped_is_undefined :
  (∀ m, (do self <- new_object true; SharedFromThis self) m = Undefined) ∧
  (w ← run [SAdopt 1 true; SDestruct 1]%positive init;
   Some (SharedFromThis 1%positive (mem w))) = Some Undefined ∧
  (w ← run [SAdopt 1 true]%positive init;
   match (do blk <- load 1%positive;
          store 1%positive (mkBlock 0 (weak_ref_cnt blk) true (kind blk))) (mem w) with
   | Ret _ m => Some (SharedFromThis 1%positive m, m)
   | _ => None
   end) =
  Some (Throw (mkMemory {[1%positive := mkBlock 0 1 true (DefaultBlock (Some 1%positive))]}
                 {[1%positive := mkObject (Some (WeakPtr.mk (Some 1%positive)
                                                    (Some 1%positive) true))]}
                 [] 2%positive 2%positive),
        mkMemory {[1%positive := mkBlock 0 1 true (DefaultBlock (Some 1%positive))]}
                 {[1%positive := mkObject (Some (WeakPtr.mk (Some 1%positive)
                                                    (Some 1%positive) true))]}
                 [] 2%positive 2%positive).
Proof.
  split_and!.
  - intros m. unfold bind, new_object, SharedFromThis, bind, load_object. simpl.
    rewrite lookup_insert_eq. reflexivity.
  - vm_compute. reflexivity.
  - vm_compute. reflexivity.
Qed.

(** C7. [h = h] changes nothing: the world after the statement is the
    world before it, so [UseCount()] is the same and no destructor ran. *)
Theorem self_assignment_is_noop w h :
  is_Some (strongs w !! h) → step (SAssign h h) w = Some w.
Proof.
  intros [sp Hh]. simpl. rewrite decide_True by done. by rewrite Hh.
Qed.

Lemma self_assignment_is_noop_witness :
  ∃ w, run [SAdopt 1 false; SDefault 2]%positive init = Some w ∧
       step (SAssign 1 1) w = Some w ∧ step (SAssign 2 2) w = Some w.
Proof.
  eexists. split; [vm_compute; reflexivity|]. split.
  - apply self_assignment_is_noop. vm_compute. eauto.
  - apply self_assignment_is_noop. vm_compute. eauto.
Defined.

(** The guard is what makes it so: the body of the assignment run on the
    only owner destroys the object and frees the block before the count is
    raised again, through the dangling pointer. *)
Lemma assignment_body_without_guard :
  (w ← run [SAdopt 1 false]%positive init;
   sp ← strongs w !! 1%positive;
   Some (SharedPtr_assign sp sp (mem w))) = Some Undefined.
Proof. vm_compute. reflexivity. Qed.

(** [SharedPtr((T* )nullptr)] for a pointee type without the self-awareness
    capability, in any memory: adopting a null raw pointer allocates a
    [DefaultBlock] whose pointer is null; the handle has [UseCount() == 1]
    and converts to [false], while a default- or [nullptr]-constructed
    handle has [UseCount() == 0]. *)
Theorem adopt_null_pointer m :
  let sp := SharedPtr.mk (Some (next_block m)) None in
  ∃ m', SharedPtr_from_raw false None m = Ret sp m' ∧
        heap m' !! next_block m = Some (mkBlock 1 0 false (DefaultBlock None)) ∧
        SharedPtr_UseCount sp m' = Ret 1 m' ∧
        SharedPtr_bool sp = false ∧
        SharedPtr_UseCount SharedPtr_default m = Ret 0 m ∧
        SharedPtr_bool SharedPtr_default = false ∧
        SharedPtr_UseCount SharedPtr_nullptr m = Ret 0 m.
Proof.
  intros sp. eexists. split_and!; try reflexivity.
  - unfold SharedPtr_from_raw, SharedPtr_IncreaseStrongCounter, bind, new_block, load,
      store, ret. simpl. rewrite lookup_insert_eq. simpl. rewrite lookup_insert_eq.
    rewrite insert_insert_eq. reflexivity.
  - simpl. by rewrite lookup_insert_eq.
  - unfold SharedPtr_UseCount, SharedPtr_GetStrongCounter, bind, load, ret. simpl.
    by rewrite lookup_insert_eq.
Qed.

(** C9, the defect.  [SharedPtr<E>((E* )nullptr)] for a self-aware [E]: the
    raw-pointer constructor allocates the block and counts the handle as
    it does for every type, and then passes the null pointer to
    [InitWeakThis], which assigns to [esft_block->weak_this_] without a
    null test.  The behaviour is undefined and no handle results, while
    the same statement for a type without the capability declares a
    handle with [UseCount() == 1] that converts to [false]. *)
Theorem adopt_null_pointer_self_aware :
  SharedPtr_from_raw true None empty_memory = Undefined ∧
  step (SAdoptNull 1%positive true) init = None ∧
  ∃ w sp, step (SAdoptNull 1%positive false) init = Some w ∧
          strongs w !! 1%positive = Some sp ∧
          SharedPtr_UseCount sp (mem w) = Ret 1 (mem w) ∧
          SharedPtr_bool sp = false.
Proof.
  split; [vm_compute; reflexivity|]. split; [vm_compute; reflexivity|].
  eexists _, _. split; [vm_compute; reflexivity|].
  split; [vm_compute; reflexivity|]. split; vm_compute; reflexivity.
Qed.

(** * What the weak side leaves untouched *)

Lemma strong_frame_refl m : strong_frame m m.
Proof. intros b blk H. eauto. Qed.

Lemma strong_frame_trans m1 m2 m3 :
  strong_frame m1 m2 → strong_frame m2 m3 → strong_frame m1 m3.
Proof.
  intros H12 H23 b blk3 Hb3. destruct (H23 _ _ Hb3) as (blk2 & Hb2 & ? & ? & ?).
  destruct (H12 _ _ Hb2) as (blk1 & Hb1 & ? & ? & ?). exists blk1. split_and!; congruence.
Qed.

Lemma strong_frame_same_heap m m' : heap m' = heap m → strong_frame m m'.
Proof. intros Hh b blk H. rewrite Hh in H. eauto. Qed.

Lemma bind_Ret_inv {A B} (c : M A) (k : A → M B) m b m' :
  bind c k m = Ret b m' → ∃ a m1, c m = Ret a m1 ∧ k a m1 = Ret b m'.
Proof. unfold bind. destruct (c m) as [a m1| |]; [eauto|done|done]. Qed.

Lemma load_Ret_inv b m blk m' : load b m = Ret blk m' → m' = m ∧ heap m !! b = Some blk.
Proof. unfold load. destruct (heap m !! b); intros ?; by simplify_eq. Qed.

Lemma store_Ret_inv b blk m u m' :
  store b blk m = Ret u m' → is_Some (heap m !! b) ∧ m' = set_heap (<[b := blk]> (heap m)) m.
Proof. unfold store. destruct (heap m !! b); intros ?; simplify_eq; eauto. Qed.

Lemma delete_block_Ret_inv b m u m' :
  delete_block b m = Ret u m' → m' = set_heap (delete b (heap m)) m.
Proof. unfold delete_block. destruct (heap m !! b); intros ?; by simplify_eq. Qed.

Lemma load_object_Ret_inv a m o m' :
  load_object a m = Ret o m' → m' = m ∧ objects m !! a = Some o.
Proof. unfold load_object. destruct (objects m !! a); intros ?; by simplify_eq. Qed.

Lemma IncreaseWeakCounter_frame this m u m' :
  WeakPtr_IncreaseWeakCounter this m = Ret u m' → strong_frame m m'.
Proof.
  unfold WeakPtr_IncreaseWeakCounter. destruct (WeakPtr.control_block_ this) as [b|].
  - intros (blk & m1 & (-> & Hb)%load_Ret_inv & (_ & ->)%store_Ret_inv)%bind_Ret_inv.
    intros b0 blk0. simpl. rewrite lookup_insert. case_decide; intros ?; simplify_eq; eauto.
  - intros [= <- <-]. apply strong_frame_refl.
Qed.

Lemma DecreaseWeakCounter_frame this m u m' :
  WeakPtr_DecreaseWeakCounter this m = Ret u m' → strong_frame m m'.
Proof.
  unfold WeakPtr_DecreaseWeakCounter. destruct (WeakPtr.control_block_ this) as [b|].
  - intros (blk & m1 & (-> & Hb)%load_Ret_inv & H)%bind_Ret_inv.
    apply bind_Ret_inv in H as (? & m2 & (_ & ->)%store_Ret_inv & H).
    apply bind_Ret_inv in H as (blk' & m3 & (-> & Hb')%load_Ret_inv & H).
    assert (strong_frame m (set_heap (<[b:=(DecWeakRef blk).2]> (heap m)) m)) as Hf.
    { intros b0 blk0. simpl. rewrite lookup_insert.
      case_decide; intros ?; simplify_eq; eauto. }
    destruct (negb _ && _).
    + apply delete_block_Ret_inv in H as ->.
      eapply strong_frame_trans; [exact Hf|].
      intros b0 blk0. simpl. rewrite lookup_delete. case_decide; [done|]. eauto.
    + injection H as <- <-. exact Hf.
  - intros [= <- <-]. apply strong_frame_refl.
Qed.

Lemma WeakPtr_Reset_frame this m wp m' :
  WeakPtr_Reset this m = Ret wp m' → strong_frame m m'.
Proof.
  unfold WeakPtr_Reset.
  intros (? & m1 & H%DecreaseWeakCounter_frame & [= <- <-])%bind_Ret_inv. done.
Qed.

Lemma store_object_frame a o m u m' : store_object a o m = Ret u m' → strong_frame m m'.
Proof.
  unfold store_object. destruct (objects m !! a); intros ?; simplify_eq.
  by apply strong_frame_same_heap.
Qed.

Lemma destroy_object_frame a m u m' : destroy_object a m = Ret u m' → strong_frame m m'.
Proof.
  unfold destroy_object.
  intros (o & m1 & (-> & Ho)%load_object_Ret_inv & H)%bind_Ret_inv.
  apply bind_Ret_inv in H as (? & m2 & [= <- <-] & H).
  apply bind_Ret_inv in H as (? & m3 & H3 & H).
  assert (strong_frame m m3) as Hf.
  { destruct (weak_this_ o) as [wt|].
    - apply bind_Ret_inv in H3 as (w' & m4 & H4%WeakPtr_Reset_frame & H5%store_object_frame).
      eapply strong_frame_trans; [|exact H5]. eapply strong_frame_trans; [|exact H4].
      by apply strong_frame_same_heap.
    - injection H3 as <- <-. apply strong_frame_same_heap. reflexivity. }
  unfold remove_object in H. destruct (objects m3 !! a); [|done].
  injection H as <- <-.
  eapply strong_frame_trans; [exact Hf|]. by apply strong_frame_same_heap.
Qed.

Lemma InitWeakThis_frame sp p m u m' :
  SharedPtr_InitWeakThis sp p m = Ret u m' → strong_frame m m'.
Proof.
  unfold SharedPtr_InitWeakThis. destruct p as [a|]; [|done].
  intros (o & m1 & (-> & Ho)%load_object_Ret_inv & H)%bind_Ret_inv.
  destruct (weak_this_ o) as [wt|]; [|done].
  apply bind_Ret_inv in H as (tmp & m2 & H2 & H).
  unfold WeakPtr_from_shared in H2.
  apply bind_Ret_inv in H2 as (? & m2' & H2%IncreaseWeakCounter_frame & [= <- <-]).
  apply bind_Ret_inv in H as ([wt1 tmp1] & m3 & H3 & H).
  unfold WeakPtr_move_assign in H3.
  apply bind_Ret_inv in H3 as (this1 & m3' & H3%WeakPtr_Reset_frame & [= <- <- <-]).
  apply bind_Ret_inv in H as (? & m4 & H4%store_object_frame & H).
  apply bind_Ret_inv in H as (? & m5 & H5%WeakPtr_Reset_frame & H6%store_object_frame).
  repeat (eapply strong_frame_trans; [|eassumption]). apply strong_frame_refl.
Qed.

(** A second [Destroy] of a block that is still allocated does nothing. *)
Lemma Destroy_idempotent b m m' :
  Destroy b m = Ret tt m' → is_Some (heap m' !! b) → Destroy b m' = Ret tt m'.
Proof.
  unfold Destroy at 1. intros (blk & m1 & (-> & Hb)%load_Ret_inv & H)%bind_Ret_inv [blk' Hb'].
  assert (is_destroyed blk' = true → Destroy b m' = Ret tt m') as Hdone.
  { intros Hd. unfold Destroy, bind, load. rewrite Hb'. by rewrite Hd. }
  destruct (is_destroyed blk) eqn:Hd; simpl in H.
  { injection H as <-. apply Hdone. by simplify_eq. }
  apply bind_Ret_inv in H as (? & m2 & (_ & ->)%store_Ret_inv & H).
  assert (strong_frame (set_heap (<[b:=mkBlock 0 (weak_ref_cnt blk) true (kind blk)]> (heap m)) m)
            m') as Hf.
  { destruct (kind blk) as [[p|]|p].
    - by eapply destroy_object_frame.
    - injection H as <-. apply strong_frame_refl.
    - by eapply destroy_object_frame. }
  destruct (Hf _ _ Hb') as (blk1 & Hb1 & _ & Hd1 & _). simpl in Hb1.
  rewrite lookup_insert_eq in Hb1. simplify_eq. by apply Hdone.
Qed.

(** On handles without the flag the two variants of
    [DecreaseWeakCounter] are the same function. *)
Lemma Wk_DecreaseWeakCounter_eq cb p m :
  Wk.WeakPtr_DecreaseWeakCounter (Wk.WeakPtr.mk cb p) m
  = WeakPtr_DecreaseWeakCounter (WeakPtr.mk cb p false) m.
Proof. reflexivity. Qed.




Lemma count_occ_NoDup (l : list positive) a :
  NoDup l → a ∈ l → count_occ Pos.eq_dec l a = 1%nat.
Proof.
  intros Hnd Hin. apply NoDup_ListNoDup in Hnd.
  apply (proj1 (List.NoDup_count_occ' Pos.eq_dec l) Hnd). by apply list_elem_of_In.
Qed.

(** C6, for the blocks of [shared-from-this/shared.h].  A second
    [Destroy()] on a block that is still allocated is a no-op.  When the
    last strong variable of a feasible client goes out of scope the
    destructor of the managed object runs once: it is logged, it was not
    logged before, weak variables that remain keep the destroyed block
    allocated (and a further [Destroy()] on it changes nothing), and
    whatever the client does afterwards the destructor never runs again. *)
Theorem destructor_runs_exactly_once ops w h sp b blk p :
  feasible (ops ++ [SDestruct h]) → run ops init = Some w →
  strongs w !! h = Some sp → SharedPtr.control_block_ sp = Some b →
  heap (mem w) !! b = Some blk → strong_ref_cnt blk = 1 → GetRawPtr blk = Some p →
  (∀ m m', Destroy b m = Ret tt m' → is_Some (heap m' !! b) → Destroy b m' = Ret tt m') ∧
  ∃ w', step (SDestruct h) w = Some w' ∧
        dtor_log (mem w') = p :: dtor_log (mem w) ∧
        (p ∉ dtor_log (mem w)) ∧
        ((1 ≤ live_weak_handles b w)%nat →
           ∃ blk', heap (mem w') !! b = Some blk' ∧ is_destroyed blk' = true ∧
                   live_weak_handles b w' = live_weak_handles b w ∧
                   Destroy b (mem w') = Ret tt (mem w')) ∧
        ∀ ops' w'', feasible (ops ++ SDestruct h :: ops') → run ops' w' = Some w'' →
                    count_occ Pos.eq_dec (dtor_log (mem w'')) p = 1%nat.
Proof.
  intros Hf Hrun Hh Hb Hblk Hone Hp. split; [intros m m'; apply Destroy_idempotent|].
  unfold feasible in Hf. rewrite length_app in Hf. simpl in Hf.
  assert (feasible ops) as Hf0 by (unfold feasible; lia).
  pose proof (feasible_Inv _ _ Hf0 Hrun) as HI.
  destruct (Inv_release_strong _ w h sp (SharedPtr.mk None None) HI) as (m & Hm & HIm & Hl);
    [lia|done|done|].
  assert (released_object (mem w) sp = Some p) as Hrel.
  { unfold released_object. rewrite Hb, Hblk, Hone. done. }
  rewrite Hrel in Hl. simpl in Hl.
  apply (Inv_delete_vacant_strong _ _ h) in HIm.
  2:{ simpl. rewrite lookup_insert_eq. by apply vacant_strong_Some. }
  simpl in HIm. rewrite delete_insert_eq in HIm.
  set (w' := mkWorld m (delete h (strongs w)) (weaks w)) in *.
  assert (step (SDestruct h) w = Some w') as Hstep.
  { simpl. rewrite Hh. simpl. unfold SharedPtr_Reset. erewrite bind_Ret by exact Hm. done. }
  exists w'. split_and!; [done|done| | |].
  - pose proof (inv_log_nodup _ (inv_mem _ _ HIm)) as Hnd. simpl in Hnd.
    rewrite Hl in Hnd. by apply NoDup_cons in Hnd as [? _].
  - unfold live_weak_handles. simpl. intros Hweak.
    pose proof (inv_counts _ _ HIm b) as Hc. simpl in Hc.
    pose proof (inv_counts _ _ HI b) as Hc0. rewrite Hblk in Hc0. simpl in Hc0.
    pose proof (refs_delete SharedPtr.control_block_ b (strongs w) h) as Hr.
    rewrite Hh in Hr. simpl in Hr. rewrite Hb, decide_True in Hr by done.
    destruct (heap m !! b) as [blk'|] eqn:Hb'; simpl in Hc; [|lia].
    exists blk'. destruct (is_destroyed blk) eqn:Hd0; [lia|].
    destruct (is_destroyed blk') eqn:Hd'; [|lia].
    split_and!; [done|done|done|]. unfold Destroy, bind, load. rewrite Hb'. by rewrite Hd'.
  - intros ops' w'' Hf' Hrun'. unfold feasible in Hf'. rewrite length_app in Hf'. simpl in Hf'.
    destruct (run_good ops' _ _ _ HIm ltac:(lia) Hrun') as [HI'' Hsuf].
    apply count_occ_NoDup; [apply (inv_log_nodup _ (inv_mem _ _ HI''))|].
    destruct Hsuf as [l ->]. simpl. rewrite Hl. set_solver.
Qed.

Lemma destructor_runs_exactly_once_witness :
  ∃ w w' w'',
    run [SMake 1 true; SCopy 2 1; WFromShared 1 2; SDestruct 1]%positive init = Some w ∧
    step (SDestruct 2%positive) w = Some w' ∧
    dtor_log (mem w) = [] ∧ dtor_log (mem w') = [1%positive] ∧
    Destroy 1%positive (mem w') = Ret tt (mem w') ∧
    run [WLock 3 1 true; SDefault 4; WDestruct 1; SDestruct 3]%positive w' = Some w'' ∧
    count_occ Pos.eq_dec (dtor_log (mem w'')) 1%positive = 1%nat.
Proof.
  pose (w := mkWorld (mkMemory {[1%positive := mkBlock 1 2 false (InlineBlock 1%positive)]}
                        {[1%positive := mkObject (Some (WeakPtr.mk (Some 1%positive)
                                                          (Some 1%positive) true))]}
                        [] 2%positive 2%positive)
                     {[2%positive := SharedPtr.mk (Some 1%positive) (Some 1%positive)]}
                     {[1%positive := WeakPtr.mk (Some 1%positive) (Some 1%positive) false]}).
  destruct (destructor_runs_exactly_once
              [SMake 1 true; SCopy 2 1; WFromShared 1 2; SDestruct 1]%positive
              w 2%positive (SharedPtr.mk (Some 1%positive) (Some 1%positive)) 1%positive
              (mkBlock 1 2 false (InlineBlock 1%positive)) 1%positive)
    as (_ & w' & Hstep & Hlog & _ & Hweak & Hlater).
  - unfold feasible, capacity. cbn [length app]. lia.
  - vm_compute. reflexivity.
  - vm_compute. reflexivity.
  - reflexivity.
  - vm_compute. reflexivity.
  - reflexivity.
  - reflexivity.
  - destruct Hweak as (blk' & _ & _ & _ & Hd); [vm_compute; lia|].
    assert (is_Some (run [WLock 3 1 true; SDefault 4; WDestruct 1; SDestruct 3]%positive w'))
      as [w'' Hrun'].
    { vm_compute in Hstep. injection Hstep as <-. vm_compute. eauto. }
    exists w, w', w''.
    split; [vm_compute; reflexivity|]. split; [exact Hstep|]. split; [reflexivity|].
    split; [exact Hlog|]. split; [exact Hd|]. split; [exact Hrun'|].
    apply (Hlater [WLock 3 1 true; SDefault 4; WDestruct 1; SDestruct 3]%positive w'');
      [unfold feasible, capacity; cbn [length app]; lia|exact Hrun'].
Defined.

Lemma Lock_eq esft this b blk m :
  WeakPtr.control_block_ this = Some b → heap m !! b = Some blk →
  WeakPtr_Lock esft this m
  = if is_destroyed blk then Ret SharedPtr_default m
    else SharedPtr_from_block esft (Some b) (WeakPtr.ptr_ this) m.
Proof.
  intros Hb Hblk. unfold WeakPtr_Lock, WeakPtr_Expired. rewrite Hb.
  unfold bind, load, ret. rewrite Hblk. unfold IsDestroyed. by destruct (is_destroyed blk).
Qed.

Lemma Wk_Lock_eq ctor p b blk m :
  heap m !! b = Some blk →
  Wk.WeakPtr_Lock ctor (Wk.WeakPtr.mk (Some b) p) m
  = if is_destroyed blk then Ret SharedPtr_default m
    else ctor (Some b) p (set_heap (<[b := (IncStrongRef blk).2]> (heap m)) m).
Proof.
  intros Hblk. unfold Wk.WeakPtr_Lock, Wk.WeakPtr_Expired. simpl.
  unfold bind, load, store, ret. rewrite Hblk. unfold IsDestroyed. simpl.
  destruct (is_destroyed blk) eqn:Hd; simpl; [done|]. rewrite ?Hblk, ?Hd. reflexivity.
Qed.

(** [auto h = x.Lock()] in a feasible client, for a weak variable [x].
    Without a block, or with a block whose object was destroyed, [Lock]
    returns the null handle and memory is untouched, whatever the handle
    type.  With a live block, and for a self-aware handle type provided the
    pointer of [x] refers to a live self-aware object, it returns a handle
    with the block and pointer of [x], the strong count of the block is one
    higher, and no other block that remains has its strong count or
    destroyed flag changed.  [Lock] of [weak/weak.h] is null and silent in
    the same cases and otherwise increments once before it calls the
    constructor of its [shared.h]. *)
Theorem lock_weak_handle ops w h x this esft :
  feasible (ops ++ [WLock h x esft]) → run ops init = Some w →
  weaks w !! x = Some this → strongs w !! h = None →
  match WeakPtr.control_block_ this with
  | None =>
      WeakPtr_Lock esft this (mem w) = Ret SharedPtr_default (mem w) ∧
      ∀ ctor, Wk.WeakPtr_Lock ctor (Wk.WeakPtr.mk None (WeakPtr.ptr_ this)) (mem w)
              = Ret SharedPtr_default (mem w)
  | Some b =>
      ∃ blk, heap (mem w) !! b = Some blk ∧
        if is_destroyed blk then
          WeakPtr_Lock esft this (mem w) = Ret SharedPtr_default (mem w) ∧
          ∀ ctor, Wk.WeakPtr_Lock ctor (Wk.WeakPtr.mk (Some b) (WeakPtr.ptr_ this)) (mem w)
                  = Ret SharedPtr_default (mem w)
        else
          ((esft = true → ∃ a o wt, WeakPtr.ptr_ this = Some a ∧
                                    objects (mem w) !! a = Some o ∧ weak_this_ o = Some wt) →
           ∃ m' blk',
             WeakPtr_Lock esft this (mem w)
             = Ret (SharedPtr.mk (Some b) (WeakPtr.ptr_ this)) m' ∧
             heap m' !! b = Some blk' ∧
             strong_ref_cnt blk' = strong_ref_cnt blk + 1 ∧
             is_destroyed blk' = false ∧
             ∀ b0 blk0', b0 ≠ b → heap m' !! b0 = Some blk0' →
               ∃ blk0, heap (mem w) !! b0 = Some blk0 ∧
                       strong_ref_cnt blk0' = strong_ref_cnt blk0 ∧
                       is_destroyed blk0' = is_destroyed blk0) ∧
          ∀ ctor, Wk.WeakPtr_Lock ctor (Wk.WeakPtr.mk (Some b) (WeakPtr.ptr_ this)) (mem w)
                  = ctor (Some b) (WeakPtr.ptr_ this)
                      (set_heap (<[b := mkBlock (strong_ref_cnt blk + 1) (weak_ref_cnt blk)
                                                false (kind blk)]> (heap (mem w))) (mem w))
  end.
Proof.
  intros Hf Hrun Hx Hh.
  unfold feasible in Hf. rewrite length_app in Hf. simpl in Hf.
  assert (feasible ops) as Hf0 by (unfold feasible; lia).
  pose proof (feasible_Inv _ _ Hf0 Hrun) as HI.
  destruct (WeakPtr.control_block_ this) as [b|] eqn:Hb.
  2:{ split; [unfold WeakPtr_Lock, WeakPtr_Expired; by rewrite Hb|done]. }
  destruct (Inv_weak_block _ _ _ _ _ HI Hx Hb) as (blk & Hblk & _).
  exists blk. split; [done|].
  rewrite (Lock_eq esft this b blk _ Hb Hblk).
  destruct (is_destroyed blk) eqn:Hd.
  { split; [done|]. intros ctor. rewrite (Wk_Lock_eq _ _ _ blk) by done. by rewrite Hd. }
  destruct (Inv_weak_bound _ _ _ _ HI ltac:(lia) Hblk) as (Hw0 & Hs0 & Hbd).
  split.
  2:{ intros ctor. rewrite (Wk_Lock_eq _ _ _ blk) by done. rewrite Hd. simpl.
      rewrite wrap_small by lia. by rewrite Hd. }
  intros Hesft.
  destruct (acquire_strong_block _ w HI ltac:(lia) h b (WeakPtr.ptr_ this) (WeakPtr.ptr_ this)
              blk Hh Hblk Hd) as (m1 & Hm1 & HI1 & Hl1 & Hobj1 & _).
  assert (SharedPtr_IncreaseStrongCounter (SharedPtr.mk (Some b) (WeakPtr.ptr_ this)) (mem w)
          = Ret tt (set_heap (<[b := (IncStrongRef blk).2]> (heap (mem w))) (mem w))) as Hinc
    by (by apply IncreaseStrongCounter_Some).
  assert (m1 = set_heap (<[b := (IncStrongRef blk).2]> (heap (mem w))) (mem w)) as ->.
  { erewrite bind_Ret in Hm1 by exact Hinc. unfold ret in Hm1. by injection Hm1. }
  unfold SharedPtr_from_block. erewrite bind_Ret by exact Hinc.
  assert (∃ m', (if esft then SharedPtr_InitWeakThis (SharedPtr.mk (Some b) (WeakPtr.ptr_ this))
                                (WeakPtr.ptr_ this) else ret tt)
                  (set_heap (<[b := (IncStrongRef blk).2]> (heap (mem w))) (mem w)) = Ret tt m' ∧
                strong_frame (set_heap (<[b := (IncStrongRef blk).2]> (heap (mem w))) (mem w)) m' ∧
                is_Some (heap m' !! b)) as (m' & Hm' & Hfr & [blk' Hb']).
  { destruct esft.
    - destruct (Hesft eq_refl) as (a & o & wt & Hp & Ho & Hwt). rewrite Hp in *.
      edestruct (Inv_InitWeakThis _ _ b (Some a) a o wt (IncStrongRef blk).2 HI1)
        as (m2 & Hm2 & HI2 & _); [lia|simpl; by rewrite lookup_insert_eq|done|done|].
      cbn [mem] in Hm2. exists m2. split_and!; [done|by eapply InitWeakThis_frame|].
      destruct (Inv_strong_block _ _ h (SharedPtr.mk (Some b) (Some a)) b HI2)
        as (blk2 & Hb2 & _); [simpl; by rewrite lookup_insert_eq|done|eauto].
    - eexists. split_and!; [done|apply strong_frame_refl|].
      simpl. rewrite lookup_insert_eq. eauto. }
  erewrite bind_Ret by exact Hm'. unfold ret.
  destruct (Hfr _ _ Hb') as (blk1 & Hb1 & Hs1 & Hd1 & _). simpl in Hb1.
  rewrite lookup_insert_eq in Hb1. simplify_eq.
  exists m', blk'. split_and!; [done|done| | |].
  - rewrite Hs1. simpl. rewrite wrap_small; lia.
  - by rewrite Hd1.
  - intros b0 blk0' Hne Hb0. destruct (Hfr _ _ Hb0) as (blk0 & Hblk0 & ? & ? & _).
    simpl in Hblk0. rewrite lookup_insert_ne in Hblk0 by done. eauto.
Qed.

Lemma lock_weak_handle_witness :
  (∃ w this m' blk',
     run [SAdopt 1 true; WFromShared 1 1]%positive init = Some w ∧
     weaks w !! 1%positive = Some this ∧
     WeakPtr_Lock true this (mem w)
     = Ret (SharedPtr.mk (Some 1%positive) (Some 1%positive)) m' ∧
     heap m' !! 1%positive = Some blk' ∧ strong_ref_cnt blk' = 2) ∧
  (∃ w this,
     run [SAdopt 1 true; WFromShared 1 1; SDestruct 1]%positive init = Some w ∧
     weaks w !! 1%positive = Some this ∧
     WeakPtr_Lock true this (mem w) = Ret SharedPtr_default (mem w)).
Proof.
  split.
  - pose (w := mkWorld (mkMemory {[1%positive := mkBlock 1 2 false (DefaultBlock (Some 1%positive))]}
                          {[1%positive := mkObject (Some (WeakPtr.mk (Some 1%positive)
                                                            (Some 1%positive) true))]}
                          [] 2%positive 2%positive)
                       {[1%positive := SharedPtr.mk (Some 1%positive) (Some 1%positive)]}
                       {[1%positive := WeakPtr.mk (Some 1%positive) (Some 1%positive) false]}).
    pose proof (lock_weak_handle [SAdopt 1 true; WFromShared 1 1]%positive w 2%positive
                  1%positive (WeakPtr.mk (Some 1%positive) (Some 1%positive) false) true) as H.
    cbn [WeakPtr.control_block_] in H.
    destruct H as (blk & Hblk & H).
    + unfold feasible, capacity. cbn [length app]. lia.
    + vm_compute. reflexivity.
    + vm_compute. reflexivity.
    + vm_compute. reflexivity.
    + vm_compute in Hblk. injection Hblk as <-. cbn [is_destroyed] in H.
      destruct H as [H _].
      destruct H as (m' & blk' & Hlock & Hb' & Hs & _).
      { intros _. eexists _, _, _. split; [reflexivity|]. split; vm_compute; reflexivity. }
      exists w, (WeakPtr.mk (Some 1%positive) (Some 1%positive) false), m', blk'.
      split; [vm_compute; reflexivity|]. split; [vm_compute; reflexivity|].
      split; [exact Hlock|]. split; [exact Hb'|]. exact Hs.
  - pose (w := mkWorld (mkMemory {[1%positive := mkBlock 0 1 true (DefaultBlock (Some 1%positive))]}
                          ∅ [1%positive] 2%positive 2%positive)
                       ∅ {[1%positive := WeakPtr.mk (Some 1%positive) (Some 1%positive) false]}).
    pose proof (lock_weak_handle [SAdopt 1 true; WFromShared 1 1; SDestruct 1]%positive w
                  2%positive 1%positive
                  (WeakPtr.mk (Some 1%positive) (Some 1%positive) false) true) as H.
    cbn [WeakPtr.control_block_] in H.
    destruct H as (blk & Hblk & H).
    + unfold feasible, capacity. cbn [length app]. lia.
    + vm_compute. reflexivity.
    + vm_compute. reflexivity.
    + vm_compute. reflexivity.
    + vm_compute in Hblk. injection Hblk as <-. cbn [is_destroyed] in H.
      destruct H as [Hlock _].
      exists w, (WeakPtr.mk (Some 1%positive) (Some 1%positive) false).
      split; [vm_compute; reflexivity|]. split; [vm_compute; reflexivity|]. exact Hlock.
Defined.

(** C4, the defect.  A self-aware object is made, a second strong handle
    aliases its block with a null pointer, and a weak handle is taken from
    that one.  The object is alive: [Expired()] is false and [UseCount()]
    is 2.  [Lock()] builds its result with [SharedPtr(block, ptr)], which
    for a self-aware type runs [InitWeakThis(ptr)] and so dereferences the
    null pointer: the behaviour is undefined and no handle is returned.
    The promoting constructor [SharedPtr(const WeakPtr&)] on the same
    handle returns a handle on the block and raises [UseCount()] to 3. *)
Theorem lock_through_null_alias_is_undefined :
  ∃ w this m',
    run [SMake 1 true; SAlias 2 1 None; WFromShared 1 2]%positive init = Some w ∧
    weaks w !! 1%positive = Some this ∧
    this = WeakPtr.mk (Some 1%positive) None false ∧
    WeakPtr_Expired this (mem w) = Ret false (mem w) ∧
    WeakPtr_UseCount this (mem w) = Ret 2 (mem w) ∧
    WeakPtr_Lock true this (mem w) = Undefined ∧
    step (WLock 3 1 true) w = None ∧
    SharedPtr_from_weak this (mem w) = Ret (SharedPtr.mk (Some 1%positive) None) m' ∧
    SharedPtr_UseCount (SharedPtr.mk (Some 1%positive) None) m' = Ret 3 m'.
Proof.
  eexists _, _, _.
  repeat (split; [vm_compute; reflexivity|]). vm_compute; reflexivity.
Qed.

(** * The two pointers of a constructed handle *)

Lemma from_raw_fields esft ptr m sp m' :
  SharedPtr_from_raw esft ptr m = Ret sp m' →
  sp = SharedPtr.mk (Some (next_block m)) ptr.
Proof.
  unfold SharedPtr_from_raw.
  intros (b & m1 & [= <- <-] & H)%bind_Ret_inv.
  apply bind_Ret_inv in H as (? & m2 & _ & H).
  apply bind_Ret_inv in H as (? & m3 & _ & H). by injection H as <- _.
Qed.

Lemma from_block_fields esft cb ptr m sp m' :
  SharedPtr_from_block esft cb ptr m = Ret sp m' → sp = SharedPtr.mk cb ptr.
Proof.
  unfold SharedPtr_from_block.
  intros (? & m2 & _ & H)%bind_Ret_inv.
  apply bind_Ret_inv in H as (? & m3 & _ & H). by injection H as <- _.
Qed.

Lemma MakeShared_fields esft m sp m' :
  MakeShared esft m = Ret sp m' →
  sp = SharedPtr.mk (Some (next_block m)) (Some (next_addr m)).
Proof.
  unfold MakeShared.
  intros (a & m1 & [= <- <-] & H)%bind_Ret_inv.
  apply bind_Ret_inv in H as (b & m2 & [= <- <-] & H).
  apply bind_Ret_inv in H as (blk & m3 & (-> & Hb)%load_Ret_inv & H).
  simpl in Hb. rewrite lookup_insert_eq in Hb. injection Hb as <-.
  by apply from_block_fields in H.
Qed.

Lemma copy_fields other m sp m' : SharedPtr_copy other m = Ret sp m' → sp = other.
Proof.
  unfold SharedPtr_copy. intros (? & m1 & _ & H)%bind_Ret_inv.
  injection H as <- _. by destruct other.
Qed.

Lemma alias_fields other p m sp m' :
  SharedPtr_alias other p m = Ret sp m' →
  sp = SharedPtr.mk (SharedPtr.control_block_ other) p.
Proof.
  unfold SharedPtr_alias. intros (? & m1 & _ & H)%bind_Ret_inv. by injection H as <- _.
Qed.

Lemma from_weak_fields other m sp m' :
  SharedPtr_from_weak other m = Ret sp m' →
  sp = SharedPtr.mk (WeakPtr.control_block_ other) (WeakPtr.ptr_ other).
Proof.
  unfold SharedPtr_from_weak. simpl. destruct (WeakPtr.control_block_ other) as [b|]; [|done].
  intros (blk & m1 & _ & H)%bind_Ret_inv. destruct (IsDestroyed blk); [done|].
  apply bind_Ret_inv in H as (? & m2 & _ & H). by injection H as <- _.
Qed.

Lemma Lock_fields esft this m sp m' :
  WeakPtr_Lock esft this m = Ret sp m' →
  sp = SharedPtr_default ∨
  sp = SharedPtr.mk (WeakPtr.control_block_ this) (WeakPtr.ptr_ this).
Proof.
  unfold WeakPtr_Lock. intros (e & m1 & _ & H)%bind_Ret_inv. destruct e; simpl in H.
  - left. by injection H as <- _.
  - right. by eapply from_block_fields.
Qed.

Lemma SharedFromThis_fields self m sp m' :
  SharedFromThis self m = Ret sp m' →
  ∃ o wt, objects m !! self = Some o ∧ weak_this_ o = Some wt ∧
          sp = SharedPtr.mk (WeakPtr.control_block_ wt) (WeakPtr.ptr_ wt).
Proof.
  unfold SharedFromThis.
  intros (o & m1 & (-> & Ho)%load_object_Ret_inv & H)%bind_Ret_inv.
  destruct (weak_this_ o) as [wt|] eqn:Hwt; [|done].
  exists o, wt. split_and!; [done|done|]. by eapply from_weak_fields.
Qed.

(** C8, as the code has it.  Default and [nullptr] construction give two
    null pointers and [MakeShared] two non-null ones.  Adoption of a raw
    pointer always allocates a block, so its handle has the property
    exactly when the raw pointer is not null.  Copy, move, promotion,
    [Lock] and [SharedFromThis] hand on the two pointers of their source (or
    two nulls), so they hand on the property.  The aliasing constructor
    takes the block from the other handle and the pointer from its
    argument, so its handle has the property exactly when these two are
    both null or both not. *)
Theorem constructed_handle_pointers :
  balanced (SharedPtr.control_block_ SharedPtr_default) (SharedPtr.ptr_ SharedPtr_default) ∧
  balanced (SharedPtr.control_block_ SharedPtr_nullptr) (SharedPtr.ptr_ SharedPtr_nullptr) ∧
  (∀ esft ptr m sp m', SharedPtr_from_raw esft ptr m = Ret sp m' →
     is_Some (SharedPtr.control_block_ sp) ∧ SharedPtr.ptr_ sp = ptr ∧
     (balanced (SharedPtr.control_block_ sp) (SharedPtr.ptr_ sp) ↔ is_Some ptr)) ∧
  (∀ esft m sp m', MakeShared esft m = Ret sp m' →
     is_Some (SharedPtr.control_block_ sp) ∧ is_Some (SharedPtr.ptr_ sp) ∧
     balanced (SharedPtr.control_block_ sp) (SharedPtr.ptr_ sp)) ∧
  (∀ other m sp m', SharedPtr_copy other m = Ret sp m' → sp = other) ∧
  (∀ other, SharedPtr_move other = (other, SharedPtr.mk None None)) ∧
  (∀ other p m sp m', SharedPtr_alias other p m = Ret sp m' →
     SharedPtr.control_block_ sp = SharedPtr.control_block_ other ∧ SharedPtr.ptr_ sp = p ∧
     (balanced (SharedPtr.control_block_ sp) (SharedPtr.ptr_ sp)
      ↔ balanced (SharedPtr.control_block_ other) p)) ∧
  (∀ other m sp m', SharedPtr_from_weak other m = Ret sp m' →
     SharedPtr.control_block_ sp = WeakPtr.control_block_ other ∧
     SharedPtr.ptr_ sp = WeakPtr.ptr_ other) ∧
  (∀ esft this m sp m', WeakPtr_Lock esft this m = Ret sp m' →
     sp = SharedPtr.mk None None ∨
     (SharedPtr.control_block_ sp = WeakPtr.control_block_ this ∧
      SharedPtr.ptr_ sp = WeakPtr.ptr_ this)) ∧
  (∀ self m sp m', SharedFromThis self m = Ret sp m' →
     ∃ o wt, objects m !! self = Some o ∧ weak_this_ o = Some wt ∧
             SharedPtr.control_block_ sp = WeakPtr.control_block_ wt ∧
             SharedPtr.ptr_ sp = WeakPtr.ptr_ wt).
Proof.
  split_and!.
  - done.
  - done.
  - intros esft ptr m sp m' ->%from_raw_fields. simpl. split_and!; [eauto|done|].
    unfold balanced. split.
    + intros H. destruct ptr; [eauto|]. by destruct (proj1 H eq_refl).
    + intros [a ->]. split; intros [=].
  - intros esft m sp m' ->%MakeShared_fields. simpl. split_and!; [eauto|eauto|].
    split; intros [=].
  - intros other m sp m'. apply copy_fields.
  - intros other. unfold SharedPtr_move. by destruct other.
  - intros other p m sp m' ->%alias_fields. done.
  - intros other m sp m' ->%from_weak_fields. done.
  - intros esft this m sp m' [->| ->]%Lock_fields; [by left|by right].
  - intros self m sp m' (o & wt & ? & ? & ->)%SharedFromThis_fields.
    exists o, wt. split_and!; done.
Qed.

Lemma constructed_handle_pointers_witness :
  (∃ sp m', SharedPtr_from_raw false (Some 7%positive) empty_memory = Ret sp m' ∧
            balanced (SharedPtr.control_block_ sp) (SharedPtr.ptr_ sp)) ∧
  (∃ sp m', MakeShared true empty_memory = Ret sp m' ∧
            balanced (SharedPtr.control_block_ sp) (SharedPtr.ptr_ sp)) ∧
  (∃ w sp m', run [SMake 1 false]%positive init = Some w ∧
              SharedPtr_alias (SharedPtr.mk (Some 1%positive) (Some 1%positive)) None (mem w)
              = Ret sp m' ∧
              SharedPtr.control_block_ sp = Some 1%positive ∧ SharedPtr.ptr_ sp = None).
Proof.
  destruct constructed_handle_pointers
    as (_ & _ & Hraw & Hmake & _ & _ & Halias & _).
  split; [|split].
  - destruct (SharedPtr_from_raw false (Some 7%positive) empty_memory) as [sp m'| |] eqn:E;
      [|vm_compute in E; discriminate E..].
    exists sp, m'. split; [reflexivity|].
    destruct (Hraw _ _ _ _ _ E) as (_ & _ & Hb). apply Hb. eauto.
  - destruct (MakeShared true empty_memory) as [sp m'| |] eqn:E;
      [|vm_compute in E; discriminate E..].
    exists sp, m'. split; [reflexivity|].
    by destruct (Hmake _ _ _ _ E) as (_ & _ & Hb).
  - pose (m := mkMemory {[1%positive := mkBlock 1 0 false (InlineBlock 1%positive)]}
                 {[1%positive := mkObject None]} [] 2%positive 2%positive).
    destruct (SharedPtr_alias (SharedPtr.mk (Some 1%positive) (Some 1%positive)) None m)
      as [sp m'| |] eqn:E; [|vm_compute in E; discriminate E..].
    exists (mkWorld m {[1%positive := SharedPtr.mk (Some 1%positive) (Some 1%positive)]} ∅),
      sp, m'.
    split; [vm_compute; reflexivity|]. split; [exact E|].
    destruct (Halias _ _ _ _ _ E) as (H1 & H2 & _). split; [exact H1|exact H2].
Defined.

(** The handle that adopts a null raw pointer has a null value pointer and
    a control block. *)
Lemma adopted_null_pointer_has_block :
  ∃ sp m', SharedPtr_from_raw false None empty_memory = Ret sp m' ∧
           SharedPtr.ptr_ sp = None ∧
           SharedPtr.control_block_ sp = Some 1%positive ∧
           ¬ balanced (SharedPtr.control_block_ sp) (SharedPtr.ptr_ sp).
Proof.
  eexists _, _. split; [vm_compute; reflexivity|]. simpl.
  split; [done|]. split; [done|]. intros H. discriminate (proj1 H eq_refl).
Qed.

(** * The self-reference flag *)

Lemma WeakPtr_Reset_flag this m wp m' :
  WeakPtr_Reset this m = Ret wp m' →
  wp = WeakPtr.mk None None (WeakPtr.is_esft_ptr_ this).
Proof.
  unfold WeakPtr_Reset. intros (? & m1 & _ & H)%bind_Ret_inv. by injection H as <- _.
Qed.

Lemma DecreaseWeakCounter_eq this b blk m :
  WeakPtr.control_block_ this = Some b → heap m !! b = Some blk →
  WeakPtr_DecreaseWeakCounter this m
  = Ret tt (set_heap (if negb (WeakPtr.is_esft_ptr_ this)
                         && (GetAllCounter (DecWeakRef blk).2 =? 0)
                      then delete b (heap m)
                      else <[b := (DecWeakRef blk).2]> (heap m)) m).
Proof.
  intros Hb Hblk. unfold WeakPtr_DecreaseWeakCounter. rewrite Hb.
  erewrite bind_Ret by (unfold load; by rewrite Hblk).
  erewrite bind_Ret by (unfold store; by rewrite Hblk).
  erewrite bind_Ret by (unfold load; simpl; by rewrite lookup_insert_eq).
  unfold CanDeleteControlBlock.
  match goal with |- context [?x =? 0] =>
    change x with (GetAllCounter (DecWeakRef blk).2) end.
  destruct (negb _ && _).
  - unfold delete_block. simpl. rewrite lookup_insert_eq. unfold set_heap. simpl.
    by rewrite delete_insert_eq.
  - reflexivity.
Qed.

(** C10.  In a feasible client no weak variable carries the flag, and an
    embedded [weak_this_] that refers to a block carries it.  The copy and
    move constructors, the constructor from a strong handle and
    [WeakFromThis] produce unflagged handles whatever the source; the
    assignments and [Swap] leave the flag of each side where it was.  A
    flagged handle decrements the weak count and never frees the block; an
    unflagged one frees it exactly when the combined count is zero after
    its decrement. *)
Theorem self_reference_flag ops w :
  feasible ops → run ops init = Some w →
  (∀ x wp, weaks w !! x = Some wp → WeakPtr.is_esft_ptr_ wp = false) ∧
  (∀ a o wt, objects (mem w) !! a = Some o → weak_this_ o = Some wt →
     is_Some (WeakPtr.control_block_ wt) → WeakPtr.is_esft_ptr_ wt = true) ∧
  (∀ other m wp m', WeakPtr_copy other m = Ret wp m' → WeakPtr.is_esft_ptr_ wp = false) ∧
  (∀ other m wp other' m', WeakPtr_move other m = Ret (wp, other') m' →
     WeakPtr.is_esft_ptr_ wp = false ∧
     WeakPtr.is_esft_ptr_ other' = WeakPtr.is_esft_ptr_ other) ∧
  (∀ sp m wp m', WeakPtr_from_shared sp m = Ret wp m' → WeakPtr.is_esft_ptr_ wp = false) ∧
  (∀ this other m wp m', WeakPtr_assign this other m = Ret wp m' →
     WeakPtr.is_esft_ptr_ wp = WeakPtr.is_esft_ptr_ this) ∧
  (∀ this other m wp other' m', WeakPtr_move_assign this other m = Ret (wp, other') m' →
     WeakPtr.is_esft_ptr_ wp = WeakPtr.is_esft_ptr_ this ∧
     WeakPtr.is_esft_ptr_ other' = WeakPtr.is_esft_ptr_ other) ∧
  (∀ this other,
     WeakPtr.is_esft_ptr_ (WeakPtr_Swap this other).1 = WeakPtr.is_esft_ptr_ this ∧
     WeakPtr.is_esft_ptr_ (WeakPtr_Swap this other).2 = WeakPtr.is_esft_ptr_ other) ∧
  (∀ self m wp m', WeakFromThis self m = Ret wp m' → WeakPtr.is_esft_ptr_ wp = false) ∧
  (∀ this b blk m, WeakPtr.control_block_ this = Some b → heap m !! b = Some blk →
     WeakPtr.is_esft_ptr_ this = true →
     WeakPtr_DecreaseWeakCounter this m
     = Ret tt (set_heap (<[b := (DecWeakRef blk).2]> (heap m)) m)) ∧
  (∀ this b blk m, WeakPtr.control_block_ this = Some b → heap m !! b = Some blk →
     WeakPtr.is_esft_ptr_ this = false →
     WeakPtr_DecreaseWeakCounter this m
     = Ret tt (set_heap (if GetAllCounter (DecWeakRef blk).2 =? 0
                         then delete b (heap m)
                         else <[b := (DecWeakRef blk).2]> (heap m)) m)).
Proof.
  intros Hf Hrun. pose proof (feasible_Inv _ _ Hf Hrun) as HI. split_and!.
  - apply (inv_weak_flags _ _ HI).
  - apply (inv_member_flags _ (inv_mem _ _ HI)).
  - unfold WeakPtr_copy. intros other m wp m' (? & m1 & _ & H)%bind_Ret_inv.
    by injection H as <- _.
  - unfold WeakPtr_move. intros other m wp other' m' (? & m1 & _ & H)%bind_Ret_inv.
    apply bind_Ret_inv in H as (o' & m2 & ->%WeakPtr_Reset_flag & H).
    by injection H as <- <- _.
  - unfold WeakPtr_from_shared. intros sp m wp m' (? & m1 & _ & H)%bind_Ret_inv.
    by injection H as <- _.
  - unfold WeakPtr_assign.
    intros this other m wp m' (this1 & m1 & ->%WeakPtr_Reset_flag & H)%bind_Ret_inv.
    apply bind_Ret_inv in H as (? & m2 & _ & H). by injection H as <- _.
  - unfold WeakPtr_move_assign.
    intros this other m wp other' m' (this1 & m1 & ->%WeakPtr_Reset_flag & H)%bind_Ret_inv.
    by injection H as <- <- _.
  - done.
  - unfold WeakFromThis.
    intros self m wp m' (o & m1 & _ & H)%bind_Ret_inv.
    destruct (weak_this_ o) as [wt|]; [|done].
    unfold WeakPtr_copy in H. apply bind_Ret_inv in H as (? & m2 & _ & H).
    by injection H as <- _.
  - intros this b blk m Hb Hblk Hfl. rewrite (DecreaseWeakCounter_eq this b blk m Hb Hblk).
    by rewrite Hfl.
  - intros this b blk m Hb Hblk Hfl. rewrite (DecreaseWeakCounter_eq this b blk m Hb Hblk).
    by rewrite Hfl.
Qed.

Lemma self_reference_flag_witness :
  ∃ w member copy m1 m2 m3,
    run [SAdopt 1 true; EWeakFromThis 1 1; SDestruct 1]%positive init = Some w ∧
    weaks w !! 1%positive = Some (WeakPtr.mk (Some 1%positive) (Some 1%positive) false) ∧
    member = WeakPtr.mk (Some 1%positive) (Some 1%positive) true ∧
    WeakPtr_copy member (mem w) = Ret copy m1 ∧ WeakPtr.is_esft_ptr_ copy = false ∧
    WeakPtr_DecreaseWeakCounter member (mem w) = Ret tt m2 ∧ is_Some (heap m2 !! 1%positive) ∧
    WeakPtr_DecreaseWeakCounter (WeakPtr.mk (Some 1%positive) (Some 1%positive) false) (mem w)
    = Ret tt m3 ∧ heap m3 !! 1%positive = None.
Proof.
  pose (w := mkWorld (mkMemory {[1%positive := mkBlock 0 1 true (DefaultBlock (Some 1%positive))]}
                        ∅ [1%positive] 2%positive 2%positive)
                     ∅ {[1%positive := WeakPtr.mk (Some 1%positive) (Some 1%positive) false]}).
  destruct (self_reference_flag [SAdopt 1 true; EWeakFromThis 1 1; SDestruct 1]%positive w)
    as (Hvars & _ & Hcopy & _ & _ & _ & _ & _ & _ & Hflagged & Hplain).
  - unfold feasible, capacity. cbn [length app]. lia.
  - vm_compute. reflexivity.
  - pose (member := WeakPtr.mk (Some 1%positive) (Some 1%positive) true).
    destruct (WeakPtr_copy member (mem w)) as [copy m1| |] eqn:Ecopy;
      [|vm_compute in Ecopy; discriminate Ecopy..].
    exists w, member, copy, m1. eexists _, _.
    split; [vm_compute; reflexivity|]. split; [vm_compute; reflexivity|].
    split; [reflexivity|]. split; [exact Ecopy|].
    split; [exact (Hcopy _ _ _ _ Ecopy)|].
    split; [apply (Hflagged member 1%positive
                     (mkBlock 0 1 true (DefaultBlock (Some 1%positive)))); reflexivity|].
    split; [simpl; rewrite lookup_insert_eq; eauto|].
    split; [apply (Hplain (WeakPtr.mk (Some 1%positive) (Some 1%positive) false) 1%positive
                     (mkBlock 0 1 true (DefaultBlock (Some 1%positive)))); reflexivity|].
    vm_compute. reflexivity.
Defined.

(** * The plain variant *)

(** [Destroy] of [shared/shared.h] has no guard: on a block that adopted a
    live object the first run deletes the object, the second run deletes it
    again. *)
Lemma plain_Destroy_twice :
  let m := Plain.mkMemory
             {[1%positive := Plain.mkBlock 1 (Plain.DefaultBlock (Some 1%positive))]}
             {[1%positive]} [] in
  ∃ m1, Plain.Destroy 1%positive m = Some m1 ∧
        Plain.dtor_log m1 = [1%positive] ∧
        Plain.Destroy 1%positive m1 = None.
Proof.
  eexists. split; [vm_compute; reflexivity|]. split; vm_compute; reflexivity.
Qed.

(** It is run once all the same: the last handle of the plain variant runs
    [Destroy] and frees the block in one go. *)
Lemma plain_last_release b blk p (m : Plain.Memory) :
  Plain.heap m !! b = Some blk → Plain.counter blk = 1 →
  Plain.kind blk = Plain.DefaultBlock (Some p) ∨ Plain.kind blk = Plain.InlineBlock p →
  p ∈ Plain.objects m →
  Plain.SharedPtr_DecreaseCounter (Some b) m
  = Some (Plain.mkMemory (delete b (Plain.heap m)) (Plain.objects m ∖ {[p]})
                         (p :: Plain.dtor_log m)).
Proof.
  intros Hb Hone Hk Hp. destruct blk as [c k]. simpl in Hone, Hk. subst c.
  unfold Plain.SharedPtr_DecreaseCounter. rewrite Hb.
  change (Plain.GetCounter (Plain.DecRef (Plain.mkBlock 1 k)).2 =? 0) with true.
  cbn [option_bind mbind Plain.DecRef Plain.counter Plain.kind snd].
  unfold Plain.Destroy. cbn [Plain.heap Plain.objects Plain.dtor_log].
  rewrite lookup_insert_eq. cbn [option_bind mbind Plain.kind].
  destruct Hk as [-> | ->].
  - unfold Plain.destroy_object. rewrite decide_True by done.
    cbn [option_bind mbind Plain.heap Plain.objects Plain.dtor_log].
    unfold Plain.delete_block. cbn [Plain.heap Plain.objects Plain.dtor_log].
    rewrite lookup_insert_eq. cbn [option_bind mbind Plain.kind Plain.heap Plain.objects
                                     Plain.dtor_log].
    by rewrite insert_insert_eq, delete_insert_eq.
  - cbn [option_bind mbind Plain.heap Plain.objects Plain.dtor_log].
    unfold Plain.delete_block. cbn [Plain.heap Plain.objects Plain.dtor_log].
    rewrite lookup_insert_eq. cbn [option_bind mbind Plain.kind].
    unfold Plain.destroy_object. cbn [Plain.heap Plain.objects Plain.dtor_log].
    rewrite decide_True by done.
    cbn [option_bind mbind Plain.heap Plain.objects Plain.dtor_log].
    by rewrite insert_insert_eq, delete_insert_eq.
Qed.

(** * Observers in reachable worlds *)

(** [WeakPtr::UseCount()] and [WeakPtr::Expired()] of a weak variable in a
    feasible client: the use count is the number of live strong variables
    on the block of the handle (zero without a block), and the handle is
    expired exactly when that number is zero.  Neither touches memory. *)
Theorem weak_use_count_and_expired ops w x this :
  feasible ops → run ops init = Some w → weaks w !! x = Some this →
  let owners := match WeakPtr.control_block_ this with
                | Some b => live_strong_handles b w
                | None => 0%nat
                end in
  WeakPtr_UseCount this (mem w) = Ret (Z.of_nat owners) (mem w) ∧
  WeakPtr_Expired this (mem w) = Ret (bool_decide (owners = 0%nat)) (mem w).
Proof.
  intros Hf Hrun Hx owners. pose proof (feasible_Inv _ _ Hf Hrun) as HI.
  unfold WeakPtr_UseCount, WeakPtr_Expired, owners.
  destruct (WeakPtr.control_block_ this) as [b|] eqn:Hb; [|done].
  destruct (Inv_weak_block _ _ _ _ _ HI Hx Hb) as (blk & Hblk & _).
  pose proof (inv_counts _ _ HI b) as Hc. rewrite Hblk in Hc. destruct Hc as [_ Hc].
  unfold bind, load, ret, live_strong_handles, GetStrongCounter, IsDestroyed. rewrite Hblk.
  destruct (is_destroyed blk).
  - destruct Hc as [-> ->]. done.
  - destruct Hc as [-> Hpos]. split; [done|]. by rewrite bool_decide_eq_false_2 by lia.
Qed.

Lemma weak_use_count_and_expired_witness :
  ∃ w this,
    run [SAdopt 1 false; SCopy 2 1; WFromShared 1 1; SDestruct 1]%positive init = Some w ∧
    weaks w !! 1%positive = Some this ∧
    WeakPtr_UseCount this (mem w) = Ret 1 (mem w) ∧
    WeakPtr_Expired this (mem w) = Ret false (mem w).
Proof.
  assert (∃ w, run [SAdopt 1 false; SCopy 2 1; WFromShared 1 1; SDestruct 1]%positive init
               = Some w) as [w E] by (vm_compute; eauto).
  assert (∃ this, weaks w !! 1%positive = Some this) as [this Ex].
  { vm_compute in E. injection E as <-. vm_compute. eauto. }
  exists w, this. split; [exact E|]. split; [exact Ex|].
  destruct (weak_use_count_and_expired
              [SAdopt 1 false; SCopy 2 1; WFromShared 1 1; SDestruct 1]%positive w
              1%positive this) as [Hu He].
  - unfold feasible, capacity. cbn [length]. lia.
  - exact E.
  - exact Ex.
  - vm_compute in E. injection E as <-. vm_compute in Ex. injection Ex as <-.
    split; [exact Hu|exact He].
Defined.

(** While a strong variable of a feasible client refers to a control
    block, the block is allocated and not marked destroyed, and the object
    it manages is alive: its destructor has not run.  A handle whose stored
    pointer is the managed object can be dereferenced. *)
Theorem strong_handle_keeps_object_alive ops w h sp b :
  feasible ops → run ops init = Some w →
  strongs w !! h = Some sp → SharedPtr.control_block_ sp = Some b →
  ∃ blk, heap (mem w) !! b = Some blk ∧ is_destroyed blk = false ∧
         1 ≤ strong_ref_cnt blk ∧
         ∀ p, GetRawPtr blk = Some p →
              (p ∉ dtor_log (mem w)) ∧
              ∃ o, objects (mem w) !! p = Some o ∧
                   (SharedPtr.ptr_ sp = Some p →
                    SharedPtr_deref sp (mem w) = Ret o (mem w)).
Proof.
  intros Hf Hrun Hh Hb. pose proof (feasible_Inv _ _ Hf Hrun) as HI.
  destruct (Inv_strong_block _ _ _ _ _ HI Hh Hb) as (blk & Hblk & Hd & Hs & Hpos & _).
  exists blk. split_and!; [done|done|lia|].
  intros p Hp.
  destruct (inv_managed _ (inv_mem _ _ HI) b blk p Hblk Hd Hp) as [o Ho].
  split.
  - intros Hin. apply (inv_log_fresh _ (inv_mem _ _ HI)) in Hin as [_ Hnone]. congruence.
  - exists o. split; [done|]. intros Hptr. unfold SharedPtr_deref, load_object.
    by rewrite Hptr, Ho.
Qed.

Lemma strong_handle_keeps_object_alive_witness :
  ∃ w sp o,
    run [SMake 1 true; SCopy 2 1; WFromShared 1 1; SDestruct 1]%positive init = Some w ∧
    strongs w !! 2%positive = Some sp ∧
    dtor_log (mem w) = [] ∧
    SharedPtr_deref sp (mem w) = Ret o (mem w).
Proof.
  assert (∃ w, run [SMake 1 true; SCopy 2 1; WFromShared 1 1; SDestruct 1]%positive init
               = Some w) as [w E] by (vm_compute; eauto).
  pose (sp := SharedPtr.mk (Some 1%positive) (Some 1%positive)).
  assert (strongs w !! 2%positive = Some sp) as Eh.
  { vm_compute in E. injection E as <-. reflexivity. }
  destruct (strong_handle_keeps_object_alive
              [SMake 1 true; SCopy 2 1; WFromShared 1 1; SDestruct 1]%positive w
              2%positive sp 1%positive) as (blk & Hblk & _ & _ & Hp).
  - unfold feasible, capacity. cbn [length]. lia.
  - exact E.
  - exact Eh.
  - reflexivity.
  - assert (GetRawPtr blk = Some 1%positive) as Hraw.
    { vm_compute in E. injection E as <-. vm_compute in Hblk. by injection Hblk as <-. }
    destruct (Hp _ Hraw) as (_ & o & _ & Hderef).
    exists w, sp, o. split; [exact E|]. split; [exact Eh|].
    split; [vm_compute in E; injection E as <-; reflexivity|].
    apply Hderef. reflexivity.
Defined.

(** A weak variable of a feasible client keeps its control block
    allocated, and [GetWeakCounter()] on it is the number of live weak
    variables on the block plus the number of live self-aware objects whose
    embedded [weak_this_] refers to it; without a block it is 0. *)
Theorem weak_count_is_weak_handle_count ops w x this :
  feasible ops → run ops init = Some w → weaks w !! x = Some this →
  match WeakPtr.control_block_ this with
  | Some b =>
      is_Some (heap (mem w) !! b) ∧ (1 ≤ live_weak_handles b w)%nat ∧
      WeakPtr_GetWeakCounter this (mem w)
      = Ret (Z.of_nat (live_weak_handles b w + embedded_handles b w)) (mem w)
  | None => WeakPtr_GetWeakCounter this (mem w) = Ret 0 (mem w)
  end.
Proof.
  intros Hf Hrun Hx. pose proof (feasible_Inv _ _ Hf Hrun) as HI.
  unfold WeakPtr_GetWeakCounter.
  destruct (WeakPtr.control_block_ this) as [b|] eqn:Hb; [|done].
  destruct (Inv_weak_block _ _ _ _ _ HI Hx Hb) as (blk & Hblk & Hpos & Hw).
  split_and!; [eauto|done|].
  unfold bind, load, ret, GetWeakCounter, live_weak_handles, embedded_handles.
  by rewrite Hblk, Hw.
Qed.

Lemma weak_count_is_weak_handle_count_witness :
  ∃ w this,
    run [SMake 1 true; WFromShared 1 1; WCopy 2 1; SDestruct 1]%positive init = Some w ∧
    weaks w !! 2%positive = Some this ∧
    is_Some (heap (mem w) !! 1%positive) ∧
    WeakPtr_GetWeakCounter this (mem w) = Ret 2 (mem w).
Proof.
  assert (∃ w, run [SMake 1 true; WFromShared 1 1; WCopy 2 1; SDestruct 1]%positive init
               = Some w) as [w E] by (vm_compute; eauto).
  pose (this := WeakPtr.mk (Some 1%positive) (Some 1%positive) false).
  assert (weaks w !! 2%positive = Some this) as Ex.
  { vm_compute in E. injection E as <-. reflexivity. }
  pose proof (weak_count_is_weak_handle_count
                [SMake 1 true; WFromShared 1 1; WCopy 2 1; SDestruct 1]%positive w
                2%positive this) as H.
  simpl in H. destruct H as (Hheap & _ & Hcount).
  - unfold feasible, capacity. cbn [length]. lia.
  - exact E.
  - exact Ex.
  - exists w, this. split; [exact E|]. split; [exact Ex|]. split; [exact Hheap|].
    rewrite Hcount. vm_compute in E. injection E as <-. vm_compute. reflexivity.
Defined.

(** * Operations that cancel *)

Lemma set_heap_id m : set_heap (heap m) m = m.
Proof. by destruct m. Qed.

Lemma set_heap_set_heap h1 h2 m : set_heap h2 (set_heap h1 m) = set_heap h2 m.
Proof. done. Qed.

Lemma Dec_Inc_strong blk :
  0 ≤ strong_ref_cnt blk → strong_ref_cnt blk + 1 < size_t_modulus →
  (DecStrongRef (IncStrongRef blk).2).2 = blk.
Proof.
  intros H0 H1. destruct blk as [s x d k]. simpl in *.
  rewrite (wrap_small (s + 1)) by lia. rewrite wrap_small by lia.
  by replace (s + 1 - 1) with s by lia.
Qed.

Lemma Dec_Inc_weak blk :
  0 ≤ weak_ref_cnt blk → weak_ref_cnt blk + 1 < size_t_modulus →
  (DecWeakRef (IncWeakRef blk).2).2 = blk.
Proof.
  intros H0 H1. destruct blk as [s x d k]. simpl in *.
  rewrite (wrap_small (x + 1)) by lia. rewrite wrap_small by lia.
  by replace (x + 1 - 1) with x by lia.
Qed.

(** Copying a strong variable of a feasible client and destroying the copy
    leaves memory exactly as it was: the copy has the pointers of its
    source, and its destructor takes the count back without destroying
    anything. *)
Theorem copy_then_destroy_restores_memory ops w src other :
  feasible ops → run ops init = Some w → strongs w !! src = Some other →
  ∃ m1, SharedPtr_copy other (mem w) = Ret other m1 ∧
        SharedPtr_Reset other m1 = Ret (SharedPtr.mk None None) (mem w).
Proof.
  intros Hf Hrun Hsrc. pose proof (feasible_Inv _ _ Hf Hrun) as HI.
  assert (2 * length ops ≤ capacity)%nat as Hn by exact Hf.
  destruct other as [[b|] p].
  2:{ exists (mem w). split; reflexivity. }
  destruct (Inv_strong_block _ _ _ _ _ HI Hsrc eq_refl) as (blk & Hblk & Hd & Hs & Hpos & _).
  destruct (Inv_weak_bound _ _ _ _ HI Hn Hblk) as (Hw0 & Hs0 & Hbd).
  eexists. split.
  - unfold SharedPtr_copy. simpl.
    erewrite bind_Ret by (by apply IncreaseStrongCounter_Some). reflexivity.
  - unfold SharedPtr_Reset. erewrite bind_Ret; [reflexivity|].
    unfold SharedPtr_DecreaseStrongCounter. cbn [SharedPtr.control_block_].
    erewrite bind_Ret by (unfold load; simpl; by rewrite lookup_insert_eq). cbv beta.
    erewrite bind_Ret by (unfold store; simpl; by rewrite lookup_insert_eq). cbv beta.
    erewrite bind_Ret by (unfold load; simpl; by rewrite lookup_insert_eq). cbv beta.
    pose proof (Dec_Inc_strong blk ltac:(lia) ltac:(lia)) as E. simpl in E. rewrite !E.
    unfold GetStrongCounter.
    destruct (Z.eqb_spec (strong_ref_cnt blk) 0) as [Hz|_]; [lia|].
    unfold ret, set_heap. simpl. rewrite insert_insert_eq, insert_id by done.
    by destruct (mem w).
Qed.

Lemma copy_then_destroy_restores_memory_witness :
  ∃ w other m1,
    run [SMake 1 true; WFromShared 1 1]%positive init = Some w ∧
    strongs w !! 1%positive = Some other ∧
    SharedPtr_copy other (mem w) = Ret other m1 ∧
    SharedPtr_UseCount other m1 = Ret 2 m1 ∧
    SharedPtr_Reset other m1 = Ret (SharedPtr.mk None None) (mem w).
Proof.
  assert (∃ w, run [SMake 1 true; WFromShared 1 1]%positive init = Some w)
    as [w E] by (vm_compute; eauto).
  pose (other := SharedPtr.mk (Some 1%positive) (Some 1%positive)).
  assert (strongs w !! 1%positive = Some other) as Eh.
  { vm_compute in E. injection E as <-. reflexivity. }
  destruct (copy_then_destroy_restores_memory [SMake 1 true; WFromShared 1 1]%positive
              w 1%positive other) as (m1 & Hcopy & Hreset).
  - unfold feasible, capacity. cbn [length]. lia.
  - exact E.
  - exact Eh.
  - exists w, other, m1. split; [exact E|]. split; [exact Eh|]. split; [exact Hcopy|].
    split; [|exact Hreset].
    vm_compute in E. injection E as <-. vm_compute in Hcopy. injection Hcopy as <-.
    vm_compute. reflexivity.
Defined.

Lemma WeakPtr_move_eq n w src other :
  Inv n w → (n ≤ capacity)%nat → weaks w !! src = Some other →
  WeakPtr_move other (mem w)
  = Ret (WeakPtr.mk (WeakPtr.control_block_ other) (WeakPtr.ptr_ other) false,
         WeakPtr_default) (mem w).
Proof.
  intros HI Hn Hsrc.
  pose proof (inv_weak_flags _ _ HI _ _ Hsrc) as Hfl.
  destruct other as [[b|] p fl]; simpl in *; subst fl.
  2:{ reflexivity. }
  destruct (Inv_weak_block _ _ _ _ _ HI Hsrc eq_refl) as (blk & Hblk & Hpos & Hw).
  destruct (Inv_weak_bound _ _ _ _ HI Hn Hblk) as (Hw0 & Hs0 & Hbd).
  unfold WeakPtr_move. cbn [WeakPtr.control_block_ WeakPtr.ptr_].
  erewrite bind_Ret by (by apply IncreaseWeakCounter_Some). cbv beta.
  erewrite bind_Ret; [reflexivity|].
  unfold WeakPtr_Reset. erewrite bind_Ret; [reflexivity|].
  unfold WeakPtr_DecreaseWeakCounter. cbn [WeakPtr.control_block_ WeakPtr.is_esft_ptr_].
  erewrite bind_Ret by (unfold load; simpl; by rewrite lookup_insert_eq). cbv beta.
  erewrite bind_Ret by (unfold store; simpl; by rewrite lookup_insert_eq). cbv beta.
  erewrite bind_Ret by (unfold load; simpl; by rewrite lookup_insert_eq). cbv beta.
  pose proof (Dec_Inc_weak blk ltac:(lia) ltac:(lia)) as E. simpl in E. rewrite !E.
  unfold CanDeleteControlBlock, GetAllCounter.
  rewrite wrap_small by lia.
  destruct (Z.eqb_spec (strong_ref_cnt blk + weak_ref_cnt blk) 0) as [Hz|_]; [lia|].
  unfold ret, set_heap. simpl. rewrite insert_insert_eq, insert_id by done.
  by destruct (mem w).
Qed.

(** Move construction from a weak variable of a feasible client.  The
    constructor of [shared-from-this/weak.h] raises the weak count and then
    resets its source, which takes the count back: memory is as it was, the
    new handle has the pointers and the source has none.  That is the
    result of the constructor of [weak/weak.h], which moves the two
    pointers and touches no counter. *)
Theorem weak_move_transfers ops w src other :
  feasible ops → run ops init = Some w → weaks w !! src = Some other →
  let this := WeakPtr.mk (WeakPtr.control_block_ other) (WeakPtr.ptr_ other) false in
  WeakPtr_move other (mem w) = Ret (this, WeakPtr_default) (mem w) ∧
  Wk.WeakPtr_move (Wk.unflagged other) = (Wk.unflagged this, Wk.unflagged WeakPtr_default).
Proof.
  intros Hf Hrun Hsrc this. split; [|reflexivity].
  eapply WeakPtr_move_eq; [by apply feasible_Inv|exact Hf|exact Hsrc].
Qed.

Lemma weak_move_transfers_witness :
  ∃ w other,
    run [SAdopt 1 true; WFromShared 1 1; SDestruct 1]%positive init = Some w ∧
    weaks w !! 1%positive = Some other ∧
    WeakPtr_Expired other (mem w) = Ret true (mem w) ∧
    WeakPtr_move other (mem w)
    = Ret (WeakPtr.mk (Some 1%positive) (Some 1%positive) false, WeakPtr_default) (mem w).
Proof.
  assert (∃ w, run [SAdopt 1 true; WFromShared 1 1; SDestruct 1]%positive init = Some w)
    as [w E] by (vm_compute; eauto).
  pose (other := WeakPtr.mk (Some 1%positive) (Some 1%positive) false).
  assert (weaks w !! 1%positive = Some other) as Ex.
  { vm_compute in E. injection E as <-. reflexivity. }
  destruct (weak_move_transfers [SAdopt 1 true; WFromShared 1 1; SDestruct 1]%positive
              w 1%positive other) as [Hmove _].
  - unfold feasible, capacity. cbn [length]. lia.
  - exact E.
  - exact Ex.
  - exists w, other. split; [exact E|]. split; [exact Ex|]. split; [|exact Hmove].
    vm_compute in E. injection E as <-. vm_compute. reflexivity.
Defined.

(** * [Lock] and promotion *)

(** For a type that is not self-aware, [Lock()] on a weak handle with an
    allocated control block is the promoting constructor with the exception
    turned into a null handle: same handle and memory when the promotion
    succeeds, the null handle and untouched memory when it throws. *)
Theorem lock_is_nothrow_promotion this m b blk :
  WeakPtr.control_block_ this = Some b → heap m !! b = Some blk →
  WeakPtr_Lock false this m
  = match SharedPtr_from_weak this m with
    | Ret sp m' => Ret sp m'
    | Throw m' => Ret SharedPtr_default m'
    | Undefined => Undefined
    end.
Proof.
  intros Hb Hblk. rewrite (Lock_eq _ _ _ _ _ Hb Hblk), (from_weak_eq _ _ _ _ Hb Hblk).
  destruct (is_destroyed blk); [done|].
  unfold SharedPtr_from_block, bind.
  by rewrite (IncreaseStrongCounter_Some _ _ _ _ Hblk).
Qed.

Lemma lock_is_nothrow_promotion_witness :
  ∃ w this m',
    run [SAdopt 1 false; WFromShared 1 1]%positive init = Some w ∧
    weaks w !! 1%positive = Some this ∧
    SharedPtr_from_weak this (mem w)
    = Ret (SharedPtr.mk (Some 1%positive) (Some 1%positive)) m' ∧
    WeakPtr_Lock false this (mem w)
    = Ret (SharedPtr.mk (Some 1%positive) (Some 1%positive)) m'.
Proof.
  assert (∃ w, run [SAdopt 1 false; WFromShared 1 1]%positive init = Some w)
    as [w E] by (vm_compute; eauto).
  pose (this := WeakPtr.mk (Some 1%positive) (Some 1%positive) false).
  assert (∃ m', SharedPtr_from_weak this (mem w)
                = Ret (SharedPtr.mk (Some 1%positive) (Some 1%positive)) m') as [m' Hp].
  { vm_compute in E. injection E as <-. vm_compute. eauto. }
  exists w, this, m'. split; [exact E|].
  split; [vm_compute in E; injection E as <-; reflexivity|]. split; [exact Hp|].
  rewrite (lock_is_nothrow_promotion this (mem w) 1%positive (mkBlock 1 1 false
             (DefaultBlock (Some 1%positive)))).
  - by rewrite Hp.
  - reflexivity.
  - vm_compute in E. injection E as <-. reflexivity.
Defined.

(** * The two weak handles *)

(** On a handle without the self-reference flag every member of
    [weak/weak.h] computes what the same member of
    [shared-from-this/weak.h] computes, in any memory: the same outcome,
    the same memory, and the same pointers in the handles returned. *)
Theorem weak_variants_agree wp other sp m :
  WeakPtr.is_esft_ptr_ wp = false →
  Wk.WeakPtr_IncreaseWeakCounter (Wk.unflagged wp) m = WeakPtr_IncreaseWeakCounter wp m ∧
  Wk.WeakPtr_DecreaseWeakCounter (Wk.unflagged wp) m = WeakPtr_DecreaseWeakCounter wp m ∧
  Wk.WeakPtr_Reset (Wk.unflagged wp) m = Wk.read_result Wk.unflagged (WeakPtr_Reset wp m) ∧
  Wk.WeakPtr_copy (Wk.unflagged wp) m = Wk.read_result Wk.unflagged (WeakPtr_copy wp m) ∧
  Wk.WeakPtr_from_shared sp m = Wk.read_result Wk.unflagged (WeakPtr_from_shared sp m) ∧
  Wk.WeakPtr_assign (Wk.unflagged wp) (Wk.unflagged other) m
  = Wk.read_result Wk.unflagged (WeakPtr_assign wp other m) ∧
  Wk.WeakPtr_move_assign (Wk.unflagged wp) (Wk.unflagged other) m
  = Wk.read_result (prod_map Wk.unflagged Wk.unflagged) (WeakPtr_move_assign wp other m) ∧
  Wk.WeakPtr_Swap (Wk.unflagged wp) (Wk.unflagged other)
  = prod_map Wk.unflagged Wk.unflagged (WeakPtr_Swap wp other) ∧
  Wk.WeakPtr_UseCount (Wk.unflagged wp) m = WeakPtr_UseCount wp m ∧
  Wk.WeakPtr_Expired (Wk.unflagged wp) m = WeakPtr_Expired wp m.
Proof.
  intros Hfl. destruct wp as [cb p fl]. simpl in Hfl. subst fl.
  assert (Wk.WeakPtr_DecreaseWeakCounter (Wk.WeakPtr.mk cb p) m
          = WeakPtr_DecreaseWeakCounter (WeakPtr.mk cb p false) m) as Hdec by reflexivity.
  split_and!; try reflexivity.
  - unfold Wk.WeakPtr_Reset, WeakPtr_Reset, Wk.unflagged, bind. simpl. rewrite Hdec.
    by destruct (WeakPtr_DecreaseWeakCounter _ m).
  - unfold Wk.WeakPtr_copy, WeakPtr_copy, Wk.unflagged, bind. simpl.
    change (Wk.WeakPtr_IncreaseWeakCounter (Wk.WeakPtr.mk cb p) m)
      with (WeakPtr_IncreaseWeakCounter (WeakPtr.mk cb p false) m).
    by destruct (WeakPtr_IncreaseWeakCounter _ m).
  - unfold Wk.WeakPtr_from_shared, WeakPtr_from_shared, bind.
    change (Wk.WeakPtr_IncreaseWeakCounter
              (Wk.WeakPtr.mk (SharedPtr.control_block_ sp) (SharedPtr.ptr_ sp)) m)
      with (WeakPtr_IncreaseWeakCounter
              (WeakPtr.mk (SharedPtr.control_block_ sp) (SharedPtr.ptr_ sp) false) m).
    by destruct (WeakPtr_IncreaseWeakCounter _ m).
  - unfold Wk.WeakPtr_assign, WeakPtr_assign, Wk.WeakPtr_Reset, WeakPtr_Reset, Wk.unflagged,
      bind. simpl. rewrite Hdec.
    destruct (WeakPtr_DecreaseWeakCounter _ m) as [[] m1| |]; [|done|done]. simpl.
    change (Wk.WeakPtr_IncreaseWeakCounter
              (Wk.WeakPtr.mk (WeakPtr.control_block_ other) (WeakPtr.ptr_ other)) m1)
      with (WeakPtr_IncreaseWeakCounter
              (WeakPtr.mk (WeakPtr.control_block_ other) (WeakPtr.ptr_ other) false) m1).
    by destruct (WeakPtr_IncreaseWeakCounter _ m1).
  - unfold Wk.WeakPtr_move_assign, WeakPtr_move_assign, Wk.WeakPtr_Reset, WeakPtr_Reset,
      Wk.unflagged, bind. simpl. rewrite Hdec.
    by destruct (WeakPtr_DecreaseWeakCounter _ m) as [[] m1| |].
Qed.

Lemma weak_variants_agree_witness :
  ∃ w wp m',
    run [SAdopt 1 false; WFromShared 1 1; SDestruct 1]%positive init = Some w ∧
    weaks w !! 1%positive = Some wp ∧
    WeakPtr_Reset wp (mem w) = Ret WeakPtr_default m' ∧
    Wk.WeakPtr_Reset (Wk.unflagged wp) (mem w) = Ret (Wk.WeakPtr.mk None None) m' ∧
    heap m' = ∅.
Proof.
  assert (∃ w, run [SAdopt 1 false; WFromShared 1 1; SDestruct 1]%positive init = Some w)
    as [w E] by (vm_compute; eauto).
  pose (wp := WeakPtr.mk (Some 1%positive) (Some 1%positive) false).
  assert (∃ m', WeakPtr_Reset wp (mem w) = Ret WeakPtr_default m' ∧ heap m' = ∅)
    as (m' & Hr & Hh).
  { vm_compute in E. injection E as <-. vm_compute. eauto. }
  destruct (weak_variants_agree wp wp SharedPtr_default (mem w) eq_refl)
    as (_ & _ & Hreset & _).
  exists w, wp, m'. split; [exact E|].
  split; [vm_compute in E; injection E as <-; reflexivity|].
  split; [exact Hr|]. split; [|exact Hh]. rewrite Hreset, Hr. reflexivity.
Defined.

(** * Self-aware objects *)

(** What wrapping a new self-aware object leaves in memory: the block
    counts the handle and the embedded [weak_this_], which is wired to the
    block and flagged. *)
Lemma wrap_self_aware_object k m :
  (do a <- new_object true;
   do b <- new_block k;
   SharedPtr_from_block true (Some b) (Some a)) m
  = Ret (SharedPtr.mk (Some (next_block m)) (Some (next_addr m)))
        (mkMemory (<[next_block m := mkBlock 1 1 false k]> (heap m))
                  (<[next_addr m := mkObject (Some (WeakPtr.mk (Some (next_block m))
                                                      (Some (next_addr m)) true))]>
                     (objects m))
                  (dtor_log m) (Pos.succ (next_block m)) (Pos.succ (next_addr m))).
Proof.
  unfold SharedPtr_from_block, SharedPtr_InitWeakThis, SharedPtr_IncreaseStrongCounter,
    WeakPtr_from_shared, WeakPtr_move_assign, WeakPtr_Reset, WeakPtr_DecreaseWeakCounter,
    WeakPtr_IncreaseWeakCounter, WeakPtr_Swap, WeakPtr_MakeEsftPtr, new_object, new_block.
  msimpl. rewrite !insert_insert_eq. reflexivity.
Qed.

(** [SharedFromThis()] and [WeakFromThis()] on a self-aware object that
    [MakeShared] or the raw-pointer constructor has just wrapped, in any
    memory.  The wrapping handle is the only owner; [SharedFromThis()]
    returns a handle with the same block and pointer, equal to it under
    [operator==], and the use count becomes 2; [WeakFromThis()] returns an
    unflagged weak handle on the block and leaves the use count at 1. *)
Theorem shared_from_this_returns_owner m make :
  make = MakeShared true ∨
  make = (do a <- new_object true; SharedPtr_from_raw true (Some a)) →
  let sp := SharedPtr.mk (Some (next_block m)) (Some (next_addr m)) in
  let wp := WeakPtr.mk (Some (next_block m)) (Some (next_addr m)) false in
  ∃ m1 m2 m3 sp',
    make m = Ret sp m1 ∧
    SharedPtr_UseCount sp m1 = Ret 1 m1 ∧
    SharedFromThis (next_addr m) m1 = Ret sp' m2 ∧
    sp' = sp ∧ SharedPtr_eq sp' sp = true ∧
    SharedPtr_UseCount sp m2 = Ret 2 m2 ∧
    WeakFromThis (next_addr m) m1 = Ret wp m3 ∧
    WeakPtr_UseCount wp m3 = Ret 1 m3 ∧
    WeakPtr_Expired wp m3 = Ret false m3.
Proof.
  intros Hmake sp wp.
  assert (∃ k, make m = (do a <- new_object true;
                         do b <- new_block k;
                         SharedPtr_from_block true (Some b) (Some a)) m) as [k Hk].
  { destruct Hmake as [-> | ->].
    - exists (InlineBlock (next_addr m)).
      unfold MakeShared, bind, new_object, new_block, load. simpl.
      by rewrite lookup_insert_eq.
    - exists (DefaultBlock (Some (next_addr m))). reflexivity. }
  rewrite Hk, wrap_self_aware_object.
  eexists _, _, _, _. split; [reflexivity|].
  split.
  { unfold SharedPtr_UseCount, SharedPtr_GetStrongCounter. by msimpl. }
  split.
  { unfold SharedFromThis, SharedPtr_from_weak, SharedPtr_IncreaseStrongCounter.
    msimpl. reflexivity. }
  split; [reflexivity|]. split; [unfold SharedPtr_eq; by rewrite bool_decide_eq_true_2|].
  split.
  { unfold SharedPtr_UseCount, SharedPtr_GetStrongCounter. by msimpl. }
  split.
  { unfold WeakFromThis, WeakPtr_copy, WeakPtr_IncreaseWeakCounter. msimpl. reflexivity. }
  split.
  { unfold WeakPtr_UseCount. by msimpl. }
  unfold WeakPtr_Expired. by msimpl.
Qed.

Lemma shared_from_this_returns_owner_witness :
  ∃ m1 m2,
    MakeShared true empty_memory
    = Ret (SharedPtr.mk (Some 1%positive) (Some 1%positive)) m1 ∧
    SharedFromThis 1%positive m1
    = Ret (SharedPtr.mk (Some 1%positive) (Some 1%positive)) m2 ∧
    SharedPtr_UseCount (SharedPtr.mk (Some 1%positive) (Some 1%positive)) m2 = Ret 2 m2.
Proof.
  destruct (shared_from_this_returns_owner empty_memory (MakeShared true))
    as (m1 & m2 & m3 & sp' & H1 & _ & H2 & -> & _ & H3 & _); [by left|].
  exists m1, m2. split; [exact H1|]. split; [exact H2|exact H3].
Defined.

(** * Statements that are defined *)

Lemma declared_true {A} h (s : gmap handle_id A) : declared h s = true ↔ is_Some (s !! h).
Proof. unfold declared. by rewrite bool_decide_eq_true. Qed.

Lemma declared_false {A} h (s : gmap handle_id A) : negb (declared h s) = true ↔ s !! h = None.
Proof.
  unfold declared. rewrite negb_true_iff, bool_decide_eq_false.
  by rewrite eq_None_not_Some.
Qed.

Lemma declare_strong_defined h c w sp m :
  strongs w !! h = None → c (mem w) = Ret sp m →
  declare_strong h c w = Some (mkWorld m (<[h := sp]> (strongs w)) (weaks w)).
Proof. intros Hh Hc. unfold declare_strong. by rewrite Hh, Hc. Qed.

Lemma declare_weak_defined x c w wp m :
  weaks w !! x = None → c (mem w) = Ret wp m →
  declare_weak x c w = Some (mkWorld m (strongs w) (<[x := wp]> (weaks w))).
Proof. intros Hh Hc. unfold declare_weak. by rewrite Hh, Hc. Qed.

Section defined.
Context (n : nat) (w : World).
Context (HI : Inv n w) (Hn : (n + 2 ≤ capacity)%nat).

Lemma SAdopt_defined h esft :
  strongs w !! h = None →
  ∃ m, step (SAdopt h esft) w
       = Some (mkWorld m (<[h := SharedPtr.mk (Some (next_block (mem w)))
                                              (Some (next_addr (mem w)))]> (strongs w))
                         (weaks w)) ∧
       Inv (S (S n)) (mkWorld m (<[h := SharedPtr.mk (Some (next_block (mem w)))
                                              (Some (next_addr (mem w)))]> (strongs w))
                         (weaks w)).
Proof using HI Hn.
  intros Hh.
  destruct (construct_fresh_object n w HI Hn h esft
              (DefaultBlock (Some (next_addr (mem w)))) Hh) as (m & Hm & HIm & Hl); [done|].
  exists m. split; [|done]. simpl. apply declare_strong_defined; [done|].
  rewrite <- Hm. reflexivity.
Qed.

Lemma SMake_defined h esft :
  strongs w !! h = None →
  ∃ m, step (SMake h esft) w
       = Some (mkWorld m (<[h := SharedPtr.mk (Some (next_block (mem w)))
                                              (Some (next_addr (mem w)))]> (strongs w))
                         (weaks w)) ∧
       Inv (S (S n)) (mkWorld m (<[h := SharedPtr.mk (Some (next_block (mem w)))
                                              (Some (next_addr (mem w)))]> (strongs w))
                         (weaks w)).
Proof using HI Hn.
  intros Hh.
  destruct (construct_fresh_object n w HI Hn h esft
              (InlineBlock (next_addr (mem w))) Hh) as (m & Hm & HIm & Hl); [done|].
  exists m. split; [|done]. simpl. apply declare_strong_defined; [done|].
  rewrite <- Hm. unfold MakeShared, SharedPtr_from_block, bind, new_object, new_block, load.
  simpl. by rewrite lookup_insert_eq.
Qed.

Lemma SResetNew_defined h esft :
  is_Some (strongs w !! h) →
  ∃ m, step (SResetNew h esft) w
       = Some (mkWorld m (<[h := SharedPtr.mk (Some (next_block (mem w)))
                                              (Some (next_addr (mem w)))]> (strongs w))
                         (weaks w)).
Proof using HI Hn.
  intros [this Hh]. simpl. unfold update_strong. rewrite Hh.
  set (g := fresh (dom (strongs w))).
  assert (strongs w !! g = None) as Hg.
  { apply not_elem_of_dom. apply is_fresh. }
  assert (g ≠ h) as Hgh by congruence.
  destruct (construct_fresh_object n w HI Hn g esft
              (DefaultBlock (Some (next_addr (mem w)))) Hg)
    as (m & Hm & HIm & Hl); [done|].
  set (tmp := SharedPtr.mk (Some (next_block (mem w))) (Some (next_addr (mem w)))) in *.
  set (w1 := mkWorld m (<[g:=tmp]> (strongs w)) (weaks w)) in *.
  destruct (Inv_release_strong _ w1 h this (SharedPtr.mk None None) HIm)
    as (m2 & Hm2 & HIm2 & Hl2); [lia| |done|].
  { simpl. by rewrite lookup_insert_ne. }
  assert ((do a <- new_object esft; SharedPtr_Reset_raw esft this (Some a)) (mem w)
          = Ret tmp m2) as Heq.
  { erewrite bind_Ret by reflexivity. unfold SharedPtr_Reset_raw.
    erewrite bind_Ret by exact Hm.
    assert (SharedPtr_move_assign this tmp m = Ret (tmp, SharedPtr.mk None None) m2) as Hma.
    { unfold SharedPtr_move_assign, SharedPtr_Reset.
      erewrite bind_Ret; [reflexivity|]. erewrite bind_Ret by exact Hm2. reflexivity. }
    erewrite bind_Ret by exact Hma. reflexivity. }
  rewrite Heq. eauto.
Qed.

Lemma SAdoptNull_defined h :
  strongs w !! h = None → is_Some (step (SAdoptNull h false) w).
Proof using HI Hn.
  intros Hh.
  destruct (Inv_construct n w h (DefaultBlock None) None false HI) as (m & Hm & _).
  - lia.
  - rewrite Hh. apply vacant_strong_None.
  - intros q [=].
  - intros [=].
  - simpl. erewrite declare_strong_defined; [eauto|done|]. rewrite <- Hm. reflexivity.
Qed.

Lemma acquire_defined h other q p :
  strongs w !! h = None → (∃ src, strongs w !! src = Some other) →
  ∃ m, (SharedPtr_IncreaseStrongCounter
          (SharedPtr.mk (SharedPtr.control_block_ other) q) ;;;
        ret (SharedPtr.mk (SharedPtr.control_block_ other) p)) (mem w)
       = Ret (SharedPtr.mk (SharedPtr.control_block_ other) p) m.
Proof using HI Hn.
  intros Hh Hsrc. destruct (acquire_from_strong n w HI Hn h other q p Hh Hsrc) as (m & Hm & _).
  eauto.
Qed.

Lemma SCopy_defined h src :
  strongs w !! h = None → is_Some (strongs w !! src) → is_Some (step (SCopy h src) w).
Proof using HI Hn.
  intros Hh [other Hsrc]. simpl. rewrite Hsrc. simpl.
  destruct (acquire_defined h other (SharedPtr.ptr_ other) (SharedPtr.ptr_ other) Hh)
    as (m & Hm); [eauto|].
  erewrite declare_strong_defined; [eauto|done|]. exact Hm.
Qed.

Lemma SAlias_defined h src p :
  strongs w !! h = None → is_Some (strongs w !! src) → is_Some (step (SAlias h src p) w).
Proof using HI Hn.
  intros Hh [other Hsrc]. simpl. rewrite Hsrc. simpl.
  destruct (acquire_defined h other None p Hh) as (m & Hm); [eauto|].
  erewrite declare_strong_defined; [eauto|done|]. exact Hm.
Qed.

(** Promotion through an allocated block returns or throws. *)
Lemma from_weak_defined h other b blk :
  strongs w !! h = None →
  WeakPtr.control_block_ other = Some b → heap (mem w) !! b = Some blk →
  is_Some (declare_strong h (SharedPtr_from_weak other) w).
Proof using HI Hn.
  intros Hh Hb Hblk. unfold declare_strong. rewrite Hh.
  rewrite (from_weak_eq other b blk _ Hb Hblk).
  destruct (is_destroyed blk) eqn:Hd; [eauto|].
  destruct (acquire_strong_block n w HI Hn h b (WeakPtr.ptr_ other) (WeakPtr.ptr_ other) blk
              Hh Hblk Hd) as (m & Hm & _).
  rewrite Hm. eauto.
Qed.

Lemma SPromote_defined h x other :
  strongs w !! h = None → weaks w !! x = Some other →
  is_Some (WeakPtr.control_block_ other) → is_Some (step (SPromote h x) w).
Proof using HI Hn.
  intros Hh Hx [b Hb]. simpl. rewrite Hx. simpl.
  destruct (Inv_weak_block _ _ _ _ _ HI Hx Hb) as (blk & Hblk & _).
  by eapply from_weak_defined.
Qed.

Lemma ESharedFromThis_defined h self o wt :
  strongs w !! h = None → objects (mem w) !! self = Some o → weak_this_ o = Some wt →
  is_Some (WeakPtr.control_block_ wt) → is_Some (step (ESharedFromThis h self) w).
Proof using HI Hn.
  intros Hh Ho Hwt [b Hb]. simpl.
  assert (Object_block o = Some b) as Hob by (unfold Object_block; by rewrite Hwt).
  destruct (Inv_member_block _ _ _ _ _ HI Ho Hob) as (blk & Hblk & _).
  pose proof (from_weak_defined h wt b blk Hh Hb Hblk) as Hd.
  unfold declare_strong in *. rewrite Hh in *.
  unfold SharedFromThis, bind, load_object. by rewrite Ho, Hwt.
Qed.

Lemma SReset_defined h : is_Some (strongs w !! h) → is_Some (step (SReset h) w).
Proof using HI Hn.
  intros [this Hh]. simpl. unfold update_strong. rewrite Hh.
  destruct (Inv_release_strong n w h this (SharedPtr.mk None None) HI) as (m & Hm & _);
    [lia|done|done|].
  unfold SharedPtr_Reset. erewrite bind_Ret by exact Hm. eauto.
Qed.

Lemma SDestruct_defined h : is_Some (strongs w !! h) → is_Some (step (SDestruct h) w).
Proof using HI Hn.
  intros [this Hh]. simpl. rewrite Hh. simpl.
  destruct (Inv_release_strong n w h this (SharedPtr.mk None None) HI) as (m & Hm & _);
    [lia|done|done|].
  unfold SharedPtr_Reset. erewrite bind_Ret by exact Hm. eauto.
Qed.

Lemma SAssign_defined h src :
  is_Some (strongs w !! h) → is_Some (strongs w !! src) → is_Some (step (SAssign h src) w).
Proof using HI Hn.
  intros [this Hh] [other Hsrc]. simpl. case_decide; [rewrite Hh; eauto|].
  rewrite Hsrc. simpl. unfold update_strong. rewrite Hh.
  destruct (Inv_release_strong n w h this (SharedPtr.mk None None) HI) as (m & Hm & HIm & _);
    [lia|done|done|].
  unfold SharedPtr_assign. erewrite bind_Ret by exact Hm.
  set (w1 := mkWorld m (<[h:=SharedPtr.mk None None]> (strongs w)) (weaks w)) in *.
  assert (strongs w1 !! src = Some other) as Hsrc1.
  { simpl. by rewrite lookup_insert_ne. }
  destruct (SharedPtr.control_block_ other) as [b|] eqn:Hb.
  - destruct (Inv_strong_block _ _ _ _ _ HIm Hsrc1 Hb) as (blk & Hblk & _).
    erewrite bind_Ret by (by eapply IncreaseStrongCounter_Some). eauto.
  - eauto.
Qed.

Lemma SMoveAssign_defined h src :
  is_Some (strongs w !! h) → is_Some (strongs w !! src) →
  is_Some (step (SMoveAssign h src) w).
Proof using HI Hn.
  intros [this Hh] [other Hsrc]. simpl. case_decide; [rewrite Hh; eauto|].
  rewrite Hh, Hsrc. simpl.
  destruct (Inv_release_strong n w h this (SharedPtr.mk None None) HI) as (m & Hm & _);
    [lia|done|done|].
  unfold SharedPtr_move_assign, SharedPtr_Reset.
  erewrite bind_Ret; [|erewrite bind_Ret by exact Hm; reflexivity]. eauto.
Qed.

Lemma weak_acquire_defined x ob p c :
  weaks w !! x = None →
  (∀ b, ob = Some b → is_Some (heap (mem w) !! b)) →
  c (mem w) = (WeakPtr_IncreaseWeakCounter (WeakPtr.mk ob p false) ;;;
               ret (WeakPtr.mk ob p false)) (mem w) →
  is_Some (declare_weak x c w).
Proof using HI Hn.
  intros Hx Hob Hc. destruct (acquire_weak_block n w HI Hn x ob p Hx Hob) as (m & Hm & _).
  erewrite declare_weak_defined; [eauto|done|].
  rewrite Hc. erewrite bind_Ret by exact Hm. reflexivity.
Qed.

Lemma WCopy_defined x src :
  weaks w !! x = None → is_Some (weaks w !! src) → is_Some (step (WCopy x src) w).
Proof using HI Hn.
  intros Hx [other Hsrc]. simpl. rewrite Hsrc. simpl.
  apply (weak_acquire_defined x (WeakPtr.control_block_ other) (WeakPtr.ptr_ other));
    [done| |done].
  intros b Hb. destruct (Inv_weak_block _ _ _ _ _ HI Hsrc Hb) as (blk & Hblk & _). eauto.
Qed.

Lemma WFromShared_defined x h :
  weaks w !! x = None → is_Some (strongs w !! h) → is_Some (step (WFromShared x h) w).
Proof using HI Hn.
  intros Hx [other Hsrc]. simpl. rewrite Hsrc. simpl.
  apply (weak_acquire_defined x (SharedPtr.control_block_ other) (SharedPtr.ptr_ other));
    [done| |done].
  intros b Hb. destruct (Inv_strong_block _ _ _ _ _ HI Hsrc Hb) as (blk & Hblk & _). eauto.
Qed.

Lemma EWeakFromThis_defined x self o wt :
  weaks w !! x = None → objects (mem w) !! self = Some o → weak_this_ o = Some wt →
  is_Some (step (EWeakFromThis x self) w).
Proof using HI Hn.
  intros Hx Ho Hwt. simpl.
  apply (weak_acquire_defined x (WeakPtr.control_block_ wt) (WeakPtr.ptr_ wt)); [done| |].
  - intros b Hb.
    assert (Object_block o = Some b) as Hob by (unfold Object_block; by rewrite Hwt).
    destruct (Inv_member_block _ _ _ _ _ HI Ho Hob) as (blk & Hblk & _). eauto.
  - unfold WeakFromThis, bind, load_object. by rewrite Ho, Hwt.
Qed.

Lemma WMove_defined x src :
  weaks w !! x = None → is_Some (weaks w !! src) → is_Some (step (WMove x src) w).
Proof using HI Hn.
  intros Hx [other Hsrc]. simpl. rewrite Hsrc, Hx. simpl.
  rewrite (WeakPtr_move_eq n w src other HI) by (lia || done). eauto.
Qed.

Lemma WReset_defined x : is_Some (weaks w !! x) → is_Some (step (WReset x) w).
Proof using HI Hn.
  intros [this Hx]. simpl. unfold update_weak. rewrite Hx.
  destruct (Inv_release_weak n w x this (WeakPtr.mk None None false) HI) as (m & Hm & _);
    [lia|done|done|done|].
  unfold WeakPtr_Reset. erewrite bind_Ret by exact Hm. eauto.
Qed.

Lemma WDestruct_defined x : is_Some (weaks w !! x) → is_Some (step (WDestruct x) w).
Proof using HI Hn.
  intros [this Hx]. simpl. rewrite Hx. simpl.
  destruct (Inv_release_weak n w x this (WeakPtr.mk None None false) HI) as (m & Hm & _);
    [lia|done|done|done|].
  unfold WeakPtr_Reset. erewrite bind_Ret by exact Hm. eauto.
Qed.

Lemma WAssign_defined x src :
  is_Some (weaks w !! x) → is_Some (weaks w !! src) → is_Some (step (WAssign x src) w).
Proof using HI Hn.
  intros [this Hx] [other Hsrc]. simpl. case_decide; [rewrite Hx; eauto|].
  rewrite Hsrc. simpl. unfold update_weak. rewrite Hx.
  destruct (Inv_release_weak n w x this (WeakPtr.mk None None false) HI)
    as (m & Hm & HIm & _); [lia|done|done|done|].
  unfold WeakPtr_assign, WeakPtr_Reset.
  erewrite bind_Ret; [|erewrite bind_Ret by exact Hm; reflexivity].
  set (w1 := mkWorld m (strongs w) (<[x:=WeakPtr.mk None None false]> (weaks w))) in *.
  assert (weaks w1 !! src = Some other) as Hsrc1.
  { simpl. by rewrite lookup_insert_ne. }
  destruct (WeakPtr.control_block_ other) as [b|] eqn:Hb.
  - destruct (Inv_weak_block _ _ _ _ _ HIm Hsrc1 Hb) as (blk & Hblk & _).
    cbn [WeakPtr.control_block_ WeakPtr.ptr_ WeakPtr.is_esft_ptr_].
    erewrite bind_Ret by (by eapply IncreaseWeakCounter_Some). eauto.
  - eauto.
Qed.

Lemma WMoveAssign_defined x src :
  is_Some (weaks w !! x) → is_Some (weaks w !! src) → is_Some (step (WMoveAssign x src) w).
Proof using HI Hn.
  intros [this Hx] [other Hsrc]. simpl. case_decide; [rewrite Hx; eauto|].
  rewrite Hx, Hsrc. simpl.
  destruct (Inv_release_weak n w x this (WeakPtr.mk None None false) HI) as (m & Hm & _);
    [lia|done|done|done|].
  unfold WeakPtr_move_assign, WeakPtr_Reset.
  erewrite bind_Ret; [|erewrite bind_Ret by exact Hm; reflexivity]. eauto.
Qed.

Lemma WLock_defined h x this esft :
  strongs w !! h = None → weaks w !! x = Some this →
  negb esft || expired_in this (mem w) || self_aware_at (WeakPtr.ptr_ this) (mem w) = true →
  is_Some (step (WLock h x esft) w).
Proof using HI Hn.
  intros Hh Hx Hen. simpl. rewrite Hx. simpl. unfold declare_strong. rewrite Hh.
  destruct (WeakPtr.control_block_ this) as [b|] eqn:Hb.
  2:{ unfold WeakPtr_Lock, WeakPtr_Expired. rewrite Hb. simpl. eauto. }
  destruct (Inv_weak_block _ _ _ _ _ HI Hx Hb) as (blk & Hblk & _).
  rewrite (Lock_eq esft this b blk _ Hb Hblk).
  destruct (is_destroyed blk) eqn:Hd; [eauto|].
  unfold expired_in in Hen. rewrite Hb, Hblk, Hd, orb_false_r in Hen.
  destruct (acquire_strong_block n w HI Hn h b (WeakPtr.ptr_ this) (WeakPtr.ptr_ this) blk
              Hh Hblk Hd) as (m & Hm & HIm & Hl & Hobj & [blk1 Hb1]).
  unfold SharedPtr_from_block. unfold bind at 1. unfold bind at 1 in Hm.
  destruct (SharedPtr_IncreaseStrongCounter (SharedPtr.mk (Some b) (WeakPtr.ptr_ this)) (mem w))
    as [[] m1| |] eqn:E; try done.
  unfold ret in Hm. simplify_eq. destruct esft; [|simpl; eauto].
  simpl in Hen. unfold self_aware_at in Hen.
  destruct (WeakPtr.ptr_ this) as [a|] eqn:Hp; [|done].
  destruct (objects (mem w) !! a) as [o|] eqn:Ha; [|done].
  apply bool_decide_eq_true in Hen as [wt Hwt].
  edestruct (Inv_InitWeakThis (S n) _ b (Some a) a o wt blk1 HIm)
    as (m2 & Hm2 & _); [lia|done|simpl; congruence|done|].
  cbn [mem] in Hm2. erewrite bind_Ret by exact Hm2. eauto.
Qed.

End defined.

Lemma from_raw_null_self_aware m : SharedPtr_from_raw true None m = Undefined.
Proof.
  unfold SharedPtr_from_raw, SharedPtr_IncreaseStrongCounter, SharedPtr_InitWeakThis, new_block.
  by msimpl.
Qed.

Lemma update_strong_Some h c w w' :
  update_strong h c w = Some w' → is_Some (strongs w !! h).
Proof. unfold update_strong. destruct (strongs w !! h); [eauto|done]. Qed.

Lemma update_weak_Some x c w w' :
  update_weak x c w = Some w' → is_Some (weaks w !! x).
Proof. unfold update_weak. destruct (weaks w !! x); [eauto|done]. Qed.

Lemma InitWeakThis_defined_inv this p m :
  SharedPtr_InitWeakThis this p m ≠ Undefined → self_aware_at p m = true.
Proof.
  unfold SharedPtr_InitWeakThis, self_aware_at. destruct p as [a|]; [|done].
  unfold bind, load_object. destruct (objects m !! a) as [o|]; [|done].
  destruct (weak_this_ o) as [wt|]; [|done]. intros _. apply bool_decide_eq_true. eauto.
Qed.

Lemma Lock_defined_inv this m :
  WeakPtr_Lock true this m ≠ Undefined →
  expired_in this m || self_aware_at (WeakPtr.ptr_ this) m = true.
Proof.
  intros Hdef. unfold expired_in.
  destruct (WeakPtr.control_block_ this) as [b|] eqn:Hb; [|done].
  destruct (heap m !! b) as [blk|] eqn:Hblk.
  2:{ exfalso. apply Hdef. unfold WeakPtr_Lock, WeakPtr_Expired, bind, load.
      by rewrite Hb, Hblk. }
  rewrite (Lock_eq _ _ _ _ _ Hb Hblk) in Hdef.
  destruct (is_destroyed blk) eqn:Hd; [done|]. simpl.
  unfold SharedPtr_from_block in Hdef.
  rewrite (bind_Ret _ _ _ _ _ (IncreaseStrongCounter_Some _ _ _ _ Hblk)) in Hdef.
  apply (InitWeakThis_defined_inv (SharedPtr.mk (Some b) (WeakPtr.ptr_ this)) _
           (set_heap (<[b := (IncStrongRef blk).2]> (heap m)) m)).
  intros Hu. apply Hdef. by rewrite (bind_Undefined _ _ _ Hu).
Qed.

(** What a statement that is defined says about the names it uses. *)
Ltac names :=
  repeat match goal with
  | H : declare_strong _ _ _ = Some _ |- _ => apply declare_strong_Some in H as [? [(?&?&H&?)|(?&H&?)]]
  | H : declare_weak _ _ _ = Some _ |- _ => apply declare_weak_Some in H as [? [(?&?&H&?)|(?&H&?)]]
  | H : update_strong _ _ _ = Some _ |- _ => apply update_strong_Some in H
  | H : update_weak _ _ _ = Some _ |- _ => apply update_weak_Some in H
  | H : context [decide (?a = ?b)] |- _ => destruct (decide (a = b)); [subst|]
  | H : mbind _ ?o = Some _ |- _ =>
      let E := fresh "E" in destruct o eqn:E; simpl in H; [|discriminate]
  | H : match ?o with Some _ => None | None => _ end = Some _ |- _ =>
      let E := fresh "E" in destruct o eqn:E; [discriminate|]
  end;
  rewrite ?andb_true_iff, ?declared_true, ?declared_false; eauto.

Lemma defined_enabled op w : is_Some (step op w) → enabled op w = true.
Proof.
  intros [w' Hs]. destruct op; simpl in Hs; unfold enabled; try (names; fail).
  - (* SAdoptNull *)
    names; (split; [done|]); (destruct esft; [|done]);
      rewrite from_raw_null_self_aware in *; congruence.
  - (* SPromote *)
    names; (split; [done|]); apply bool_decide_eq_true;
      (destruct (WeakPtr.control_block_ t) eqn:Hb; [eauto|]);
      unfold SharedPtr_from_weak in *; simpl in *; rewrite Hb in *; unfold undefined in *;
      congruence.
  - (* WLock *)
    names; (split; [done|]); (destruct esft; [simpl|done]);
      apply Lock_defined_inv; congruence.
  - (* ESharedFromThis *)
    names; (split; [done|]);
      unfold SharedFromThis, bind, load_object in *;
      (destruct (objects (mem w) !! self) as [o|]; [|congruence]);
      (destruct (weak_this_ o) as [wt|]; [|unfold undefined in *; congruence]);
      apply bool_decide_eq_true;
      (destruct (WeakPtr.control_block_ wt) eqn:Hb; [eauto|]);
      unfold SharedPtr_from_weak in *; simpl in *; rewrite Hb in *; unfold undefined in *;
      congruence.
  - (* EWeakFromThis *)
    names; (split; [done|]); unfold self_aware_at;
      unfold WeakFromThis, bind, load_object in *;
      (destruct (objects (mem w) !! self) as [o|]; [|congruence]);
      (destruct (weak_this_ o) as [wt|]; [|unfold undefined in *; congruence]);
      apply bool_decide_eq_true; eauto.
Qed.

(** In a feasible client a statement is defined exactly when it is
    [enabled]: its names are in order, it does not promote (by the
    constructor or by [SharedFromThis()]) through a null control block,
    does not adopt a null pointer for a self-aware type, does not [Lock()]
    a live self-aware handle whose pointer is not that of a live self-aware
    object, and does not call a member of [EnableSharedFromThis] on a dead
    object.  Every other use of the two handle types, in any order, reads
    no freed control block and frees nothing twice. *)
Theorem statement_defined_iff_enabled ops w op :
  feasible (ops ++ [op]) → run ops init = Some w →
  is_Some (step op w) ↔ enabled op w = true.
Proof.
  intros Hf Hrun. split; [apply defined_enabled|].
  unfold feasible in Hf. rewrite length_app in Hf. simpl in Hf.
  assert (feasible ops) as Hf0 by (unfold feasible; lia).
  pose proof (feasible_Inv _ _ Hf0 Hrun) as HI.
  assert (2 * length ops + 2 ≤ capacity)%nat as Hn by lia.
  destruct op; unfold enabled;
    rewrite ?andb_true_iff, ?declared_true, ?declared_false; intros Hen.
  - simpl. erewrite declare_strong_defined; [eauto|done|reflexivity].
  - destruct (SAdopt_defined _ w HI Hn h esft Hen) as (m & -> & _). eauto.
  - destruct Hen as [Hh ->%negb_true_iff]. by eapply SAdoptNull_defined.
  - destruct (SMake_defined _ w HI Hn h esft Hen) as (m & -> & _). eauto.
  - destruct Hen. by eapply SCopy_defined.
  - destruct Hen as [Hh [other Hsrc]]. simpl. rewrite Hsrc, Hh. simpl. eauto.
  - destruct Hen. by eapply SAlias_defined.
  - destruct Hen as [Hh Hx]. destruct (weaks w !! w0) as [other|] eqn:Hw0; [|done].
    apply bool_decide_eq_true in Hx. by eapply SPromote_defined.
  - destruct Hen. by eapply SAssign_defined.
  - destruct Hen. by eapply SMoveAssign_defined.
  - by eapply SReset_defined.
  - destruct (SResetNew_defined _ w HI Hn h esft Hen) as (m & ->). eauto.
  - destruct Hen as [[this Hh] [that Ho]]. simpl. rewrite Hh, Ho. simpl. eauto.
  - by eapply SDestruct_defined.
  - simpl. erewrite declare_weak_defined; [eauto|done|reflexivity].
  - destruct Hen. by eapply WCopy_defined.
  - destruct Hen. by eapply WMove_defined.
  - destruct Hen. by eapply WFromShared_defined.
  - destruct Hen. by eapply WAssign_defined.
  - destruct Hen. by eapply WMoveAssign_defined.
  - by eapply WReset_defined.
  - destruct Hen as [[this Hh] [that Ho]]. simpl. rewrite Hh, Ho. simpl. eauto.
  - by eapply WDestruct_defined.
  - destruct Hen as [Hh Hx]. destruct (weaks w !! w0) as [this|] eqn:Hw0; [|done].
    by eapply WLock_defined.
  - destruct Hen as [Hh Ho].
    destruct (objects (mem w) !! self) as [o|] eqn:Hself; [|done].
    destruct (weak_this_ o) as [wt|] eqn:Hwt; [|done].
    apply bool_decide_eq_true in Ho. by eapply ESharedFromThis_defined.
  - destruct Hen as [Hh Ho]. unfold self_aware_at in Ho.
    destruct (objects (mem w) !! self) as [o|] eqn:Hself; [|done].
    apply bool_decide_eq_true in Ho as [wt Hwt]. by eapply EWeakFromThis_defined.
Qed.

Lemma statement_defined_iff_enabled_witness :
  ∃ w, run [SAdopt 1 true; WFromShared 1 1; WDefault 2; SDestruct 1]%positive init = Some w ∧
       is_Some (step (SPromote 2 1) w) ∧
       is_Some (step (WLock 2 1 true) w) ∧
       step (SPromote 2 2) w = None ∧
       enabled (SPromote 2 2) w = false.
Proof.
  assert (∃ w, run [SAdopt 1 true; WFromShared 1 1; WDefault 2; SDestruct 1]%positive init
               = Some w) as [w E] by (vm_compute; eauto).
  exists w. split; [exact E|].
  split; [|split; [|split]].
  - apply (statement_defined_iff_enabled
             [SAdopt 1 true; WFromShared 1 1; WDefault 2; SDestruct 1]%positive w
             (SPromote 2 1)).
    + unfold feasible, capacity. cbn [length app]. lia.
    + exact E.
    + vm_compute in E. injection E as <-. vm_compute. reflexivity.
  - apply (statement_defined_iff_enabled
             [SAdopt 1 true; WFromShared 1 1; WDefault 2; SDestruct 1]%positive w
             (WLock 2 1 true)).
    + unfold feasible, capacity. cbn [length app]. lia.
    + exact E.
    + vm_compute in E. injection E as <-. vm_compute. reflexivity.
  - vm_compute in E. injection E as <-. vm_compute. reflexivity.
  - vm_compute in E. injection E as <-. vm_compute. reflexivity.
Defined.

(** * New objects *)

(** No variable refers to a block that is not allocated. *)
Lemma refs_unallocated n w b :
  Inv n w → heap (mem w) !! b = None → refs SharedPtr.control_block_ b (strongs w) = 0%nat.
Proof.
  intros HI Hb. pose proof (inv_counts _ _ HI b) as Hc. rewrite Hb in Hc. by destruct Hc.
Qed.

Lemma refs_insert_fresh_block (s : gmap handle_id SharedPtr.t) h b p :
  refs SharedPtr.control_block_ b s = 0%nat →
  refs SharedPtr.control_block_ b (<[h := SharedPtr.mk (Some b) p]> s) = 1%nat.
Proof.
  intros Hz. pose proof (refs_insert SharedPtr.control_block_ b s h (SharedPtr.mk (Some b) p)) as Hr.
  assert (at_block SharedPtr.control_block_ b (s !! h) = 0%nat) as Hat.
  { destruct (s !! h) as [v|] eqn:Hv; [|done]. simpl. case_decide; [|done].
    pose proof (refs_pos_lookup SharedPtr.control_block_ b s h v Hv ltac:(done)). lia. }
  rewrite Hat, Hz in Hr. simpl in Hr. rewrite decide_True in Hr by done. lia.
Qed.

(** A handle that has just taken a new object, by the raw-pointer
    constructor, by [MakeShared] or by [Reset(ptr)], is the only owner:
    its block and the object are new, it converts to [true] and its
    [UseCount()] is 1, whatever the variable held before. *)
Theorem fresh_handle_is_sole_owner ops w op h esft :
  feasible (ops ++ [op]) → run ops init = Some w →
  op ∈ [SAdopt h esft; SMake h esft; SResetNew h esft] → enabled op w = true →
  let sp := SharedPtr.mk (Some (next_block (mem w))) (Some (next_addr (mem w))) in
  ∃ w', step op w = Some w' ∧
        strongs w' !! h = Some sp ∧
        heap (mem w) !! next_block (mem w) = None ∧
        objects (mem w) !! next_addr (mem w) = None ∧
        SharedPtr_bool sp = true ∧
        live_strong_handles (next_block (mem w)) w' = 1%nat ∧
        SharedPtr_UseCount sp (mem w') = Ret 1 (mem w').
Proof.
  intros Hf Hrun Hop Hen sp.
  unfold feasible in Hf. rewrite length_app in Hf. simpl in Hf.
  assert (feasible ops) as Hf0 by (unfold feasible; lia).
  pose proof (feasible_Inv _ _ Hf0 Hrun) as HI.
  assert (2 * length ops + 2 ≤ capacity)%nat as Hn by lia.
  assert (∃ m, step op w = Some (mkWorld m (<[h := sp]> (strongs w)) (weaks w)))
    as [m Hstep].
  { apply elem_of_cons in Hop as [->|Hop]; [|apply elem_of_cons in Hop as [->|Hop]];
      [| |apply list_elem_of_singleton in Hop as ->]; unfold enabled in Hen;
      rewrite ?declared_true, ?declared_false in Hen.
    - destruct (SAdopt_defined _ w HI Hn h esft Hen) as (m & ? & _). eauto.
    - destruct (SMake_defined _ w HI Hn h esft Hen) as (m & ? & _). eauto.
    - destruct (SResetNew_defined _ w HI Hn h esft Hen) as (m & ?). eauto. }
  destruct (step_good _ _ _ _ HI Hn Hstep) as [HI' _].
  pose proof (InvMem_heap_next _ (inv_mem _ _ HI)) as Hnb.
  pose proof (InvMem_objects_next _ (inv_mem _ _ HI)) as Hna.
  assert (live_strong_handles (next_block (mem w))
            (mkWorld m (<[h := sp]> (strongs w)) (weaks w)) = 1%nat) as Hone.
  { unfold live_strong_handles. simpl. apply refs_insert_fresh_block.
    by eapply refs_unallocated. }
  eexists. split; [exact Hstep|]. simpl. rewrite lookup_insert_eq.
  split_and!; [done|done|done|done|done|].
  destruct (Inv_strong_block _ _ h sp _ HI' ltac:(simpl; by rewrite lookup_insert_eq) eq_refl)
    as (blk & Hblk & _ & Hs & _).
  unfold SharedPtr_UseCount, SharedPtr_GetStrongCounter, bind, load, ret. simpl in *.
  rewrite Hblk. unfold GetStrongCounter. rewrite Hs.
  unfold live_strong_handles in Hone. simpl in Hone. by rewrite Hone.
Qed.

Lemma fresh_handle_is_sole_owner_witness :
  ∃ w w' sp,
    run [SAdopt 1 false; SCopy 2 1; SCopy 3 1]%positive init = Some w ∧
    step (SResetNew 2 true) w = Some w' ∧
    strongs w' !! 2%positive = Some sp ∧
    SharedPtr_UseCount sp (mem w') = Ret 1 (mem w').
Proof.
  assert (∃ w, run [SAdopt 1 false; SCopy 2 1; SCopy 3 1]%positive init = Some w)
    as [w E] by (vm_compute; eauto).
  destruct (fresh_handle_is_sole_owner [SAdopt 1 false; SCopy 2 1; SCopy 3 1]%positive w
              (SResetNew 2 true) 2%positive true)
    as (w' & Hstep & Hh & _ & _ & _ & _ & Hu).
  - unfold feasible, capacity. cbn [length app]. lia.
  - exact E.
  - do 2 constructor. constructor.
  - vm_compute in E. injection E as <-. vm_compute. reflexivity.
  - exists w, w', (SharedPtr.mk (Some (next_block (mem w))) (Some (next_addr (mem w)))).
    split; [exact E|]. split; [exact Hstep|]. split; [exact Hh|exact Hu].
Defined.

(** * The plain variant: well-formed worlds *)

Module PlainFacts.
Import Plain.

Definition vacant (o : option SharedPtr.t) : Prop :=
  ∀ v, o = Some v → SharedPtr.control_block_ v = None.

Lemma vacant_None : vacant None.
Proof. by intros v. Qed.

Lemma vacant_Some sp : SharedPtr.control_block_ sp = None → vacant (Some sp).
Proof. intros H v [= <-]. done. Qed.

Lemma at_block_vacant b o : vacant o → at_block SharedPtr.control_block_ b o = 0%nat.
Proof.
  intros Hv. destruct o as [v|]; [|done]. simpl. rewrite (Hv v eq_refl).
  by rewrite decide_False.
Qed.

Lemma plain_Inv_init : Inv 0 init.
Proof.
  constructor; simpl.
  - intros b. rewrite lookup_empty. apply refs_empty.
  - intros b blk p H. by rewrite lookup_empty in H.
  - intros b1 b2 blk1 blk2 p H. by rewrite lookup_empty in H.
  - intros p H. set_solver.
  - intros b [? H]. by rewrite lookup_empty in H.
  - intros a Hin. by apply elem_of_nil in Hin.
  - constructor.
  - intros a. split; [lia|]. intros [H|H]; [set_solver|by apply elem_of_nil in H].
  - by rewrite map_size_empty.
Qed.

Lemma plain_Inv_mono n n' w : Inv n w → (n ≤ n')%nat → Inv n' w.
Proof. intros [] ?. constructor; auto. lia. Qed.

(** The same memory with handles that refer to the blocks as before. *)
Lemma Inv_same_refs n n' w s' :
  Inv n w →
  (∀ b, refs SharedPtr.control_block_ b s' = live_handles b w) →
  (size s' ≤ n')%nat →
  Inv n' (mkWorld (mem w) s' (next_block w) (next_addr w)).
Proof.
  intros [] Hr Hs. constructor; simpl; try done.
  intros b. unfold live_handles. simpl. rewrite Hr. apply inv_counts0.
Qed.

Lemma Inv_set_vacant n w h sp :
  Inv n w → vacant (handles w !! h) → SharedPtr.control_block_ sp = None →
  Inv (S n) (mkWorld (mem w) (<[h := sp]> (handles w)) (next_block w) (next_addr w)).
Proof.
  intros HI Hv Hsp. eapply Inv_same_refs; [done| |].
  - intros b. pose proof (refs_insert SharedPtr.control_block_ b (handles w) h sp) as Hr.
    rewrite (at_block_vacant _ _ Hv), (at_block_None _ _ sp) in Hr by done.
    unfold live_handles. lia.
  - pose proof (inv_size _ _ HI). pose proof (size_insert_le (handles w) h sp). lia.
Qed.

Lemma Inv_delete_vacant n w h :
  Inv n w → vacant (handles w !! h) →
  Inv n (mkWorld (mem w) (delete h (handles w)) (next_block w) (next_addr w)).
Proof.
  intros HI Hv. eapply Inv_same_refs; [done| |].
  - intros b. pose proof (refs_delete SharedPtr.control_block_ b (handles w) h) as Hr.
    rewrite (at_block_vacant _ _ Hv) in Hr. unfold live_handles. lia.
  - pose proof (inv_size _ _ HI). pose proof (size_delete_le (handles w) h). lia.
Qed.

Lemma counter_bound n w b blk :
  Inv n w → (n ≤ capacity)%nat → heap (mem w) !! b = Some blk →
  1 ≤ counter blk ∧ counter blk + 2 < size_t_modulus.
Proof.
  intros HI Hn Hb. pose proof (inv_counts _ _ HI b) as Hc. rewrite Hb in Hc.
  destruct Hc as [Hc Hpos]. pose proof (inv_size _ _ HI).
  pose proof (refs_le_size SharedPtr.control_block_ b (handles w)).
  pose proof (capacity_small n Hn). unfold live_handles in *. lia.
Qed.

(** Taking one more unit of the counter of [b] for the variable [h]. *)
Lemma Inv_acquire n w h b p blk :
  Inv n w → (n ≤ capacity)%nat →
  heap (mem w) !! b = Some blk → vacant (handles w !! h) →
  Inv (S n) (mkWorld (mkMemory (<[b := (IncRef blk).2]> (heap (mem w)))
                               (objects (mem w)) (dtor_log (mem w)))
                     (<[h := SharedPtr.mk (Some b) p]> (handles w))
                     (next_block w) (next_addr w)).
Proof.
  intros HI Hn Hb Hv. destruct (counter_bound _ _ _ _ HI Hn Hb) as [Hc1 Hc2].
  pose proof HI as [].
  constructor; simpl; try done.
  - intros b0. unfold live_handles. simpl.
    pose proof (refs_insert SharedPtr.control_block_ b0 (handles w) h
                  (SharedPtr.mk (Some b) p)) as Hr.
    rewrite (at_block_vacant _ _ Hv) in Hr. simpl in Hr.
    pose proof (inv_counts0 b0) as Hc. unfold live_handles in Hc.
    destruct (decide (b0 = b)) as [->|Hne].
    + rewrite lookup_insert_eq. rewrite Hb in Hc. rewrite decide_True in Hr by done.
      simpl. rewrite wrap_small by lia. lia.
    + rewrite lookup_insert_ne by done. rewrite decide_False in Hr by congruence.
      replace (refs SharedPtr.control_block_ b0 (<[h:=SharedPtr.mk (Some b) p]> (handles w)))
        with (refs SharedPtr.control_block_ b0 (handles w)) by lia.
      exact Hc.
  - intros b0 blk0 q. destruct (decide (b0 = b)) as [->|Hne].
    + rewrite lookup_insert_eq. intros [= <-]. by apply (inv_managed0 b blk).
    + rewrite lookup_insert_ne by done. apply inv_managed0.
  - intros b1 b2 blk1 blk2 q H1 H2 Hq1 Hq2.
    assert (∀ b0 blk0, <[b:=(IncRef blk).2]> (heap (mem w)) !! b0 = Some blk0 →
              ∃ blk1, heap (mem w) !! b0 = Some blk1 ∧ GetRawPtr blk1 = GetRawPtr blk0) as Hsh.
    { intros b0 blk0. destruct (decide (b0 = b)) as [->|Hne].
      - rewrite lookup_insert_eq. intros [= <-]. eauto.
      - rewrite lookup_insert_ne by done. eauto. }
    destruct (Hsh _ _ H1) as (c1 & Hc1' & Hr1). destruct (Hsh _ _ H2) as (c2 & Hc2' & Hr2).
    apply (inv_managed_inj0 b1 b2 c1 c2 q); congruence.
  - intros q Hq. destruct (inv_owned0 q Hq) as (b0 & blk0 & Hb0 & Hq0).
    destruct (decide (b0 = b)) as [->|Hne].
    + exists b, (IncRef blk).2. rewrite lookup_insert_eq. split; [done|].
      rewrite Hb in Hb0. by injection Hb0 as <-.
    + exists b0, blk0. by rewrite lookup_insert_ne.
  - intros b0. destruct (decide (b0 = b)) as [->|Hne].
    + intros _. apply inv_heap_fresh0. eauto.
    + rewrite lookup_insert_ne by done. apply inv_heap_fresh0.
  - pose proof (size_insert_le (handles w) h (SharedPtr.mk (Some b) p)). lia.
Qed.

(** Memory after the last handle let go of the block [b]. *)
Lemma last_release m b blk :
  heap m !! b = Some blk → counter blk = 1 →
  (∀ p, GetRawPtr blk = Some p → p ∈ objects m) →
  SharedPtr_DecreaseCounter (Some b) m
  = Some (mkMemory (delete b (heap m))
            (match GetRawPtr blk with Some p => objects m ∖ {[p]} | None => objects m end)
            (option_list (GetRawPtr blk) ++ dtor_log m)).
Proof.
  intros Hb Hone Hobj. destruct blk as [c k]. simpl in Hone. subst c.
  unfold SharedPtr_DecreaseCounter. rewrite Hb.
  change (GetCounter (DecRef (mkBlock 1 k)).2 =? 0) with true.
  cbn [option_bind mbind DecRef counter kind snd].
  unfold Destroy. cbn [heap objects dtor_log].
  rewrite lookup_insert_eq. cbn [option_bind mbind kind].
  unfold GetRawPtr in *. cbn [kind] in *.
  destruct k as [[p|]|a].
  - unfold destroy_object. cbn [heap objects dtor_log].
    rewrite decide_True by (by apply Hobj).
    cbn [option_bind mbind heap objects dtor_log].
    unfold delete_block. cbn [heap objects dtor_log].
    rewrite lookup_insert_eq. cbn [option_bind mbind kind heap objects dtor_log].
    by rewrite insert_insert_eq, delete_insert_eq.
  - cbn [option_bind mbind heap objects dtor_log].
    unfold delete_block. cbn [heap objects dtor_log].
    rewrite lookup_insert_eq. cbn [option_bind mbind kind heap objects dtor_log].
    by rewrite insert_insert_eq, delete_insert_eq.
  - cbn [option_bind mbind heap objects dtor_log].
    unfold delete_block. cbn [heap objects dtor_log].
    rewrite lookup_insert_eq. cbn [option_bind mbind kind].
    unfold destroy_object. cbn [heap objects dtor_log].
    rewrite decide_True by (by apply Hobj).
    cbn [option_bind mbind heap objects dtor_log].
    by rewrite insert_insert_eq, delete_insert_eq.
Qed.

(** The variable [h] lets go of its block. *)
Lemma Inv_release n w h sp :
  Inv n w → (n ≤ capacity)%nat → handles w !! h = Some sp →
  ∃ m', SharedPtr_DecreaseCounter (SharedPtr.control_block_ sp) (mem w) = Some m' ∧
        Inv n (mkWorld m' (<[h := SharedPtr.mk None None]> (handles w))
                 (next_block w) (next_addr w)) ∧
        dtor_log (mem w) `suffix_of` dtor_log m' ∧
        objects m' ⊆ objects (mem w).
Proof.
  intros HI Hn Hh.
  assert (size (<[h:=SharedPtr.mk None None]> (handles w)) ≤ n)%nat as Hsize.
  { rewrite map_size_insert_Some by eauto. apply HI. }
  destruct (SharedPtr.control_block_ sp) as [b|] eqn:Hcb.
  2:{ exists (mem w). split_and!; [done| |done|done].
      replace (mem w) with (mem (mkWorld (mem w) (handles w) (next_block w) (next_addr w)))
        at 1 by done.
      assert (Inv n (mkWorld (mem w) (handles w) (next_block w) (next_addr w))) as HI0
        by (by destruct w).
      eapply (Inv_same_refs _ _ _ _ HI0); [|done]. simpl.
      intros b. pose proof (refs_insert SharedPtr.control_block_ b (handles w) h
                              (SharedPtr.mk None None)) as Hr.
      rewrite Hh in Hr. simpl in Hr. rewrite Hcb in Hr. rewrite decide_False in Hr by done.
      unfold live_handles. simpl. lia. }
  pose proof (refs_pos_lookup SharedPtr.control_block_ b _ _ _ Hh Hcb) as Hpos.
  pose proof (inv_counts _ _ HI b) as Hc. unfold live_handles in Hc.
  destruct (heap (mem w) !! b) as [blk|] eqn:Hb; [|lia]. destruct Hc as [Hc _].
  destruct (counter_bound _ _ _ _ HI Hn Hb) as [Hc1 Hc2].
  assert (∀ b0, (refs SharedPtr.control_block_ b0 (<[h:=SharedPtr.mk None None]> (handles w))
                 + (if decide (b0 = b) then 1 else 0)
                 = refs SharedPtr.control_block_ b0 (handles w))%nat) as Hrefs.
  { intros b0. pose proof (refs_insert SharedPtr.control_block_ b0 (handles w) h
                             (SharedPtr.mk None None)) as Hr.
    rewrite Hh in Hr. simpl in Hr. rewrite Hcb in Hr.
    destruct (decide (b0 = b)) as [->|Hne].
    - rewrite decide_True in Hr by done. lia.
    - rewrite decide_False in Hr by congruence. lia. }
  pose proof HI as [].
  destruct (decide (counter blk = 1)) as [Hone|Hmany].
  - rewrite (last_release _ _ _ Hb Hone) by (intros p; apply (inv_managed0 b blk p Hb)).
    eexists. split; [done|]. split_and!.
    + constructor; simpl; try done.
      * intros b0. unfold live_handles. simpl. pose proof (Hrefs b0) as Hr.
        destruct (decide (b0 = b)) as [->|Hne].
        -- rewrite lookup_delete_eq. lia.
        -- rewrite lookup_delete_ne by done.
           pose proof (inv_counts0 b0) as Hc0. unfold live_handles in Hc0.
           replace (refs SharedPtr.control_block_ b0
                      (<[h:=SharedPtr.mk None None]> (handles w)))
             with (refs SharedPtr.control_block_ b0 (handles w)) by lia.
           exact Hc0.
      * intros b0 blk0 q. destruct (decide (b0 = b)) as [->|Hne];
          [by rewrite lookup_delete_eq|]. rewrite lookup_delete_ne by done.
        intros Hb0 Hq. pose proof (inv_managed0 _ _ _ Hb0 Hq) as Hin.
        destruct (GetRawPtr blk) as [p|] eqn:Hp; [|done].
        apply elem_of_difference. split; [done|]. intros ->%elem_of_singleton.
        apply Hne. by apply (inv_managed_inj0 b0 b blk0 blk p).
      * intros b1 b2 blk1 blk2 q H1 H2.
        apply lookup_delete_Some in H1 as [_ H1]. apply lookup_delete_Some in H2 as [_ H2].
        by apply inv_managed_inj0.
      * intros q Hq.
        assert (q ∈ objects (mem w) ∧ GetRawPtr blk ≠ Some q) as [Hin Hne].
        { destruct (GetRawPtr blk) as [p|]; [|done].
          apply elem_of_difference in Hq as [? Hq]. split; [done|].
          intros [= ->]. apply Hq. by apply elem_of_singleton. }
        destruct (inv_owned0 q Hin) as (b0 & blk0 & Hb0 & Hq0).
        exists b0, blk0. split; [|done]. apply lookup_delete_Some. split; [|done].
        intros <-. congruence.
      * intros b0 [blk0 Hb0]. apply lookup_delete_Some in Hb0 as [_ Hb0].
        apply inv_heap_fresh0. eauto.
      * intros a Ha. destruct (GetRawPtr blk) as [p|] eqn:Hp; simpl in Ha.
        -- apply elem_of_cons in Ha as [->|Ha]; [set_solver|].
           specialize (inv_log0 a Ha). set_solver.
        -- by apply inv_log0.
      * destruct (GetRawPtr blk) as [p|] eqn:Hp; simpl; [|done].
        apply NoDup_cons. split; [|done]. intros Hin. apply (inv_log0 p Hin).
        by apply (inv_managed0 b blk).
      * intros a. rewrite inv_all0. destruct (GetRawPtr blk) as [p|] eqn:Hp; simpl; [|done].
        destruct (decide (a = p)) as [->|Hne]; set_solver.
    + simpl. by apply suffix_app_r.
    + simpl. destruct (GetRawPtr blk); set_solver.
  - assert (SharedPtr_DecreaseCounter (Some b) (mem w)
            = Some (mkMemory (<[b := (DecRef blk).2]> (heap (mem w))) (objects (mem w))
                      (dtor_log (mem w)))) as ->.
    { unfold SharedPtr_DecreaseCounter. rewrite Hb. simpl. rewrite wrap_small by lia.
      destruct (Z.eqb_spec (counter blk - 1) 0); [lia|done]. }
    eexists. split; [done|]. split_and!; [|done|done].
    constructor; simpl; try done.
    + intros b0. unfold live_handles. simpl. pose proof (Hrefs b0) as Hr.
      destruct (decide (b0 = b)) as [->|Hne].
      * rewrite lookup_insert_eq. simpl. rewrite wrap_small by lia. lia.
      * rewrite lookup_insert_ne by done.
        pose proof (inv_counts0 b0) as Hc0. unfold live_handles in Hc0.
        replace (refs SharedPtr.control_block_ b0
                   (<[h:=SharedPtr.mk None None]> (handles w)))
          with (refs SharedPtr.control_block_ b0 (handles w)) by lia.
        exact Hc0.
    + intros b0 blk0 q. destruct (decide (b0 = b)) as [->|Hne].
      * rewrite lookup_insert_eq. intros [= <-]. by apply (inv_managed0 b blk).
      * rewrite lookup_insert_ne by done. apply inv_managed0.
    + intros b1 b2 blk1 blk2 q H1 H2 Hq1 Hq2.
      assert (∀ b0 blk0, <[b:=(DecRef blk).2]> (heap (mem w)) !! b0 = Some blk0 →
                ∃ blk1, heap (mem w) !! b0 = Some blk1 ∧ GetRawPtr blk1 = GetRawPtr blk0)
        as Hsh.
      { intros b0 blk0. destruct (decide (b0 = b)) as [->|Hne].
        - rewrite lookup_insert_eq. intros [= <-]. eauto.
        - rewrite lookup_insert_ne by done. eauto. }
      destruct (Hsh _ _ H1) as (c1 & Hc1' & Hr1). destruct (Hsh _ _ H2) as (c2 & Hc2' & Hr2).
      apply (inv_managed_inj0 b1 b2 c1 c2 q); congruence.
    + intros q Hq. destruct (inv_owned0 q Hq) as (b0 & blk0 & Hb0 & Hq0).
      destruct (decide (b0 = b)) as [->|Hne].
      * exists b, (DecRef blk).2. rewrite lookup_insert_eq. split; [done|].
        rewrite Hb in Hb0. by injection Hb0 as <-.
      * exists b0, blk0. by rewrite lookup_insert_ne.
    + intros b0. destruct (decide (b0 = b)) as [->|Hne].
      * intros _. apply inv_heap_fresh0. eauto.
      * rewrite lookup_insert_ne by done. apply inv_heap_fresh0.
Qed.

(** * The plain variant: statements *)

Lemma next_addr_fresh n w :
  Inv n w → (next_addr w ∉ objects (mem w)) ∧ (next_addr w ∉ dtor_log (mem w)).
Proof.
  intros HI. pose proof (proj2 (inv_all _ _ HI (next_addr w))) as H.
  split; intros Hin; assert (next_addr w < next_addr w)%positive by auto; lia.
Qed.

Lemma next_block_fresh n w : Inv n w → heap (mem w) !! next_block w = None.
Proof.
  intros HI. apply eq_None_not_Some. intros H%(inv_heap_fresh _ _ HI). lia.
Qed.

(** A new block at [next_block w] for the variable [h]; the block manages
    no object or one that no other block manages. *)
Lemma plain_Inv_new_block n w h k p objs na' :
  Inv n w → vacant (handles w !! h) →
  objects (mem w) ⊆ objs →
  (∀ q, GetRawPtr (mkBlock 1 k) = Some q → q ∈ objs ∧ q ∉ objects (mem w)) →
  (∀ q, q ∈ objs → q ∈ objects (mem w) ∨ GetRawPtr (mkBlock 1 k) = Some q) →
  (∀ a, (a < na')%positive ↔ a ∈ objs ∨ a ∈ dtor_log (mem w)) →
  (∀ a, a ∈ dtor_log (mem w) → a ∉ objs) →
  Inv (S n) (mkWorld (mkMemory (<[next_block w := mkBlock 1 k]> (heap (mem w))) objs
                               (dtor_log (mem w)))
                     (<[h := SharedPtr.mk (Some (next_block w)) p]> (handles w))
                     (Pos.succ (next_block w)) na').
Proof.
  intros HI Hv Hsub Hraw Hobjs Hall Hlog.
  pose proof (next_block_fresh _ _ HI) as Hnb. pose proof HI as [].
  constructor; simpl; try done.
  - intros b0. unfold live_handles. simpl.
    pose proof (refs_insert SharedPtr.control_block_ b0 (handles w) h
                  (SharedPtr.mk (Some (next_block w)) p)) as Hr.
    rewrite (at_block_vacant _ _ Hv) in Hr. simpl in Hr.
    pose proof (inv_counts0 b0) as Hc. unfold live_handles in Hc.
    destruct (decide (b0 = next_block w)) as [->|Hne].
    + rewrite lookup_insert_eq. rewrite Hnb in Hc. rewrite decide_True in Hr by done.
      simpl. lia.
    + rewrite lookup_insert_ne by done. rewrite decide_False in Hr by congruence.
      replace (refs SharedPtr.control_block_ b0
                 (<[h:=SharedPtr.mk (Some (next_block w)) p]> (handles w)))
        with (refs SharedPtr.control_block_ b0 (handles w)) by lia.
      exact Hc.
  - intros b0 blk0 q. destruct (decide (b0 = next_block w)) as [->|Hne].
    + rewrite lookup_insert_eq. intros [= <-] Hq. by apply Hraw.
    + rewrite lookup_insert_ne by done. intros Hb0 Hq. apply Hsub. by eapply inv_managed0.
  - intros b1 b2 blk1 blk2 q.
    destruct (decide (b1 = next_block w)) as [->|Hne1];
      destruct (decide (b2 = next_block w)) as [->|Hne2]; [done| | |].
    + rewrite lookup_insert_eq, lookup_insert_ne by done. intros [= <-] H2 Hq1 Hq2.
      destruct (Hraw q Hq1) as [_ Hq]. exfalso. apply Hq. by eapply inv_managed0.
    + rewrite lookup_insert_eq, lookup_insert_ne by done. intros H1 [= <-] Hq1 Hq2.
      destruct (Hraw q Hq2) as [_ Hq]. exfalso. apply Hq. by eapply inv_managed0.
    + rewrite !lookup_insert_ne by done. apply inv_managed_inj0.
  - intros q Hq. destruct (Hobjs q Hq) as [Hin|Hk].
    + destruct (inv_owned0 q Hin) as (b0 & blk0 & Hb0 & Hq0). exists b0, blk0.
      split; [|done]. rewrite lookup_insert_ne; [done|]. intros <-. congruence.
    + exists (next_block w), (mkBlock 1 k). by rewrite lookup_insert_eq.
  - intros b0. destruct (decide (b0 = next_block w)) as [->|Hne]; [lia|].
    rewrite lookup_insert_ne by done. intros H%inv_heap_fresh0. lia.
  - pose proof (size_insert_le (handles w) h (SharedPtr.mk (Some (next_block w)) p)). lia.
Qed.

(** A new object at [next_addr w] and a new block that manages it. *)
Lemma plain_Inv_new_object n w h k :
  Inv n w → vacant (handles w !! h) →
  GetRawPtr (mkBlock 1 k) = Some (next_addr w) →
  Inv (S n) (mkWorld (new_block (next_block w) k (new_object (next_addr w) (mem w)))
                     (<[h := SharedPtr.mk (Some (next_block w)) (Some (next_addr w))]>
                        (handles w))
                     (Pos.succ (next_block w)) (Pos.succ (next_addr w))).
Proof.
  intros HI Hv Hk. destruct (next_addr_fresh _ _ HI) as [Hno Hnl].
  apply (plain_Inv_new_block n w h k _ ({[next_addr w]} ∪ objects (mem w))); [done|done| | | | |].
  - set_solver.
  - intros q Hq. rewrite Hk in Hq. injection Hq as <-. set_solver.
  - intros q Hq. apply elem_of_union in Hq as [->%elem_of_singleton|Hq]; auto.
  - intros a. pose proof (inv_all _ _ HI a) as Ha.
    rewrite elem_of_union, elem_of_singleton. split.
    + intros Hlt. destruct (decide (a = next_addr w)); [auto|].
      assert (a < next_addr w)%positive as Hlt' by lia. apply Ha in Hlt'. tauto.
    + intros [[->|Hin]|Hin]; [lia| |].
      * assert (a < next_addr w)%positive by (apply Ha; auto). lia.
      * assert (a < next_addr w)%positive by (apply Ha; auto). lia.
  - intros a Ha. rewrite elem_of_union, elem_of_singleton. intros [->|Hin]; [done|].
    by apply (inv_log _ _ HI a).
Qed.

(** A new block that manages nothing. *)
Lemma Inv_new_null_block n w h :
  Inv n w → vacant (handles w !! h) →
  Inv (S n) (mkWorld (new_block (next_block w) (DefaultBlock None) (mem w))
                     (<[h := SharedPtr.mk (Some (next_block w)) None]> (handles w))
                     (Pos.succ (next_block w)) (next_addr w)).
Proof.
  intros HI Hv.
  apply (plain_Inv_new_block n w h (DefaultBlock None) _ (objects (mem w))); [done|done|done| | | |].
  - intros q [=].
  - auto.
  - apply HI.
  - apply HI.
Qed.

(** Letting go of a block does not depend on an object no block manages. *)
Lemma DecreaseCounter_new_object cb a m m' :
  a ∉ objects m → SharedPtr_DecreaseCounter cb m = Some m' →
  SharedPtr_DecreaseCounter cb (new_object a m) = Some (new_object a m').
Proof.
  intros Ha. unfold SharedPtr_DecreaseCounter. destruct cb as [b|]; [|by intros [= <-]].
  cbn [new_object heap objects dtor_log].
  destruct (heap m !! b) as [blk|]; [|done]. cbn [option_bind mbind].
  destruct (GetCounter (DecRef blk).2 =? 0); [|by intros [= <-]].
  unfold Destroy, delete_block, destroy_object. cbn [heap objects dtor_log].
  rewrite !lookup_insert_eq. cbn [option_bind mbind kind DecRef snd].
  destruct (kind blk) as [[p|]|q]; cbn [option_bind mbind heap objects dtor_log kind].
  - destruct (decide (p ∈ objects m)) as [Hp|]; [|done].
    rewrite decide_True by set_solver.
    cbn [option_bind mbind heap objects dtor_log]. rewrite !lookup_insert_eq.
    cbn [option_bind mbind heap objects dtor_log kind]. intros [= <-].
    unfold new_object. cbn [heap objects dtor_log]. do 2 f_equal. set_solver.
  - rewrite !lookup_insert_eq. cbn [option_bind mbind heap objects dtor_log kind].
    by intros [= <-].
  - rewrite !lookup_insert_eq. cbn [option_bind mbind heap objects dtor_log kind].
    destruct (decide (q ∈ objects m)) as [Hq|]; [|done].
    rewrite decide_True by set_solver.
    cbn [option_bind mbind heap objects dtor_log]. intros [= <-].
    unfold new_object. cbn [heap objects dtor_log]. do 2 f_equal. set_solver.
Qed.

Lemma declare_Some h sp m nb na w :
  handles w !! h = None →
  declare h sp m nb na w = Some (mkWorld m (<[h := sp]> (handles w)) nb na).
Proof. intros Hh. unfold declare. by rewrite Hh. Qed.

Lemma world_eta w : mkWorld (mem w) (handles w) (next_block w) (next_addr w) = w.
Proof. by destruct w. Qed.

Lemma memory_eta m : mkMemory (heap m) (objects m) (dtor_log m) = m.
Proof. by destruct m. Qed.

(** The block of a live variable is allocated. *)
Lemma handle_block n w h sp b :
  Inv n w → handles w !! h = Some sp → SharedPtr.control_block_ sp = Some b →
  ∃ blk, heap (mem w) !! b = Some blk ∧ counter blk = Z.of_nat (live_handles b w) ∧
         (1 ≤ live_handles b w)%nat.
Proof.
  intros HI Hh Hb. pose proof (inv_counts _ _ HI b) as Hc.
  pose proof (refs_pos_lookup SharedPtr.control_block_ b _ _ _ Hh Hb) as Hpos.
  unfold live_handles in *. destruct (heap (mem w) !! b) as [blk|]; [eauto|lia].
Qed.

Section statements.
Context (n : nat) (w : World).
Context (HI : Inv n w) (Hn : (S n ≤ capacity)%nat).

(** Taking a unit of the counter of the block of [other] for the new or
    vacant variable [h]. *)
Lemma acquire h other p src :
  vacant (handles w !! h) → handles w !! src = Some other →
  ∃ m, SharedPtr_IncreaseCounter
         (SharedPtr.mk (SharedPtr.control_block_ other) p) (mem w) = Some m ∧
       dtor_log m = dtor_log (mem w) ∧
       ∀ q, Inv (S n) (mkWorld m (<[h := SharedPtr.mk (SharedPtr.control_block_ other) q]>
                                    (handles w)) (next_block w) (next_addr w)).
Proof using HI Hn.
  intros Hv Hsrc. unfold SharedPtr_IncreaseCounter. simpl.
  destruct (SharedPtr.control_block_ other) as [b|] eqn:Hb.
  - destruct (handle_block _ _ _ _ _ HI Hsrc Hb) as (blk & Hblk & _).
    rewrite Hblk. simpl. eexists. split_and!; [done|done|].
    intros q. apply Inv_acquire; [done|lia|done|done].
  - exists (mem w). split_and!; [done|done|]. intros q. by apply Inv_set_vacant.
Qed.

Lemma step_PDefault h :
  handles w !! h = None →
  ∃ w', step (PDefault h) w = Some w' ∧ Inv (S n) w' ∧ dtor_log (mem w') = dtor_log (mem w).
Proof using HI Hn.
  intros Hh. simpl. rewrite (declare_Some _ _ _ _ _ _ Hh). eexists. split_and!; [done| |done].
  apply Inv_set_vacant; [done| |done]. rewrite Hh. apply vacant_None.
Qed.

Lemma step_PAdopt h :
  handles w !! h = None →
  ∃ w', step (PAdopt h) w = Some w' ∧ Inv (S n) w' ∧ dtor_log (mem w') = dtor_log (mem w).
Proof using HI Hn.
  intros Hh. simpl. rewrite (declare_Some _ _ _ _ _ _ Hh). eexists. split_and!; [done| |done].
  apply plain_Inv_new_object; [done| |done]. rewrite Hh. apply vacant_None.
Qed.

Lemma step_PAdoptNull h :
  handles w !! h = None →
  ∃ w', step (PAdoptNull h) w = Some w' ∧ Inv (S n) w' ∧
        dtor_log (mem w') = dtor_log (mem w).
Proof using HI Hn.
  intros Hh. simpl. rewrite (declare_Some _ _ _ _ _ _ Hh). eexists. split_and!; [done| |done].
  apply Inv_new_null_block; [done|]. rewrite Hh. apply vacant_None.
Qed.

Lemma step_PMake h :
  handles w !! h = None →
  ∃ w', step (PMake h) w = Some w' ∧ Inv (S n) w' ∧ dtor_log (mem w') = dtor_log (mem w).
Proof using HI Hn.
  intros Hh. simpl. rewrite (declare_Some _ _ _ _ _ _ Hh). eexists. split_and!; [done| |done].
  apply (plain_Inv_new_object n w h (InlineBlock (next_addr w))); [done| |done].
  rewrite Hh. apply vacant_None.
Qed.

Lemma step_PCopy h src :
  handles w !! h = None → is_Some (handles w !! src) →
  ∃ w', step (PCopy h src) w = Some w' ∧ Inv (S n) w' ∧ dtor_log (mem w') = dtor_log (mem w).
Proof using HI Hn.
  intros Hh [other Hsrc]. simpl. rewrite Hsrc. simpl.
  destruct (acquire h other (SharedPtr.ptr_ other) src) as (m & Hm & Hl & HIm);
    [rewrite Hh; apply vacant_None|done|].
  unfold SharedPtr_copy. rewrite Hm. simpl. rewrite (declare_Some _ _ _ _ _ _ Hh).
  eexists. split_and!; [done|apply HIm|done].
Qed.

Lemma step_PAlias h src p :
  handles w !! h = None → is_Some (handles w !! src) →
  ∃ w', step (PAlias h src p) w = Some w' ∧ Inv (S n) w' ∧
        dtor_log (mem w') = dtor_log (mem w).
Proof using HI Hn.
  intros Hh [other Hsrc]. simpl. rewrite Hsrc. simpl.
  destruct (acquire h other None src) as (m & Hm & Hl & HIm);
    [rewrite Hh; apply vacant_None|done|].
  unfold SharedPtr_alias. rewrite Hm. simpl. rewrite (declare_Some _ _ _ _ _ _ Hh).
  eexists. split_and!; [done|apply HIm|done].
Qed.

Lemma step_PMove h src :
  handles w !! h = None → is_Some (handles w !! src) →
  ∃ w', step (PMove h src) w = Some w' ∧ Inv (S n) w' ∧ dtor_log (mem w') = dtor_log (mem w).
Proof using HI Hn.
  intros Hh [other Hsrc]. simpl. rewrite Hsrc, Hh. simpl.
  eexists. split_and!; [done| |done].
  eapply Inv_same_refs; [done| |].
  - intros b. by eapply (refs_transfer _ b _ h src other).
  - pose proof (inv_size _ _ HI). etrans; [by eapply size_transfer|lia].
Qed.

Lemma step_PSwap h other :
  is_Some (handles w !! h) → is_Some (handles w !! other) →
  ∃ w', step (PSwap h other) w = Some w' ∧ Inv (S n) w' ∧
        dtor_log (mem w') = dtor_log (mem w).
Proof using HI Hn.
  intros [this Hh] [that Ho]. simpl. rewrite Hh, Ho. simpl.
  eexists. split_and!; [done| |done].
  eapply Inv_same_refs; [done| |].
  - intros b. by eapply (refs_exchange _ b _ h other this that).
  - pose proof (inv_size _ _ HI). erewrite size_exchange by eauto. lia.
Qed.

Lemma step_PReset h :
  is_Some (handles w !! h) →
  ∃ w', step (PReset h) w = Some w' ∧ Inv (S n) w' ∧
        dtor_log (mem w) `suffix_of` dtor_log (mem w').
Proof using HI Hn.
  intros [this Hh]. simpl. rewrite Hh. simpl.
  destruct (Inv_release n w h this HI) as (m & Hm & HIm & Hl & _); [lia|done|].
  unfold SharedPtr_Reset. rewrite Hm. simpl.
  eexists. split_and!; [done| |done]. eapply plain_Inv_mono; [exact HIm|lia].
Qed.

Lemma step_PDestruct h :
  is_Some (handles w !! h) →
  ∃ w', step (PDestruct h) w = Some w' ∧ Inv (S n) w' ∧
        dtor_log (mem w) `suffix_of` dtor_log (mem w').
Proof using HI Hn.
  intros [this Hh]. simpl. rewrite Hh. simpl.
  destruct (Inv_release n w h this HI) as (m & Hm & HIm & Hl & _); [lia|done|].
  unfold SharedPtr_Reset. rewrite Hm. simpl.
  eexists. split_and!; [done| |done].
  apply (Inv_delete_vacant _ _ h) in HIm; simpl in HIm.
  - rewrite delete_insert_eq in HIm. eapply plain_Inv_mono; [exact HIm|lia].
  - simpl. rewrite lookup_insert_eq. by apply vacant_Some.
Qed.

Lemma step_PAssign h src :
  is_Some (handles w !! h) → is_Some (handles w !! src) →
  ∃ w', step (PAssign h src) w = Some w' ∧ Inv (S n) w' ∧
        dtor_log (mem w) `suffix_of` dtor_log (mem w').
Proof using HI Hn.
  intros [this Hh] [other Hsrc]. simpl. rewrite Hh. simpl. case_decide.
  { eexists. split_and!; [done| |done]. eapply plain_Inv_mono; [done|lia]. }
  rewrite Hsrc. simpl.
  destruct (Inv_release n w h this HI) as (m & Hm & HIm & Hl & _); [lia|done|].
  unfold SharedPtr_assign. rewrite Hm. simpl.
  set (w1 := mkWorld m (<[h:=SharedPtr.mk None None]> (handles w)) (next_block w)
                     (next_addr w)) in *.
  assert (handles w1 !! src = Some other) as Hsrc1.
  { simpl. by rewrite lookup_insert_ne. }
  assert (vacant (handles w1 !! h)) as Hv.
  { simpl. rewrite lookup_insert_eq. by apply vacant_Some. }
  unfold SharedPtr_IncreaseCounter. simpl.
  destruct (SharedPtr.control_block_ other) as [b|] eqn:Hb.
  - destruct (handle_block _ _ _ _ _ HIm Hsrc1 Hb) as (blk & Hblk & _).
    simpl in Hblk. rewrite Hblk. simpl.
    eexists. split_and!; [done| |done]. unfold update. simpl.
    pose proof (Inv_acquire n w1 h b (SharedPtr.ptr_ other) blk HIm ltac:(lia) Hblk Hv) as HIa.
    simpl in HIa. by rewrite insert_insert_eq in HIa.
  - eexists. split_and!; [done| |done]. unfold update. simpl.
    pose proof (Inv_set_vacant n w1 h (SharedPtr.mk None (SharedPtr.ptr_ other)) HIm Hv
                  eq_refl) as HIa.
    simpl in HIa. by rewrite insert_insert_eq in HIa.
Qed.

Lemma step_PMoveAssign h src :
  is_Some (handles w !! h) → is_Some (handles w !! src) →
  ∃ w', step (PMoveAssign h src) w = Some w' ∧ Inv (S n) w' ∧
        dtor_log (mem w) `suffix_of` dtor_log (mem w').
Proof using HI Hn.
  intros [this Hh] [other Hsrc]. simpl. rewrite Hh. simpl. case_decide.
  { eexists. split_and!; [done| |done]. eapply plain_Inv_mono; [done|lia]. }
  rewrite Hsrc. simpl.
  destruct (Inv_release n w h this HI) as (m & Hm & HIm & Hl & _); [lia|done|].
  unfold SharedPtr_move_assign, SharedPtr_Reset. rewrite Hm. simpl.
  eexists. split_and!; [done| |done].
  set (w1 := mkWorld m (<[h:=SharedPtr.mk None None]> (handles w)) (next_block w)
                     (next_addr w)) in *.
  replace (<[h:=other]> (<[src:=SharedPtr.mk None None]> (handles w)))
    with (<[h:=other]> (<[src:=SharedPtr.mk None None]> (handles w1))).
  2:{ simpl. rewrite (insert_insert_ne _ src h) by done. by rewrite insert_insert_eq. }
  eapply (Inv_same_refs _ _ w1); [done| |].
  - intros b.
    eapply (refs_exchange _ b _ h src (SharedPtr.mk None None) other); simpl; [| |done|done].
    + by rewrite lookup_insert_eq.
    + by rewrite lookup_insert_ne.
  - pose proof (inv_size _ _ HIm).
    erewrite (size_exchange _ h src (SharedPtr.mk None None) other); [lia| |]; simpl.
    + by rewrite lookup_insert_eq.
    + by rewrite lookup_insert_ne.
Qed.

Lemma step_PResetNew h :
  is_Some (handles w !! h) →
  ∃ w', step (PResetNew h) w = Some w' ∧ Inv (S n) w' ∧
        dtor_log (mem w) `suffix_of` dtor_log (mem w').
Proof using HI Hn.
  intros [this Hh]. simpl. rewrite Hh. simpl.
  destruct (Inv_release n w h this HI) as (m & Hm & HIm & Hl & _); [lia|done|].
  destruct (next_addr_fresh _ _ HI) as [Hno _].
  unfold SharedPtr_Reset_raw.
  rewrite (DecreaseCounter_new_object _ _ _ _ Hno Hm). simpl.
  eexists. split_and!; [done| |done]. unfold update. simpl.
  set (w1 := mkWorld m (<[h:=SharedPtr.mk None None]> (handles w)) (next_block w)
                     (next_addr w)) in *.
  pose proof (plain_Inv_new_object n w1 h (DefaultBlock (Some (next_addr w))) HIm) as HIa.
  simpl in HIa. rewrite insert_insert_eq in HIa. apply HIa; [|done].
  simpl. rewrite lookup_insert_eq. by apply vacant_Some.
Qed.

End statements.

Lemma declare_is_Some h sp m nb na w w' :
  declare h sp m nb na w = Some w' → handles w !! h = None.
Proof. unfold declare. by destruct (handles w !! h). Qed.

(** What a statement that is defined says about its names. *)
Lemma step_enabled op w : is_Some (step op w) → enabled op w = true.
Proof.
  intros [w' Hs]. destruct op; simpl in Hs; unfold enabled;
    repeat match goal with
    | H : declare _ _ _ _ _ _ = Some _ |- _ => apply declare_is_Some in H
    | H : mbind _ ?o = Some _ |- _ =>
        let E := fresh "E" in destruct o eqn:E; simpl in H; [|discriminate]
    | H : match ?o with Some _ => None | None => _ end = Some _ |- _ =>
        let E := fresh "E" in destruct o eqn:E; [discriminate|]
    | H : context [decide (?a = ?b)] |- _ => destruct (decide (a = b)); [subst|]
    end;
    rewrite ?andb_true_iff, ?declared_true, ?declared_false; eauto.
Qed.

Lemma step_spec n w op :
  Inv n w → (S n ≤ capacity)%nat → enabled op w = true →
  ∃ w', step op w = Some w' ∧ Inv (S n) w' ∧
        dtor_log (mem w) `suffix_of` dtor_log (mem w').
Proof.
  intros HI Hn. destruct op; unfold enabled;
    rewrite ?andb_true_iff, ?declared_true, ?declared_false; intros Hen.
  - destruct (step_PDefault n w HI Hn h Hen) as (w' & ? & ? & Hl).
    exists w'. rewrite Hl. done.
  - destruct (step_PAdopt n w HI Hn h Hen) as (w' & ? & ? & Hl).
    exists w'. rewrite Hl. done.
  - destruct (step_PAdoptNull n w HI Hn h Hen) as (w' & ? & ? & Hl).
    exists w'. rewrite Hl. done.
  - destruct (step_PMake n w HI Hn h Hen) as (w' & ? & ? & Hl).
    exists w'. rewrite Hl. done.
  - destruct Hen as [H1 H2]. destruct (step_PCopy n w HI Hn h src H1 H2) as (w' & ? & ? & Hl).
    exists w'. rewrite Hl. done.
  - destruct Hen as [H1 H2]. destruct (step_PMove n w HI Hn h src H1 H2) as (w' & ? & ? & Hl).
    exists w'. rewrite Hl. done.
  - destruct Hen as [H1 H2].
    destruct (step_PAlias n w HI Hn h src p H1 H2) as (w' & ? & ? & Hl).
    exists w'. rewrite Hl. done.
  - destruct Hen as [H1 H2]. by apply step_PAssign.
  - destruct Hen as [H1 H2]. by apply step_PMoveAssign.
  - by apply step_PReset.
  - by apply step_PResetNew.
  - destruct Hen as [H1 H2]. destruct (step_PSwap n w HI Hn h other H1 H2) as (w' & ? & ? & Hl).
    exists w'. rewrite Hl. done.
  - by apply step_PDestruct.
Qed.

Lemma run_Inv ops : ∀ n w w',
  Inv n w → (n + length ops ≤ capacity)%nat → run ops w = Some w' →
  Inv (n + length ops) w' ∧ dtor_log (mem w) `suffix_of` dtor_log (mem w').
Proof.
  induction ops as [|op ops IH]; intros n w w' HI Hn Hrun; simpl in *.
  - injection Hrun as <-. split; [|done]. by rewrite Nat.add_0_r.
  - destruct (step op w) as [w1|] eqn:Hstep; [|done].
    destruct (step_spec n w op HI ltac:(lia) (step_enabled _ _ ltac:(eauto)))
      as (w1' & Hs & HI1 & Hl1).
    rewrite Hstep in Hs. injection Hs as <-.
    destruct (IH (S n) w1 w' HI1 ltac:(lia) Hrun) as [HI' Hl'].
    split; [|by etrans]. by replace (n + S (length ops))%nat with (S n + length ops)%nat by lia.
Qed.

Lemma plain_feasible_Inv ops w :
  feasible ops → run ops init = Some w → Inv (length ops) w.
Proof.
  intros Hf Hrun. destruct (run_Inv ops 0 init w plain_Inv_init Hf Hrun) as [HI _]. exact HI.
Qed.

(** In the plain variant every statement whose names are in order is
    defined, in any feasible client: whatever the order of constructions,
    copies, moves, aliasing, assignments, resets, swaps and destructions,
    no freed control block is read and nothing is deleted twice. *)
Theorem plain_statement_defined_iff_enabled ops w op :
  feasible (ops ++ [op]) → run ops init = Some w →
  is_Some (step op w) ↔ enabled op w = true.
Proof.
  intros Hf Hrun. split; [apply step_enabled|]. intros Hen.
  unfold feasible in Hf. rewrite length_app in Hf. simpl in Hf.
  assert (feasible ops) as Hf0 by (unfold feasible; lia).
  destruct (step_spec _ w op (plain_feasible_Inv _ _ Hf0 Hrun) ltac:(lia) Hen) as (w' & Hs & _).
  eauto.
Qed.

Lemma plain_statement_defined_iff_enabled_witness :
  ∃ w, run [PAdopt 1; PCopy 2 1; PDestruct 1; PMake 3]%positive init = Some w ∧
       is_Some (step (PAssign 2 3) w) ∧ is_Some (step (PAlias 4 2 None) w) ∧
       step (PCopy 2 3) w = None.
Proof.
  assert (∃ w, run [PAdopt 1; PCopy 2 1; PDestruct 1; PMake 3]%positive init = Some w)
    as [w E] by (vm_compute; eauto).
  exists w. split; [exact E|]. split; [|split].
  - apply (plain_statement_defined_iff_enabled
             [PAdopt 1; PCopy 2 1; PDestruct 1; PMake 3]%positive w (PAssign 2 3)).
    + unfold feasible, capacity. cbn [length app]. lia.
    + exact E.
    + vm_compute in E. injection E as <-. vm_compute. reflexivity.
  - apply (plain_statement_defined_iff_enabled
             [PAdopt 1; PCopy 2 1; PDestruct 1; PMake 3]%positive w (PAlias 4 2 None)).
    + unfold feasible, capacity. cbn [length app]. lia.
    + exact E.
    + vm_compute in E. injection E as <-. vm_compute. reflexivity.
  - vm_compute in E. injection E as <-. vm_compute. reflexivity.
Defined.

(** [UseCount()] of the plain variant, on a variable of a feasible client,
    is the number of live variables that refer to the same control block,
    and 0 without a block. *)
Theorem plain_use_count_is_live_handle_count ops w h sp :
  feasible ops → run ops init = Some w → handles w !! h = Some sp →
  SharedPtr_UseCount sp (mem w)
  = Some (Z.of_nat (match SharedPtr.control_block_ sp with
                    | Some b => live_handles b w
                    | None => 0%nat
                    end)).
Proof.
  intros Hf Hrun Hh. pose proof (plain_feasible_Inv _ _ Hf Hrun) as HI.
  unfold SharedPtr_UseCount, SharedPtr_GetCounter.
  destruct (SharedPtr.control_block_ sp) as [b|] eqn:Hb; [|done].
  destruct (handle_block _ _ _ _ _ HI Hh Hb) as (blk & Hblk & Hc & _).
  rewrite Hblk. simpl. unfold GetCounter. by rewrite Hc.
Qed.

Lemma plain_use_count_is_live_handle_count_witness :
  ∃ w sp, run [PAdopt 1; PCopy 2 1; PAlias 3 2 None; PDestruct 1; PDefault 4]%positive init
          = Some w ∧
          handles w !! 3%positive = Some sp ∧
          SharedPtr_bool sp = false ∧
          SharedPtr_UseCount sp (mem w) = Some 2.
Proof.
  assert (∃ w, run [PAdopt 1; PCopy 2 1; PAlias 3 2 None; PDestruct 1; PDefault 4]%positive
                 init = Some w) as [w E] by (vm_compute; eauto).
  pose (sp := SharedPtr.mk (Some 1%positive) None).
  assert (handles w !! 3%positive = Some sp) as Eh.
  { vm_compute in E. injection E as <-. reflexivity. }
  exists w, sp. split; [exact E|]. split; [exact Eh|]. split; [reflexivity|].
  rewrite (plain_use_count_is_live_handle_count
             [PAdopt 1; PCopy 2 1; PAlias 3 2 None; PDestruct 1; PDefault 4]%positive
             w 3%positive sp).
  - vm_compute in E. injection E as <-. vm_compute. reflexivity.
  - unfold feasible, capacity. cbn [length]. lia.
  - exact E.
  - exact Eh.
Defined.

(** While a variable of a feasible client refers to a control block, the
    block is allocated and the object it manages is alive: its destructor
    has not run. *)
Theorem plain_handle_keeps_object_alive ops w h sp b :
  feasible ops → run ops init = Some w →
  handles w !! h = Some sp → SharedPtr.control_block_ sp = Some b →
  ∃ blk, heap (mem w) !! b = Some blk ∧ 1 ≤ counter blk ∧
         ∀ p, GetRawPtr blk = Some p → p ∈ objects (mem w) ∧ (p ∉ dtor_log (mem w)).
Proof.
  intros Hf Hrun Hh Hb. pose proof (plain_feasible_Inv _ _ Hf Hrun) as HI.
  destruct (handle_block _ _ _ _ _ HI Hh Hb) as (blk & Hblk & Hc & Hpos).
  exists blk. split_and!; [done|lia|]. intros p Hp.
  pose proof (inv_managed _ _ HI b blk p Hblk Hp) as Hin. split; [done|].
  intros Hl. by apply (inv_log _ _ HI p Hl).
Qed.

Lemma plain_handle_keeps_object_alive_witness :
  ∃ w blk,
    run [PMake 1; PCopy 2 1; PDestruct 1; PAdopt 3; PDestruct 3]%positive init = Some w ∧
    heap (mem w) !! 1%positive = Some blk ∧
    GetRawPtr blk = Some 1%positive ∧
    1%positive ∈ objects (mem w) ∧ dtor_log (mem w) = [2%positive].
Proof.
  assert (∃ w, run [PMake 1; PCopy 2 1; PDestruct 1; PAdopt 3; PDestruct 3]%positive init
               = Some w) as [w E] by (vm_compute; eauto).
  destruct (plain_handle_keeps_object_alive
              [PMake 1; PCopy 2 1; PDestruct 1; PAdopt 3; PDestruct 3]%positive w
              2%positive (SharedPtr.mk (Some 1%positive) (Some 1%positive)) 1%positive)
    as (blk & Hblk & _ & Hp).
  - unfold feasible, capacity. cbn [length]. lia.
  - exact E.
  - vm_compute in E. injection E as <-. reflexivity.
  - reflexivity.
  - assert (GetRawPtr blk = Some 1%positive) as Hraw.
    { vm_compute in E. injection E as <-. vm_compute in Hblk. by injection Hblk as <-. }
    exists w, blk. split; [exact E|]. split; [exact Hblk|]. split; [exact Hraw|].
    split; [apply (Hp _ Hraw)|]. vm_compute in E. injection E as <-. reflexivity.
Defined.

(** Nothing leaks and nothing is destroyed twice in the plain variant.  In
    a feasible client every allocated control block is referred to by a
    live variable, every live object is managed by an allocated block, and
    every object constructed so far is either alive with no destructor run
    or gone with exactly one.  So when all variables are gone, no block and
    no object is left and every object was destroyed exactly once. *)
Theorem plain_no_leak ops w :
  feasible ops → run ops init = Some w →
  (∀ b, is_Some (heap (mem w) !! b) → (1 ≤ live_handles b w)%nat) ∧
  (∀ p, p ∈ objects (mem w) →
        ∃ b blk, heap (mem w) !! b = Some blk ∧ GetRawPtr blk = Some p) ∧
  (∀ a, (a < next_addr w)%positive →
        count_occ Pos.eq_dec (dtor_log (mem w)) a = (if decide (a ∈ objects (mem w))
                                                     then 0 else 1)%nat) ∧
  (handles w = ∅ →
   heap (mem w) = ∅ ∧ objects (mem w) = ∅ ∧
   ∀ a, (a < next_addr w)%positive → count_occ Pos.eq_dec (dtor_log (mem w)) a = 1%nat).
Proof.
  intros Hf Hrun. pose proof (plain_feasible_Inv _ _ Hf Hrun) as HI.
  assert (∀ a, (a < next_addr w)%positive →
            count_occ Pos.eq_dec (dtor_log (mem w)) a
            = (if decide (a ∈ objects (mem w)) then 0 else 1)%nat) as Hocc.
  { intros a Ha. apply (inv_all _ _ HI) in Ha. case_decide as Hin.
    - apply List.count_occ_not_In. intros Hl%list_elem_of_In.
      by apply (inv_log _ _ HI a Hl).
    - destruct Ha as [?|Hl]; [done|].
      apply count_occ_NoDup; [apply (inv_log_nodup _ _ HI)|done]. }
  assert (∀ b, is_Some (heap (mem w) !! b) → (1 ≤ live_handles b w)%nat) as Hblocks.
  { intros b [blk Hb]. pose proof (inv_counts _ _ HI b) as Hc. rewrite Hb in Hc. tauto. }
  split_and!; [done|apply HI|done|].
  intros Hempty.
  assert (heap (mem w) = ∅) as Hheap.
  { apply map_empty. intros b. apply eq_None_not_Some. intros Hb%Hblocks.
    unfold live_handles in Hb. rewrite Hempty, refs_empty in Hb. lia. }
  assert (objects (mem w) = ∅) as Hobj.
  { apply elem_of_equiv_empty_L. intros p Hp.
    destruct (inv_owned _ _ HI p Hp) as (b & blk & Hb & _). by rewrite Hheap in Hb. }
  split_and!; [done|done|]. intros a Ha. rewrite (Hocc a Ha), Hobj.
  by rewrite decide_False by set_solver.
Qed.

Lemma plain_no_leak_witness :
  ∃ w, run [PAdopt 1; PMake 2; PCopy 3 1; PAssign 1 2; PResetNew 2; PDestruct 3;
            PDestruct 2; PDestruct 1]%positive init = Some w ∧
       heap (mem w) = ∅ ∧ objects (mem w) = ∅ ∧ next_addr w = 4%positive ∧
       ∀ a, (a < 4)%positive → count_occ Pos.eq_dec (dtor_log (mem w)) a = 1%nat.
Proof.
  assert (∃ w, run [PAdopt 1; PMake 2; PCopy 3 1; PAssign 1 2; PResetNew 2; PDestruct 3;
                    PDestruct 2; PDestruct 1]%positive init = Some w) as [w E]
    by (vm_compute; eauto).
  destruct (plain_no_leak [PAdopt 1; PMake 2; PCopy 3 1; PAssign 1 2; PResetNew 2;
                           PDestruct 3; PDestruct 2; PDestruct 1]%positive w)
    as (_ & _ & _ & Hgone).
  - unfold feasible, capacity. cbn [length]. lia.
  - exact E.
  - assert (next_addr w = 4%positive) as Hna
      by (vm_compute in E; injection E as <-; reflexivity).
    destruct Hgone as (Hheap & Hobj & Hocc).
    { vm_compute in E. injection E as <-. reflexivity. }
    exists w. split; [exact E|]. split; [exact Hheap|]. split; [exact Hobj|].
    split; [exact Hna|]. intros a Ha. apply Hocc. by rewrite Hna.
Defined.

End PlainFacts.

(** * Nothing is left behind *)

Lemma ptr_ok_None h p : ptr_ok h None p.
Proof. by intros b blk. Qed.

(** A heap whose blocks were there before, with their kinds. *)
Lemma ptr_ok_frame (h h' : gmap block_id ControlBlockBase) cb p :
  (∀ b blk', h' !! b = Some blk' → ∃ blk, h !! b = Some blk ∧ kind blk' = kind blk) →
  ptr_ok h cb p → ptr_ok h' cb p.
Proof.
  intros Hfr Hok b blk' Hcb Hb. destruct (Hfr b blk' Hb) as (blk & Hblk & Hk).
  rewrite (Hok b blk Hcb Hblk). unfold GetRawPtr. by rewrite Hk.
Qed.

Lemma kinds_insert (h : gmap block_id ControlBlockBase) b blk blk' :
  h !! b = Some blk → kind blk' = kind blk →
  ∀ b0 blk0, <[b := blk']> h !! b0 = Some blk0 →
    ∃ blk1, h !! b0 = Some blk1 ∧ kind blk0 = kind blk1.
Proof.
  intros Hb Hk b0 blk0. destruct (decide (b0 = b)) as [->|Hne].
  - rewrite lookup_insert_eq. intros [= <-]. eauto.
  - rewrite lookup_insert_ne by done. eauto.
Qed.

Lemma kinds_delete (h : gmap block_id ControlBlockBase) b :
  ∀ b0 blk0, delete b h !! b0 = Some blk0 →
    ∃ blk1, h !! b0 = Some blk1 ∧ kind blk0 = kind blk1.
Proof. intros b0 blk0 [_ H]%lookup_delete_Some. eauto. Qed.

(** The counters of one block change; its kind and its flag stay. *)
Lemma CohMem_update m b blk blk' :
  CohMem m → heap m !! b = Some blk →
  kind blk' = kind blk → is_destroyed blk' = is_destroyed blk →
  strong_ref_cnt blk' + weak_ref_cnt blk' ≠ 0 →
  CohMem (set_heap (<[b := blk']> (heap m)) m).
Proof.
  intros [] Hb Hk Hd Hz.
  assert (∀ b0 blk0, heap m !! b0 = Some blk0 →
            ∃ blk1, <[b := blk']> (heap m) !! b0 = Some blk1 ∧
                    GetRawPtr blk1 = GetRawPtr blk0 ∧ is_destroyed blk1 = is_destroyed blk0)
    as Hfw.
  { intros b0 blk0 Hb0. destruct (decide (b0 = b)) as [->|Hne].
    - rewrite lookup_insert_eq. exists blk'. rewrite Hb in Hb0. injection Hb0 as <-.
      unfold GetRawPtr. by rewrite Hk.
    - rewrite lookup_insert_ne by done. eauto. }
  assert (∀ b0 blk0, <[b := blk']> (heap m) !! b0 = Some blk0 →
            ∃ blk1, heap m !! b0 = Some blk1 ∧
                    GetRawPtr blk1 = GetRawPtr blk0 ∧ is_destroyed blk1 = is_destroyed blk0 ∧
                    (b0 ≠ b → blk1 = blk0)) as Hbw.
  { intros b0 blk0. destruct (decide (b0 = b)) as [->|Hne].
    - rewrite lookup_insert_eq. intros [= <-]. exists blk. unfold GetRawPtr. by rewrite Hk.
    - rewrite lookup_insert_ne by done. eauto. }
  constructor; simpl.
  - intros b0 blk0 Hb0. destruct (decide (b0 = b)) as [->|Hne].
    + rewrite lookup_insert_eq in Hb0. by injection Hb0 as <-.
    + rewrite lookup_insert_ne in Hb0 by done. eauto.
  - intros a o wt Ho Hwt. destruct (cm_member0 a o wt Ho Hwt) as (b0 & blk0 & ? & ? & Hb0 & ?).
    destruct (Hfw _ _ Hb0) as (blk1 & ? & Hr & _). exists b0, blk1. split_and!; congruence.
  - intros b0 blk0 p Hb0 Hd0 Hp. destruct (Hbw _ _ Hb0) as (blk1 & ? & Hr & Hd1 & _).
    eapply cm_dead0; eauto; congruence.
  - intros a Ha. destruct (cm_owned0 a Ha) as (b0 & blk0 & Hb0 & ? & ?).
    destruct (Hfw _ _ Hb0) as (blk1 & ? & Hr & Hd1). exists b0, blk1. split_and!; congruence.
  - done.
  - intros b0 blk0 p Hb0 Hp. destruct (Hbw _ _ Hb0) as (blk1 & ? & Hr & _).
    eapply cm_raw0; eauto; congruence.
Qed.

(** A block whose object was destroyed is freed. *)
Lemma CohMem_delete m b blk :
  CohMem m → heap m !! b = Some blk → is_destroyed blk = true →
  CohMem (set_heap (delete b (heap m)) m).
Proof.
  intros [] Hb Hd. constructor; simpl.
  - intros b0 blk0 [_ Hb0]%lookup_delete_Some. eauto.
  - intros a o wt Ho Hwt. destruct (cm_member0 a o wt Ho Hwt) as (b0 & blk0 & ? & ? & Hb0 & Hr).
    exists b0, blk0. split_and!; [done|done| |done]. apply lookup_delete_Some. split; [|done].
    intros <-. rewrite Hb in Hb0. injection Hb0 as <-.
    by rewrite (cm_dead0 b blk a Hb Hd Hr) in Ho.
  - intros b0 blk0 p [_ Hb0]%lookup_delete_Some. eauto.
  - intros a Ha. destruct (cm_owned0 a Ha) as (b0 & blk0 & Hb0 & Hd0 & ?).
    exists b0, blk0. split_and!; [|done|done]. apply lookup_delete_Some. split; [|done].
    intros <-. congruence.
  - done.
  - intros b0 blk0 p [_ Hb0]%lookup_delete_Some. eauto.
Qed.

(** The last owner of [b] lets go: the object goes, and the block goes or
    stays as a destroyed block with a counter that is not zero. *)
Lemma CohMem_last_release m b blk h' :
  CohMem m → heap m !! b = Some blk → is_destroyed blk = false →
  (∀ b0, b0 ≠ b → h' !! b0 = heap m !! b0) →
  (∀ blk', h' !! b = Some blk' →
     kind blk' = kind blk ∧ is_destroyed blk' = true ∧
     strong_ref_cnt blk' + weak_ref_cnt blk' ≠ 0) →
  CohMem (mkMemory h'
            (match GetRawPtr blk with Some p => delete p (objects m) | None => objects m end)
            (option_list (GetRawPtr blk) ++ dtor_log m) (next_block m) (next_addr m)).
Proof.
  intros [] Hb Hd Hoff Hat.
  assert (∀ a, is_Some ((match GetRawPtr blk with
                         | Some p => delete p (objects m) | None => objects m end) !! a) →
               is_Some (objects m !! a) ∧ GetRawPtr blk ≠ Some a) as Hobj.
  { intros a. destruct (GetRawPtr blk) as [p|]; [|done].
    intros [o [Hne Ho]%lookup_delete_Some]. split; [eauto|congruence]. }
  constructor; simpl.
  - intros b0 blk0 Hb0. destruct (decide (b0 = b)) as [->|Hne].
    + by apply Hat.
    + rewrite Hoff in Hb0 by done. eauto.
  - intros a o wt Ho Hwt. destruct (Hobj a ltac:(eauto)) as [_ Hne].
    assert (objects m !! a = Some o) as Ho'.
    { destruct (GetRawPtr blk); [by apply lookup_delete_Some in Ho as [_ ?]|done]. }
    destruct (cm_member0 a o wt Ho' Hwt) as (b0 & blk0 & ? & ? & Hb0 & Hr).
    exists b0, blk0. split_and!; [done|done| |done]. rewrite Hoff; [done|].
    intros ->. congruence.
  - intros b0 blk0 p Hb0 Hd0 Hp. destruct (decide (b0 = b)) as [->|Hne].
    + destruct (Hat _ Hb0) as (Hk & _). unfold GetRawPtr in Hp. rewrite Hk in Hp.
      fold (GetRawPtr blk) in Hp. rewrite Hp. apply lookup_delete_eq.
    + rewrite Hoff in Hb0 by done. pose proof (cm_dead0 _ _ _ Hb0 Hd0 Hp) as Hnone.
      destruct (GetRawPtr blk); [|done]. apply lookup_delete_None. auto.
  - intros a Ha. destruct (Hobj a Ha) as [Ha' Hne].
    destruct (cm_owned0 a Ha') as (b0 & blk0 & Hb0 & Hd0 & Hr).
    exists b0, blk0. split_and!; [|done|done]. rewrite Hoff; [done|]. intros ->. congruence.
  - intros a Ha. destruct (GetRawPtr blk) as [p|] eqn:Hp; simpl; [|by apply cm_all0].
    destruct (decide (a = p)) as [->|Hne]; [right; by left|].
    destruct (cm_all0 a Ha) as [[o Ho]|Hl].
    + left. exists o. by apply lookup_delete_Some.
    + right. by right.
  - intros b0 blk0 p Hb0 Hp. destruct (decide (b0 = b)) as [->|Hne].
    + destruct (Hat _ Hb0) as (Hk & _). unfold GetRawPtr in Hp. rewrite Hk in Hp.
      by apply (cm_raw0 b blk).
    + rewrite Hoff in Hb0 by done. eauto.
Qed.

(** A new object and a new block that manages it. *)
Lemma CohMem_construct m k o d :
  CohMem m → heap m !! next_block m = None →
  GetRawPtr (mkBlock 1 d false k) = Some (next_addr m) →
  (o = mkObject None ∨
   o = mkObject (Some (WeakPtr.mk (Some (next_block m)) (Some (next_addr m)) true))) →
  0 ≤ d →
  CohMem (mkMemory (<[next_block m := mkBlock 1 d false k]> (heap m))
                   (<[next_addr m := o]> (objects m)) (dtor_log m)
                   (Pos.succ (next_block m)) (Pos.succ (next_addr m))).
Proof.
  intros [] Hnb Hk Ho Hd.
  assert (∀ b0 blk0, heap m !! b0 = Some blk0 → b0 ≠ next_block m) as Hne by congruence.
  constructor; simpl.
  - intros b0 blk0. destruct (decide (b0 = next_block m)) as [->|Hn].
    + rewrite lookup_insert_eq. intros [= <-]. simpl. lia.
    + rewrite lookup_insert_ne by done. eauto.
  - intros a o0 wt. destruct (decide (a = next_addr m)) as [->|Hn].
    + rewrite lookup_insert_eq. intros [= <-] Hwt.
      destruct Ho as [->| ->]; [done|]. simpl in Hwt. injection Hwt as <-.
      exists (next_block m), (mkBlock 1 d false k). by rewrite lookup_insert_eq.
    + rewrite lookup_insert_ne by done. intros Ho0 Hwt.
      destruct (cm_member0 a o0 wt Ho0 Hwt) as (b0 & blk0 & ? & ? & Hb0 & ?).
      exists b0, blk0. rewrite lookup_insert_ne by (symmetry; eauto). done.
  - intros b0 blk0 p. destruct (decide (b0 = next_block m)) as [->|Hn].
    + rewrite lookup_insert_eq. by intros [= <-].
    + rewrite lookup_insert_ne by done. intros Hb0 Hd0 Hp.
      pose proof (cm_raw0 _ _ _ Hb0 Hp). rewrite lookup_insert_ne by lia. eauto.
  - intros a. destruct (decide (a = next_addr m)) as [->|Hn].
    + intros _. exists (next_block m), (mkBlock 1 d false k). by rewrite lookup_insert_eq.
    + rewrite lookup_insert_ne by done. intros Ha.
      destruct (cm_owned0 a Ha) as (b0 & blk0 & Hb0 & ? & ?).
      exists b0, blk0. rewrite lookup_insert_ne by (symmetry; eauto). done.
  - intros a Ha. destruct (decide (a = next_addr m)) as [->|Hn].
    + left. rewrite lookup_insert_eq. eauto.
    + rewrite lookup_insert_ne by done. apply cm_all0. lia.
  - intros b0 blk0 p. destruct (decide (b0 = next_block m)) as [->|Hn].
    + rewrite lookup_insert_eq. intros [= <-] Hp. rewrite Hk in Hp. injection Hp as <-. lia.
    + rewrite lookup_insert_ne by done. intros Hb0 Hp. pose proof (cm_raw0 _ _ _ Hb0 Hp). lia.
Qed.

(** A new block that manages nothing. *)
Lemma CohMem_construct_null m :
  CohMem m → heap m !! next_block m = None →
  CohMem (mkMemory (<[next_block m := mkBlock 1 0 false (DefaultBlock None)]> (heap m))
                   (objects m) (dtor_log m) (Pos.succ (next_block m)) (next_addr m)).
Proof.
  intros [] Hnb.
  assert (∀ b0 blk0, heap m !! b0 = Some blk0 → b0 ≠ next_block m) as Hne by congruence.
  constructor; simpl.
  - intros b0 blk0. destruct (decide (b0 = next_block m)) as [->|Hn].
    + rewrite lookup_insert_eq. by intros [= <-].
    + rewrite lookup_insert_ne by done. eauto.
  - intros a o wt Ho Hwt. destruct (cm_member0 a o wt Ho Hwt) as (b0 & blk0 & ? & ? & Hb0 & ?).
    exists b0, blk0. rewrite lookup_insert_ne by (symmetry; eauto). done.
  - intros b0 blk0 p. destruct (decide (b0 = next_block m)) as [->|Hn].
    + rewrite lookup_insert_eq. by intros [= <-].
    + rewrite lookup_insert_ne by done. eauto.
  - intros a Ha. destruct (cm_owned0 a Ha) as (b0 & blk0 & Hb0 & ? & ?).
    exists b0, blk0. rewrite lookup_insert_ne by (symmetry; eauto). done.
  - done.
  - intros b0 blk0 p. destruct (decide (b0 = next_block m)) as [->|Hn].
    + rewrite lookup_insert_eq. by intros [= <-].
    + rewrite lookup_insert_ne by done. eauto.
Qed.

(** The embedded handle of the object at [a] is wired again, to the block
    that manages it. *)
Lemma CohMem_rewire m a o b blk fl :
  CohMem m → objects m !! a = Some o → heap m !! b = Some blk → GetRawPtr blk = Some a →
  CohMem (mkMemory (heap m)
            (<[a := mkObject (Some (WeakPtr.mk (Some b) (Some a) fl))]> (objects m))
            (dtor_log m) (next_block m) (next_addr m)).
Proof.
  intros [] Ho Hb Hr. constructor; simpl; try done.
  - intros a0 o0 wt. destruct (decide (a0 = a)) as [->|Hn].
    + rewrite lookup_insert_eq. intros [= <-] [= <-]. exists b, blk. done.
    + rewrite lookup_insert_ne by done. eauto.
  - intros b0 blk0 p Hb0 Hd Hp. pose proof (cm_dead0 _ _ _ Hb0 Hd Hp).
    rewrite lookup_insert_ne; [done|]. intros <-. congruence.
  - intros a0 Ha0. apply cm_owned0. destruct (decide (a0 = a)) as [->|Hn]; [eauto|].
    by rewrite lookup_insert_ne in Ha0.
  - intros a0 Ha0. destruct (cm_all0 a0 Ha0) as [Hal|]; [left|by right].
    destruct (decide (a0 = a)) as [->|Hn]; [rewrite lookup_insert_eq; eauto|].
    by rewrite lookup_insert_ne.
Qed.

(** * What the constructors and destructors leave in memory *)

Lemma wrap_object k m :
  (do a <- new_object false;
   do b <- new_block k;
   SharedPtr_from_block false (Some b) (Some a)) m
  = Ret (SharedPtr.mk (Some (next_block m)) (Some (next_addr m)))
        (mkMemory (<[next_block m := mkBlock 1 0 false k]> (heap m))
                  (<[next_addr m := mkObject None]> (objects m))
                  (dtor_log m) (Pos.succ (next_block m)) (Pos.succ (next_addr m))).
Proof.
  unfold SharedPtr_from_block, SharedPtr_IncreaseStrongCounter, new_object, new_block.
  msimpl. rewrite !insert_insert_eq. reflexivity.
Qed.

Lemma from_raw_null m :
  SharedPtr_from_raw false None m
  = Ret (SharedPtr.mk (Some (next_block m)) None)
        (mkMemory (<[next_block m := mkBlock 1 0 false (DefaultBlock None)]> (heap m))
                  (objects m) (dtor_log m) (Pos.succ (next_block m)) (next_addr m)).
Proof.
  unfold SharedPtr_from_raw, SharedPtr_IncreaseStrongCounter, new_block.
  msimpl. rewrite !insert_insert_eq. reflexivity.
Qed.

(** [InitWeakThis] on an object whose embedded handle is wired to the
    block of the handle: the counters end where they were. *)
Lemma InitWeakThis_wired m b p a o wt blk :
  heap m !! b = Some blk → objects m !! a = Some o → weak_this_ o = Some wt →
  WeakPtr.control_block_ wt = Some b → WeakPtr.is_esft_ptr_ wt = true →
  0 ≤ weak_ref_cnt blk → weak_ref_cnt blk + 1 < size_t_modulus →
  SharedPtr_InitWeakThis (SharedPtr.mk (Some b) p) (Some a) m
  = Ret tt (mkMemory (heap m)
              (<[a := mkObject (Some (WeakPtr.mk (Some b) p true))]> (objects m))
              (dtor_log m) (next_block m) (next_addr m)).
Proof.
  intros Hb Ho Hwt Hcb Hfl H0 H1. destruct wt as [cb q fl]. simpl in Hcb, Hfl. subst cb fl.
  pose proof (Dec_Inc_weak blk H0 H1) as E. simpl in E.
  unfold SharedPtr_InitWeakThis, WeakPtr_from_shared, WeakPtr_move_assign, WeakPtr_Reset,
    WeakPtr_DecreaseWeakCounter, WeakPtr_IncreaseWeakCounter, WeakPtr_Swap, WeakPtr_MakeEsftPtr.
  msimpl. rewrite Hwt. msimpl. rewrite !E. rewrite !insert_insert_eq.
  rewrite (insert_id (heap m)) by done.
  reflexivity.
Qed.

(** The destructor of an object that is not self-aware. *)
Lemma destroy_object_plain a o m :
  objects m !! a = Some o → weak_this_ o = None →
  destroy_object a m
  = Ret tt (mkMemory (heap m) (delete a (objects m)) (a :: dtor_log m)
                     (next_block m) (next_addr m)).
Proof.
  intros Ho Hwt. unfold destroy_object. msimpl. rewrite Hwt. msimpl. reflexivity.
Qed.

(** The destructor of a self-aware object: the embedded handle gives its
    unit of the weak count back and frees nothing. *)
Lemma destroy_object_self_aware a o wt b blk m :
  objects m !! a = Some o → weak_this_ o = Some wt →
  WeakPtr.control_block_ wt = Some b → WeakPtr.is_esft_ptr_ wt = true →
  heap m !! b = Some blk →
  destroy_object a m
  = Ret tt (mkMemory (<[b := (DecWeakRef blk).2]> (heap m)) (delete a (objects m))
                     (a :: dtor_log m) (next_block m) (next_addr m)).
Proof.
  intros Ho Hwt Hcb Hfl Hb. destruct wt as [cb q fl]. simpl in Hcb, Hfl. subst cb fl.
  unfold destroy_object, WeakPtr_Reset, WeakPtr_DecreaseWeakCounter.
  msimpl. rewrite Hwt. msimpl. rewrite delete_insert_eq. reflexivity.
Qed.

(** The last strong handle on [b] lets go.  [d] is the unit of the weak
    count that the embedded handle of a self-aware object gives back. *)
Lemma release_last m b q blk d :
  heap m !! b = Some blk → strong_ref_cnt blk = 1 → is_destroyed blk = false →
  0 ≤ d → 0 ≤ weak_ref_cnt blk - d → weak_ref_cnt blk < size_t_modulus →
  match GetRawPtr blk with
  | None => d = 0
  | Some p =>
      ∃ o, objects m !! p = Some o ∧
           match weak_this_ o with
           | None => d = 0
           | Some wt =>
               WeakPtr.control_block_ wt = Some b ∧ WeakPtr.is_esft_ptr_ wt = true ∧ d = 1
           end
  end →
  SharedPtr_DecreaseStrongCounter (SharedPtr.mk (Some b) q) m
  = Ret tt (mkMemory
              (if weak_ref_cnt blk - d =? 0 then delete b (heap m)
               else <[b := mkBlock 0 (weak_ref_cnt blk - d) true (kind blk)]> (heap m))
              (match GetRawPtr blk with Some p => delete p (objects m) | None => objects m end)
              (option_list (GetRawPtr blk) ++ dtor_log m) (next_block m) (next_addr m)).
Proof.
  intros Hb Hone Hd Hd0 Hw0 Hw1 Hobj.
  set (marked := mkBlock 0 (weak_ref_cnt blk) true (kind blk)).
  set (m2 := set_heap (<[b := marked]> (heap m)) m).
  assert (Destroy b (set_heap (<[b := (DecStrongRef blk).2]> (heap m)) m)
          = Ret tt (mkMemory (<[b := mkBlock 0 (weak_ref_cnt blk - d) true (kind blk)]> (heap m))
                      (match GetRawPtr blk with
                       | Some p => delete p (objects m) | None => objects m end)
                      (option_list (GetRawPtr blk) ++ dtor_log m)
                      (next_block m) (next_addr m))) as HD.
  { unfold Destroy.
    erewrite bind_Ret by (unfold load; simpl; by rewrite lookup_insert_eq). cbv beta.
    cbn [DecStrongRef snd is_destroyed]. rewrite Hd. cbn [negb].
    erewrite bind_Ret by (unfold store; simpl; by rewrite lookup_insert_eq). cbv beta.
    cbn [weak_ref_cnt kind set_heap heap objects dtor_log next_block next_addr].
    rewrite insert_insert_eq. fold marked.
    assert (∀ p, GetRawPtr blk = Some p →
              destroy_object p (mkMemory (<[b:=marked]> (heap m)) (objects m) (dtor_log m)
                                  (next_block m) (next_addr m))
              = Ret tt (mkMemory
                          (<[b := mkBlock 0 (weak_ref_cnt blk - d) true (kind blk)]> (heap m))
                          (delete p (objects m)) (p :: dtor_log m)
                          (next_block m) (next_addr m))) as Hdes.
    { intros p Hp. rewrite Hp in Hobj. destruct Hobj as (o & Ho & Hwt).
      destruct (weak_this_ o) as [wt|] eqn:Ewt.
      - destruct Hwt as (Hcb & Hfl & ->).
        erewrite (destroy_object_self_aware p o wt b marked); [|done..|simpl; by rewrite lookup_insert_eq].
        simpl. rewrite insert_insert_eq. rewrite wrap_small by lia. reflexivity.
      - subst d. erewrite (destroy_object_plain p o); [|done..]. simpl.
        unfold marked. by rewrite Z.sub_0_r. }
    unfold GetRawPtr in *. destruct (kind blk) as [[p|]|p] eqn:Hk.
    - rewrite (Hdes p eq_refl). reflexivity.
    - subst d. unfold ret, marked. simpl. by rewrite Z.sub_0_r.
    - rewrite (Hdes p eq_refl). reflexivity. }
  unfold SharedPtr_DecreaseStrongCounter. cbn [SharedPtr.control_block_].
  erewrite bind_Ret by (unfold load; by rewrite Hb). cbv beta.
  erewrite bind_Ret by (unfold store; by rewrite Hb). cbv beta.
  erewrite bind_Ret by (unfold load; simpl; by rewrite lookup_insert_eq). cbv beta.
  unfold GetStrongCounter. cbn [strong_ref_cnt]. rewrite Hone.
  change (wrap (1 - 1) =? 0) with true. cbv iota.
  simpl in HD. rewrite Hone in HD. erewrite bind_Ret by exact HD. cbv beta.
  erewrite bind_Ret by (unfold load; simpl; by rewrite lookup_insert_eq). cbv beta.
  unfold CanDeleteControlBlock, GetAllCounter. cbn [strong_ref_cnt weak_ref_cnt].
  rewrite Z.add_0_l, wrap_small by lia.
  destruct (weak_ref_cnt blk - d =? 0).
  - unfold delete_block. simpl. rewrite lookup_insert_eq. by rewrite delete_insert_eq.
  - reflexivity.
Qed.

(** A handle whose block was allocated keeps the pointer of its block in
    any heap that keeps the kinds of the blocks it keeps. *)
Lemma ptr_ok_kinds (h h' : gmap block_id ControlBlockBase) cb p :
  ptr_ok h cb p →
  (∀ b, cb = Some b → is_Some (h !! b)) →
  (∀ b blk blk', h !! b = Some blk → h' !! b = Some blk' → kind blk' = kind blk) →
  ptr_ok h' cb p.
Proof.
  intros Hok Hal Hk b blk' Hcb Hb'. destruct (Hal b Hcb) as [blk Hb].
  rewrite (Hok b blk Hcb Hb). unfold GetRawPtr. by rewrite (Hk b blk blk' Hb Hb').
Qed.

Section coherent.
Context (n : nat) (w : World).
Context (HI : Inv n w) (Hn : (n ≤ capacity)%nat) (HC : Coherent w).

(** The handles of [w] in a memory that keeps the kinds of the blocks. *)
Lemma Coherent_frame m' S' W' :
  CohMem m' →
  (∀ b blk blk', heap (mem w) !! b = Some blk → heap m' !! b = Some blk' →
                 kind blk' = kind blk) →
  (∀ h sp, S' !! h = Some sp →
           (∃ h0, strongs w !! h0 = Some sp) ∨
           ptr_ok (heap m') (SharedPtr.control_block_ sp) (SharedPtr.ptr_ sp)) →
  (∀ x wp, W' !! x = Some wp →
           (∃ x0, weaks w !! x0 = Some wp) ∨
           ptr_ok (heap m') (WeakPtr.control_block_ wp) (WeakPtr.ptr_ wp)) →
  Coherent (mkWorld m' S' W').
Proof using HI HC.
  intros Hm Hk HS HW. constructor; simpl; [done| |].
  - intros h sp Hh. destruct (HS h sp Hh) as [[h0 Hh0]|?]; [|done].
    eapply ptr_ok_kinds; [by eapply (coh_strong _ HC)| |exact Hk].
    intros b Hb. destruct (Inv_strong_block _ _ _ _ _ HI Hh0 Hb) as (blk & ? & _). eauto.
  - intros x wp Hx. destruct (HW x wp Hx) as [[x0 Hx0]|?]; [|done].
    eapply ptr_ok_kinds; [by eapply (coh_weak _ HC)| |exact Hk].
    intros b Hb. destruct (Inv_weak_block _ _ _ _ _ HI Hx0 Hb) as (blk & ? & _). eauto.
Qed.

Lemma kinds_same_insert b blk blk' :
  heap (mem w) !! b = Some blk → kind blk' = kind blk →
  ∀ b0 blk0 blk0', heap (mem w) !! b0 = Some blk0 →
    <[b := blk']> (heap (mem w)) !! b0 = Some blk0' → kind blk0' = kind blk0.
Proof.
  intros Hb Hk b0 blk0 blk0' H0. destruct (decide (b0 = b)) as [->|Hne].
  - rewrite lookup_insert_eq. intros [= <-]. congruence.
  - rewrite lookup_insert_ne by done. congruence.
Qed.

(** One more strong handle on [b], in the variable [h]. *)
Lemma Coherent_acquire_strong h b p blk :
  heap (mem w) !! b = Some blk → p = GetRawPtr blk →
  Coherent (mkWorld (set_heap (<[b := (IncStrongRef blk).2]> (heap (mem w))) (mem w))
                    (<[h := SharedPtr.mk (Some b) p]> (strongs w)) (weaks w)).
Proof using HI Hn HC.
  intros Hb Hp. destruct (Inv_weak_bound _ _ _ _ HI ltac:(lia) Hb) as (Hw0 & Hs0 & Hbd).
  apply Coherent_frame.
  - apply (CohMem_update _ b blk); [apply HC|done|done|done|].
    simpl. rewrite wrap_small by lia. lia.
  - by apply (kinds_same_insert b blk).
  - intros h0 sp. destruct (decide (h0 = h)) as [->|Hne].
    + rewrite lookup_insert_eq. intros [= <-]. right. intros b0 blk0 [= <-]. simpl.
      rewrite lookup_insert_eq. by intros [= <-].
    + rewrite lookup_insert_ne by done. eauto.
  - eauto.
Qed.

(** One more weak handle on [b], in the variable [x]. *)
Lemma Coherent_acquire_weak x b p blk :
  heap (mem w) !! b = Some blk → p = GetRawPtr blk →
  Coherent (mkWorld (set_heap (<[b := (IncWeakRef blk).2]> (heap (mem w))) (mem w))
                    (strongs w) (<[x := WeakPtr.mk (Some b) p false]> (weaks w))).
Proof using HI Hn HC.
  intros Hb Hp. destruct (Inv_weak_bound _ _ _ _ HI ltac:(lia) Hb) as (Hw0 & Hs0 & Hbd).
  apply Coherent_frame.
  - apply (CohMem_update _ b blk); [apply HC|done|done|done|].
    simpl. rewrite wrap_small by lia. lia.
  - by apply (kinds_same_insert b blk).
  - eauto.
  - intros x0 wp. destruct (decide (x0 = x)) as [->|Hne].
    + rewrite lookup_insert_eq. intros [= <-]. right. intros b0 blk0 [= <-]. simpl.
      rewrite lookup_insert_eq. by intros [= <-].
    + rewrite lookup_insert_ne by done. eauto.
Qed.

(** Handles moved between variables or replaced by null handles. *)
Lemma Coherent_stores S' W' :
  (∀ h sp, S' !! h = Some sp →
           (∃ h0, strongs w !! h0 = Some sp) ∨ SharedPtr.control_block_ sp = None) →
  (∀ x wp, W' !! x = Some wp →
           (∃ x0, weaks w !! x0 = Some wp) ∨ WeakPtr.control_block_ wp = None) →
  Coherent (mkWorld (mem w) S' W').
Proof using HI HC.
  intros HS HW. apply Coherent_frame; [apply HC|congruence| |].
  - intros h sp Hh. destruct (HS h sp Hh) as [?|Hnull]; [by left|right].
    rewrite Hnull. apply ptr_ok_None.
  - intros x wp Hx. destruct (HW x wp Hx) as [?|Hnull]; [by left|right].
    rewrite Hnull. apply ptr_ok_None.
Qed.

End coherent.

(** A strong handle that is not the last one lets go. *)
Lemma release_not_last m b q blk :
  heap m !! b = Some blk → 1 < strong_ref_cnt blk < size_t_modulus →
  SharedPtr_DecreaseStrongCounter (SharedPtr.mk (Some b) q) m
  = Ret tt (set_heap (<[b := (DecStrongRef blk).2]> (heap m)) m).
Proof.
  intros Hb Hs. unfold SharedPtr_DecreaseStrongCounter. cbn [SharedPtr.control_block_].
  erewrite bind_Ret by (unfold load; by rewrite Hb). cbv beta.
  erewrite bind_Ret by (unfold store; by rewrite Hb). cbv beta.
  erewrite bind_Ret by (unfold load; simpl; by rewrite lookup_insert_eq). cbv beta.
  unfold GetStrongCounter. cbn [strong_ref_cnt]. rewrite wrap_small by lia.
  destruct (Z.eqb_spec (strong_ref_cnt blk - 1) 0); [lia|]. unfold ret, set_heap. simpl.
  by rewrite wrap_small by lia.
Qed.

Section release.
Context (n : nat) (w : World).
Context (HI : Inv n w) (Hn : (n ≤ capacity)%nat) (HC : Coherent w).

(** The embedded handle of the object a live block manages is wired to
    that block, with the flag. *)
Lemma member_of_owner b blk p o wt :
  heap (mem w) !! b = Some blk → is_destroyed blk = false → GetRawPtr blk = Some p →
  objects (mem w) !! p = Some o → weak_this_ o = Some wt →
  WeakPtr.control_block_ wt = Some b ∧ WeakPtr.ptr_ wt = Some p ∧
  WeakPtr.is_esft_ptr_ wt = true ∧ 1 ≤ weak_ref_cnt blk.
Proof using HI Hn HC.
  intros Hb Hd Hp Ho Hwt.
  destruct (cm_member _ (coh_mem _ HC) p o wt Ho Hwt) as (b' & blk' & Hcb & Hptr & Hb' & Hp').
  assert (is_destroyed blk' = false) as Hd'.
  { destruct (is_destroyed blk') eqn:E; [|done].
    by rewrite (cm_dead _ (coh_mem _ HC) b' blk' p Hb' E Hp') in Ho. }
  assert (b' = b) as -> by (eapply (inv_managed_inj _ (inv_mem _ _ HI)); eauto).
  split_and!; [done|done| |].
  - apply (inv_member_flags _ (inv_mem _ _ HI) p o wt Ho Hwt). eauto.
  - assert (Object_block o = Some b) as Hob by (unfold Object_block; by rewrite Hwt).
    destruct (Inv_member_block _ _ _ _ _ HI Ho Hob) as (blk0 & Hb0 & Hpos & Hw).
    rewrite Hb in Hb0. injection Hb0 as <-. lia.
Qed.

Lemma Coherent_release_strong h sp m' :
  strongs w !! h = Some sp →
  SharedPtr_DecreaseStrongCounter sp (mem w) = Ret tt m' →
  Coherent (mkWorld m' (<[h := SharedPtr.mk None None]> (strongs w)) (weaks w)).
Proof using HI Hn HC.
  intros Hh Hrel.
  assert (∀ h0 sp0, <[h := SharedPtr.mk None None]> (strongs w) !! h0 = Some sp0 →
            (∃ h1, strongs w !! h1 = Some sp0) ∨ SharedPtr.control_block_ sp0 = None) as HS.
  { intros h0 sp0. destruct (decide (h0 = h)) as [->|Hne].
    - rewrite lookup_insert_eq. intros [= <-]. by right.
    - rewrite lookup_insert_ne by done. eauto. }
  destruct sp as [[b|] q].
  2:{ unfold SharedPtr_DecreaseStrongCounter, ret in Hrel. simpl in Hrel.
      injection Hrel as <-. apply (Coherent_stores n w HI HC); eauto. }
  destruct (Inv_strong_block _ _ _ _ _ HI Hh eq_refl) as (blk & Hb & Hd & Hs & Hpos & Hw).
  destruct (Inv_weak_bound _ _ _ _ HI ltac:(lia) Hb) as (Hw0 & Hs0 & Hbd).
  destruct (decide (strong_ref_cnt blk = 1)) as [Hone|Hmany].
  - assert (∃ d, 0 ≤ d ∧ 0 ≤ weak_ref_cnt blk - d ∧
              match GetRawPtr blk with
              | None => d = 0
              | Some p =>
                  ∃ o, objects (mem w) !! p = Some o ∧
                       match weak_this_ o with
                       | None => d = 0
                       | Some wt =>
                           WeakPtr.control_block_ wt = Some b ∧
                           WeakPtr.is_esft_ptr_ wt = true ∧ d = 1
                       end
              end) as (d & Hd0 & Hwd & Hobj).
    { destruct (GetRawPtr blk) as [p|] eqn:Hp; [|exists 0; split_and!; [lia|lia|done]].
      destruct (inv_managed _ (inv_mem _ _ HI) b blk p Hb Hd Hp) as [o Ho].
      destruct (weak_this_ o) as [wt|] eqn:Hwt.
      - destruct (member_of_owner b blk p o wt Hb Hd Hp Ho Hwt) as (? & _ & ? & ?).
        exists 1. split_and!; [lia|lia|]. exists o. rewrite Hwt. done.
      - exists 0. split_and!; [lia|lia|]. exists o. by rewrite Hwt. }
    rewrite (release_last _ b q blk d Hb Hone Hd Hd0 Hwd ltac:(lia) Hobj) in Hrel.
    injection Hrel as <-.
    set (h' := if weak_ref_cnt blk - d =? 0 then delete b (heap (mem w))
               else <[b := mkBlock 0 (weak_ref_cnt blk - d) true (kind blk)]> (heap (mem w))).
    assert (∀ b0, b0 ≠ b → h' !! b0 = heap (mem w) !! b0) as Hoff.
    { intros b0 Hne. unfold h'. destruct (_ =? 0).
      - by rewrite lookup_delete_ne.
      - by rewrite lookup_insert_ne. }
    assert (∀ blk', h' !! b = Some blk' →
              kind blk' = kind blk ∧ is_destroyed blk' = true ∧
              strong_ref_cnt blk' + weak_ref_cnt blk' ≠ 0) as Hat.
    { intros blk'. unfold h'. destruct (Z.eqb_spec (weak_ref_cnt blk - d) 0).
      - by rewrite lookup_delete_eq.
      - rewrite lookup_insert_eq. intros [= <-]. simpl. split_and!; [done|done|lia]. }
    apply (Coherent_frame n w HI HC); eauto.
    + apply (CohMem_last_release (mem w) b blk h'); [apply HC|done..].
    + simpl. intros b0 blk0 blk0' H0 H0'. destruct (decide (b0 = b)) as [->|Hne].
      * destruct (Hat _ H0') as (Hk & _). congruence.
      * rewrite Hoff in H0' by done. congruence.
    + intros h0 sp0 H0. destruct (HS h0 sp0 H0) as [?|Hnull]; [by left|right].
      rewrite Hnull. apply ptr_ok_None.
  - rewrite (release_not_last _ b q blk Hb ltac:(lia)) in Hrel. injection Hrel as <-.
    apply (Coherent_frame n w HI HC); eauto.
    + apply (CohMem_update _ b blk); [apply HC|done|done|done|].
      simpl. rewrite wrap_small by lia. lia.
    + by apply (kinds_same_insert w b blk).
    + intros h0 sp0 H0. destruct (HS h0 sp0 H0) as [?|Hnull]; [by left|right].
      rewrite Hnull. apply ptr_ok_None.
Qed.

Lemma Coherent_release_weak x wp m' :
  weaks w !! x = Some wp →
  WeakPtr_DecreaseWeakCounter wp (mem w) = Ret tt m' →
  Coherent (mkWorld m' (strongs w) (<[x := WeakPtr.mk None None false]> (weaks w))).
Proof using HI Hn HC.
  intros Hx Hrel.
  assert (∀ x0 wp0, <[x := WeakPtr.mk None None false]> (weaks w) !! x0 = Some wp0 →
            (∃ x1, weaks w !! x1 = Some wp0) ∨ WeakPtr.control_block_ wp0 = None) as HW.
  { intros x0 wp0. destruct (decide (x0 = x)) as [->|Hne].
    - rewrite lookup_insert_eq. intros [= <-]. by right.
    - rewrite lookup_insert_ne by done. eauto. }
  pose proof (inv_weak_flags _ _ HI _ _ Hx) as Hfl.
  destruct wp as [[b|] q fl]; simpl in Hfl; subst fl.
  2:{ unfold WeakPtr_DecreaseWeakCounter, ret in Hrel. simpl in Hrel.
      injection Hrel as <-. apply (Coherent_stores n w HI HC); eauto. }
  destruct (Inv_weak_block _ _ _ _ _ HI Hx eq_refl) as (blk & Hb & Hpos & Hw).
  destruct (Inv_weak_bound _ _ _ _ HI ltac:(lia) Hb) as (Hw0 & Hs0 & Hbd).
  rewrite (DecreaseWeakCounter_eq (WeakPtr.mk (Some b) q false) b blk _ eq_refl Hb) in Hrel. injection Hrel as <-.
  cbn [WeakPtr.is_esft_ptr_ negb andb].
  change (mkBlock (strong_ref_cnt blk) (wrap (weak_ref_cnt blk - 1)) (is_destroyed blk) (kind blk))
    with (DecWeakRef blk).2.
  assert (GetAllCounter (DecWeakRef blk).2 = strong_ref_cnt blk + weak_ref_cnt blk - 1) as ->.
  { unfold GetAllCounter. simpl. rewrite (wrap_small (weak_ref_cnt blk - 1)) by lia.
    rewrite wrap_small by lia. lia. }
  assert (∀ x0 wp0, <[x := WeakPtr.mk None None false]> (weaks w) !! x0 = Some wp0 →
            (∃ x1, weaks w !! x1 = Some wp0) ∨
            ∀ h', ptr_ok h' (WeakPtr.control_block_ wp0) (WeakPtr.ptr_ wp0)) as HW'.
  { intros x0 wp0 H0. destruct (HW x0 wp0 H0) as [?|Hnull]; [by left|right].
    intros h'. rewrite Hnull. apply ptr_ok_None. }
  destruct (Z.eqb_spec (strong_ref_cnt blk + weak_ref_cnt blk - 1) 0) as [Hz|Hnz].
  - assert (is_destroyed blk = true) as Hd.
    { pose proof (inv_counts _ _ HI b) as Hc. rewrite Hb in Hc. destruct Hc as [_ Hc].
      destruct (is_destroyed blk); [done|]. lia. }
    apply (Coherent_frame n w HI HC); eauto.
    + by apply (CohMem_delete _ b blk); [apply HC|..].
    + simpl. intros b0 blk0 blk0' H0 [_ H0']%lookup_delete_Some. congruence.
    + intros x0 wp0 H0. destruct (HW' x0 wp0 H0) as [?|?]; [by left|by right].
  - apply (Coherent_frame n w HI HC); eauto.
    + apply (CohMem_update _ b blk); [apply HC|done|done|done|].
      simpl. rewrite wrap_small by lia. lia.
    + by apply (kinds_same_insert w b blk).
    + intros x0 wp0 H0. destruct (HW' x0 wp0 H0) as [?|?]; [by left|by right].
Qed.

End release.

(** Where the handles of a store of variables come from. *)
Ltac stores :=
  intros ? ?; rewrite ?lookup_insert_Some, ?lookup_delete_Some; naive_solver.

Section handles.
Context (n : nat) (w : World).
Context (HI : Inv n w) (Hn : (n ≤ capacity)%nat) (HC : Coherent w).

Lemma strong_handle_block h sp b :
  strongs w !! h = Some sp → SharedPtr.control_block_ sp = Some b →
  ∃ blk, heap (mem w) !! b = Some blk ∧ is_destroyed blk = false ∧
         SharedPtr.ptr_ sp = GetRawPtr blk.
Proof using HI HC.
  intros Hh Hb. destruct (Inv_strong_block _ _ _ _ _ HI Hh Hb) as (blk & Hblk & Hd & _).
  exists blk. split_and!; [done..|]. by apply (coh_strong _ HC h sp Hh b blk).
Qed.

Lemma weak_handle_block x wp b :
  weaks w !! x = Some wp → WeakPtr.control_block_ wp = Some b →
  ∃ blk, heap (mem w) !! b = Some blk ∧ WeakPtr.ptr_ wp = GetRawPtr blk.
Proof using HI HC.
  intros Hx Hb. destruct (Inv_weak_block _ _ _ _ _ HI Hx Hb) as (blk & Hblk & _).
  exists blk. split; [done|]. by apply (coh_weak _ HC x wp Hx b blk).
Qed.

Lemma member_handle_block a o wt :
  objects (mem w) !! a = Some o → weak_this_ o = Some wt →
  ∃ b blk, WeakPtr.control_block_ wt = Some b ∧ heap (mem w) !! b = Some blk ∧
           WeakPtr.ptr_ wt = GetRawPtr blk.
Proof using HC.
  intros Ho Hwt.
  destruct (cm_member _ (coh_mem _ HC) a o wt Ho Hwt) as (b & blk & ? & ? & ? & ?).
  exists b, blk. split_and!; [done..|congruence].
Qed.

(** A new strong handle on the block of an old one. *)
Lemma Coherent_new_strong h cb p sp m :
  (∀ b, cb = Some b → ∃ blk, heap (mem w) !! b = Some blk ∧ p = GetRawPtr blk) →
  (SharedPtr_IncreaseStrongCounter (SharedPtr.mk cb p) ;;; ret (SharedPtr.mk cb p)) (mem w)
  = Ret sp m →
  Coherent (mkWorld m (<[h := sp]> (strongs w)) (weaks w)).
Proof using HI Hn HC.
  intros Hcb. destruct cb as [b|].
  - destruct (Hcb b eq_refl) as (blk & Hb & Hp).
    unfold bind. rewrite (IncreaseStrongCounter_Some _ _ _ blk Hb). intros [= <- <-].
    by apply (Coherent_acquire_strong n w HI Hn HC).
  - intros [= <- <-]. apply (Coherent_stores n w HI HC); stores.
Qed.

(** A new weak handle on the block of an old one. *)
Lemma Coherent_new_weak x cb p wp m :
  (∀ b, cb = Some b → ∃ blk, heap (mem w) !! b = Some blk ∧ p = GetRawPtr blk) →
  (WeakPtr_IncreaseWeakCounter (WeakPtr.mk cb p false) ;;; ret (WeakPtr.mk cb p false)) (mem w)
  = Ret wp m →
  Coherent (mkWorld m (strongs w) (<[x := wp]> (weaks w))).
Proof using HI Hn HC.
  intros Hcb. destruct cb as [b|].
  - destruct (Hcb b eq_refl) as (blk & Hb & Hp).
    unfold bind. rewrite (IncreaseWeakCounter_Some _ _ _ _ blk Hb). intros [= <- <-].
    by apply (Coherent_acquire_weak n w HI Hn HC).
  - intros [= <- <-]. apply (Coherent_stores n w HI HC); stores.
Qed.

(** A strong handle on a block allocated just now. *)
Lemma Coherent_construct h m' blk :
  CohMem m' → heap m' = <[next_block (mem w) := blk]> (heap (mem w)) →
  Coherent (mkWorld m' (<[h := SharedPtr.mk (Some (next_block (mem w))) (GetRawPtr blk)]>
                          (strongs w)) (weaks w)).
Proof using HI HC.
  intros Hm Hheap. pose proof (InvMem_heap_next _ (inv_mem _ _ HI)) as Hfresh.
  apply (Coherent_frame n w HI HC); [done| | |by left; eauto].
  - intros b b0 b0' Hb. rewrite Hheap. destruct (decide (b = next_block (mem w))) as [->|Hne].
    + congruence.
    + rewrite lookup_insert_ne by done. congruence.
  - intros h0 sp [[<- <-]|[_ H0]]%lookup_insert_Some; [right|left; eauto].
    intros b blk0 [= <-]. simpl. rewrite Hheap, lookup_insert_eq. by intros [= <-].
Qed.

(** Letting go of a strong handle keeps both invariants. *)
Lemma release_strong_both h sp :
  strongs w !! h = Some sp →
  ∃ m', SharedPtr_DecreaseStrongCounter sp (mem w) = Ret tt m' ∧
        Inv n (mkWorld m' (<[h := SharedPtr.mk None None]> (strongs w)) (weaks w)) ∧
        Coherent (mkWorld m' (<[h := SharedPtr.mk None None]> (strongs w)) (weaks w)).
Proof using HI Hn HC.
  intros Hh.
  destruct (Inv_release_strong n w h sp (SharedPtr.mk None None) HI Hn Hh eq_refl)
    as (m' & Hm & HIm & _).
  exists m'. split_and!; [done..|]. by apply (Coherent_release_strong n w HI Hn HC h sp).
Qed.

(** Letting go of a weak handle keeps both invariants. *)
Lemma release_weak_both x wp :
  weaks w !! x = Some wp →
  ∃ m', WeakPtr_DecreaseWeakCounter wp (mem w) = Ret tt m' ∧
        WeakPtr.is_esft_ptr_ wp = false ∧
        Inv n (mkWorld m' (strongs w) (<[x := WeakPtr.mk None None false]> (weaks w))) ∧
        Coherent (mkWorld m' (strongs w) (<[x := WeakPtr.mk None None false]> (weaks w))).
Proof using HI Hn HC.
  intros Hx.
  destruct (Inv_release_weak n w x wp (WeakPtr.mk None None false) HI Hn Hx eq_refl eq_refl)
    as (m' & Hm & HIm & _).
  exists m'. split_and!; [done|by apply (inv_weak_flags _ _ HI x)|done|].
  by apply (Coherent_release_weak n w HI Hn HC x wp).
Qed.

End handles.

Lemma World_eta w : mkWorld (mem w) (strongs w) (weaks w) = w.
Proof. by destruct w. Qed.

Lemma SharedPtr_eta sp : SharedPtr.mk (SharedPtr.control_block_ sp) (SharedPtr.ptr_ sp) = sp.
Proof. by destruct sp. Qed.

Section coherent_strong.
Context (n : nat) (w w' : World).
Context (HI : Inv n w) (Hn : (n + 2 ≤ capacity)%nat) (HC : Coherent w).

Lemma coh_SDefault h : step (SDefault h) w = Some w' → Coherent w'.
Proof using HI Hn HC.
  simpl. intros [_ [(sp & m & [= <- <-] & ->)|(m & [=] & _)]]%declare_strong_Some.
  apply (Coherent_stores n w HI HC); stores.
Qed.

Lemma coh_fresh_object h k o d sp m :
  strongs w !! h = None →
  GetRawPtr (mkBlock 1 d false k) = Some (next_addr (mem w)) →
  o = mkObject None ∨
  o = mkObject (Some (WeakPtr.mk (Some (next_block (mem w))) (Some (next_addr (mem w))) true)) →
  0 ≤ d →
  sp = SharedPtr.mk (Some (next_block (mem w))) (Some (next_addr (mem w))) →
  m = mkMemory (<[next_block (mem w) := mkBlock 1 d false k]> (heap (mem w)))
               (<[next_addr (mem w) := o]> (objects (mem w))) (dtor_log (mem w))
               (Pos.succ (next_block (mem w))) (Pos.succ (next_addr (mem w))) →
  Coherent (mkWorld m (<[h := sp]> (strongs w)) (weaks w)).
Proof using HI Hn HC.
  intros Hh Hk Ho Hd -> ->. rewrite <- Hk.
  apply (Coherent_construct n w HI HC); [|done].
  apply CohMem_construct; [apply HC|apply InvMem_heap_next, HI|done..].
Qed.

Lemma wrap_cases esft k :
  ∃ o d,
    (do a <- new_object esft;
     do b <- new_block k;
     SharedPtr_from_block esft (Some b) (Some a)) (mem w)
    = Ret (SharedPtr.mk (Some (next_block (mem w))) (Some (next_addr (mem w))))
          (mkMemory (<[next_block (mem w) := mkBlock 1 d false k]> (heap (mem w)))
                    (<[next_addr (mem w) := o]> (objects (mem w))) (dtor_log (mem w))
                    (Pos.succ (next_block (mem w))) (Pos.succ (next_addr (mem w)))) ∧
    (o = mkObject None ∨
     o = mkObject (Some (WeakPtr.mk (Some (next_block (mem w)))
                           (Some (next_addr (mem w))) true))) ∧
    0 ≤ d.
Proof.
  destruct esft.
  - eexists _, 1. rewrite wrap_self_aware_object. split_and!; [done|by right|lia].
  - eexists _, 0. rewrite wrap_object. split_and!; [done|by left|lia].
Qed.

Lemma coh_SAdopt h esft : step (SAdopt h esft) w = Some w' → Coherent w'.
Proof using HI Hn HC.
  simpl. intros [Hh Hc]%declare_strong_Some.
  destruct (wrap_cases esft (DefaultBlock (Some (next_addr (mem w))))) as (o & d & Hw & Ho & Hd).
  assert ((do a <- new_object esft; SharedPtr_from_raw esft (Some a)) (mem w)
          = (do a <- new_object esft;
             do b <- new_block (DefaultBlock (Some (next_addr (mem w))));
             SharedPtr_from_block esft (Some b) (Some a)) (mem w)) as Hraw by reflexivity.
  rewrite Hraw, Hw in Hc. destruct Hc as [(sp & m & [= <- <-] & ->)|(m & [=] & _)].
  eapply (coh_fresh_object h (DefaultBlock (Some (next_addr (mem w)))) o d);
    [done|reflexivity|done|done|reflexivity|reflexivity].
Qed.

Lemma coh_SMake h esft : step (SMake h esft) w = Some w' → Coherent w'.
Proof using HI Hn HC.
  simpl. intros [Hh Hc]%declare_strong_Some.
  destruct (wrap_cases esft (InlineBlock (next_addr (mem w)))) as (o & d & Hw & Ho & Hd).
  assert (MakeShared esft (mem w)
          = (do a <- new_object esft;
             do b <- new_block (InlineBlock (next_addr (mem w)));
             SharedPtr_from_block esft (Some b) (Some a)) (mem w)) as Hmk.
  { unfold MakeShared, bind, new_object, new_block, load. simpl.
    by rewrite lookup_insert_eq. }
  rewrite Hmk, Hw in Hc. destruct Hc as [(sp & m & [= <- <-] & ->)|(m & [=] & _)].
  eapply (coh_fresh_object h (InlineBlock (next_addr (mem w))) o d);
    [done|reflexivity|done|done|reflexivity|reflexivity].
Qed.

Lemma coh_SAdoptNull h esft : step (SAdoptNull h esft) w = Some w' → Coherent w'.
Proof using HI Hn HC.
  simpl. intros [Hh Hc]%declare_strong_Some. destruct esft.
  { rewrite from_raw_null_self_aware in Hc. by destruct Hc as [(? & ? & ? & _)|(? & ? & _)]. }
  rewrite from_raw_null in Hc. destruct Hc as [(sp & m & [= <- <-] & ->)|(m & [=] & _)].
  apply (Coherent_construct n w HI HC h _ (mkBlock 1 0 false (DefaultBlock None))); [|done].
  apply CohMem_construct_null; [apply HC|apply InvMem_heap_next, HI].
Qed.

Lemma coh_SCopy h src : step (SCopy h src) w = Some w' → Coherent w'.
Proof using HI Hn HC.
  simpl. destruct (strongs w !! src) as [other|] eqn:Hsrc; simpl; [|done].
  intros [Hh [(sp & m & Hc & ->)|(m & Hc & ->)]]%declare_strong_Some.
  - eapply (Coherent_new_strong n w HI ltac:(lia) HC); [|exact Hc].
    intros b Hb. destruct (strong_handle_block n w HI HC src other b Hsrc Hb) as (blk & ? & _ & ?).
    eauto.
  - unfold SharedPtr_copy, SharedPtr_IncreaseStrongCounter, bind, load, store, ret in Hc.
    simpl in Hc. repeat case_match; simplify_eq.
Qed.

Lemma coh_SMove h src : step (SMove h src) w = Some w' → Coherent w'.
Proof using HI Hn HC.
  simpl. destruct (strongs w !! src) as [other|] eqn:Hsrc; simpl; [|done].
  destruct (strongs w !! h) eqn:Hh; [done|]. intros [= <-]. rewrite SharedPtr_eta.
  apply (Coherent_stores n w HI HC); stores.
Qed.

Lemma coh_SSwap h other : step (SSwap h other) w = Some w' → Coherent w'.
Proof using HI Hn HC.
  simpl. destruct (strongs w !! h) as [this|] eqn:Hh; simpl; [|done].
  destruct (strongs w !! other) as [that|] eqn:Ho; simpl; [|done]. intros [= <-].
  apply (Coherent_stores n w HI HC); stores.
Qed.

Lemma coh_SPromote h x : step (SPromote h x) w = Some w' → Coherent w'.
Proof using HI Hn HC.
  simpl. destruct (weaks w !! x) as [other|] eqn:Hx; simpl; [|done].
  intros [Hh Hc]%declare_strong_Some.
  destruct (WeakPtr.control_block_ other) as [b|] eqn:Hb.
  2:{ unfold SharedPtr_from_weak in Hc. simpl in Hc. rewrite Hb in Hc.
      by destruct Hc as [(? & ? & ? & _)|(? & ? & _)]. }
  destruct (weak_handle_block n w HI HC x other b Hx Hb) as (blk & Hblk & Hp).
  rewrite (from_weak_eq other b blk _ Hb Hblk) in Hc. destruct (is_destroyed blk).
  - destruct Hc as [(? & ? & [=] & _)|(m & [= <-] & ->)]. by rewrite World_eta.
  - destruct Hc as [(sp & m & Hc & ->)|(m & Hc & ->)].
    + eapply (Coherent_new_strong n w HI ltac:(lia) HC); [|exact Hc].
      intros ? [= <-]. eauto.
    + unfold bind in Hc. by rewrite (IncreaseStrongCounter_Some _ _ _ blk Hblk) in Hc.
Qed.

Lemma coh_SReset h : step (SReset h) w = Some w' → Coherent w'.
Proof using HI Hn HC.
  simpl. unfold update_strong. destruct (strongs w !! h) as [this|] eqn:Hh; [|done].
  destruct (release_strong_both n w HI ltac:(lia) HC h this Hh) as (m & Hm & _ & HCm).
  unfold SharedPtr_Reset, bind. rewrite Hm. by intros [= <-].
Qed.

Lemma coh_SDestruct h : step (SDestruct h) w = Some w' → Coherent w'.
Proof using HI Hn HC.
  simpl. destruct (strongs w !! h) as [this|] eqn:Hh; simpl; [|done].
  destruct (release_strong_both n w HI ltac:(lia) HC h this Hh) as (m & Hm & HIm & HCm).
  unfold SharedPtr_Reset, bind. rewrite Hm. intros [= <-].
  apply (Coherent_stores n _ HIm HCm); simpl; [|eauto].
  intros h0 sp [Hne H0]%lookup_delete_Some. left. exists h0. by rewrite lookup_insert_ne.
Qed.

Lemma coh_SAssign h src : step (SAssign h src) w = Some w' → Coherent w'.
Proof using HI Hn HC.
  simpl. case_decide.
  { destruct (strongs w !! h); simpl; [|done]. by intros [= <-]. }
  destruct (strongs w !! src) as [other|] eqn:Hsrc; simpl; [|done].
  unfold update_strong. destruct (strongs w !! h) as [this|] eqn:Hh; [|done].
  destruct (release_strong_both n w HI ltac:(lia) HC h this Hh) as (m & Hm & HIm & HCm).
  unfold SharedPtr_assign. unfold bind at 1. rewrite Hm.
  set (w1 := mkWorld m (<[h:=SharedPtr.mk None None]> (strongs w)) (weaks w)) in *.
  assert (strongs w1 !! src = Some other) as Hsrc1.
  { simpl. by rewrite lookup_insert_ne. }
  destruct ((SharedPtr_IncreaseStrongCounter
               (SharedPtr.mk (SharedPtr.control_block_ other) (SharedPtr.ptr_ other)) ;;;
             ret (SharedPtr.mk (SharedPtr.control_block_ other) (SharedPtr.ptr_ other))) m)
    as [sp m2|m2|] eqn:Hc; [| |done].
  - intros [= <-].
    pose proof (Coherent_new_strong n w1 HIm ltac:(lia) HCm h
                  (SharedPtr.control_block_ other) (SharedPtr.ptr_ other) sp m2) as HN.
    simpl in HN. rewrite insert_insert_eq in HN. apply HN; [|exact Hc].
    intros b Hb.
    destruct (strong_handle_block n w1 HIm HCm src other b Hsrc1 Hb) as (blk & ? & _ & ?).
    eauto.
  - unfold SharedPtr_IncreaseStrongCounter, bind, load, store, ret in Hc.
    simpl in Hc. repeat case_match; simplify_eq.
Qed.

Lemma coh_SMoveAssign h src : step (SMoveAssign h src) w = Some w' → Coherent w'.
Proof using HI Hn HC.
  simpl. case_decide.
  { destruct (strongs w !! h); simpl; [|done]. by intros [= <-]. }
  destruct (strongs w !! h) as [this|] eqn:Hh; simpl; [|done].
  destruct (strongs w !! src) as [other|] eqn:Hsrc; simpl; [|done].
  destruct (release_strong_both n w HI ltac:(lia) HC h this Hh) as (m & Hm & HIm & HCm).
  unfold SharedPtr_move_assign, SharedPtr_Reset, bind. rewrite Hm. simpl. intros [= <-].
  apply (Coherent_stores n _ HIm HCm); simpl; [|eauto].
  intros h0 sp [[<- <-]|[Hne [[<- <-]|[Hne' H0]]%lookup_insert_Some]]%lookup_insert_Some.
  - left. exists src. by rewrite lookup_insert_ne.
  - by right.
  - left. exists h0. by rewrite lookup_insert_ne.
Qed.

Lemma coh_SResetNew h esft : step (SResetNew h esft) w = Some w' → Coherent w'.
Proof using HI Hn HC.
  simpl. unfold update_strong. destruct (strongs w !! h) as [this|] eqn:Hh; [|done].
  set (g := fresh (dom (strongs w))).
  assert (strongs w !! g = None) as Hg.
  { apply not_elem_of_dom. apply is_fresh. }
  assert (g ≠ h) as Hgh by congruence.
  destruct (construct_fresh_object n w HI Hn g esft
              (DefaultBlock (Some (next_addr (mem w)))) Hg)
    as (m & Hm & HIm & Hl); [done|].
  set (tmp := SharedPtr.mk (Some (next_block (mem w))) (Some (next_addr (mem w)))) in *.
  set (w1 := mkWorld m (<[g:=tmp]> (strongs w)) (weaks w)) in *.
  assert (Coherent w1) as HC1.
  { destruct (wrap_cases esft (DefaultBlock (Some (next_addr (mem w)))))
      as (o & d & Hw & Ho & Hd).
    eapply (coh_fresh_object g (DefaultBlock (Some (next_addr (mem w)))) o d);
      [done|reflexivity|done|done|reflexivity|].
    assert ((do a <- new_object esft;
             do b <- new_block (DefaultBlock (Some (next_addr (mem w))));
             SharedPtr_from_block esft (Some b) (Some a)) (mem w) = Ret tmp m) as Hm'
      by exact Hm.
    rewrite Hw in Hm'. by injection Hm' as <-. }
  assert (strongs w1 !! h = Some this) as Hh1.
  { simpl. by rewrite lookup_insert_ne. }
  destruct (release_strong_both _ w1 HIm ltac:(lia) HC1 h this Hh1) as (m2 & Hm2 & HIm2 & HCm2).
  assert ((do a <- new_object esft; SharedPtr_Reset_raw esft this (Some a)) (mem w)
          = Ret tmp m2) as Heq.
  { erewrite bind_Ret by reflexivity. unfold SharedPtr_Reset_raw.
    erewrite bind_Ret by exact Hm.
    assert (SharedPtr_move_assign this tmp m = Ret (tmp, SharedPtr.mk None None) m2) as Hma.
    { unfold SharedPtr_move_assign, SharedPtr_Reset.
      erewrite bind_Ret; [reflexivity|]. erewrite bind_Ret by exact Hm2. reflexivity. }
    erewrite bind_Ret by exact Hma. reflexivity. }
  rewrite Heq. intros [= <-].
  apply (Coherent_stores _ _ HIm2 HCm2); simpl; [|eauto].
  intros h0 sp [[<- <-]|[Hne H0]]%lookup_insert_Some.
  - left. exists g. rewrite lookup_insert_ne by done. by rewrite lookup_insert_eq.
  - left. exists h0. rewrite lookup_insert_ne by done.
    rewrite lookup_insert_ne; [done|]. intros <-. congruence.
Qed.

End coherent_strong.

Lemma WeakPtr_eta wp :
  WeakPtr.is_esft_ptr_ wp = false →
  WeakPtr.mk (WeakPtr.control_block_ wp) (WeakPtr.ptr_ wp) false = wp.
Proof. destruct wp. simpl. by intros ->. Qed.

Section coherent_weak.
Context (n : nat) (w w' : World).
Context (HI : Inv n w) (Hn : (n + 2 ≤ capacity)%nat) (HC : Coherent w).

Lemma coh_WDefault x : step (WDefault x) w = Some w' → Coherent w'.
Proof using HI Hn HC.
  simpl. intros [_ [(sp & m & [= <- <-] & ->)|(m & [=] & _)]]%declare_weak_Some.
  apply (Coherent_stores n w HI HC); stores.
Qed.

Lemma coh_declare_weak x cb p c :
  (∀ b, cb = Some b → ∃ blk, heap (mem w) !! b = Some blk ∧ p = GetRawPtr blk) →
  c (mem w) = (WeakPtr_IncreaseWeakCounter (WeakPtr.mk cb p false) ;;;
               ret (WeakPtr.mk cb p false)) (mem w) →
  declare_weak x c w = Some w' → Coherent w'.
Proof using HI Hn HC.
  intros Hcb Hc [Hx [(wp & m & Hr & ->)|(m & Hr & ->)]]%declare_weak_Some; rewrite Hc in Hr.
  - by eapply (Coherent_new_weak n w HI ltac:(lia) HC).
  - unfold WeakPtr_IncreaseWeakCounter, bind, load, store, ret in Hr.
    simpl in Hr. repeat case_match; simplify_eq.
Qed.

Lemma coh_WCopy x src : step (WCopy x src) w = Some w' → Coherent w'.
Proof using HI Hn HC.
  simpl. destruct (weaks w !! src) as [other|] eqn:Hsrc; simpl; [|done].
  apply (coh_declare_weak x (WeakPtr.control_block_ other) (WeakPtr.ptr_ other)); [|done].
  intros b Hb. by apply (weak_handle_block n w HI HC src other b).
Qed.

Lemma coh_WFromShared x h : step (WFromShared x h) w = Some w' → Coherent w'.
Proof using HI Hn HC.
  simpl. destruct (strongs w !! h) as [other|] eqn:Hh; simpl; [|done].
  apply (coh_declare_weak x (SharedPtr.control_block_ other) (SharedPtr.ptr_ other)); [|done].
  intros b Hb. destruct (strong_handle_block n w HI HC h other b Hh Hb) as (blk & ? & _ & ?).
  eauto.
Qed.

Lemma coh_EWeakFromThis x self : step (EWeakFromThis x self) w = Some w' → Coherent w'.
Proof using HI Hn HC.
  simpl. intros Hstep.
  destruct (objects (mem w) !! self) as [o|] eqn:Ho.
  2:{ apply declare_weak_Some in Hstep as [_ Hc].
      unfold WeakFromThis, bind, load_object in Hc. rewrite Ho in Hc.
      by destruct Hc as [(? & ? & ? & _)|(? & ? & _)]. }
  destruct (weak_this_ o) as [wt|] eqn:Hwt.
  2:{ apply declare_weak_Some in Hstep as [_ Hc].
      unfold WeakFromThis, bind, load_object in Hc. rewrite Ho, Hwt in Hc.
      by destruct Hc as [(? & ? & ? & _)|(? & ? & _)]. }
  revert Hstep.
  apply (coh_declare_weak x (WeakPtr.control_block_ wt) (WeakPtr.ptr_ wt)).
  - intros b Hb.
    destruct (member_handle_block w HC self o wt Ho Hwt) as (b' & blk & Hb' & ? & ?).
    rewrite Hb in Hb'. injection Hb' as <-. eauto.
  - unfold WeakFromThis, bind at 1, load_object. by rewrite Ho, Hwt.
Qed.

Lemma coh_WMove x src : step (WMove x src) w = Some w' → Coherent w'.
Proof using HI Hn HC.
  simpl. destruct (weaks w !! src) as [other|] eqn:Hsrc; simpl; [|done].
  destruct (weaks w !! x) eqn:Hx; [done|].
  rewrite (WeakPtr_move_eq n w src other HI ltac:(lia) Hsrc).
  rewrite (WeakPtr_eta other (inv_weak_flags _ _ HI _ _ Hsrc)). intros [= <-].
  apply (Coherent_stores n w HI HC); stores.
Qed.

Lemma coh_WSwap x other : step (WSwap x other) w = Some w' → Coherent w'.
Proof using HI Hn HC.
  simpl. destruct (weaks w !! x) as [this|] eqn:Hx; simpl; [|done].
  destruct (weaks w !! other) as [that|] eqn:Ho; simpl; [|done].
  pose proof (inv_weak_flags _ _ HI _ _ Hx) as Hfx.
  pose proof (inv_weak_flags _ _ HI _ _ Ho) as Hfo.
  destruct this as [cb1 p1 f1], that as [cb2 p2 f2]. simpl in Hfx, Hfo. subst f1 f2.
  simpl. intros [= <-].
  apply (Coherent_stores n w HI HC); stores.
Qed.

Lemma coh_WReset x : step (WReset x) w = Some w' → Coherent w'.
Proof using HI Hn HC.
  simpl. unfold update_weak. destruct (weaks w !! x) as [this|] eqn:Hx; [|done].
  destruct (release_weak_both n w HI ltac:(lia) HC x this Hx) as (m & Hm & Hfl & _ & HCm).
  unfold WeakPtr_Reset, bind. rewrite Hm, Hfl. by intros [= <-].
Qed.

Lemma coh_WDestruct x : step (WDestruct x) w = Some w' → Coherent w'.
Proof using HI Hn HC.
  simpl. destruct (weaks w !! x) as [this|] eqn:Hx; simpl; [|done].
  destruct (release_weak_both n w HI ltac:(lia) HC x this Hx) as (m & Hm & Hfl & HIm & HCm).
  unfold WeakPtr_Reset, bind. rewrite Hm. intros [= <-].
  apply (Coherent_stores n _ HIm HCm); simpl; [eauto|].
  intros x0 wp [Hne H0]%lookup_delete_Some. left. exists x0. by rewrite lookup_insert_ne.
Qed.

Lemma coh_WAssign x src : step (WAssign x src) w = Some w' → Coherent w'.
Proof using HI Hn HC.
  simpl. case_decide.
  { destruct (weaks w !! x); simpl; [|done]. by intros [= <-]. }
  destruct (weaks w !! src) as [other|] eqn:Hsrc; simpl; [|done].
  unfold update_weak. destruct (weaks w !! x) as [this|] eqn:Hx; [|done].
  destruct (release_weak_both n w HI ltac:(lia) HC x this Hx) as (m & Hm & Hfl & HIm & HCm).
  unfold WeakPtr_assign, WeakPtr_Reset. unfold bind at 1. unfold bind at 1.
  rewrite Hm. unfold ret at 1. cbn [WeakPtr.is_esft_ptr_]. rewrite Hfl.
  set (w1 := mkWorld m (strongs w) (<[x:=WeakPtr.mk None None false]> (weaks w))) in *.
  assert (weaks w1 !! src = Some other) as Hsrc1.
  { simpl. by rewrite lookup_insert_ne. }
  destruct ((WeakPtr_IncreaseWeakCounter
               (WeakPtr.mk (WeakPtr.control_block_ other) (WeakPtr.ptr_ other) false) ;;;
             ret (WeakPtr.mk (WeakPtr.control_block_ other) (WeakPtr.ptr_ other) false)) m)
    as [wp m2|m2|] eqn:Hc; [| |done].
  - intros [= <-].
    pose proof (Coherent_new_weak n w1 HIm ltac:(lia) HCm x
                  (WeakPtr.control_block_ other) (WeakPtr.ptr_ other) wp m2) as HN.
    simpl in HN. rewrite insert_insert_eq in HN. apply HN; [|exact Hc].
    intros b Hb. by apply (weak_handle_block n w1 HIm HCm src other b).
  - unfold WeakPtr_IncreaseWeakCounter, bind, load, store, ret in Hc.
    simpl in Hc. repeat case_match; simplify_eq.
Qed.

Lemma coh_WMoveAssign x src : step (WMoveAssign x src) w = Some w' → Coherent w'.
Proof using HI Hn HC.
  simpl. case_decide.
  { destruct (weaks w !! x); simpl; [|done]. by intros [= <-]. }
  destruct (weaks w !! x) as [this|] eqn:Hx; simpl; [|done].
  destruct (weaks w !! src) as [other|] eqn:Hsrc; simpl; [|done].
  destruct (release_weak_both n w HI ltac:(lia) HC x this Hx) as (m & Hm & Hfl & HIm & HCm).
  unfold WeakPtr_move_assign, WeakPtr_Reset, bind. rewrite Hm. simpl. rewrite Hfl.
  rewrite (WeakPtr_eta other (inv_weak_flags _ _ HI _ _ Hsrc)).
  rewrite (inv_weak_flags _ _ HI _ _ Hsrc). intros [= <-].
  apply (Coherent_stores n _ HIm HCm); simpl; [eauto|].
  intros x0 wp [[<- <-]|[Hne [[<- <-]|[Hne' H0]]%lookup_insert_Some]]%lookup_insert_Some.
  - left. exists src. by rewrite lookup_insert_ne.
  - by right.
  - left. exists x0. by rewrite lookup_insert_ne.
Qed.

Lemma coh_ESharedFromThis h self : step (ESharedFromThis h self) w = Some w' → Coherent w'.
Proof using HI Hn HC.
  simpl. intros [Hh Hc]%declare_strong_Some.
  assert (SharedFromThis self (mem w)
          = match objects (mem w) !! self with
            | Some o => match weak_this_ o with
                        | Some wt => SharedPtr_from_weak wt (mem w)
                        | None => Undefined
                        end
            | None => Undefined
            end) as Heq.
  { unfold SharedFromThis, bind, load_object.
    destruct (objects (mem w) !! self) as [o|]; [by destruct (weak_this_ o)|done]. }
  rewrite Heq in Hc. clear Heq.
  destruct (objects (mem w) !! self) as [o|] eqn:Ho.
  2:{ by destruct Hc as [(? & ? & ? & _)|(? & ? & _)]. }
  destruct (weak_this_ o) as [wt|] eqn:Hwt.
  2:{ by destruct Hc as [(? & ? & ? & _)|(? & ? & _)]. }
  destruct (member_handle_block w HC self o wt Ho Hwt) as (b & blk & Hb & Hblk & Hp).
  rewrite (from_weak_eq wt b blk _ Hb Hblk) in Hc. destruct (is_destroyed blk).
  - destruct Hc as [(? & ? & [=] & _)|(m & [= <-] & ->)]. by rewrite World_eta.
  - destruct Hc as [(sp & m & Hc & ->)|(m & Hc & ->)].
    + eapply (Coherent_new_strong n w HI ltac:(lia) HC); [|exact Hc].
      intros ? [= <-]. eauto.
    + unfold bind in Hc. by rewrite (IncreaseStrongCounter_Some _ _ _ blk Hblk) in Hc.
Qed.

Lemma coh_WLock h x esft : step (WLock h x esft) w = Some w' → Coherent w'.
Proof using HI Hn HC.
  simpl. destruct (weaks w !! x) as [this|] eqn:Hx; simpl; [|done].
  intros (Hh & Hc)%declare_strong_Some.
  assert (Coherent (mkWorld (mem w) (<[h:=SharedPtr_default]> (strongs w)) (weaks w))) as Hnull.
  { apply (Coherent_stores n w HI HC); stores. }
  destruct (WeakPtr.control_block_ this) as [b|] eqn:Hb.
  2:{ assert (WeakPtr_Lock esft this (mem w) = Ret SharedPtr_default (mem w)) as Heq.
      { unfold WeakPtr_Lock, WeakPtr_Expired. by rewrite Hb. }
      rewrite Heq in Hc.
      destruct Hc as [(sp & m' & ? & ->)|(m' & ? & ->)]; simplify_eq. exact Hnull. }
  destruct (weak_handle_block n w HI HC x this b Hx Hb) as (blk & Hblk & Hp).
  rewrite (Lock_eq esft this b blk _ Hb Hblk) in Hc.
  destruct (is_destroyed blk) eqn:Hd.
  { destruct Hc as [(sp & m' & ? & ->)|(m' & ? & ->)]; simplify_eq. exact Hnull. }
  destruct (Inv_weak_bound _ _ _ _ HI ltac:(lia) Hblk) as (Hw0 & Hs0 & Hbd).
  set (m1 := set_heap (<[b := (IncStrongRef blk).2]> (heap (mem w))) (mem w)) in *.
  assert (SharedPtr_from_block esft (Some b) (WeakPtr.ptr_ this) (mem w)
          = ((if esft then SharedPtr_InitWeakThis (SharedPtr.mk (Some b) (WeakPtr.ptr_ this)) (WeakPtr.ptr_ this) else ret tt) ;;;
             ret (SharedPtr.mk (Some b) (WeakPtr.ptr_ this))) m1) as Hfb.
  { unfold SharedPtr_from_block. unfold bind at 1.
    by rewrite (IncreaseStrongCounter_Some _ _ _ blk Hblk). }
  rewrite Hfb in Hc.
  assert (Coherent (mkWorld m1 (<[h := (SharedPtr.mk (Some b) (WeakPtr.ptr_ this))]> (strongs w)) (weaks w))) as HC1.
  { by apply (Coherent_acquire_strong n w HI ltac:(lia) HC). }
  destruct esft.
  2:{ destruct Hc as [(sp & m' & [= <- <-] & ->)|(m' & [=] & _)]. exact HC1. }
  assert (Inv (S n) (mkWorld m1 (<[h := (SharedPtr.mk (Some b) (WeakPtr.ptr_ this))]> (strongs w)) (weaks w))) as HI1.
  { apply Inv_acquire_strong; [done|lia|done|done|]. rewrite Hh. apply vacant_strong_None. }
  destruct (WeakPtr.ptr_ this) as [a|] eqn:Hptr.
  2:{ by destruct Hc as [(? & ? & ? & _)|(? & ? & _)]. }
  destruct (inv_managed _ (inv_mem _ _ HI) b blk a Hblk Hd (eq_sym Hp)) as [o Ho].
  destruct (weak_this_ o) as [wt|] eqn:Hwt.
  2:{ assert (SharedPtr_InitWeakThis (SharedPtr.mk (Some b) (Some a)) (Some a) m1 = Undefined) as Hu.
      { unfold SharedPtr_InitWeakThis, bind, load_object. simpl. by rewrite Ho, Hwt. }
      assert ((SharedPtr_InitWeakThis (SharedPtr.mk (Some b) (Some a)) (Some a) ;;; ret (SharedPtr.mk (Some b) (Some a))) m1 = Undefined) as Hu'.
      { unfold bind at 1. by rewrite Hu. }
      rewrite Hu' in Hc. by destruct Hc as [(? & ? & ? & _)|(? & ? & _)]. }
  destruct (member_of_owner n w HI ltac:(lia) HC b blk a o wt Hblk Hd (eq_sym Hp) Ho Hwt)
    as (Hwb & _ & Hwf & Hw1).
  assert (heap m1 !! b = Some (IncStrongRef blk).2) as Hb1.
  { simpl. by rewrite lookup_insert_eq. }
  assert ((SharedPtr_InitWeakThis (SharedPtr.mk (Some b) (Some a)) (Some a) ;;; ret (SharedPtr.mk (Some b) (Some a))) m1
          = Ret (SharedPtr.mk (Some b) (Some a)) (mkMemory (heap m1)
                       (<[a := mkObject (Some (WeakPtr.mk (Some b) (Some a) true))]>
                          (objects m1))
                       (dtor_log m1) (next_block m1) (next_addr m1))) as Hwire.
  { unfold bind at 1.
    by rewrite (InitWeakThis_wired m1 b (Some a) a o wt _ Hb1 Ho Hwt Hwb Hwf)
      by (simpl; lia). }
  rewrite Hwire in Hc.
  destruct Hc as [(sp & m' & [= <- <-] & ->)|(m' & [=] & _)].
  apply (Coherent_frame (S n) _ HI1 HC1); simpl; [|congruence|by left; eauto..].
  by apply (CohMem_rewire m1 a o b (IncStrongRef blk).2 true); [apply HC1|..].
Qed.

End coherent_weak.

Lemma refs_pos_inv {A} (f : A → option block_id) b (m : gmap positive A) :
  (1 ≤ refs f b m)%nat → ∃ k v, m !! k = Some v ∧ f v = Some b.
Proof.
  unfold refs. intros Hpos.
  destruct (map_size_ne_0_lookup_1 (filter (λ kv : positive * A, f kv.2 = Some b) m))
    as (k & v & Hkv); [lia|].
  apply map_lookup_filter_Some in Hkv as [Hk Hv]. eauto.
Qed.

Lemma step_coherent n w w' op :
  Inv n w → (n + 2 ≤ capacity)%nat → Coherent w →
  alias_free [op] = true → step op w = Some w' → Coherent w'.
Proof.
  intros HI Hn HC Hop.
  destruct op as [h|h e|h e|h e|h src|h src|h src p|h x|h src|h src|h|h e|h o|h
                 |x|x src|x src|x h|x src|x src|x|x o|x|h x e|h a|x a];
    try discriminate Hop.
  - exact (coh_SDefault n w w' HI Hn HC h).
  - exact (coh_SAdopt n w w' HI Hn HC h e).
  - exact (coh_SAdoptNull n w w' HI Hn HC h e).
  - exact (coh_SMake n w w' HI Hn HC h e).
  - exact (coh_SCopy n w w' HI Hn HC h src).
  - exact (coh_SMove n w w' HI Hn HC h src).
  - exact (coh_SPromote n w w' HI Hn HC h x).
  - exact (coh_SAssign n w w' HI Hn HC h src).
  - exact (coh_SMoveAssign n w w' HI Hn HC h src).
  - exact (coh_SReset n w w' HI Hn HC h).
  - exact (coh_SResetNew n w w' HI Hn HC h e).
  - exact (coh_SSwap n w w' HI Hn HC h o).
  - exact (coh_SDestruct n w w' HI Hn HC h).
  - exact (coh_WDefault n w w' HI Hn HC x).
  - exact (coh_WCopy n w w' HI Hn HC x src).
  - exact (coh_WMove n w w' HI Hn HC x src).
  - exact (coh_WFromShared n w w' HI Hn HC x h).
  - exact (coh_WAssign n w w' HI Hn HC x src).
  - exact (coh_WMoveAssign n w w' HI Hn HC x src).
  - exact (coh_WReset n w w' HI Hn HC x).
  - exact (coh_WSwap n w w' HI Hn HC x o).
  - exact (coh_WDestruct n w w' HI Hn HC x).
  - exact (coh_WLock n w w' HI Hn HC h x e).
  - exact (coh_ESharedFromThis n w w' HI Hn HC h a).
  - exact (coh_EWeakFromThis n w w' HI Hn HC x a).
Qed.

Lemma Coherent_init : Coherent init.
Proof.
  constructor; [constructor|..]; simpl; try done.
  - intros a [? H]. by rewrite lookup_empty in H.
  - intros a Ha. lia.
Qed.

Lemma run_coherent ops : ∀ n w w',
  Inv n w → (n + 2 * length ops ≤ capacity)%nat → Coherent w →
  alias_free ops = true → run ops w = Some w' → Coherent w'.
Proof.
  induction ops as [|op ops IH]; intros n w w' HI Hn HC Hfree; simpl.
  - by intros [= <-].
  - destruct (step op w) as [w1|] eqn:Hstep; [|done]. intros Hrun.
    simpl in Hn. unfold alias_free in Hfree. simpl in Hfree.
    apply andb_true_iff in Hfree as [Hop Hrest].
    destruct (step_good n w w1 op HI ltac:(lia) Hstep) as [HI1 _].
    apply (IH (n + 2)%nat w1 w' HI1); [lia| |done|done].
    apply (step_coherent n w w1 op HI); [lia|done| |done].
    unfold alias_free. simpl. by rewrite Hop.
Qed.

Lemma feasible_Coherent ops w :
  feasible ops → alias_free ops = true → run ops init = Some w → Coherent w.
Proof.
  intros Hf Hfree Hrun.
  exact (run_coherent ops 0 init w Inv_init Hf Coherent_init Hfree Hrun).
Qed.

(** Every allocated block is held by a variable. *)
Lemma block_is_held n w b blk :
  Inv n w → Coherent w → heap (mem w) !! b = Some blk →
  (∃ h sp, strongs w !! h = Some sp ∧ SharedPtr.control_block_ sp = Some b) ∨
  (∃ x wp, weaks w !! x = Some wp ∧ WeakPtr.control_block_ wp = Some b).
Proof.
  intros HI HC Hb.
  pose proof (cm_zero _ (coh_mem _ HC) b blk Hb) as Hz.
  pose proof (inv_counts _ _ HI b) as Hc. rewrite Hb in Hc. simpl in Hc.
  destruct Hc as [Hw Hs].
  destruct (decide (1 ≤ refs SharedPtr.control_block_ b (strongs w))%nat) as [H1|H1].
  { left. by apply refs_pos_inv. }
  destruct (decide (1 ≤ refs WeakPtr.control_block_ b (weaks w))%nat) as [H2|H2].
  { right. by apply refs_pos_inv. }
  exfalso.
  assert (1 ≤ refs Object_block b (objects (mem w)))%nat as H3.
  { destruct (is_destroyed blk); lia. }
  apply refs_pos_inv in H3 as (a & o & Ho & Hob).
  unfold Object_block in Hob. destruct (weak_this_ o) as [wt|] eqn:Hwt; [|done].
  destruct (cm_member _ (coh_mem _ HC) a o wt Ho Hwt) as (b' & blk' & Hb' & _ & Hblk' & Hr).
  assert (b' = b) as -> by congruence. rewrite Hb in Hblk'. injection Hblk' as <-.
  destruct (is_destroyed blk) eqn:Hd.
  - by rewrite (cm_dead _ (coh_mem _ HC) b blk a Hb Hd Hr) in Ho.
  - lia.
Qed.

(** Every live object is the pointee of a strong variable. *)
Lemma object_is_held n w a :
  Inv n w → Coherent w → is_Some (objects (mem w) !! a) →
  ∃ h sp, strongs w !! h = Some sp ∧ SharedPtr_Get sp = Some a.
Proof.
  intros HI HC Ha.
  destruct (cm_owned _ (coh_mem _ HC) a Ha) as (b & blk & Hb & Hd & Hr).
  pose proof (inv_counts _ _ HI b) as Hc. rewrite Hb in Hc. simpl in Hc.
  rewrite Hd in Hc. destruct Hc as (_ & _ & Hpos).
  apply refs_pos_inv in Hpos as (h & sp & Hh & Hsp).
  exists h, sp. split; [done|]. unfold SharedPtr_Get.
  rewrite (coh_strong _ HC h sp Hh b blk Hsp Hb). done.
Qed.



(** With the aliasing constructor the conclusion fails: [Lock] on a weak
    handle that carries a foreign pointer re-wires that object's
    [weak_this_] to the handle's block, and the flagged release in the
    object's destructor then leaves the block allocated with both counters
    at zero. *)
Lemma aliasing_then_lock_leaks_block :
  ∃ w, run [SMake 1 true; SMake 2 true; SAlias 3 1 (Some 2); WFromShared 1 3; WLock 4 1 true;
            WDestruct 1; SDestruct 3; SDestruct 4; SDestruct 1; SDestruct 2]%positive init
       = Some w ∧
       strongs w = ∅ ∧ weaks w = ∅ ∧ objects (mem w) = ∅ ∧
       heap (mem w) !! 1%positive = Some (mkBlock 0 0 true (InlineBlock 1%positive)).
Proof. eexists. split; [vm_compute; reflexivity|]. by vm_compute. Qed.
